(** * LiquidGlass: a shallow embedding of [src/index.js]

    The class [LiquidGlass] of [src/index.js] decorates a DOM element with
    CSS custom properties and an SVG displacement filter, optionally lets
    the element be dragged, and undoes all of it in [destroy].

    The development has three layers.
    - [JS]: the pieces of the language the class relies on: numbers
      (binary64, so Rocq's primitive floats), their conversion to strings
      and to booleans, and the regular expression used by [updateTint].
    - [DOM]: the host document as a forest of nodes with inline styles,
      attributes, class lists and listener tables, with the handful of DOM
      calls the class makes.
    - [LiquidGlass]: the constructor and the methods, written in a small
      state-and-exception monad over the document, transcribed statement
      by statement from the source. *)

From Stdlib Require Import ZArith String Ascii List Bool Lia.
From Stdlib Require Import PrimFloat FloatOps SpecFloat DecimalString.
From Stdlib Require Import FloatAxioms.
From stdpp Require Import base option list gmap strings.

Set Warnings "-inexact-float".

(* ===================================================================== *)
(** * JavaScript values                                                   *)
(* ===================================================================== *)

Module JS.

Local Open Scope Z_scope.

(** ** Numbers

    A JavaScript number is an IEEE-754 binary64 value; [float] is the same
    type, with the same rounding for [+] and [-]. *)

Abbreviation number := float (only parsing).

(** [ToBoolean] on a number: [0], [-0] and [NaN] are falsy. *)
Definition truthy_number (x : number) : bool :=
  negb (PrimFloat.is_zero x || PrimFloat.is_nan x).

(** [ToBoolean] on a string: only the empty string is falsy. *)
Definition truthy_string (s : string) : bool :=
  match s with EmptyString => false | String _ _ => true end.

(** *** Number::toString (radix 10)

    The finite positive value is [m * 2^e] with [m] the integer
    significand.  Every decimal [s * 10^q] that rounds back to the value
    lies in its rounding interval, whose end points are half-way to the
    two neighbouring floats; they belong to the interval when [m] is even.
    All quantities below are scaled by [4] so that the end points are
    integers: value [4m], upper end [4m+2], lower end [4m-2], or [4m-1]
    when the value is the smallest of its binade. *)

Section Shortest.
Variables (m e : Z).

Definition lower_gap : Z :=
  if (m =? 2 ^ 52) && (-1074 <? e) then 1 else 2.

(** The multiple of [10^q] nearest to the value inside the rounding
    interval, if there is one. *)
Definition candidate (q : Z) : option Z :=
  let scale := 2 ^ Z.max 0 (e - 2) * 10 ^ Z.max 0 (- q) in
  let step := 10 ^ Z.max 0 q * 2 ^ Z.max 0 (2 - e) in
  let v := 4 * m * scale in
  let lo := (4 * m - lower_gap) * scale in
  let hi := (4 * m + 2) * scale in
  let smin := if Z.even m then (lo + step - 1) / step else lo / step + 1 in
  let smax := if Z.even m then hi / step else (hi - 1) / step in
  if smin <=? smax then
    let d := v / step in
    let r := v mod step in
    let near :=
      if 2 * r <? step then d
      else if step <? 2 * r then d + 1
      else if Z.even d then d else d + 1 in
    Some (Z.max smin (Z.min smax near))
  else None.

(** The largest decimal exponent [q] with a candidate gives the fewest
    digits.  The search starts at [first_exponent], which is above
    [log10 (2^(e+54))] and so above every candidate, and goes down. *)
Definition first_exponent : Z := (e + 54) * 30103 / 100000 + 1.

Fixpoint shortest (fuel : nat) (q : Z) : option (Z * Z) :=
  match fuel with
  | O => None
  | S fuel' =>
      match candidate q with
      | Some s => Some (s, q)
      | None => shortest fuel' (q - 1)
      end
  end.
End Shortest.

Definition digits_of (s : Z) : string :=
  NilZero.string_of_uint (N.to_uint (Z.to_N s)).

Fixpoint zeros (n : nat) : string :=
  match n with O => EmptyString | S n' => String "0" (zeros n') end.

(** Steps 6-10 of Number::toString: lay the digits [s] out for the
    decimal point position [n]. *)
Definition layout (s n : Z) : string :=
  let ds := digits_of s in
  let k := Z.of_nat (String.length ds) in
  if (k <=? n) && (n <=? 21) then
    ds +:+ zeros (Z.to_nat (n - k))
  else if (0 <? n) && (n <=? 21) then
    substring 0 (Z.to_nat n) ds +:+ "." +:+
    substring (Z.to_nat n) (Z.to_nat (k - n)) ds
  else if (-6 <? n) && (n <=? 0) then
    "0." +:+ zeros (Z.to_nat (- n)) +:+ ds
  else
    let x := n - 1 in
    let sign := if x <? 0 then "-" else "+" in
    let mant :=
      if k =? 1 then ds
      else substring 0 1 ds +:+ "." +:+ substring 1 (Z.to_nat (k - 1)) ds in
    mant +:+ "e" +:+ sign +:+ digits_of (Z.abs x).

Definition to_string (x : number) : string :=
  match Prim2SF x with
  | S754_nan => "NaN"
  | S754_zero _ => "0"
  | S754_infinity sgn => if sgn then "-Infinity" else "Infinity"
  | S754_finite sgn m e =>
      match shortest (Z.pos m) e 64 (first_exponent e) with
      | Some (s, q) =>
          (if sgn then "-" else "") +:+
          layout s (Z.of_nat (String.length (digits_of s)) + q)
      | None => "NaN"
      end
  end.

(** [undefined - x], [undefined + x]: [ToNumber undefined] is [NaN]. *)
Definition to_number (v : option number) : number :=
  match v with Some x => x | None => PrimFloat.nan end.

(** ** Strings

    A string is a sequence of code units; the model keeps the code units
    below 256, which is what [string] holds.  [substr start length] on
    non-negative arguments is [substring]. *)

Definition substr (start len : nat) (s : string) : string :=
  substring start len s.

(** ** Regular expressions

    The fragment needed for [/rgba?\((\d+),\s*(\d+),\s*(\d+)/]: literal
    characters, greedy [?], greedy [*] and [+] on a character class,
    sequencing and capturing groups.  Matching is by backtracking with a
    continuation, as [RegExp.prototype.exec] specifies it. *)

Inductive regex :=
| Chr (c : ascii)
| Opt (r : regex)
| Star (cls : ascii -> bool)
| Plus (cls : ascii -> bool)
| Seq (r1 r2 : regex)
| Group (r : regex).

(** [\d] is [0-9]; [\s] is the white space of the language (below code
    unit 256: tab, line feed, vertical tab, form feed, carriage return,
    space and no-break space). *)
Definition digit (c : ascii) : bool :=
  let n := nat_of_ascii c in (48 <=? n)%nat && (n <=? 57)%nat.

Definition space (c : ascii) : bool :=
  let n := nat_of_ascii c in
  ((9 <=? n)%nat && (n <=? 13)%nat) || (n =? 32)%nat || (n =? 160)%nat.

Section Matcher.
Context {R : Type}.

(** Greedy repetition of a class: take one more character if that
    leads to a match, otherwise stop here. *)
Fixpoint star (cls : ascii -> bool) (s : string)
         (k : string -> option R) : option R :=
  match s with
  | String c s' =>
      if cls c then
        match star cls s' k with
        | Some r => Some r
        | None => k s
        end
      else k s
  | EmptyString => k s
  end.

(** [consumed s s'] is what was read between [s] and its suffix [s']. *)
Definition consumed (s s' : string) : string :=
  substring 0 (String.length s - String.length s') s.

Fixpoint rmatch (r : regex) (s : string) (caps : list string)
         (k : string -> list string -> option R) : option R :=
  match r with
  | Chr c =>
      match s with
      | String c' s' => if Ascii.eqb c c' then k s' caps else None
      | EmptyString => None
      end
  | Opt r' =>
      match rmatch r' s caps k with
      | Some x => Some x
      | None => k s caps
      end
  | Star cls => star cls s (fun s' => k s' caps)
  | Plus cls =>
      match s with
      | String c s' =>
          if cls c then star cls s' (fun s'' => k s'' caps) else None
      | EmptyString => None
      end
  | Seq r1 r2 => rmatch r1 s caps (fun s' caps' => rmatch r2 s' caps' k)
  | Group r' =>
      rmatch r' s caps (fun s' caps' => k s' (caps' ++ [consumed s s']))
  end.
End Matcher.

(** [s.match(r)] for a regular expression without the [g] flag: the
    captures of the leftmost match, [None] for JavaScript's [null]. *)
Fixpoint exec (r : regex) (s : string) : option (list string) :=
  match rmatch r s [] (fun _ caps => Some caps) with
  | Some caps => Some caps
  | None =>
      match s with
      | String _ s' => exec r s'
      | EmptyString => None
      end
  end.

Fixpoint lit (s : string) : regex -> regex :=
  match s with
  | EmptyString => fun k => k
  | String c s' => fun k => Seq (Chr c) (lit s' k)
  end.

End JS.

(* ===================================================================== *)
(** * Data model                                                          *)
(* ===================================================================== *)

Definition node_id := nat.
Definition obj_id := nat.

(** The three closures [makeDraggable] registers as listeners; each
    belongs to the instance that created it. *)
Inductive callback :=
| OnMouseDown (this : obj_id)
| OnMouseMove (this : obj_id)
| OnMouseUp (this : obj_id).

Global Instance callback_eq_dec : EqDecision callback.
Proof. solve_decision. Defined.

(** ** The document

    What the class reads and writes of an element: its tag, attributes,
    inline style declarations, class list and listeners, and the box the
    host's layout last computed for it ([getBoundingClientRect]).

    [style] and [classList] are the two objects the class works
    through; [attributes] holds the other content attributes, those
    [setAttribute] writes.  The content attributes [style] and [class],
    in which the host serialises the two objects (and which it leaves
    behind as empty text once they are empty), are not part of
    [attributes]: no statement below is about them. *)
Record node := Node {
  namespaceURI : string;
  tagName : string;
  attributes : gmap string string;
  style : gmap string string;
  classList : list string;
  listeners : list (string * callback);
  rect_left : JS.number;
  rect_top : JS.number;
}.

Definition set_attributes (f : gmap string string -> gmap string string)
    (d : node) : node :=
  Node (namespaceURI d) (tagName d) (f (attributes d)) (style d)
       (classList d) (listeners d) (rect_left d) (rect_top d).

Definition set_style (f : gmap string string -> gmap string string)
    (d : node) : node :=
  Node (namespaceURI d) (tagName d) (attributes d) (f (style d))
       (classList d) (listeners d) (rect_left d) (rect_top d).

Definition set_classList (f : list string -> list string) (d : node) : node :=
  Node (namespaceURI d) (tagName d) (attributes d) (style d)
       (f (classList d)) (listeners d) (rect_left d) (rect_top d).

Definition set_listeners
    (f : list (string * callback) -> list (string * callback))
    (d : node) : node :=
  Node (namespaceURI d) (tagName d) (attributes d) (style d)
       (classList d) (f (listeners d)) (rect_left d) (rect_top d).

Definition set_rect (l t : JS.number) (d : node) : node :=
  Node (namespaceURI d) (tagName d) (attributes d) (style d)
       (classList d) (listeners d) l t.

(** A forest in first-child / next-sibling form: [FCons i d children
    siblings].  Reading it node, children, siblings is document order. *)
Inductive forest :=
| FNil
| FCons (i : node_id) (d : node) (children siblings : forest).

(** ** Configuration

    [LiquidGlassOptions] of the type declarations: every field optional
    ([None] is a missing property). *)
Record LiquidGlassOptions := {
  opt_shadowOffset : option string;
  opt_shadowBlur : option string;
  opt_shadowSpread : option string;
  opt_shadowColor : option string;
  opt_tintColor : option string;
  opt_tintOpacity : option JS.number;
  opt_frostBlur : option string;
  opt_noiseFrequency : option JS.number;
  opt_distortionStrength : option JS.number;
  opt_outerShadowBlur : option string;
  opt_outerShadowColor : option string;
  opt_borderRadius : option string;
  opt_draggable : option bool;
}.

(** [this.options]: [Required<LiquidGlassOptions>]. *)
Record config := Config {
  shadowOffset : string;
  shadowBlur : string;
  shadowSpread : string;
  shadowColor : string;
  tintColor : string;
  tintOpacity : JS.number;
  frostBlur : string;
  noiseFrequency : JS.number;
  distortionStrength : JS.number;
  outerShadowBlur : string;
  outerShadowColor : string;
  borderRadius : string;
  draggable : bool;
}.

(** The variables closed over by the listeners of [makeDraggable];
    [None] is [undefined]. *)
Record drag_state := DragState {
  isDragging : bool;
  startX : option JS.number;
  startY : option JS.number;
  initialX : option JS.number;
  initialY : option JS.number;
}.

(** A [LiquidGlass] object.  [svgFilter] is [None] until
    [createSVGFilter] has run; [cleanup] tells whether [this.cleanup] is
    defined. *)
Record instance := Instance {
  element : node_id;
  options : config;
  svgFilterId : string;
  svgFilter : option node_id;
  cleanup : bool;
  drag : drag_state;
}.

Definition set_options (f : config -> config) (x : instance) : instance :=
  Instance (element x) (f (options x)) (svgFilterId x) (svgFilter x)
           (cleanup x) (drag x).

Definition set_svgFilter (n : node_id) (x : instance) : instance :=
  Instance (element x) (options x) (svgFilterId x) (Some n)
           (cleanup x) (drag x).

Definition set_cleanup (x : instance) : instance :=
  Instance (element x) (options x) (svgFilterId x) (svgFilter x)
           true (drag x).

Definition set_drag (f : drag_state -> drag_state) (x : instance) : instance :=
  Instance (element x) (options x) (svgFilterId x) (svgFilter x)
           (cleanup x) (f (drag x)).

(** ** The world

    The document tree, the subtrees that are not (or no longer) in it,
    which element is [document.body], the listeners registered on
    [document], and the [LiquidGlass] objects alive. *)
Record world := World {
  document : forest;
  detached : forest;
  body : node_id;
  next_id : node_id;
  doc_listeners : list (string * callback);
  objects : gmap obj_id instance;
  next_obj : obj_id;
}.

Definition set_forests (doc det : forest) (w : world) : world :=
  World doc det (body w) (next_id w) (doc_listeners w) (objects w)
        (next_obj w).

Definition set_doc_listeners
    (f : list (string * callback) -> list (string * callback))
    (w : world) : world :=
  World (document w) (detached w) (body w) (next_id w)
        (f (doc_listeners w)) (objects w) (next_obj w).

Definition set_objects
    (f : gmap obj_id instance -> gmap obj_id instance) (w : world) : world :=
  World (document w) (detached w) (body w) (next_id w) (doc_listeners w)
        (f (objects w)) (next_obj w).

(** ** Exceptions and the monad of a method body *)

Inductive exn :=
| Error (message : string)
| TypeError
| HierarchyRequestError
| NotFoundError.

Inductive outcome (A : Type) :=
| Ok (a : A) (w : world)
| Throw (e : exn) (w : world).
Arguments Ok {A} a w.
Arguments Throw {A} e w.

Definition M (A : Type) : Type := world -> outcome A.

Definition ret {A} (a : A) : M A := fun w => Ok a w.

Definition bind {A B} (c : M A) (k : A -> M B) : M B :=
  fun w =>
    match c w with
    | Ok a w' => k a w'
    | Throw e w' => Throw e w'
    end.

Definition throw {A} (e : exn) : M A := fun w => Throw e w.

Definition final {A} (r : outcome A) : world :=
  match r with Ok _ w => w | Throw _ w => w end.

Declare Scope js_scope.
Delimit Scope js_scope with js.
Notation "'let*' x := c 'in' k" := (bind c (fun x => k))
  (at level 10, x name, c at level 100, k at level 200) : js_scope.
Notation "c ;;; k" := (bind c (fun _ => k))
  (at level 100, k at level 200, right associativity) : js_scope.
Local Open Scope js_scope.

(* ===================================================================== *)
(** * The DOM calls the class makes                                       *)
(* ===================================================================== *)

(** ** Forests *)

(** First node, in document order, whose data satisfies [P]. *)
Fixpoint find_node (P : node -> bool) (f : forest) : option (node_id * node) :=
  match f with
  | FNil => None
  | FCons i d ch sib =>
      if P d then Some (i, d)
      else match find_node P ch with
           | Some x => Some x
           | None => find_node P sib
           end
  end.

(** Data and children of the node [n]. *)
Fixpoint tree_at (n : node_id) (f : forest) : option (node * forest) :=
  match f with
  | FNil => None
  | FCons i d ch sib =>
      if decide (i = n) then Some (d, ch)
      else match tree_at n ch with
           | Some x => Some x
           | None => tree_at n sib
           end
  end.

Fixpoint modify (n : node_id) (g : node -> node) (f : forest) : forest :=
  match f with
  | FNil => FNil
  | FCons i d ch sib =>
      FCons i (if decide (i = n) then g d else d)
            (modify n g ch) (modify n g sib)
  end.

(** All nodes in document order. *)
Fixpoint nodes (f : forest) : list (node_id * node) :=
  match f with
  | FNil => []
  | FCons i d ch sib => (i, d) :: nodes ch ++ nodes sib
  end.

(** The roots of a forest: the children of a node, when the forest is
    its child list. *)
Fixpoint roots (f : forest) : list node_id :=
  match f with
  | FNil => []
  | FCons i _ _ sib => i :: roots sib
  end.

(** Add the tree [(c, d, ch)] after the last root. *)
Fixpoint snoc (f : forest) (c : node_id) (d : node) (ch : forest) : forest :=
  match f with
  | FNil => FCons c d ch FNil
  | FCons i di chi sib => FCons i di chi (snoc sib c d ch)
  end.

(** Make the tree [(c, d, ch)] the last child of [p]; [None] when [p] is
    not in the forest. *)
Fixpoint attach (p : node_id) (c : node_id) (d : node) (ch : forest)
    (f : forest) : option forest :=
  match f with
  | FNil => None
  | FCons i di chi sib =>
      if decide (i = p) then Some (FCons i di (snoc chi c d ch) sib)
      else match attach p c d ch chi with
           | Some chi' => Some (FCons i di chi' sib)
           | None =>
               match attach p c d ch sib with
               | Some sib' => Some (FCons i di chi sib')
               | None => None
               end
           end
  end.

(** Cut the tree rooted at [c] out of the forest: its data, its children
    and what is left. *)
Fixpoint extract (c : node_id) (f : forest) : option (node * forest * forest) :=
  match f with
  | FNil => None
  | FCons i d ch sib =>
      if decide (i = c) then Some (d, ch, sib)
      else match extract c ch with
           | Some (dc, chc, ch') => Some (dc, chc, FCons i d ch' sib)
           | None =>
               match extract c sib with
               | Some (dc, chc, sib') => Some (dc, chc, FCons i d ch sib')
               | None => None
               end
           end
  end.

(** [parentNode]: the document itself, or an element. *)
Inductive parent :=
| TheDocument
| Element (p : node_id).

Global Instance parent_eq_dec : EqDecision parent.
Proof. solve_decision. Defined.

(** The parent of [c] in a forest whose roots have parent [up]. *)
Fixpoint parent_in (up : option parent) (c : node_id) (f : forest)
    : option (option parent) :=
  match f with
  | FNil => None
  | FCons i _ ch sib =>
      if decide (i = c) then Some up
      else match parent_in (Some (Element i)) c ch with
           | Some r => Some r
           | None => parent_in up c sib
           end
  end.

(** ** Reading the world *)

Definition lookup_tree (n : node_id) (w : world) : option (node * forest) :=
  match tree_at n (document w) with
  | Some x => Some x
  | None => tree_at n (detached w)
  end.

Definition lookup_node (n : node_id) (w : world) : option node :=
  fst <$> lookup_tree n w.

Definition all_nodes (w : world) : list (node_id * node) :=
  nodes (document w) ++ nodes (detached w).

Definition has_attribute (name value : string) (d : node) : bool :=
  bool_decide (attributes d !! name = Some value).

Definition has_tag (tag : string) (d : node) : bool :=
  bool_decide (tagName d = tag).

(** ** Node-local calls

    Every call on a reference that designates no node raises
    [TypeError]: in the source such a reference would be [undefined]. *)

Definition amend (n : node_id) (g : node -> node) (w : world) : world :=
  set_forests (modify n g (document w)) (modify n g (detached w)) w.

Definition update_node (n : node_id) (g : node -> node) : M unit :=
  fun w =>
    match lookup_node n w with
    | Some _ => Ok tt (amend n g w)
    | None => Throw TypeError w
    end.

Definition setAttribute (n : node_id) (name value : string) : M unit :=
  update_node n (set_attributes <[name := value]>).

(** [style.setProperty(p, v)] and the assignment [style.p = v]: the
    empty string removes the declaration, any other text is recorded as
    given (the host's validation of CSS values is not modelled, nor the
    [style] content attribute that serialises the declarations). *)
Definition declare (p v : string) (st : gmap string string) : gmap string string :=
  if JS.truthy_string v then <[p := v]> st else delete p st.

Definition setProperty (n : node_id) (p v : string) : M unit :=
  update_node n (set_style (declare p v)).

Definition removeProperty (n : node_id) (p : string) : M unit :=
  update_node n (set_style (delete p)).

Definition token_add {A} `{EqDecision A} (x : A) (l : list A) : list A :=
  if decide (x ∈ l) then l else l ++ [x].

Definition token_remove {A} `{EqDecision A} (x : A) (l : list A) : list A :=
  filter (fun y => y ≠ x) l.

(** [classList.add] and [classList.remove] on the token list; the
    [class] content attribute is not modelled. *)
Definition classList_add (n : node_id) (c : string) : M unit :=
  update_node n (set_classList (token_add c)).

Definition classList_remove (n : node_id) (c : string) : M unit :=
  update_node n (set_classList (token_remove c)).

Definition addEventListener (n : node_id) (type : string) (cb : callback)
    : M unit :=
  update_node n (set_listeners (token_add (type, cb))).

Definition removeEventListener (n : node_id) (type : string) (cb : callback)
    : M unit :=
  update_node n (set_listeners (token_remove (type, cb))).

Definition document_addEventListener (type : string) (cb : callback)
    : M unit :=
  fun w => Ok tt (set_doc_listeners (token_add (type, cb)) w).

Definition document_removeEventListener (type : string) (cb : callback)
    : M unit :=
  fun w => Ok tt (set_doc_listeners (token_remove (type, cb)) w).

Definition getBoundingClientRect (n : node_id) : M (JS.number * JS.number) :=
  fun w =>
    match lookup_node n w with
    | Some d => Ok (rect_left d, rect_top d) w
    | None => Throw TypeError w
    end.

(** ** Tree calls *)

(** [document.getElementById]: only the document tree is searched. *)
Definition getElementById (id : string) : M (option node_id) :=
  fun w => Ok (fst <$> find_node (has_attribute "id" id) (document w)) w.

(** [document.body]; [null] when there is no such element in the
    document. *)
Definition document_body : M (option node_id) :=
  fun w =>
    Ok (match tree_at (body w) (document w) with
        | Some _ => Some (body w)
        | None => None
        end) w.

Definition empty_node (ns tag : string) : node :=
  Node ns tag ∅ ∅ [] [] 0%float 0%float.

(** [document.createElementNS]: a new node, outside the document. *)
Definition createElementNS (ns tag : string) : M node_id :=
  fun w =>
    Ok (next_id w)
       (World (document w)
              (FCons (next_id w) (empty_node ns tag) FNil (detached w))
              (body w) (S (next_id w)) (doc_listeners w) (objects w)
              (next_obj w)).

(** [p.appendChild(c)]: [c] leaves the place it had, if any, and becomes
    the last child of [p]. *)
Definition place (p c : node_id) (d : node) (ch : forest) (doc det : forest)
    : M unit :=
  fun w =>
    match attach p c d ch doc with
    | Some doc' => Ok tt (set_forests doc' det w)
    | None =>
        match attach p c d ch det with
        | Some det' => Ok tt (set_forests doc det' w)
        | None => Throw HierarchyRequestError w
        end
    end.

Definition appendChild (p c : node_id) : M unit :=
  fun w =>
    match lookup_node p w with
    | None => Throw TypeError w
    | Some _ =>
        match extract c (document w) with
        | Some (d, ch, doc') => place p c d ch doc' (detached w) w
        | None =>
            match extract c (detached w) with
            | Some (d, ch, det') => place p c d ch (document w) det' w
            | None => Throw TypeError w
            end
        end
    end.

(** [c.parentNode]; [None] is [null]. *)
Definition parentNode (c : node_id) : M (option parent) :=
  fun w =>
    match parent_in (Some TheDocument) c (document w) with
    | Some r => Ok r w
    | None =>
        match parent_in None c (detached w) with
        | Some r => Ok r w
        | None => Throw TypeError w
        end
    end.

(** The tree rooted at [c] leaves its place and becomes a tree of its
    own, outside the document. *)
Definition detach (c : node_id) (w : world) : option world :=
  match extract c (document w) with
  | Some (d, ch, doc') =>
      Some (set_forests doc' (FCons c d ch (detached w)) w)
  | None =>
      match extract c (detached w) with
      | Some (d, ch, det') =>
          Some (set_forests (document w) (FCons c d ch det') w)
      | None => None
      end
  end.

(** [p.removeChild(c)]: [c] must be a child of [p]; its tree leaves the
    document and stays reachable from the references to it. *)
Definition removeChild (p : parent) (c : node_id) : M unit :=
  fun w =>
    match parentNode c w with
    | Ok (Some p') _ =>
        if decide (p' = p) then
          match detach c w with
          | Some w' => Ok tt w'
          | None => Throw TypeError w
          end
        else Throw NotFoundError w
    | Ok None _ => Throw NotFoundError w
    | Throw e _ => Throw e w
    end.

(** [n.querySelector(tag)] with a type selector: the first descendant of
    [n] with that tag. *)
Definition querySelector (n : node_id) (tag : string) : M (option node_id) :=
  fun w =>
    match lookup_tree n w with
    | Some (_, ch) => Ok (fst <$> find_node (has_tag tag) ch) w
    | None => Throw TypeError w
    end.

(** ** The object store *)

Definition new_object (x : instance) : M obj_id :=
  fun w =>
    Ok (next_obj w)
       (World (document w) (detached w) (body w) (next_id w)
              (doc_listeners w) (<[next_obj w := x]> (objects w))
              (S (next_obj w))).

Definition get_this (this : obj_id) : M instance :=
  fun w =>
    match objects w !! this with
    | Some x => Ok x w
    | None => Throw TypeError w
    end.

Definition update_this (this : obj_id) (f : instance -> instance) : M unit :=
  fun w =>
    match objects w !! this with
    | Some _ => Ok tt (set_objects (alter f this) w)
    | None => Throw TypeError w
    end.

(* ===================================================================== *)
(** * The class [LiquidGlass]                                             *)
(* ===================================================================== *)

(** ** Assignments to the fields of [this.options] *)

Definition set_shadowOffset (v : string) (c : config) : config :=
  Config v (shadowBlur c) (shadowSpread c) (shadowColor c) (tintColor c)
    (tintOpacity c) (frostBlur c) (noiseFrequency c) (distortionStrength c)
    (outerShadowBlur c) (outerShadowColor c) (borderRadius c) (draggable c).

Definition set_shadowBlur (v : string) (c : config) : config :=
  Config (shadowOffset c) v (shadowSpread c) (shadowColor c) (tintColor c)
    (tintOpacity c) (frostBlur c) (noiseFrequency c) (distortionStrength c)
    (outerShadowBlur c) (outerShadowColor c) (borderRadius c) (draggable c).

Definition set_shadowSpread (v : string) (c : config) : config :=
  Config (shadowOffset c) (shadowBlur c) v (shadowColor c) (tintColor c)
    (tintOpacity c) (frostBlur c) (noiseFrequency c) (distortionStrength c)
    (outerShadowBlur c) (outerShadowColor c) (borderRadius c) (draggable c).

Definition set_shadowColor (v : string) (c : config) : config :=
  Config (shadowOffset c) (shadowBlur c) (shadowSpread c) v (tintColor c)
    (tintOpacity c) (frostBlur c) (noiseFrequency c) (distortionStrength c)
    (outerShadowBlur c) (outerShadowColor c) (borderRadius c) (draggable c).

Definition set_tintColor (v : string) (c : config) : config :=
  Config (shadowOffset c) (shadowBlur c) (shadowSpread c) (shadowColor c)
    v (tintOpacity c) (frostBlur c) (noiseFrequency c) (distortionStrength
    c) (outerShadowBlur c) (outerShadowColor c) (borderRadius c) (draggable
    c).

Definition set_tintOpacity (v : JS.number) (c : config) : config :=
  Config (shadowOffset c) (shadowBlur c) (shadowSpread c) (shadowColor c)
    (tintColor c) v (frostBlur c) (noiseFrequency c) (distortionStrength c)
    (outerShadowBlur c) (outerShadowColor c) (borderRadius c) (draggable c).

Definition set_frostBlur (v : string) (c : config) : config :=
  Config (shadowOffset c) (shadowBlur c) (shadowSpread c) (shadowColor c)
    (tintColor c) (tintOpacity c) v (noiseFrequency c) (distortionStrength
    c) (outerShadowBlur c) (outerShadowColor c) (borderRadius c) (draggable
    c).

Definition set_noiseFrequency (v : JS.number) (c : config) : config :=
  Config (shadowOffset c) (shadowBlur c) (shadowSpread c) (shadowColor c)
    (tintColor c) (tintOpacity c) (frostBlur c) v (distortionStrength c)
    (outerShadowBlur c) (outerShadowColor c) (borderRadius c) (draggable c).

Definition set_distortionStrength (v : JS.number) (c : config) : config :=
  Config (shadowOffset c) (shadowBlur c) (shadowSpread c) (shadowColor c)
    (tintColor c) (tintOpacity c) (frostBlur c) (noiseFrequency c) v
    (outerShadowBlur c) (outerShadowColor c) (borderRadius c) (draggable c).

Definition set_outerShadowBlur (v : string) (c : config) : config :=
  Config (shadowOffset c) (shadowBlur c) (shadowSpread c) (shadowColor c)
    (tintColor c) (tintOpacity c) (frostBlur c) (noiseFrequency c)
    (distortionStrength c) v (outerShadowColor c) (borderRadius c)
    (draggable c).

Definition set_outerShadowColor (v : string) (c : config) : config :=
  Config (shadowOffset c) (shadowBlur c) (shadowSpread c) (shadowColor c)
    (tintColor c) (tintOpacity c) (frostBlur c) (noiseFrequency c)
    (distortionStrength c) (outerShadowBlur c) v (borderRadius c) (draggable
    c).

(** ** The constructor *)

(** [v || d], at each of the three types of the configuration. *)
Definition or_string (v : option string) (d : string) : string :=
  match v with
  | Some s => if JS.truthy_string s then s else d
  | None => d
  end.

Definition or_number (v : option JS.number) (d : JS.number) : JS.number :=
  match v with
  | Some x => if JS.truthy_number x then x else d
  | None => d
  end.

Definition or_bool (v : option bool) (d : bool) : bool :=
  match v with
  | Some b => if b then b else d
  | None => d
  end.

(** The default value [{}] of the parameter [options]. *)
Definition no_options : LiquidGlassOptions :=
  Build_LiquidGlassOptions None None None None None None None None None None
                           None None None.

Definition merge_options (o : LiquidGlassOptions) : config :=
  {| shadowOffset := or_string (opt_shadowOffset o) "0px";
     shadowBlur := or_string (opt_shadowBlur o) "20px";
     shadowSpread := or_string (opt_shadowSpread o) "-5px";
     shadowColor := or_string (opt_shadowColor o) "rgba(255, 255, 255, 0.8)";
     tintColor := or_string (opt_tintColor o) "rgba(255, 255, 255, 0.4)";
     tintOpacity := or_number (opt_tintOpacity o) 0.4%float;
     frostBlur := or_string (opt_frostBlur o) "2px";
     noiseFrequency := or_number (opt_noiseFrequency o) 0.008%float;
     distortionStrength := or_number (opt_distortionStrength o) 77%float;
     outerShadowBlur := or_string (opt_outerShadowBlur o) "24px";
     outerShadowColor := or_string (opt_outerShadowColor o) "rgba(0, 0, 0, 0.2)";
     borderRadius := or_string (opt_borderRadius o) "20px";
     draggable := or_bool (opt_draggable o) false |}.

Definition svg_ns : string := "http://www.w3.org/2000/svg".

Definition createSVGFilter (this : obj_id) : M unit :=
  let* x := get_this this in
  let* found := getElementById "liquid-glass-svg-filters" in
  let* svgContainer :=
    match found with
    | Some c => ret c
    | None =>
        let* c := createElementNS svg_ns "svg" in
        setAttribute c "id" "liquid-glass-svg-filters" ;;;
        setProperty c "position" "absolute" ;;;
        setProperty c "width" "0" ;;;
        setProperty c "height" "0" ;;;
        let* b := document_body in
        match b with
        | Some b => appendChild b c
        | None => throw TypeError
        end ;;;
        ret c
    end in
  let* filter := createElementNS svg_ns "filter" in
  setAttribute filter "id" (svgFilterId x) ;;;
  setAttribute filter "x" "0%" ;;;
  setAttribute filter "y" "0%" ;;;
  setAttribute filter "width" "100%" ;;;
  setAttribute filter "height" "100%" ;;;
  let* turbulence := createElementNS svg_ns "feTurbulence" in
  setAttribute turbulence "type" "fractalNoise" ;;;
  setAttribute turbulence "baseFrequency"
               (JS.to_string (noiseFrequency (options x))) ;;;
  setAttribute turbulence "numOctaves" "3" ;;;
  setAttribute turbulence "result" "noise" ;;;
  let* blur := createElementNS svg_ns "feGaussianBlur" in
  setAttribute blur "in" "noise" ;;;
  setAttribute blur "stdDeviation" "0.6" ;;;
  setAttribute blur "result" "blurred" ;;;
  let* displacement := createElementNS svg_ns "feDisplacementMap" in
  setAttribute displacement "in" "SourceGraphic" ;;;
  setAttribute displacement "in2" "blurred" ;;;
  setAttribute displacement "scale"
               (JS.to_string (distortionStrength (options x))) ;;;
  setAttribute displacement "xChannelSelector" "R" ;;;
  setAttribute displacement "yChannelSelector" "G" ;;;
  appendChild filter turbulence ;;;
  appendChild filter blur ;;;
  appendChild filter displacement ;;;
  appendChild svgContainer filter ;;;
  update_this this (set_svgFilter filter).

Definition applyStyles (this : obj_id) : M unit :=
  let* x := get_this this in
  let el := element x in
  setProperty el "--shadow-offset" (shadowOffset (options x)) ;;;
  setProperty el "--shadow-blur" (shadowBlur (options x)) ;;;
  setProperty el "--shadow-spread" (shadowSpread (options x)) ;;;
  setProperty el "--shadow-color" (shadowColor (options x)) ;;;
  setProperty el "--tint-color" (tintColor (options x)) ;;;
  setProperty el "--frost-blur" (frostBlur (options x)) ;;;
  setProperty el "--outer-shadow-blur" (outerShadowBlur (options x)) ;;;
  setProperty el "--outer-shadow-color" (outerShadowColor (options x)) ;;;
  setProperty el "--border-radius" (borderRadius (options x)) ;;;
  setProperty el "--glass-filter-url" ("url(#" +:+ svgFilterId x +:+ ")").

(** ** Dragging *)

Record touch := Touch {
  touch_clientX : JS.number;
  touch_clientY : JS.number;
}.

(** What the listeners read of a [MouseEvent] or a [TouchEvent]. *)
Record event := Event {
  clientX : option JS.number;
  clientY : option JS.number;
  touches : option (list touch);
}.

(** [e.touches?.[0]?.clientX] *)
Definition first_touch (f : touch -> JS.number) (e : event)
    : option JS.number :=
  match touches e with
  | Some (t :: _) => Some (f t)
  | Some [] => None
  | None => None
  end.

(** [e.clientX || e.touches?.[0]?.clientX] *)
Definition pointer (c : option JS.number) (t : option JS.number)
    : option JS.number :=
  match c with
  | Some x => if JS.truthy_number x then Some x else t
  | None => t
  end.

Definition onMouseDown (this : obj_id) (e : event) : M unit :=
  update_this this (set_drag (fun s =>
    DragState true
              (pointer (clientX e) (first_touch touch_clientX e))
              (pointer (clientY e) (first_touch touch_clientY e))
              (initialX s) (initialY s))) ;;;
  let* x := get_this this in
  let* rect := getBoundingClientRect (element x) in
  update_this this (set_drag (fun s =>
    DragState (isDragging s) (startX s) (startY s)
              (Some (fst rect)) (Some (snd rect)))) ;;;
  setProperty (element x) "cursor" "grabbing".

Definition onMouseMove (this : obj_id) (e : event) : M unit :=
  let* x := get_this this in
  if negb (isDragging (drag x)) then ret tt
  else
    let currentX := pointer (clientX e) (first_touch touch_clientX e) in
    let currentY := pointer (clientY e) (first_touch touch_clientY e) in
    let deltaX := (JS.to_number currentX - JS.to_number (startX (drag x)))%float in
    let deltaY := (JS.to_number currentY - JS.to_number (startY (drag x)))%float in
    setProperty (element x) "position" "absolute" ;;;
    setProperty (element x) "left"
      (JS.to_string (JS.to_number (initialX (drag x)) + deltaX)%float +:+ "px") ;;;
    setProperty (element x) "top"
      (JS.to_string (JS.to_number (initialY (drag x)) + deltaY)%float +:+ "px").

Definition onMouseUp (this : obj_id) : M unit :=
  update_this this (set_drag (fun s =>
    DragState false (startX s) (startY s) (initialX s) (initialY s))) ;;;
  let* x := get_this this in
  setProperty (element x) "cursor" "grab".

Definition makeDraggable (this : obj_id) : M unit :=
  update_this this (set_drag (fun _ => DragState false None None None None)) ;;;
  let* x := get_this this in
  setProperty (element x) "cursor" "grab" ;;;
  addEventListener (element x) "mousedown" (OnMouseDown this) ;;;
  addEventListener (element x) "touchstart" (OnMouseDown this) ;;;
  document_addEventListener "mousemove" (OnMouseMove this) ;;;
  document_addEventListener "touchmove" (OnMouseMove this) ;;;
  document_addEventListener "mouseup" (OnMouseUp this) ;;;
  document_addEventListener "touchend" (OnMouseUp this) ;;;
  update_this this set_cleanup.

(** The body of the closure stored in [this.cleanup]. *)
Definition run_cleanup (this : obj_id) : M unit :=
  let* x := get_this this in
  removeEventListener (element x) "mousedown" (OnMouseDown this) ;;;
  removeEventListener (element x) "touchstart" (OnMouseDown this) ;;;
  document_removeEventListener "mousemove" (OnMouseMove this) ;;;
  document_removeEventListener "touchmove" (OnMouseMove this) ;;;
  document_removeEventListener "mouseup" (OnMouseUp this) ;;;
  document_removeEventListener "touchend" (OnMouseUp this).

Definition init (this : obj_id) : M unit :=
  let* x := get_this this in
  classList_add (element x) "liquid-glass" ;;;
  createSVGFilter this ;;;
  applyStyles this ;;;
  if draggable (options x) then makeDraggable this else ret tt.

(** [new LiquidGlass(element, options)].  [element] is [None] for
    [null] or [undefined]; [options] is [None] when the argument is
    left out; [random36] is what [Math.random().toString(36)] returned
    to this call. *)
Definition constructor (element : option node_id)
    (options : option LiquidGlassOptions) (random36 : string) : M obj_id :=
  match element with
  | None => throw (Error "LiquidGlass requires a valid DOM element")
  | Some el =>
      let* this :=
        new_object
          (Instance el (merge_options (default no_options options))
                    ("glass-distortion-" +:+ JS.substr 2 9 random36)
                    None false (DragState false None None None None)) in
      init this ;;;
      ret this
  end.

(** ** Update methods

    The parameter records of the type declarations; a missing property
    is [None], and [{}] is the record of [None]s. *)

Record ShadowUpdateParams := {
  sp_blur : option string;
  sp_spread : option string;
  sp_color : option string;
  sp_offset : option string;
}.

Record TintUpdateParams := {
  tp_color : option string;
  tp_opacity : option JS.number;
}.

Record DistortionUpdateParams := {
  dp_frequency : option JS.number;
  dp_strength : option JS.number;
}.

Record OuterShadowUpdateParams := {
  op_blur : option string;
  op_color : option string;
}.

(** [if (v !== undefined) { ... }] *)
Definition when_defined {A} (v : option A) (k : A -> M unit) : M unit :=
  match v with
  | Some a => k a
  | None => ret tt
  end.

(** [this.options.field = v; this.element.style.setProperty(prop, v)] *)
Definition assign_and_project (this : obj_id) (set : string -> config -> config)
    (prop : string) (v : string) : M unit :=
  update_this this (set_options (set v)) ;;;
  let* x := get_this this in
  setProperty (element x) prop v.

Definition updateShadow (this : obj_id) (p : ShadowUpdateParams) : M unit :=
  when_defined (sp_blur p)
    (assign_and_project this set_shadowBlur "--shadow-blur") ;;;
  when_defined (sp_spread p)
    (assign_and_project this set_shadowSpread "--shadow-spread") ;;;
  when_defined (sp_color p)
    (assign_and_project this set_shadowColor "--shadow-color") ;;;
  when_defined (sp_offset p)
    (assign_and_project this set_shadowOffset "--shadow-offset").

(** [/rgba?\((\d+),\s*(\d+),\s*(\d+)/] *)
Definition tint_regex : JS.regex :=
  JS.lit "rgb"
   (JS.Seq (JS.Opt (JS.Chr "a"))
   (JS.Seq (JS.Chr "(")
   (JS.Seq (JS.Group (JS.Plus JS.digit))
   (JS.Seq (JS.Chr ",")
   (JS.Seq (JS.Star JS.space)
   (JS.Seq (JS.Group (JS.Plus JS.digit))
   (JS.Seq (JS.Chr ",")
   (JS.Seq (JS.Star JS.space)
           (JS.Group (JS.Plus JS.digit)))))))))).

(** [`rgba(${m[1]}, ${m[2]}, ${m[3]}, ${opacity})`] for the captures
    [m[1..3]]. *)
Definition newColor (caps : list string) (opacity : JS.number) : string :=
  "rgba(" +:+ nth 0 caps "undefined" +:+ ", " +:+ nth 1 caps "undefined"
          +:+ ", " +:+ nth 2 caps "undefined" +:+ ", "
          +:+ JS.to_string opacity +:+ ")".

Definition updateTint (this : obj_id) (p : TintUpdateParams) : M unit :=
  when_defined (tp_color p)
    (assign_and_project this set_tintColor "--tint-color") ;;;
  when_defined (tp_opacity p) (fun opacity =>
    update_this this (set_options (set_tintOpacity opacity)) ;;;
    let* x := get_this this in
    match JS.exec tint_regex (tintColor (options x)) with
    | Some rgbaMatch =>
        setProperty (element x) "--tint-color" (newColor rgbaMatch opacity)
    | None => ret tt
    end).

Definition updateFrost (this : obj_id) (blur : string) : M unit :=
  assign_and_project this set_frostBlur "--frost-blur" blur.

(** [const stage = this.svgFilter.querySelector(tag);
     if (stage) stage.setAttribute(name, v)] *)
Definition patch_stage (this : obj_id) (tag name : string) (v : JS.number)
    : M unit :=
  let* x := get_this this in
  match svgFilter x with
  | None => throw TypeError
  | Some filter =>
      let* stage := querySelector filter tag in
      match stage with
      | Some n => setAttribute n name (JS.to_string v)
      | None => ret tt
      end
  end.

Definition updateDistortion (this : obj_id) (p : DistortionUpdateParams)
    : M unit :=
  when_defined (dp_frequency p) (fun frequency =>
    update_this this (set_options (set_noiseFrequency frequency)) ;;;
    patch_stage this "feTurbulence" "baseFrequency" frequency) ;;;
  when_defined (dp_strength p) (fun strength =>
    update_this this (set_options (set_distortionStrength strength)) ;;;
    patch_stage this "feDisplacementMap" "scale" strength).

Definition updateOuterShadow (this : obj_id) (p : OuterShadowUpdateParams)
    : M unit :=
  when_defined (op_blur p)
    (assign_and_project this set_outerShadowBlur "--outer-shadow-blur") ;;;
  when_defined (op_color p)
    (assign_and_project this set_outerShadowColor "--outer-shadow-color").

(** ** Teardown *)

Definition stylesToRemove : list string :=
  [ "--shadow-offset"; "--shadow-blur"; "--shadow-spread"; "--shadow-color";
    "--tint-color"; "--frost-blur"; "--outer-shadow-blur";
    "--outer-shadow-color"; "--border-radius"; "--glass-filter-url" ].

Fixpoint forEach {A} (l : list A) (f : A -> M unit) : M unit :=
  match l with
  | [] => ret tt
  | a :: l' => f a ;;; forEach l' f
  end.

Definition destroy (this : obj_id) : M unit :=
  let* x := get_this this in
  match svgFilter x with
  | Some filter =>
      let* p := parentNode filter in
      match p with
      | Some p => removeChild p filter
      | None => ret tt
      end
  | None => ret tt
  end ;;;
  classList_remove (element x) "liquid-glass" ;;;
  (if cleanup x then run_cleanup this else ret tt) ;;;
  forEach stylesToRemove (removeProperty (element x)).

(* ===================================================================== *)
(** * Sessions                                                            *)
(* ===================================================================== *)

(** ** Event dispatch

    The host calls the listeners registered for the event type, in
    registration order; an exception in a listener is reported and does
    not stop the others. *)

Definition run_callback (e : event) (cb : callback) : M unit :=
  match cb with
  | OnMouseDown this => onMouseDown this e
  | OnMouseMove this => onMouseMove this e
  | OnMouseUp this => onMouseUp this
  end.

Definition registered (type : string) (l : list (string * callback))
    : list callback :=
  snd <$> filter (fun tc => tc.1 = type) l.

Definition dispatch (e : event) (cbs : list callback) (w : world) : world :=
  fold_left (fun w cb => final (run_callback e cb w)) cbs w.

(** An event of type [type] reaching the element [n]. *)
Definition fire_on_element (n : node_id) (type : string) (e : event)
    (w : world) : world :=
  match lookup_node n w with
  | Some d => dispatch e (registered type (listeners d)) w
  | None => w
  end.

(** An event of type [type] reaching [document]. *)
Definition fire_on_document (type : string) (e : event) (w : world) : world :=
  dispatch e (registered type (doc_listeners w)) w.

(** ** What can happen in a session

    The calls of the public interface, the pointer events, and the host
    laying an element out again. *)
Inductive action :=
| New (element : option node_id) (options : option LiquidGlassOptions)
      (random36 : string)
| UpdateShadow (this : obj_id) (p : ShadowUpdateParams)
| UpdateTint (this : obj_id) (p : TintUpdateParams)
| UpdateFrost (this : obj_id) (blur : string)
| UpdateDistortion (this : obj_id) (p : DistortionUpdateParams)
| UpdateOuterShadow (this : obj_id) (p : OuterShadowUpdateParams)
| Destroy (this : obj_id)
| ElementEvent (target : node_id) (type : string) (e : event)
| DocumentEvent (type : string) (e : event)
| Layout (n : node_id) (left top : JS.number).

Definition step (w : world) (a : action) : world :=
  match a with
  | New el o r => final (constructor el o r w)
  | UpdateShadow this p => final (updateShadow this p w)
  | UpdateTint this p => final (updateTint this p w)
  | UpdateFrost this blur => final (updateFrost this blur w)
  | UpdateDistortion this p => final (updateDistortion this p w)
  | UpdateOuterShadow this p => final (updateOuterShadow this p w)
  | Destroy this => final (destroy this w)
  | ElementEvent n type e => fire_on_element n type e w
  | DocumentEvent type e => fire_on_document type e w
  | Layout n l t => final (update_node n (set_rect l t) w)
  end.

Definition run (w : world) (acts : list action) : world :=
  fold_left step acts w.

(** ** A page to run examples on: [<body><div></div></body>], the [div]
    laid out at (50, 50). *)
Definition example_page : world :=
  World (FCons 0 (empty_node "http://www.w3.org/1999/xhtml" "body")
               (FCons 1 (set_rect 50 50
                           (empty_node "http://www.w3.org/1999/xhtml" "div"))
                      FNil FNil)
               FNil)
        FNil 0 2 [] ∅ 0.

Definition mouse (x y : JS.number) : event := Event (Some x) (Some y) None.

Definition touch_at (x y : JS.number) : event :=
  Event None None (Some [Touch x y]).

(* ===================================================================== *)
(** * Forests: the document-order listing                                 *)
(* ===================================================================== *)

Definition ids (f : forest) : list node_id := (nodes f).*1.

Lemma ids_cons i d ch sib : ids (FCons i d ch sib) = i :: ids ch ++ ids sib.
Proof. unfold ids. simpl. by rewrite fmap_app. Qed.

Lemma tree_at_None n f : tree_at n f = None ↔ n ∉ ids f.
Proof.
  induction f as [|i d ch IHch sib IHsib]; simpl.
  - split; [intros _; apply not_elem_of_nil | done].
  - rewrite ids_cons, not_elem_of_cons, not_elem_of_app.
    destruct (decide (i = n)) as [->|Hne].
    + split; [done | intros [? _]; done].
    + destruct (tree_at n ch) as [x|] eqn:Hch.
      * split; [done|]. intros (_ & Hn & _). apply IHch in Hn. done.
      * rewrite IHsib. split; [|tauto]. intros Hs. split; [congruence|].
        split; [by apply IHch | done].
Qed.

Lemma tree_at_elem n f d ch : tree_at n f = Some (d, ch) → (n, d) ∈ nodes f.
Proof.
  induction f as [|i di chi IHch sib IHsib]; simpl; [done|].
  destruct (decide (i = n)) as [->|Hne].
  - intros [= -> ->]. left.
  - destruct (tree_at n chi) as [x|] eqn:Hch.
    + intros [= ->]. right. apply elem_of_app. left. by apply IHch.
    + intros Hs. right. apply elem_of_app. right. by apply IHsib.
Qed.

Lemma tree_at_children n f d ch x :
  tree_at n f = Some (d, ch) → x ∈ nodes ch → x ∈ nodes f.
Proof.
  induction f as [|i di chi IHch sib IHsib]; simpl; [done|].
  destruct (decide (i = n)) as [->|Hne].
  - intros [= -> ->] Hx. right. apply elem_of_app. by left.
  - destruct (tree_at n chi) as [y|] eqn:Hch.
    + intros [= ->] Hx. right. apply elem_of_app. left. by apply IHch.
    + intros Hs Hx. right. apply elem_of_app. right. by apply IHsib.
Qed.

Lemma find_node_elem P f i d :
  find_node P f = Some (i, d) → (i, d) ∈ nodes f ∧ P d = true.
Proof.
  induction f as [|j dj ch IHch sib IHsib]; simpl; [done|].
  destruct (P dj) eqn:HP.
  - intros [= -> ->]. split; [left | done].
  - destruct (find_node P ch) as [x|] eqn:Hch.
    + intros [= ->]. destruct IHch as [? ?]; [done|].
      split; [|done]. right. apply elem_of_app. by left.
    + intros Hs. destruct IHsib as [? ?]; [done|].
      split; [|done]. right. apply elem_of_app. by right.
Qed.

Lemma find_node_None P f :
  find_node P f = None ↔ ∀ x, x ∈ nodes f → P x.2 = false.
Proof.
  induction f as [|j dj ch IHch sib IHsib]; simpl.
  - split; [|done]. intros _ x Hx. by apply elem_of_nil in Hx.
  - destruct (P dj) eqn:HP.
    + split; [done|]. intros H. specialize (H (j, dj)). simpl in H.
      rewrite HP in H. discriminate H. left.
    + destruct (find_node P ch) as [x|] eqn:Hch.
      * split; [done|]. intros H.
        assert (Hn : Some x = None); [|discriminate Hn].
        apply IHch. intros y Hy. apply H. right. apply elem_of_app. by left.
      * rewrite IHsib. split.
        -- intros H x [->|Hx]%elem_of_cons; [done|].
           apply elem_of_app in Hx as [Hx|Hx]; [|by apply H].
           by apply (proj1 IHch).
        -- intros H x Hx. apply H. right. apply elem_of_app. by right.
Qed.

(** ** Node-local updates *)

Definition amend_entry (n : node_id) (g : node → node) (x : node_id * node)
    : node_id * node :=
  (x.1, if decide (x.1 = n) then g x.2 else x.2).

Lemma nodes_modify n g f : nodes (modify n g f) = amend_entry n g <$> nodes f.
Proof.
  induction f as [|i d ch IHch sib IHsib]; simpl; [done|].
  by rewrite fmap_app, IHch, IHsib.
Qed.

Lemma ids_modify n g f : ids (modify n g f) = ids f.
Proof.
  unfold ids. rewrite nodes_modify, <- list_fmap_compose.
  by apply list_fmap_ext.
Qed.

Lemma modify_notin n g f : n ∉ ids f → modify n g f = f.
Proof.
  induction f as [|i d ch IHch sib IHsib]; simpl; [done|].
  rewrite ids_cons, not_elem_of_cons, not_elem_of_app.
  intros (Hne & Hch & Hsib).
  rewrite IHch, IHsib by done.
  destruct (decide (i = n)); [congruence | done].
Qed.

Lemma roots_modify n g f : roots (modify n g f) = roots f.
Proof. induction f; simpl; congruence. Qed.

Lemma tree_at_modify m n g f :
  tree_at m (modify n g f) =
  (λ x, (if decide (m = n) then g x.1 else x.1, modify n g x.2)) <$> tree_at m f.
Proof.
  induction f as [|i d ch IHch sib IHsib]; simpl; [done|].
  destruct (decide (i = m)) as [->|Hne]; simpl.
  - done.
  - rewrite IHch. destruct (tree_at m ch); simpl; [done|]. apply IHsib.
Qed.

Lemma find_node_modify P n g f :
  (∀ d, P (g d) = P d) →
  find_node P (modify n g f) = amend_entry n g <$> find_node P f.
Proof.
  intros HP. induction f as [|i d ch IHch sib IHsib]; simpl; [done|].
  assert (P (if decide (i = n) then g d else d) = P d) as ->.
  { destruct (decide (i = n)); [apply HP | done]. }
  destruct (P d); simpl; [done|].
  rewrite IHch. destruct (find_node P ch); simpl; [done|]. apply IHsib.
Qed.

(** [find_node] reads the listing from the left. *)
Lemma find_node_nodes P f :
  find_node P f = head (filter (λ x, P x.2 = true) (nodes f)).
Proof.
  induction f as [|i d ch IHch sib IHsib]; simpl; [done|].
  rewrite filter_cons. simpl. destruct (P d) eqn:HP.
  - by rewrite decide_True.
  - rewrite decide_False by congruence.
    rewrite filter_app, IHch, IHsib.
    by destruct (filter _ (nodes ch)).
Qed.

Lemma filter_none {A} (P : A → Prop) `{!∀ x, Decision (P x)} (l : list A) :
  (∀ x, x ∈ l → ¬ P x) → filter P l = [].
Proof.
  induction l as [|a l IH]; [done|]. intros Hall.
  rewrite filter_cons_False; [|apply Hall; left].
  apply IH. intros x Hx. apply Hall. by right.
Qed.

(** ** Appending a child *)

Lemma nodes_snoc f c d ch : nodes (snoc f c d ch) = nodes f ++ (c, d) :: nodes ch.
Proof.
  induction f as [|i di chi _ sib IH]; simpl.
  - by rewrite app_nil_r.
  - by rewrite IH, <- app_assoc.
Qed.

Lemma roots_snoc f c d ch : roots (snoc f c d ch) = roots f ++ [c].
Proof. induction f; simpl; congruence. Qed.

Lemma tree_at_snoc n f c d ch :
  tree_at n (snoc f c d ch) =
  match tree_at n f with
  | Some x => Some x
  | None => tree_at n (FCons c d ch FNil)
  end.
Proof.
  induction f as [|i di chi _ sib IH]; simpl; [done|].
  destruct (decide (i = n)); [done|].
  destruct (tree_at n chi); [done|]. apply IH.
Qed.

Lemma attach_None p c d ch f : attach p c d ch f = None ↔ p ∉ ids f.
Proof.
  induction f as [|i di chi IHch sib IHsib]; simpl.
  - split; [intros _; apply not_elem_of_nil | done].
  - rewrite ids_cons, not_elem_of_cons, not_elem_of_app.
    destruct (decide (i = p)) as [->|Hne].
    + split; [done | intros [? _]; done].
    + destruct (attach p c d ch chi) as [x|].
      * split; [done|]. intros (_ & Hn & _). apply IHch in Hn. done.
      * destruct (attach p c d ch sib) as [y|].
        -- split; [done|]. intros (_ & _ & Hn). apply IHsib in Hn. done.
        -- split; [|done]. intros _.
           split; [congruence|]. split; [by apply IHch | by apply IHsib].
Qed.

Lemma attach_nodes p c d ch f f' :
  attach p c d ch f = Some f' →
  ∃ l1 l2, nodes f = l1 ++ l2 ∧ nodes f' = l1 ++ ((c, d) :: nodes ch) ++ l2.
Proof.
  revert f'. induction f as [|i di chi IHch sib IHsib]; simpl; [done|].
  intros f'. destruct (decide (i = p)) as [->|Hne].
  - intros [= <-]. exists ((p, di) :: nodes chi), (nodes sib).
    split; [done|]. simpl. rewrite nodes_snoc. by rewrite <- !app_assoc.
  - destruct (attach p c d ch chi) as [chi'|].
    + intros [= <-]. destruct (IHch chi' eq_refl) as (l1 & l2 & E1 & E2).
      exists ((i, di) :: l1), (l2 ++ nodes sib). simpl.
      rewrite E1, E2. by rewrite <- !app_assoc.
    + destruct (attach p c d ch sib) as [sib'|]; [|done].
      intros [= <-]. destruct (IHsib sib' eq_refl) as (l1 & l2 & E1 & E2).
      exists ((i, di) :: nodes chi ++ l1), l2. simpl.
      rewrite E1, E2. by rewrite <- !app_assoc.
Qed.

Lemma attach_perm p c d ch f f' :
  attach p c d ch f = Some f' →
  nodes f' ≡ₚ (c, d) :: nodes ch ++ nodes f.
Proof.
  intros (l1 & l2 & -> & ->)%attach_nodes.
  rewrite (Permutation_app_comm l1 (_ ++ l2)). simpl.
  rewrite <- app_assoc. do 2 f_equiv. apply Permutation_app_comm.
Qed.

(** Nothing new satisfies [P]: the first match stays. *)
Lemma find_node_attach_other P p c d ch f f' :
  attach p c d ch f = Some f' →
  P d = false → (∀ x, x ∈ nodes ch → P x.2 = false) →
  find_node P f' = find_node P f.
Proof.
  intros (l1 & l2 & E1 & E2)%attach_nodes Hd Hch.
  rewrite !find_node_nodes, E1, E2, !filter_app, filter_cons.
  simpl. rewrite decide_False by congruence.
  assert (filter (λ x, P x.2 = true) (nodes ch) = []) as ->; [|done].
  apply filter_none. intros x Hx. by rewrite Hch.
Qed.

(** No node satisfied [P] and the new root does: it is the first match. *)
Lemma find_node_attach_new P p c d ch f f' :
  attach p c d ch f = Some f' →
  find_node P f = None → P d = true →
  find_node P f' = Some (c, d).
Proof.
  intros (l1 & l2 & E1 & E2)%attach_nodes Hf Hd.
  rewrite find_node_nodes in Hf. rewrite find_node_nodes.
  rewrite E1, filter_app in Hf. rewrite E2, !filter_app, filter_cons.
  simpl. rewrite decide_True by done.
  destruct (filter _ l1); [done | discriminate Hf].
Qed.

Lemma tree_at_attach_new p c d ch f f' :
  attach p c d ch f = Some f' → c ∉ ids f → tree_at c f' = Some (d, ch).
Proof.
  revert f'. induction f as [|i di chi IHch sib IHsib]; simpl; [done|].
  intros f'. rewrite ids_cons, not_elem_of_cons, not_elem_of_app.
  intros Ha (Hne & Hch & Hsib). apply tree_at_None in Hch as Hch'.
  destruct (decide (i = p)) as [->|Hnp].
  - injection Ha as <-. simpl.
    rewrite decide_False by done. rewrite tree_at_snoc, Hch'. simpl.
    by rewrite decide_True.
  - destruct (attach p c d ch chi) as [chi'|].
    + injection Ha as <-. simpl. rewrite decide_False by done.
      by rewrite (IHch chi' eq_refl Hch).
    + destruct (attach p c d ch sib) as [sib'|]; [|done].
      injection Ha as <-. simpl. rewrite decide_False by done.
      rewrite Hch'. by apply IHsib.
Qed.

Lemma tree_at_attach_parent p c d ch f f' dp chp :
  attach p c d ch f = Some f' → tree_at p f = Some (dp, chp) →
  tree_at p f' = Some (dp, snoc chp c d ch).
Proof.
  revert f'. induction f as [|i di chi IHch sib IHsib]; simpl; [done|].
  intros f' Ha Ht. destruct (decide (i = p)) as [->|Hnp].
  - injection Ha as <-. injection Ht as <- <-. simpl.
    by rewrite decide_True.
  - destruct (attach p c d ch chi) as [chi'|] eqn:Hc.
    + injection Ha as <-. simpl. rewrite decide_False by done.
      destruct (tree_at p chi) as [x|] eqn:Hx.
      * injection Ht as ->. by rewrite (IHch chi' eq_refl eq_refl).
      * apply tree_at_None, (attach_None p c d ch) in Hx. congruence.
    + destruct (attach p c d ch sib) as [sib'|]; [|done].
      injection Ha as <-. simpl. rewrite decide_False by done.
      apply attach_None, tree_at_None in Hc. rewrite Hc in Ht |- *.
      by apply IHsib.
Qed.

(** A node that is neither the new parent nor above it, nor new, keeps
    its tree. *)
Lemma tree_at_attach_other p c d ch f f' n dn chn :
  attach p c d ch f = Some f' → tree_at n f = Some (dn, chn) →
  n ≠ p → p ∉ ids chn → n ≠ c → n ∉ ids ch →
  tree_at n f' = Some (dn, chn).
Proof.
  intros Ha Ht Hnp Hp Hnc Hn. revert f' Ha Ht.
  induction f as [|i di chi IHch sib IHsib]; simpl; [done|].
  intros f' Ha Ht. destruct (decide (i = p)) as [->|Hip].
  - injection Ha as <-. simpl. rewrite decide_False in Ht |- * by done.
    rewrite tree_at_snoc. destruct (tree_at n chi); [done|].
    simpl. rewrite decide_False by done.
    apply tree_at_None in Hn. by rewrite Hn.
  - destruct (attach p c d ch chi) as [chi'|] eqn:Hc.
    + injection Ha as <-. simpl.
      destruct (decide (i = n)) as [->|Hin].
      * injection Ht as <- <-.
        assert (p ∈ ids chi); [|done].
        destruct (decide (p ∈ ids chi)) as [|Hni]; [done|].
        apply (attach_None p c d ch) in Hni. congruence.
      * destruct (tree_at n chi) as [x|] eqn:Hx.
        -- injection Ht as ->. by rewrite (IHch chi' eq_refl eq_refl).
        -- assert (tree_at n chi' = None) as ->; [|done].
           apply tree_at_None. apply tree_at_None in Hx.
           apply attach_perm in Hc. unfold ids. rewrite Hc. simpl.
           rewrite fmap_app, not_elem_of_cons, not_elem_of_app. done.
    + destruct (attach p c d ch sib) as [sib'|]; [|done].
      injection Ha as <-. simpl.
      destruct (decide (i = n)); [done|].
      destruct (tree_at n chi); [done|]. by apply IHsib.
Qed.

(** ** Cutting a tree out *)

Lemma extract_None c f : extract c f = None ↔ c ∉ ids f.
Proof.
  induction f as [|i di chi IHch sib IHsib]; simpl.
  - split; [intros _; apply not_elem_of_nil | done].
  - rewrite ids_cons, not_elem_of_cons, not_elem_of_app.
    destruct (decide (i = c)) as [->|Hne].
    + split; [done | intros [? _]; done].
    + destruct (extract c chi) as [[[? ?] ?]|].
      * split; [done|]. intros (_ & Hn & _). apply IHch in Hn. done.
      * destruct (extract c sib) as [[[? ?] ?]|].
        -- split; [done|]. intros (_ & _ & Hn). apply IHsib in Hn. done.
        -- split; [|done]. intros _.
           split; [congruence|]. split; [by apply IHch | by apply IHsib].
Qed.

Lemma extract_tree_at c f d ch f' :
  extract c f = Some (d, ch, f') → tree_at c f = Some (d, ch).
Proof.
  revert f'. induction f as [|i di chi IHch sib IHsib]; simpl; [done|].
  intros f'. destruct (decide (i = c)) as [->|Hne].
  - by intros [= -> -> _].
  - destruct (extract c chi) as [[[dc chc] chi']|] eqn:Hc.
    + intros [= -> -> _]. by rewrite (IHch chi' eq_refl).
    + apply extract_None, tree_at_None in Hc. rewrite Hc.
      destruct (extract c sib) as [[[dc chc] sib']|]; [|done].
      intros [= -> -> _]. by apply (IHsib sib').
Qed.

Lemma tree_at_extract c f d ch :
  tree_at c f = Some (d, ch) → ∃ f', extract c f = Some (d, ch, f').
Proof.
  intros Ht. destruct (extract c f) as [[[d' ch'] f']|] eqn:He.
  - apply extract_tree_at in He as Ht'. exists f'. congruence.
  - apply extract_None, tree_at_None in He. congruence.
Qed.

Lemma extract_nodes c f d ch f' :
  extract c f = Some (d, ch, f') →
  ∃ l1 l2, nodes f = l1 ++ ((c, d) :: nodes ch) ++ l2 ∧ nodes f' = l1 ++ l2.
Proof.
  revert f'. induction f as [|i di chi IHch sib IHsib]; simpl; [done|].
  intros f'. destruct (decide (i = c)) as [->|Hne].
  - intros [= -> -> <-]. by exists [], (nodes sib).
  - destruct (extract c chi) as [[[dc chc] chi']|].
    + intros [= -> -> <-]. destruct (IHch chi' eq_refl) as (l1 & l2 & E1 & E2).
      exists ((i, di) :: l1), (l2 ++ nodes sib). simpl.
      rewrite E1, E2. by rewrite <- !app_assoc.
    + destruct (extract c sib) as [[[dc chc] sib']|]; [|done].
      intros [= -> -> <-]. destruct (IHsib sib' eq_refl) as (l1 & l2 & E1 & E2).
      exists ((i, di) :: nodes chi ++ l1), l2. simpl.
      rewrite E1, E2. by rewrite <- !app_assoc.
Qed.

Lemma extract_perm c f d ch f' :
  extract c f = Some (d, ch, f') →
  nodes f ≡ₚ (c, d) :: nodes ch ++ nodes f'.
Proof.
  intros (l1 & l2 & -> & ->)%extract_nodes.
  rewrite (Permutation_app_comm l1 (_ ++ l2)). simpl.
  rewrite <- app_assoc. do 2 f_equiv. apply Permutation_app_comm.
Qed.

(** Nothing cut out satisfied [P]: the first match stays. *)
Lemma find_node_extract_other P c f d ch f' :
  extract c f = Some (d, ch, f') →
  P d = false → (∀ x, x ∈ nodes ch → P x.2 = false) →
  find_node P f' = find_node P f.
Proof.
  intros (l1 & l2 & E1 & E2)%extract_nodes Hd Hch.
  rewrite !find_node_nodes, E1, E2, !filter_app, filter_cons.
  simpl. rewrite decide_False by congruence.
  assert (filter (λ x, P x.2 = true) (nodes ch) = []) as ->; [|done].
  apply filter_none. intros x Hx. by rewrite Hch.
Qed.

(** A node that is neither cut out nor above the cut keeps its tree. *)
Lemma tree_at_extract_other c f d ch f' n dn chn :
  extract c f = Some (d, ch, f') → tree_at n f = Some (dn, chn) →
  n ≠ c → c ∉ ids chn → n ∉ ids ch →
  tree_at n f' = Some (dn, chn).
Proof.
  intros He Ht Hnc Hc Hn. revert f' He Ht.
  induction f as [|i di chi IHch sib IHsib]; simpl; [done|].
  intros f' He Ht. destruct (decide (i = c)) as [->|Hic].
  - injection He as -> -> <-. rewrite decide_False in Ht by done.
    apply tree_at_None in Hn. by rewrite Hn in Ht.
  - destruct (extract c chi) as [[[dc chc] chi']|] eqn:Hx.
    + injection He as -> -> <-. simpl.
      destruct (decide (i = n)) as [->|Hin].
      * injection Ht as <- <-.
        assert (c ∈ ids chi); [|done].
        destruct (decide (c ∈ ids chi)) as [|Hni]; [done|].
        apply extract_None in Hni. congruence.
      * destruct (tree_at n chi) as [x|] eqn:Hy.
        -- injection Ht as ->. by rewrite (IHch chi' eq_refl eq_refl).
        -- assert (tree_at n chi' = None) as ->; [|done].
           apply tree_at_None. apply tree_at_None in Hy.
           apply extract_perm in Hx. unfold ids in Hy. rewrite Hx in Hy.
           simpl in Hy. rewrite fmap_app in Hy.
           rewrite not_elem_of_cons, not_elem_of_app in Hy. tauto.
    + destruct (extract c sib) as [[[dc chc] sib']|]; [|done].
      injection He as -> -> <-. simpl.
      destruct (decide (i = n)); [done|].
      destruct (tree_at n chi); [done|]. by apply IHsib.
Qed.

Lemma parent_in_None up c f : parent_in up c f = None ↔ c ∉ ids f.
Proof.
  revert up. induction f as [|i di chi IHch sib IHsib]; simpl; intros up.
  - split; [intros _; apply not_elem_of_nil | done].
  - rewrite ids_cons, not_elem_of_cons, not_elem_of_app.
    destruct (decide (i = c)) as [->|Hne].
    + split; [done | intros [? _]; done].
    + destruct (parent_in (Some (Element i)) c chi) as [x|] eqn:Hc.
      * split; [done|]. intros (_ & Hn & _).
        apply (IHch (Some (Element i))) in Hn. congruence.
      * apply IHch in Hc. rewrite IHsib.
        split; [intros ?; split_and!; done | intros (_ & _ & ?); done].
Qed.

(* ===================================================================== *)
(** * Worlds                                                              *)
(* ===================================================================== *)

Definition all_ids (w : world) : list node_id := (all_nodes w).*1.

Lemma all_ids_app w : all_ids w = ids (document w) ++ ids (detached w).
Proof. unfold all_ids, all_nodes, ids. by rewrite fmap_app. Qed.

Lemma lookup_tree_None n w : lookup_tree n w = None ↔ n ∉ all_ids w.
Proof.
  unfold lookup_tree. rewrite all_ids_app, not_elem_of_app, <- !tree_at_None.
  destruct (tree_at n (document w)); [|tauto].
  split; [done | intros [? _]; done].
Qed.

Lemma lookup_node_None n w : lookup_node n w = None ↔ n ∉ all_ids w.
Proof. unfold lookup_node. rewrite fmap_None. apply lookup_tree_None. Qed.

Lemma lookup_node_is_Some n w : is_Some (lookup_node n w) ↔ n ∈ all_ids w.
Proof.
  rewrite <- not_eq_None_Some, lookup_node_None.
  destruct (decide (n ∈ all_ids w)); tauto.
Qed.

Lemma lookup_tree_elem n w d ch :
  lookup_tree n w = Some (d, ch) → (n, d) ∈ all_nodes w.
Proof.
  unfold lookup_tree, all_nodes. rewrite elem_of_app.
  destruct (tree_at n (document w)) as [x|] eqn:Hd.
  - intros [= ->]. left. by eapply tree_at_elem.
  - intros Ht. right. by eapply tree_at_elem.
Qed.

Lemma lookup_tree_children n w d ch x :
  lookup_tree n w = Some (d, ch) → x ∈ nodes ch → x ∈ all_nodes w.
Proof.
  unfold lookup_tree, all_nodes. rewrite elem_of_app.
  destruct (tree_at n (document w)) as [y|] eqn:Hd.
  - intros [= ->] Hx. left. by eapply tree_at_children.
  - intros Ht Hx. right. by eapply tree_at_children.
Qed.

Lemma lookup_node_elem n w d : lookup_node n w = Some d → (n, d) ∈ all_nodes w.
Proof.
  unfold lookup_node. intros ([d' ch] & Ht & [= ->])%fmap_Some.
  by eapply lookup_tree_elem.
Qed.

(** With distinct identifiers a node has one entry in the listing. *)
Lemma nodup_fst_functional {A B} (l : list (A * B)) x y1 y2 :
  NoDup l.*1 → (x, y1) ∈ l → (x, y2) ∈ l → y1 = y2.
Proof.
  induction l as [|[a b] l IH]; simpl.
  - intros _ Hx. by apply elem_of_nil in Hx.
  - rewrite NoDup_cons. intros [Hni Hnd].
    rewrite !elem_of_cons. intros [E1|H1] [E2|H2].
    + congruence.
    + injection E1 as -> ->. destruct Hni.
      apply list_elem_of_fmap. by exists (a, y2).
    + injection E2 as -> ->. destruct Hni.
      apply list_elem_of_fmap. by exists (a, y1).
    + by apply IH.
Qed.

Lemma all_nodes_functional w n d1 d2 :
  NoDup (all_ids w) → (n, d1) ∈ all_nodes w → (n, d2) ∈ all_nodes w → d1 = d2.
Proof. apply nodup_fst_functional. Qed.

(** ** Node-local updates *)

Lemma all_nodes_amend n g w :
  all_nodes (amend n g w) = amend_entry n g <$> all_nodes w.
Proof. unfold all_nodes, amend. simpl. by rewrite fmap_app, !nodes_modify. Qed.

Lemma all_ids_amend n g w : all_ids (amend n g w) = all_ids w.
Proof. rewrite !all_ids_app. unfold amend. simpl. by rewrite !ids_modify. Qed.

Lemma lookup_tree_amend m n g w :
  lookup_tree m (amend n g w) =
  (λ x, (if decide (m = n) then g x.1 else x.1, modify n g x.2))
    <$> lookup_tree m w.
Proof.
  unfold lookup_tree, amend. simpl. rewrite !tree_at_modify.
  by destruct (tree_at m (document w)).
Qed.

Lemma lookup_node_amend m n g w :
  lookup_node m (amend n g w) =
  (λ d, if decide (m = n) then g d else d) <$> lookup_node m w.
Proof.
  unfold lookup_node. rewrite lookup_tree_amend.
  by destruct (lookup_tree m w) as [[d ch]|].
Qed.

Lemma modify_modify n g1 g2 f :
  modify n g2 (modify n g1 f) = modify n (g2 ∘ g1) f.
Proof.
  induction f as [|i d ch IHch sib IHsib]; simpl; [done|].
  rewrite IHch, IHsib. by destruct (decide (i = n)).
Qed.

Lemma amend_amend n g1 g2 w :
  amend n g2 (amend n g1 w) = amend n (g2 ∘ g1) w.
Proof. unfold amend. simpl. by rewrite !modify_modify. Qed.

Lemma update_node_present n g w :
  n ∈ all_ids w → update_node n g w = Ok tt (amend n g w).
Proof.
  intros [d Hd]%lookup_node_is_Some. unfold update_node. by rewrite Hd.
Qed.

Lemma final_update_node n g w :
  final (update_node n g w) = if decide (n ∈ all_ids w) then amend n g w else w.
Proof.
  unfold update_node. destruct (decide (n ∈ all_ids w)) as [Hin|Hni].
  - apply lookup_node_is_Some in Hin as [d ->]. done.
  - apply lookup_node_None in Hni as ->. done.
Qed.

(* ===================================================================== *)
(** * The invariant of a session                                          *)
(* ===================================================================== *)

(** A node of a filter built by [createSVGFilter]: it has the expected
    tag and is not the container of the filters. *)
Definition stage (tag : string) (d : node) : Prop :=
  tagName d = tag ∧ attributes d !! "id" ≠ Some "liquid-glass-svg-filters".

(** The filter of an instance: a [filter] element with the three stages
    as its children, none of them [document.body]. *)
Definition filter_ok (w : world) (f : node_id) : Prop :=
  ∃ df t dt b db d dd,
    lookup_tree f w =
      Some (df, FCons t dt FNil (FCons b db FNil (FCons d dd FNil FNil)))
    ∧ stage "filter" df ∧ stage "feTurbulence" dt
    ∧ stage "feGaussianBlur" db ∧ stage "feDisplacementMap" dd
    ∧ body w ∉ [f; t; b; d].

Record invariant (w : world) : Prop := {
  inv_nodup : NoDup (all_ids w);
  inv_fresh : ∀ n, n ∈ all_ids w → n < next_id w;
  inv_body : body w < next_id w;
  inv_objects : ∀ o x, objects w !! o = Some x → o < next_obj w;
  inv_element : ∀ o x,
    objects w !! o = Some x → is_Some (svgFilter x) → element x ∈ all_ids w;
  inv_filter : ∀ o x f,
    objects w !! o = Some x → svgFilter x = Some f → filter_ok w f;
  inv_filter_id : ∀ o x,
    objects w !! o = Some x → svgFilterId x ≠ "liquid-glass-svg-filters";
}.

(** Updates of a node that leave its tag and its [id] alone. *)
Definition benign (g : node → node) : Prop :=
  ∀ d, tagName (g d) = tagName d ∧ attributes (g d) !! "id" = attributes d !! "id".

(** Updates of an object that leave its element and its filter alone. *)
Definition keeps (f : instance → instance) : Prop :=
  ∀ x, element (f x) = element x ∧ svgFilter (f x) = svgFilter x
       ∧ svgFilterId (f x) = svgFilterId x.

Lemma stage_benign g tag (n m : node_id) d :
  benign g → stage tag d → stage tag (if decide (m = n) then g d else d).
Proof.
  intros Hg [Ht Hi]. destruct (decide (m = n)); [|done].
  unfold stage. destruct (Hg d) as [-> ->]. done.
Qed.

Lemma filter_ok_amend n g w f :
  benign g → filter_ok w f → filter_ok (amend n g w) f.
Proof.
  intros Hg (df & t & dt & b & db & d & dd & Ht & Hf & H1 & H2 & H3 & Hb).
  unfold filter_ok. rewrite lookup_tree_amend, Ht. simpl.
  eexists _, _, _, _, _, _, _. split; [done|].
  split_and!; try by apply stage_benign. done.
Qed.

Lemma invariant_amend n g w :
  benign g → invariant w → invariant (amend n g w).
Proof.
  intros Hg [H1 H2 H3 H4 H5 H6 H7]. split; rewrite ?all_ids_amend; try done.
  intros o x f Ho Hf. apply filter_ok_amend; [done|]. by eapply H6.
Qed.

Lemma invariant_alter f o w :
  keeps f → invariant w → invariant (set_objects (alter f o) w).
Proof.
  intros Hf [H1 H2 H3 H4 H5 H6 H7]. split; try done; simpl.
  - intros o' x. destruct (decide (o = o')) as [->|Hne].
    + rewrite lookup_alter_eq. intros (y & Hy & _)%fmap_Some. by eapply H4.
    + rewrite lookup_alter_ne by done. apply H4.
  - intros o' x. destruct (decide (o = o')) as [->|Hne].
    + rewrite lookup_alter_eq. intros (y & Hy & ->)%fmap_Some.
      destruct (Hf y) as (-> & -> & _). by eapply H5.
    + rewrite lookup_alter_ne by done. apply H5.
  - intros o' x n. destruct (decide (o = o')) as [->|Hne].
    + rewrite lookup_alter_eq. intros (y & Hy & ->)%fmap_Some.
      destruct (Hf y) as (_ & -> & _). intros Hn. by eapply (H6 o' y).
    + rewrite lookup_alter_ne by done. apply H6.
  - intros o' x. destruct (decide (o = o')) as [->|Hne].
    + rewrite lookup_alter_eq. intros (y & Hy & ->)%fmap_Some.
      destruct (Hf y) as (_ & _ & ->). by eapply H7.
    + rewrite lookup_alter_ne by done. apply H7.
Qed.

(** ** Commands that keep the invariant, whatever their outcome *)

Definition safe {A} (c : M A) : Prop :=
  ∀ w, invariant w → invariant (final (c w)).

Lemma final_bind {A B} (c : M A) (k : A → M B) w :
  final (bind c k w) =
  match c w with
  | Ok a w' => final (k a w')
  | Throw _ w' => w'
  end.
Proof. unfold bind. by destruct (c w). Qed.

Lemma safe_bind {A B} (c : M A) (k : A → M B) :
  safe c → (∀ a, safe (k a)) → safe (bind c k).
Proof.
  intros Hc Hk w Hw. rewrite final_bind. specialize (Hc w Hw).
  destruct (c w); simpl in Hc; [by apply Hk | done].
Qed.

Lemma safe_ret {A} (a : A) : safe (ret a).
Proof. by intros w Hw. Qed.

Lemma safe_throw {A} e : safe (@throw A e).
Proof. by intros w Hw. Qed.

Lemma safe_read {A} (c : M A) :
  (∀ w, final (c w) = w) → safe c.
Proof. intros Hc w Hw. by rewrite Hc. Qed.

Lemma safe_get_this o : safe (get_this o).
Proof. apply safe_read. intros w. unfold get_this. by destruct (_ !! _). Qed.

Lemma safe_getBoundingClientRect n : safe (getBoundingClientRect n).
Proof.
  apply safe_read. intros w. unfold getBoundingClientRect.
  by destruct (lookup_node n w).
Qed.

Lemma safe_querySelector n tag : safe (querySelector n tag).
Proof.
  apply safe_read. intros w. unfold querySelector.
  by destruct (lookup_tree n w) as [[? ?]|].
Qed.

Lemma safe_parentNode n : safe (parentNode n).
Proof.
  apply safe_read. intros w. unfold parentNode.
  destruct (parent_in _ n (document w)); [done|].
  by destruct (parent_in _ n (detached w)).
Qed.

Lemma safe_update_node n g : benign g → safe (update_node n g).
Proof.
  intros Hg w Hw. rewrite final_update_node.
  destruct (decide _); [by apply invariant_amend | done].
Qed.

Lemma safe_update_this o f : keeps f → safe (update_this o f).
Proof.
  intros Hf w Hw. unfold update_this.
  destruct (objects w !! o); [by apply invariant_alter | done].
Qed.

Lemma safe_document_listeners (f : list (string * callback) → _) :
  safe (λ w, Ok tt (set_doc_listeners f w)).
Proof. intros w [H1 H2 H3 H4 H5 H6 H7]. by split. Qed.

Lemma safe_when_defined {A} (v : option A) k :
  (∀ a, safe (k a)) → safe (when_defined v k).
Proof. intros Hk. destruct v; [apply Hk | apply safe_ret]. Qed.

Lemma safe_forEach {A} (l : list A) f : (∀ a, safe (f a)) → safe (forEach l f).
Proof.
  intros Hf. induction l as [|a l IH]; simpl; [apply safe_ret|].
  apply safe_bind; [apply Hf | by intros _].
Qed.

Lemma benign_style f : benign (set_style f).
Proof. by intros d. Qed.

Lemma benign_classList f : benign (set_classList f).
Proof. by intros d. Qed.

Lemma benign_listeners f : benign (set_listeners f).
Proof. by intros d. Qed.

Lemma benign_rect l t : benign (set_rect l t).
Proof. by intros d. Qed.

Lemma benign_attribute name v :
  name ≠ "id" → benign (set_attributes <[name := v]>).
Proof. intros Hn d. simpl. by rewrite lookup_insert_ne. Qed.

Lemma keeps_options f : keeps (set_options f).
Proof. by intros x. Qed.

Lemma keeps_drag f : keeps (set_drag f).
Proof. by intros x. Qed.

Lemma keeps_cleanup : keeps set_cleanup.
Proof. by intros x. Qed.

Create HintDb safe discriminated.
#[global] Hint Resolve safe_ret safe_throw safe_get_this
  safe_getBoundingClientRect safe_querySelector safe_parentNode
  safe_update_node safe_update_this safe_document_listeners
  benign_style benign_classList benign_listeners benign_rect
  keeps_options keeps_drag keeps_cleanup : safe.

Ltac safe_step :=
  first
    [ solve [eauto with safe]
    | apply safe_bind; [|intros ?]
    | apply safe_when_defined; intros ?
    | apply safe_forEach; intros ?
    | apply benign_attribute; discriminate
    | match goal with
      | |- safe (match ?x with _ => _ end) => destruct x
      | |- safe (if ?x then _ else _) => destruct x
      end
    | apply safe_update_node ].

Ltac safe_auto := repeat safe_step.

Lemma safe_setProperty n p v : safe (setProperty n p v).
Proof. unfold setProperty. safe_auto. Qed.

Lemma safe_removeProperty n p : safe (removeProperty n p).
Proof. unfold removeProperty. safe_auto. Qed.

Lemma safe_assign_and_project o set p v : safe (assign_and_project o set p v).
Proof. unfold assign_and_project, setProperty. safe_auto. Qed.

#[global] Hint Resolve safe_setProperty safe_removeProperty
  safe_assign_and_project : safe.

Lemma safe_updateShadow o p : safe (updateShadow o p).
Proof. unfold updateShadow. safe_auto. Qed.

Lemma safe_updateTint o p : safe (updateTint o p).
Proof. unfold updateTint. safe_auto. Qed.

Lemma safe_updateFrost o v : safe (updateFrost o v).
Proof. unfold updateFrost. safe_auto. Qed.

Lemma safe_updateOuterShadow o p : safe (updateOuterShadow o p).
Proof. unfold updateOuterShadow. safe_auto. Qed.

Lemma safe_updateDistortion o p : safe (updateDistortion o p).
Proof. unfold updateDistortion, patch_stage, setAttribute. safe_auto. Qed.

Lemma safe_onMouseDown o e : safe (onMouseDown o e).
Proof. unfold onMouseDown. safe_auto. Qed.

Lemma safe_onMouseMove o e : safe (onMouseMove o e).
Proof. unfold onMouseMove. safe_auto. Qed.

Lemma safe_onMouseUp o : safe (onMouseUp o).
Proof. unfold onMouseUp. safe_auto. Qed.

Lemma safe_run_cleanup o : safe (run_cleanup o).
Proof.
  unfold run_cleanup, removeEventListener, document_removeEventListener.
  safe_auto.
Qed.

Lemma safe_makeDraggable o : safe (makeDraggable o).
Proof.
  unfold makeDraggable, addEventListener, document_addEventListener.
  safe_auto.
Qed.

Lemma safe_applyStyles o : safe (applyStyles o).
Proof. unfold applyStyles. safe_auto. Qed.

(** ** Detaching a tree *)

Lemma lookup_node_perm w w' n :
  NoDup (all_ids w) → all_nodes w' ≡ₚ all_nodes w →
  lookup_node n w' = lookup_node n w.
Proof.
  intros Hnd Hp.
  assert (Hids : all_ids w' ≡ₚ all_ids w) by (unfold all_ids; by rewrite Hp).
  destruct (lookup_node n w) as [d|] eqn:Hd.
  - apply lookup_node_elem in Hd as Hin.
    assert (is_Some (lookup_node n w')) as [d' Hd'].
    { apply lookup_node_is_Some. rewrite Hids.
      apply list_elem_of_fmap. by exists (n, d). }
    rewrite Hd'. f_equal. apply lookup_node_elem in Hd'. rewrite Hp in Hd'.
    by eapply all_nodes_functional.
  - apply lookup_node_None. rewrite Hids. by apply lookup_node_None.
Qed.

Lemma detach_fields c w w' :
  detach c w = Some w' →
  body w' = body w ∧ next_id w' = next_id w ∧ objects w' = objects w
  ∧ doc_listeners w' = doc_listeners w ∧ next_obj w' = next_obj w.
Proof.
  unfold detach. intros Hd.
  destruct (extract c (document w)) as [[[d ch] doc']|].
  - by injection Hd as <-.
  - destruct (extract c (detached w)) as [[[d ch] det']|]; [|done].
    by injection Hd as <-.
Qed.

Lemma detach_perm c w w' :
  detach c w = Some w' → all_nodes w' ≡ₚ all_nodes w.
Proof.
  unfold detach, all_nodes. intros Hd.
  destruct (extract c (document w)) as [[[d ch] doc']|] eqn:He.
  - injection Hd as <-. simpl. apply extract_perm in He. rewrite He. simpl.
    rewrite (Permutation_app_comm (nodes doc')). simpl.
    by rewrite <- !app_assoc, (Permutation_app_comm (nodes doc')).
  - destruct (extract c (detached w)) as [[[d ch] det']|] eqn:He'.
    2: done.
    injection Hd as <-. simpl. apply extract_perm in He'. by rewrite He'.
Qed.

Lemma detach_is_Some c w : c ∈ all_ids w → is_Some (detach c w).
Proof.
  rewrite all_ids_app, elem_of_app. unfold detach. intros Hc.
  destruct (extract c (document w)) as [[[d ch] doc']|] eqn:He; [done|].
  destruct (extract c (detached w)) as [[[d ch] det']|] eqn:He'; [done|].
  apply extract_None in He, He'. tauto.
Qed.

(** The detached tree is a root outside the document, unchanged. *)
Lemma detach_self c w w' :
  NoDup (all_ids w) → detach c w = Some w' →
  lookup_tree c w' = lookup_tree c w
  ∧ (c ∉ ids (document w'))
  ∧ ∃ d ch det, detached w' = FCons c d ch det.
Proof.
  rewrite all_ids_app. unfold detach, lookup_tree. intros Hnd Hd.
  destruct (extract c (document w)) as [[[d ch] doc']|] eqn:He.
  - injection Hd as <-. simpl.
    apply extract_tree_at in He as Ht. rewrite Ht.
    apply extract_perm in He.
    assert (c ∉ ids doc') as Hc.
    { apply NoDup_app in Hnd as (Hnd & _ & _). unfold ids in Hnd |- *.
      rewrite He in Hnd. simpl in Hnd. apply NoDup_cons in Hnd as [Hni _].
      rewrite fmap_app, not_elem_of_app in Hni. tauto. }
    split_and!; [|done|by eexists _, _, _].
    apply tree_at_None in Hc. rewrite Hc. by rewrite decide_True.
  - destruct (extract c (detached w)) as [[[d ch] det']|] eqn:He'.
    2: done.
    injection Hd as <-. simpl.
    apply extract_None in He as Hc. apply tree_at_None in Hc as Hc'.
    rewrite Hc'. apply extract_tree_at in He' as ->.
    split_and!; [|done|by eexists _, _, _].
    by rewrite decide_True.
Qed.

(** A tree that is neither detached nor around the detached one stays. *)
Lemma detach_other c w w' d ch n dn chn :
  detach c w = Some w' → lookup_tree c w = Some (d, ch) →
  lookup_tree n w = Some (dn, chn) →
  n ≠ c → c ∉ ids chn → n ∉ ids ch →
  lookup_tree n w' = Some (dn, chn).
Proof.
  unfold detach, lookup_tree. intros Hd Hc Hn Hne Hc' Hn'.
  destruct (extract c (document w)) as [[[d0 ch0] doc']|] eqn:He.
  - injection Hd as <-. simpl. apply extract_tree_at in He as Ht.
    rewrite Ht in Hc. injection Hc as -> ->.
    destruct (tree_at n (document w)) as [x|] eqn:Hx.
    + injection Hn as ->.
      by rewrite (tree_at_extract_other _ _ _ _ _ _ _ _ He Hx Hne Hc' Hn').
    + assert (tree_at n doc' = None) as ->.
      { apply tree_at_None. apply tree_at_None in Hx.
        apply extract_perm in He. unfold ids in Hx. rewrite He in Hx.
        simpl in Hx. rewrite fmap_app in Hx.
        rewrite not_elem_of_cons, not_elem_of_app in Hx.
        by destruct Hx as (_ & _ & ?). }
      rewrite decide_False by done.
      apply tree_at_None in Hn'. by rewrite Hn'.
  - destruct (extract c (detached w)) as [[[d0 ch0] det']|] eqn:He'.
    2: done.
    injection Hd as <-. simpl. apply extract_tree_at in He' as Ht.
    apply extract_None, tree_at_None in He. rewrite He in Hc.
    rewrite Ht in Hc. injection Hc as -> ->.
    destruct (tree_at n (document w)) as [x|] eqn:Hx; [done|].
    rewrite decide_False by done.
    rewrite (proj2 (tree_at_None _ _) Hn').
    by apply (tree_at_extract_other _ _ _ _ _ _ _ _ He' Hn Hne Hc' Hn').
Qed.

(** The nodes of two filters are apart: a stage is no filter. *)
Definition stages_only (ch : forest) : Prop :=
  ∀ x, x ∈ nodes ch → ∃ tag, tag ≠ "filter" ∧ stage tag x.2.

Lemma three_stages t dt b db d dd :
  stage "feTurbulence" dt → stage "feGaussianBlur" db →
  stage "feDisplacementMap" dd →
  stages_only (FCons t dt FNil (FCons b db FNil (FCons d dd FNil FNil))).
Proof.
  intros St Sb Sd x. simpl. rewrite !elem_of_cons.
  intros [->|[->|[->|Hx]]]; simpl.
  - by exists "feTurbulence".
  - by exists "feGaussianBlur".
  - by exists "feDisplacementMap".
  - by apply elem_of_nil in Hx.
Qed.

Lemma filter_apart w f df chf f' df' chf' :
  NoDup (all_ids w) →
  lookup_tree f w = Some (df, chf) → stage "filter" df →
  lookup_tree f' w = Some (df', chf') → stages_only chf' →
  f ∉ ids chf'.
Proof.
  intros Hnd Hf [Sf _] Hf' Hs ([f0 d] & -> & Hin)%list_elem_of_fmap.
  simpl in *. destruct (Hs _ Hin) as (tag & Hne & [Htag _]). simpl in Htag.
  apply (lookup_tree_children _ _ _ _ _ Hf') in Hin.
  apply lookup_tree_elem in Hf.
  rewrite (all_nodes_functional _ _ _ _ Hnd Hin Hf) in Htag. congruence.
Qed.

Lemma invariant_detach f w w' :
  invariant w → filter_ok w f → detach f w = Some w' → invariant w'.
Proof.
  intros [H1 H2 H3 H4 H5 H6 H7] Hf Hd.
  destruct (detach_fields _ _ _ Hd) as (Eb & En & Eo & _ & Eno).
  pose proof (detach_perm _ _ _ Hd) as Hp.
  assert (Hids : all_ids w' ≡ₚ all_ids w) by (unfold all_ids; by rewrite Hp).
  split; rewrite ?Hids, ?Eb, ?En, ?Eo, ?Eno; try done.
  - intros n Hn. apply H2. by rewrite <- Hids.
  - intros o x ??. rewrite Hids. by eapply H5.
  - intros o x f' Ho Hx. specialize (H6 o x f' Ho Hx).
    destruct Hf as (df & t & dt & b & db & d & dd & Ht & Sf & St & Sb & Sd & Hb).
    destruct (decide (f' = f)) as [->|Hne].
    { destruct (detach_self _ _ _ H1 Hd) as (E & _ & _).
      exists df, t, dt, b, db, d, dd. rewrite E, Eb. done. }
    destruct H6 as (df' & t' & dt' & b' & db' & d' & dd' & Ht' & Sf' & St'
                    & Sb' & Sd' & Hb').
    exists df', t', dt', b', db', d', dd'. rewrite Eb. split_and!; try done.
    eapply detach_other; [done..| |].
    + eapply (filter_apart w f); [done..|]. by apply three_stages.
    + eapply (filter_apart w f'); [done..|]. by apply three_stages.
Qed.

Lemma final_parentNode c w r : parentNode c w = r → final r = w.
Proof.
  unfold parentNode. intros <-.
  destruct (parent_in _ c (document w)); [done|].
  by destruct (parent_in _ c (detached w)).
Qed.

Lemma invariant_removeChild p f w :
  invariant w → filter_ok w f → invariant (final (removeChild p f w)).
Proof.
  intros Hw Hf. unfold removeChild.
  destruct (parentNode f w) as [[p'|] w0|e w0]; [|done..].
  destruct (decide (p' = p)); [|done].
  destruct (detach f w) as [w'|] eqn:Hd; [|done].
  by eapply invariant_detach.
Qed.

Lemma safe_destroy o : safe (destroy o).
Proof.
  intros w Hw. unfold destroy. rewrite final_bind. unfold get_this.
  destruct (objects w !! o) as [x|] eqn:Ho; [|done].
  rewrite final_bind.
  match goal with |- invariant (match ?r with _ => _ end) =>
    assert (invariant (final r)) as Hr; [|destruct r as [[] w1|e w1]] end.
  { destruct (svgFilter x) as [f|] eqn:Hf; [|done].
    rewrite final_bind.
    destruct (parentNode f w) as [[p|] w0|e w0] eqn:Hp;
      apply final_parentNode in Hp; simpl in Hp; subst w0; [|done..].
    apply invariant_removeChild; [done|]. by eapply inv_filter. }
  2: done.
  simpl in Hr. revert w1 Hr.
  change (safe (
    classList_remove (element x) "liquid-glass" ;;;
    (if cleanup x then run_cleanup o else ret ()) ;;;
    forEach stylesToRemove (removeProperty (element x)))).
  unfold classList_remove.
  pose proof safe_run_cleanup. safe_auto.
Qed.

(* ===================================================================== *)
(** * What the constructor builds                                         *)
(* ===================================================================== *)

Lemma bind_Ok {A B} (c : M A) (k : A → M B) w a w' :
  c w = Ok a w' → bind c k w = k a w'.
Proof. unfold bind. by intros ->. Qed.

Lemma bind_Throw {A B} (c : M A) (k : A → M B) w e w' :
  c w = Throw e w' → bind c k w = Throw e w'.
Proof. unfold bind. by intros ->. Qed.

Lemma fresh_above (l : list node_id) nx n :
  (∀ m, m ∈ l → m < nx) → nx ≤ n → n ∉ l.
Proof. intros Hl Hn Hin. apply Hl in Hin. lia. Qed.

(** A call on the node just created, which is the first of the detached
    trees and has no children yet. *)
Lemma update_front n g doc d det b nx dl ob no :
  n ∉ ids doc → n ∉ ids det →
  update_node n g (World doc (FCons n d FNil det) b nx dl ob no) =
  Ok tt (World doc (FCons n (g d) FNil det) b nx dl ob no).
Proof.
  intros Hdoc Hdet. unfold update_node, lookup_node, lookup_tree, amend.
  simpl. rewrite (proj2 (tree_at_None _ _) Hdoc). simpl.
  rewrite !decide_True by done. simpl.
  by rewrite !modify_notin by done.
Qed.

(** The three stages, created last to first, become the children of
    the filter. *)
Lemma assemble {A} (k : M A) f Df t Dt b Db d Dd doc det bo nx dl ob no :
  f ≠ t → f ≠ b → f ≠ d → t ≠ b → t ≠ d → b ≠ d →
  f ∉ ids doc → t ∉ ids doc → b ∉ ids doc → d ∉ ids doc →
  (appendChild f t ;;; appendChild f b ;;; appendChild f d ;;; k)
    (World doc
       (FCons d Dd FNil (FCons b Db FNil (FCons t Dt FNil
          (FCons f Df FNil det))))
       bo nx dl ob no) =
  k (World doc
       (FCons f Df
          (FCons t Dt FNil (FCons b Db FNil (FCons d Dd FNil FNil)))
          det)
       bo nx dl ob no).
Proof.
  intros Hft Hfb Hfd Htb Htd Hbd Hf Ht Hb Hd.
  pose proof (proj2 (tree_at_None _ _) Hf) as Tf.
  pose proof (proj2 (extract_None _ _) Ht) as Et.
  pose proof (proj2 (extract_None _ _) Hb) as Eb.
  pose proof (proj2 (extract_None _ _) Hd) as Ed.
  pose proof (λ c dc ch, proj2 (attach_None f c dc ch _) Hf) as Af.
  unfold bind, appendChild, place, lookup_node, lookup_tree. simpl.
  repeat (first [ rewrite Tf | rewrite Et | rewrite Eb | rewrite Ed
                | rewrite Af
                | rewrite decide_True by done
                | rewrite decide_False by congruence ]; simpl).
  done.
Qed.

(** The first detached tree becomes the last child of a node of the
    document. *)
Lemma append_front p c d ch doc doc' det bo nx dl ob no :
  c ∉ ids doc → attach p c d ch doc = Some doc' →
  appendChild p c (World doc (FCons c d ch det) bo nx dl ob no) =
  Ok tt (World doc' det bo nx dl ob no).
Proof.
  intros Hc Ha. unfold appendChild, place, lookup_node, lookup_tree. simpl.
  destruct (tree_at p doc) as [x|] eqn:Hp.
  - simpl. rewrite (proj2 (extract_None _ _) Hc). simpl.
    rewrite decide_True by done. by rewrite Ha.
  - apply tree_at_None, (attach_None p c d ch) in Hp. congruence.
Qed.

Arguments JS.to_string : simpl never.
Arguments JS.exec : simpl never.
Arguments declare : simpl never.
Arguments token_add : simpl never.
Arguments token_remove : simpl never.

(** The nodes [createSVGFilter] creates, with the attributes and the
    declarations it gives them. *)
Definition svg_node : node :=
  Node svg_ns "svg" (<["id" := "liquid-glass-svg-filters"]> ∅)
       (<["height" := "0"]> (<["width" := "0"]>
          (<["position" := "absolute"]> ∅)))
       [] [] 0%float 0%float.

Definition filter_node (x : instance) : node :=
  Node svg_ns "filter"
       (<["height" := "100%"]> (<["width" := "100%"]> (<["y" := "0%"]>
          (<["x" := "0%"]> (<["id" := svgFilterId x]> ∅)))))
       ∅ [] [] 0%float 0%float.

Definition turbulence_node (x : instance) : node :=
  Node svg_ns "feTurbulence"
       (<["result" := "noise"]> (<["numOctaves" := "3"]>
          (<["baseFrequency" := JS.to_string (noiseFrequency (options x))]>
             (<["type" := "fractalNoise"]> ∅))))
       ∅ [] [] 0%float 0%float.

Definition blur_node : node :=
  Node svg_ns "feGaussianBlur"
       (<["result" := "blurred"]> (<["stdDeviation" := "0.6"]>
          (<["in" := "noise"]> ∅)))
       ∅ [] [] 0%float 0%float.

Definition displacement_node (x : instance) : node :=
  Node svg_ns "feDisplacementMap"
       (<["yChannelSelector" := "G"]> (<["xChannelSelector" := "R"]>
          (<["scale" := JS.to_string (distortionStrength (options x))]>
             (<["in2" := "blurred"]> (<["in" := "SourceGraphic"]> ∅)))))
       ∅ [] [] 0%float 0%float.

(** The stages of the filter numbered [f], in order. *)
Definition filter_tree (x : instance) (f : node_id) : forest :=
  FCons (1 + f) (turbulence_node x) FNil
    (FCons (2 + f) blur_node FNil
       (FCons (3 + f) (displacement_node x) FNil FNil)).

Ltac fresh_tac :=
  rewrite ?ids_cons; simpl;
  rewrite ?not_elem_of_cons, ?not_elem_of_app; split_and?;
  first [ lia | apply not_elem_of_nil
        | (eapply fresh_above; [eassumption | lia]) ].

Ltac run_step :=
  erewrite bind_Ok;
  [| first [ reflexivity
           | apply update_front; fresh_tac
           | eassumption ] ].

(** The filter is built outside the document, then hung under the
    container [r]. *)
Lemma build_filter this x w r doc' :
  objects w !! this = Some x →
  (∀ n, n ∈ ids (document w) → n < next_id w) →
  (∀ n, n ∈ ids (detached w) → n < next_id w) →
  attach r (next_id w) (filter_node x) (filter_tree x (next_id w))
         (document w) = Some doc' →
  (let* filter := createElementNS svg_ns "filter" in
   setAttribute filter "id" (svgFilterId x) ;;;
   setAttribute filter "x" "0%" ;;;
   setAttribute filter "y" "0%" ;;;
   setAttribute filter "width" "100%" ;;;
   setAttribute filter "height" "100%" ;;;
   let* turbulence := createElementNS svg_ns "feTurbulence" in
   setAttribute turbulence "type" "fractalNoise" ;;;
   setAttribute turbulence "baseFrequency"
                (JS.to_string (noiseFrequency (options x))) ;;;
   setAttribute turbulence "numOctaves" "3" ;;;
   setAttribute turbulence "result" "noise" ;;;
   let* blur := createElementNS svg_ns "feGaussianBlur" in
   setAttribute blur "in" "noise" ;;;
   setAttribute blur "stdDeviation" "0.6" ;;;
   setAttribute blur "result" "blurred" ;;;
   let* displacement := createElementNS svg_ns "feDisplacementMap" in
   setAttribute displacement "in" "SourceGraphic" ;;;
   setAttribute displacement "in2" "blurred" ;;;
   setAttribute displacement "scale"
                (JS.to_string (distortionStrength (options x))) ;;;
   setAttribute displacement "xChannelSelector" "R" ;;;
   setAttribute displacement "yChannelSelector" "G" ;;;
   appendChild filter turbulence ;;;
   appendChild filter blur ;;;
   appendChild filter displacement ;;;
   appendChild r filter ;;;
   update_this this (set_svgFilter filter)) w =
  Ok tt (World doc' (detached w) (body w) (4 + next_id w) (doc_listeners w)
               (alter (set_svgFilter (next_id w)) this (objects w))
               (next_obj w)).
Proof.
  intros Ho Hdoc Hdet Ha. destruct w as [doc det bo nx dl ob no].
  simpl in *. unfold setAttribute, createElementNS.
  do 21 (run_step; simpl).
  rewrite assemble by fresh_tac.
  erewrite bind_Ok; [|by apply append_front; [fresh_tac|]].
  unfold update_this. simpl. by rewrite Ho.
Qed.

(** ** The invariant through the constructor *)

(** The node [p] is no part of the filter of an instance. *)
Definition outside_filters (w : world) (p : node_id) : Prop :=
  ∀ o x f df chf,
    objects w !! o = Some x → svgFilter x = Some f →
    lookup_tree f w = Some (df, chf) → p ≠ f ∧ p ∉ ids chf.

Lemma lookup_tree_attach_other p c d ch w doc' nx' n dn chn :
  attach p c d ch (document w) = Some doc' →
  lookup_tree n w = Some (dn, chn) →
  n ≠ p → p ∉ ids chn → n ≠ c → n ∉ ids ch →
  lookup_tree n (World doc' (detached w) (body w) nx' (doc_listeners w)
                       (objects w) (next_obj w)) = Some (dn, chn).
Proof.
  unfold lookup_tree. simpl. intros Ha Hn Hnp Hp Hnc Hnch.
  destruct (tree_at n (document w)) as [y|] eqn:Hy.
  - injection Hn as ->.
    by rewrite (tree_at_attach_other _ _ _ _ _ _ _ _ _ Ha Hy).
  - assert (tree_at n doc' = None) as ->; [|done].
    apply tree_at_None. apply tree_at_None in Hy.
    apply attach_perm in Ha. unfold ids. rewrite Ha. simpl.
    rewrite fmap_app, not_elem_of_cons, !not_elem_of_app. done.
Qed.

Lemma invariant_attach w p c d ch doc' nx' :
  invariant w →
  attach p c d ch (document w) = Some doc' →
  NoDup (c :: ids ch) →
  (∀ n, n ∈ c :: ids ch → next_id w ≤ n < nx') →
  outside_filters w p →
  invariant (World doc' (detached w) (body w) nx' (doc_listeners w)
                   (objects w) (next_obj w)).
Proof.
  intros [H1 H2 H3 H4 H5 H6 H7] Ha Hnd Hnew Hp.
  assert (Hids : all_ids (World doc' (detached w) (body w) nx'
                     (doc_listeners w) (objects w) (next_obj w))
                 ≡ₚ (c :: ids ch) ++ all_ids w).
  { rewrite !all_ids_app. simpl. apply attach_perm in Ha. unfold ids.
    rewrite Ha. simpl. by rewrite !fmap_app, <- !app_assoc. }
  assert (Hle : next_id w ≤ nx').
  { assert (next_id w ≤ c < nx') by (apply Hnew; left). lia. }
  split; simpl; try done.
  - rewrite Hids. apply NoDup_app. split_and!; [done| |done].
    intros n Hn Hn'. apply Hnew in Hn. apply H2 in Hn'. lia.
  - intros n. rewrite Hids, elem_of_app. intros [Hn|Hn].
    + apply Hnew in Hn. lia.
    + apply H2 in Hn. lia.
  - lia.
  - intros o x Ho Hx. rewrite Hids, elem_of_app. right. by eapply H5.
  - intros o x f Ho Hx.
    destruct (H6 o x f Ho Hx)
      as (df & t & dt & b & db & d0 & dd & Ht & Sf & St & Sb & Sd & Hb).
    exists df, t, dt, b, db, d0, dd. split_and!; try done.
    destruct (Hp _ _ _ _ _ Ho Hx Ht) as [Hpf Hpc].
    assert (Hold : ∀ n, n ∈ all_ids w → n ≠ c ∧ n ∉ ids ch).
    { intros n Hn. apply H2 in Hn. split.
      - intros ->. assert (next_id w ≤ c < nx') by (apply Hnew; left). lia.
      - intros Hin.
        assert (next_id w ≤ n < nx') by (apply Hnew; by right). lia. }
    destruct (Hold f) as [Hfc Hfch].
    { apply lookup_tree_elem in Ht. apply list_elem_of_fmap.
      by exists (f, df). }
    by apply (lookup_tree_attach_other p c d ch).
Qed.

(** A new node outside the document. *)
Lemma invariant_push w d :
  invariant w →
  invariant (World (document w) (FCons (next_id w) d FNil (detached w))
                   (body w) (S (next_id w)) (doc_listeners w) (objects w)
                   (next_obj w)).
Proof.
  intros [H1 H2 H3 H4 H5 H6 H7].
  assert (Hids : all_ids (World (document w)
                     (FCons (next_id w) d FNil (detached w))
                     (body w) (S (next_id w)) (doc_listeners w) (objects w)
                     (next_obj w))
                 ≡ₚ next_id w :: all_ids w).
  { rewrite !all_ids_app. simpl. rewrite ids_cons. simpl.
    by rewrite Permutation_middle. }
  assert (Hnew : next_id w ∉ all_ids w).
  { intros Hin. apply H2 in Hin. lia. }
  split; simpl; try done.
  - rewrite Hids. by apply NoDup_cons.
  - intros n. rewrite Hids, elem_of_cons. intros [->|Hn]; [lia|].
    apply H2 in Hn. lia.
  - lia.
  - intros o x Ho Hx. rewrite Hids. right. by eapply H5.
  - intros o x f Ho Hx.
    destruct (H6 o x f Ho Hx)
      as (df & t & dt & b & db & d0 & dd & Ht & Sf & St & Sb & Sd & Hb).
    exists df, t, dt, b, db, d0, dd. split_and!; try done.
    unfold lookup_tree in *. simpl.
    destruct (tree_at f (document w)); [done|].
    rewrite decide_False; [done|]. intros <-.
    apply Hnew. rewrite all_ids_app, elem_of_app. right.
    destruct (decide (next_id w ∈ ids (detached w))) as [|Hni]; [done|].
    apply tree_at_None in Hni. congruence.
Qed.

Lemma invariant_set_filter w this x f :
  invariant w → objects w !! this = Some x →
  element x ∈ all_ids w → filter_ok w f →
  invariant (set_objects (alter (set_svgFilter f) this) w).
Proof.
  intros [H1 H2 H3 H4 H5 H6 H7] Ho Hel Hf. split; try done; simpl.
  - intros o' y. destruct (decide (this = o')) as [->|Hne].
    + rewrite lookup_alter_eq. intros (z & Hz & _)%fmap_Some. by eapply H4.
    + rewrite lookup_alter_ne by done. apply H4.
  - intros o' y. destruct (decide (this = o')) as [->|Hne].
    + rewrite lookup_alter_eq, Ho. by intros [= <-].
    + rewrite lookup_alter_ne by done. apply H5.
  - intros o' y n. destruct (decide (this = o')) as [->|Hne].
    + rewrite lookup_alter_eq, Ho. by intros [= <-] [= <-].
    + rewrite lookup_alter_ne by done. apply H6.
  - intros o' y. destruct (decide (this = o')) as [->|Hne].
    + rewrite lookup_alter_eq, Ho. intros [= <-]. simpl. by apply (H7 o' x).
    + rewrite lookup_alter_ne by done. apply H7.
Qed.

Lemma new_filter_ok w x f :
  lookup_tree f w = Some (filter_node x, filter_tree x f) →
  svgFilterId x ≠ "liquid-glass-svg-filters" → body w < f →
  filter_ok w f.
Proof.
  intros Ht Hid Hb.
  exists (filter_node x), (1 + f), (turbulence_node x), (2 + f), blur_node,
         (3 + f), (displacement_node x).
  split; [done|]. unfold stage. simpl.
  rewrite !lookup_insert_ne, ?lookup_insert_eq, ?lookup_empty by done.
  split_and!; try done.
  - congruence.
  - rewrite !not_elem_of_cons. split_and!; try lia. apply not_elem_of_nil.
Qed.

(** *** [createSVGFilter], in closed form *)

(** The container is in the document already. *)
Lemma createSVGFilter_found this x w r dr doc' :
  objects w !! this = Some x →
  (∀ n, n ∈ all_ids w → n < next_id w) →
  find_node (has_attribute "id" "liquid-glass-svg-filters") (document w)
    = Some (r, dr) →
  attach r (next_id w) (filter_node x) (filter_tree x (next_id w))
         (document w) = Some doc' →
  createSVGFilter this w =
  Ok tt (World doc' (detached w) (body w) (4 + next_id w) (doc_listeners w)
               (alter (set_svgFilter (next_id w)) this (objects w))
               (next_obj w)).
Proof.
  intros Ho Hfresh Hfind Ha. unfold createSVGFilter.
  erewrite bind_Ok; [|unfold get_this; by rewrite Ho].
  erewrite bind_Ok; [|reflexivity]. rewrite Hfind. simpl.
  erewrite bind_Ok; [|reflexivity].
  apply build_filter; try done.
  - intros n Hn. apply Hfresh. rewrite all_ids_app, elem_of_app. by left.
  - intros n Hn. apply Hfresh. rewrite all_ids_app, elem_of_app. by right.
Qed.

(** No container yet: it is created and becomes the last child of
    [document.body]. *)
Lemma createSVGFilter_created this x w doc1 doc2 :
  objects w !! this = Some x →
  (∀ n, n ∈ all_ids w → n < next_id w) →
  find_node (has_attribute "id" "liquid-glass-svg-filters") (document w)
    = None →
  attach (body w) (next_id w) svg_node FNil (document w) = Some doc1 →
  attach (next_id w) (S (next_id w)) (filter_node x)
         (filter_tree x (S (next_id w))) doc1 = Some doc2 →
  createSVGFilter this w =
  Ok tt (World doc2 (detached w) (body w) (5 + next_id w) (doc_listeners w)
               (alter (set_svgFilter (S (next_id w))) this (objects w))
               (next_obj w)).
Proof.
  intros Ho Hfresh Hfind Ha1 Ha2. unfold createSVGFilter.
  assert (Hdoc : ∀ n, n ∈ ids (document w) → n < next_id w).
  { intros n Hn. apply Hfresh. rewrite all_ids_app, elem_of_app. by left. }
  assert (Hdet : ∀ n, n ∈ ids (detached w) → n < next_id w).
  { intros n Hn. apply Hfresh. rewrite all_ids_app, elem_of_app. by right. }
  assert (Hbody : is_Some (tree_at (body w) (document w))).
  { apply not_eq_None_Some. intros Hn.
    apply tree_at_None, (attach_None _ (next_id w) svg_node FNil) in Hn.
    congruence. }
  destruct Hbody as [tb Hbody].
  erewrite bind_Ok; [|unfold get_this; by rewrite Ho].
  erewrite bind_Ok; [|reflexivity]. rewrite Hfind. simpl.
  destruct w as [doc det bo nx dl ob no]. simpl in *.
  unfold setAttribute, setProperty, createElementNS.
  erewrite bind_Ok.
  2:{ do 5 (run_step; simpl).
      erewrite bind_Ok; [|unfold document_body; simpl; by rewrite Hbody].
      erewrite bind_Ok; [|by apply append_front; [fresh_tac|]].
      reflexivity. }
  change (S (S (S (S (S nx))))) with (4 + S nx).
  apply (build_filter this x (World doc1 det bo (S nx) dl ob no));
    simpl; try done.
  intros n Hn. apply attach_perm in Ha1. unfold ids in Hn. rewrite Ha1 in Hn.
  simpl in Hn. apply elem_of_cons in Hn as [->|Hn]; [lia|].
  apply Hdoc in Hn. lia.
  intros n Hn. apply Hdet in Hn. lia.
Qed.

(** No container and no [document.body]: the call fails, leaving the
    container it created outside the document. *)
Lemma createSVGFilter_nobody this x w :
  objects w !! this = Some x →
  (∀ n, n ∈ all_ids w → n < next_id w) →
  find_node (has_attribute "id" "liquid-glass-svg-filters") (document w)
    = None →
  body w ∉ ids (document w) →
  createSVGFilter this w =
  Throw TypeError
        (World (document w) (FCons (next_id w) svg_node FNil (detached w))
               (body w) (S (next_id w)) (doc_listeners w) (objects w)
               (next_obj w)).
Proof.
  intros Ho Hfresh Hfind Hbody. unfold createSVGFilter.
  assert (Hdoc : ∀ n, n ∈ ids (document w) → n < next_id w).
  { intros n Hn. apply Hfresh. rewrite all_ids_app, elem_of_app. by left. }
  assert (Hdet : ∀ n, n ∈ ids (detached w) → n < next_id w).
  { intros n Hn. apply Hfresh. rewrite all_ids_app, elem_of_app. by right. }
  apply tree_at_None in Hbody.
  erewrite bind_Ok; [|unfold get_this; by rewrite Ho].
  erewrite bind_Ok; [|reflexivity]. rewrite Hfind. simpl.
  destruct w as [doc det bo nx dl ob no]. simpl in *.
  unfold setAttribute, setProperty, createElementNS.
  erewrite bind_Throw; [done|].
  do 5 (run_step; simpl).
  erewrite bind_Ok; [|unfold document_body; simpl; by rewrite Hbody].
  reflexivity.
Qed.

Lemma outside_filters_container w p dp :
  invariant w → (p, dp) ∈ all_nodes w →
  attributes dp !! "id" = Some "liquid-glass-svg-filters" →
  outside_filters w p.
Proof.
  intros Hw Hp Hid o x f df chf Ho Hx Ht.
  destruct (inv_filter w Hw o x f Ho Hx)
    as (df' & t & dt & b & db & d & dd & Ht' & Sf & St & Sb & Sd & Hb).
  rewrite Ht in Ht'. injection Ht' as -> ->.
  assert (Hno : ∀ n dn tag, (n, dn) ∈ all_nodes w → stage tag dn → p ≠ n).
  { intros n dn tag Hn [_ Hs] ->.
    by rewrite (all_nodes_functional _ _ _ _ (inv_nodup w Hw) Hn Hp) in Hs. }
  split.
  - apply (Hno f df' "filter"); [|done]. by eapply lookup_tree_elem.
  - unfold ids. simpl. rewrite !not_elem_of_cons.
    split_and!; [| | |apply not_elem_of_nil].
    + apply (Hno t dt "feTurbulence"); [|done].
      eapply lookup_tree_children; [done|]. simpl. left.
    + apply (Hno b db "feGaussianBlur"); [|done].
      eapply lookup_tree_children; [done|]. simpl. right. left.
    + apply (Hno d dd "feDisplacementMap"); [|done].
      eapply lookup_tree_children; [done|]. simpl. do 2 right. left.
Qed.

Lemma outside_filters_body w : invariant w → outside_filters w (body w).
Proof.
  intros Hw o x f df chf Ho Hx Ht.
  destruct (inv_filter w Hw o x f Ho Hx)
    as (df' & t & dt & b & db & d & dd & Ht' & Sf & St & Sb & Sd & Hb).
  rewrite Ht in Ht'. injection Ht' as -> ->.
  unfold ids. simpl. rewrite !not_elem_of_cons in Hb |- *.
  destruct Hb as (? & ? & ? & Hd). rewrite not_elem_of_cons in Hd.
  destruct Hd. split_and!; done.
Qed.

Lemma filter_tree_ids x f :
  f :: ids (filter_tree x f) = [f; 1 + f; 2 + f; 3 + f].
Proof. done. Qed.

Lemma filter_tree_new x f nx :
  nx ≤ f →
  NoDup (f :: ids (filter_tree x f))
  ∧ ∀ n, n ∈ f :: ids (filter_tree x f) → nx ≤ n < 4 + f.
Proof.
  intros Hle. rewrite filter_tree_ids. split.
  - repeat (apply NoDup_cons; split;
            [rewrite ?not_elem_of_cons; split_and?; try lia;
             apply not_elem_of_nil|]).
    apply NoDup_nil_2.
  - intros n. rewrite !elem_of_cons.
    intros [->|[->|[->|[->|Hn]]]]; try lia. by apply elem_of_nil in Hn.
Qed.

(** Hanging the new filter under a container keeps the invariant, and
    the filter becomes the filter of [this]. *)
Lemma invariant_hang w this x r doc' :
  invariant w → objects w !! this = Some x → element x ∈ all_ids w →
  outside_filters w r →
  attach r (next_id w) (filter_node x) (filter_tree x (next_id w))
         (document w) = Some doc' →
  invariant (World doc' (detached w) (body w) (4 + next_id w)
                   (doc_listeners w)
                   (alter (set_svgFilter (next_id w)) this (objects w))
                   (next_obj w)).
Proof.
  intros Hw Ho Hel Hr Ha.
  destruct (filter_tree_new x (next_id w) (next_id w)) as [Hnd Hrange];
    [done|].
  pose proof (invariant_attach w r _ _ _ doc' (4 + next_id w)
                Hw Ha Hnd Hrange Hr) as Hw'.
  apply (invariant_set_filter _ this x (next_id w)) in Hw'; try done.
  - rewrite all_ids_app in Hel |- *. simpl.
    apply elem_of_app in Hel as [Hel|Hel]; apply elem_of_app; [left|by right].
    apply attach_perm in Ha. unfold ids. rewrite Ha.
    rewrite fmap_cons, fmap_app, elem_of_cons, elem_of_app. by do 2 right.
  - apply (new_filter_ok _ x); simpl.
    + unfold lookup_tree. simpl.
      erewrite tree_at_attach_new; [done..|].
      intros Hin. assert (next_id w ∈ all_ids w) as Hin'.
      { rewrite all_ids_app, elem_of_app. by left. }
      apply (inv_fresh w Hw) in Hin'. lia.
    + by eapply (inv_filter_id w Hw).
    + apply (inv_body w Hw).
Qed.

Lemma invariant_createSVGFilter this x w :
  invariant w → objects w !! this = Some x → element x ∈ all_ids w →
  invariant (final (createSVGFilter this w)).
Proof.
  intros Hw Ho Hel.
  destruct (find_node (has_attribute "id" "liquid-glass-svg-filters")
                      (document w)) as [[r dr]|] eqn:Hfind.
  - apply find_node_elem in Hfind as Hr. destruct Hr as [Hr Hid].
    apply bool_decide_eq_true in Hid.
    destruct (attach r (next_id w) (filter_node x)
                (filter_tree x (next_id w)) (document w)) as [doc'|] eqn:Ha.
    2:{ apply attach_None in Ha. destruct Ha.
        apply list_elem_of_fmap. by exists (r, dr). }
    erewrite createSVGFilter_found; [|done|apply (inv_fresh w Hw)|done..].
    simpl. apply (invariant_hang w this x r); try done.
    eapply outside_filters_container; [done| |done].
    unfold all_nodes. apply elem_of_app. by left.
  - destruct (decide (body w ∈ ids (document w))) as [Hb|Hb].
    + destruct (attach (body w) (next_id w) svg_node FNil (document w))
        as [doc1|] eqn:Ha1.
      2:{ by apply attach_None in Ha1. }
      assert (Hw1 : invariant (World doc1 (detached w) (body w)
                       (S (next_id w)) (doc_listeners w) (objects w)
                       (next_obj w))).
      { eapply invariant_attach; [done..| | |by apply outside_filters_body].
        - apply NoDup_singleton.
        - intros n [->|Hn]%elem_of_cons; [lia|]. by apply elem_of_nil in Hn. }
      assert (Hsvg : (next_id w, svg_node) ∈ nodes doc1).
      { apply attach_perm in Ha1. rewrite Ha1. left. }
      destruct (attach (next_id w) (S (next_id w)) (filter_node x)
                  (filter_tree x (S (next_id w))) doc1) as [doc2|] eqn:Ha2.
      2:{ apply attach_None in Ha2. destruct Ha2.
          apply list_elem_of_fmap. by exists (next_id w, svg_node). }
      erewrite createSVGFilter_created; [|done|apply (inv_fresh w Hw)|done..].
      simpl.
      apply (invariant_hang (World doc1 (detached w) (body w)
               (S (next_id w)) (doc_listeners w) (objects w) (next_obj w))
               this x (next_id w) doc2); try done.
      * rewrite all_ids_app in Hel |- *. simpl.
        apply elem_of_app in Hel as [Hel|Hel]; apply elem_of_app;
          [left|by right].
        apply attach_perm in Ha1. unfold ids. rewrite Ha1.
        rewrite fmap_cons, elem_of_cons. by right.
      * apply (outside_filters_container _ _ svg_node); [done| |done].
        unfold all_nodes. apply elem_of_app. by left.
    + erewrite createSVGFilter_nobody; [|done|apply (inv_fresh w Hw)|done..].
      simpl. by apply invariant_push.
Qed.

Lemma invariant_new_object w x :
  invariant w → svgFilter x = None →
  svgFilterId x ≠ "liquid-glass-svg-filters" →
  invariant (final (new_object x w)).
Proof.
  intros [H1 H2 H3 H4 H5 H6 H7] Hx Hid. split; try done; simpl.
  - intros o y. destruct (decide (next_obj w = o)) as [<-|Hne].
    + intros _. lia.
    + rewrite lookup_insert_ne by done. intros Ho. apply H4 in Ho. lia.
  - intros o y. destruct (decide (next_obj w = o)) as [<-|Hne].
    + rewrite lookup_insert_eq. intros [= <-]. rewrite Hx.
      by intros [? ?].
    + rewrite lookup_insert_ne by done. apply H5.
  - intros o y f. destruct (decide (next_obj w = o)) as [<-|Hne].
    + rewrite lookup_insert_eq. intros [= <-]. by rewrite Hx.
    + rewrite lookup_insert_ne by done. apply H6.
  - intros o y. destruct (decide (next_obj w = o)) as [<-|Hne].
    + rewrite lookup_insert_eq. by intros [= <-].
    + rewrite lookup_insert_ne by done. apply H7.
Qed.

Lemma safe_init this : safe (init this).
Proof.
  intros w Hw. unfold init. rewrite final_bind. unfold get_this.
  destruct (objects w !! this) as [x|] eqn:Ho; [|done].
  rewrite final_bind. unfold classList_add, update_node.
  destruct (lookup_node (element x) w) as [d|] eqn:Hd; [|done].
  rewrite final_bind.
  assert (invariant (final (createSVGFilter this
            (amend (element x) (set_classList (token_add "liquid-glass")) w))))
    as Hc.
  { eapply invariant_createSVGFilter.
    - apply invariant_amend; [apply benign_classList | done].
    - done.
    - rewrite all_ids_amend. apply lookup_node_is_Some. by rewrite Hd. }
  destruct (createSVGFilter _ _) as [[] w1|e w1]; [|done]. simpl in Hc.
  revert w1 Hc.
  change (safe (applyStyles this ;;;
                if draggable (options x) then makeDraggable this else ret ())).
  pose proof safe_applyStyles. pose proof safe_makeDraggable. safe_auto.
Qed.

Lemma safe_constructor el o r : safe (constructor el o r).
Proof.
  intros w Hw. unfold constructor. destruct el as [el|]; [|done].
  rewrite final_bind. simpl.
  match goal with |- context [final (bind (init _) _ ?W)] =>
    assert (invariant W) as HW end.
  { apply (invariant_new_object w (Instance _ _ _ _ _ _)); done. }
  revert HW. generalize (next_obj w).
  intros this. match goal with |- invariant ?W → _ => generalize W end.
  change (safe (init this ;;; ret this)).
  pose proof safe_init. safe_auto.
Qed.

(** ** Every state of a session satisfies the invariant *)

Lemma invariant_dispatch e cbs w : invariant w → invariant (dispatch e cbs w).
Proof.
  unfold dispatch. revert w.
  induction cbs as [|cb cbs IH]; intros w Hw; simpl; [done|].
  apply IH. destruct cb; simpl.
  - by apply safe_onMouseDown.
  - by apply safe_onMouseMove.
  - by apply safe_onMouseUp.
Qed.

Lemma invariant_step w a : invariant w → invariant (step w a).
Proof.
  intros Hw. destruct a; simpl.
  - by apply safe_constructor.
  - by apply safe_updateShadow.
  - by apply safe_updateTint.
  - by apply safe_updateFrost.
  - by apply safe_updateDistortion.
  - by apply safe_updateOuterShadow.
  - by apply safe_destroy.
  - unfold fire_on_element. destruct (lookup_node target w); [|done].
    by apply invariant_dispatch.
  - by apply invariant_dispatch.
  - apply safe_update_node; [apply benign_rect | done].
Qed.

Lemma invariant_run w acts : invariant w → invariant (run w acts).
Proof.
  unfold run. revert w. induction acts as [|a acts IH]; intros w Hw; simpl;
    [done|]. by apply IH, invariant_step.
Qed.

(* ===================================================================== *)
(** * Pages and sessions                                                  *)
(* ===================================================================== *)

(** A page on which the class has not been used yet: the identifiers of
    its nodes are distinct and below the next one to be given out,
    [document.body] is below it too, and there is no object and no
    listener of the class. *)
Definition fresh_page (w : world) : Prop :=
  NoDup (all_ids w)
  ∧ Forall (λ n, n < next_id w) (all_ids w)
  ∧ body w < next_id w
  ∧ size (objects w) = 0
  ∧ doc_listeners w = []
  ∧ Forall (λ x, listeners x.2 = []) (all_nodes w).

Global Instance fresh_page_dec w : Decision (fresh_page w).
Proof. unfold fresh_page. apply _. Defined.

Lemma fresh_page_invariant w : fresh_page w → invariant w.
Proof.
  intros (H1 & H2 & H3 & H4 & _). apply map_size_empty_iff in H4.
  split; try done.
  - intros n Hn. by eapply (proj1 (Forall_forall _ _) H2).
  - intros o x. by rewrite H4, lookup_empty.
  - intros o x. by rewrite H4, lookup_empty.
  - intros o x f. by rewrite H4, lookup_empty.
  - intros o x. by rewrite H4, lookup_empty.
Qed.

(** The states of the sessions that start on a fresh page. *)
Lemma session_invariant w0 acts :
  fresh_page w0 → invariant (run w0 acts).
Proof. intros H0. by apply invariant_run, fresh_page_invariant. Qed.

Lemma example_page_fresh : fresh_page example_page.
Proof. apply (bool_decide_unpack _). vm_compute. exact I. Qed.

(* ===================================================================== *)
(** * Properties of the class                                             *)
(* ===================================================================== *)

(** ** The constructor *)

(** Options whose values are all falsy: [0], the empty string and
    [false]. *)
Definition falsy_options : LiquidGlassOptions :=
  {| opt_shadowOffset := Some "";
     opt_shadowBlur := None;
     opt_shadowSpread := None;
     opt_shadowColor := None;
     opt_tintColor := None;
     opt_tintOpacity := Some 0%float;
     opt_frostBlur := None;
     opt_noiseFrequency := Some 0%float;
     opt_distortionStrength := Some 0%float;
     opt_outerShadowBlur := None;
     opt_outerShadowColor := None;
     opt_borderRadius := None;
     opt_draggable := Some false |}.

(** C1, at a failing input.  [new LiquidGlass(div, {shadowOffset: "",
    tintOpacity: 0, noiseFrequency: 0, distortionStrength: 0,
    draggable: false})] on the example page succeeds, and the
    configuration of the new object does not hold the caller's [0]s and
    [""]: it holds the defaults [0.4], [0.008], [77] and ["0px"], because
    [options.x || default] takes the default for every falsy value. *)
Theorem constructor_defaults_falsy_options :
  ∃ w,
    constructor (Some 1) (Some falsy_options) "0.4fzyo82mvyr" example_page
      = Ok 0 w
    ∧ options <$> objects w !! 0 = Some (merge_options no_options)
    ∧ tintOpacity (merge_options no_options) = 0.4%float
    ∧ noiseFrequency (merge_options no_options) = 0.008%float
    ∧ distortionStrength (merge_options no_options) = 77%float
    ∧ shadowOffset (merge_options no_options) = "0px"
    ∧ tintOpacity (merge_options no_options) ≠ 0%float
    ∧ shadowOffset (merge_options no_options) ≠ "".
Proof.
  eexists. split; [vm_compute; reflexivity|].
  split; [vm_compute; reflexivity|].
  split_and!; try reflexivity.
  - vm_compute. intros E.
    assert (PrimFloat.eqb 0.4 0 = true) as Hq by (by rewrite E).
    vm_compute in Hq. discriminate Hq.
  - discriminate.
Qed.

(** C3.  Whatever the options and the state of the page,
    [new LiquidGlass(null, options)] throws the error of the first
    statement of the constructor, and the world it leaves is the world
    it found: no declaration written, no node created, no object
    allocated. *)
Theorem constructor_null_element :
  ∀ (options : option LiquidGlassOptions) (random36 : string) (w : world),
    constructor None options random36 w
    = Throw (Error "LiquidGlass requires a valid DOM element") w.
Proof. reflexivity. Qed.

(** ** Running a method on a state that has the object and its nodes *)

Lemma get_this_Ok o w x : objects w !! o = Some x → get_this o w = Ok x w.
Proof. unfold get_this. by intros ->. Qed.

Lemma update_this_Ok o f w x :
  objects w !! o = Some x →
  update_this o f w = Ok tt (set_objects (alter f o) w).
Proof. unfold update_this. by intros ->. Qed.

Lemma querySelector_Ok n tag w d ch :
  lookup_tree n w = Some (d, ch) →
  querySelector n tag w = Ok (fst <$> find_node (has_tag tag) ch) w.
Proof. unfold querySelector. by intros ->. Qed.

Lemma lookup_tree_set_objects n f w :
  lookup_tree n (set_objects f w) = lookup_tree n w.
Proof. done. Qed.

Lemma lookup_node_set_objects n f w :
  lookup_node n (set_objects f w) = lookup_node n w.
Proof. done. Qed.

Lemma all_ids_set_objects f w : all_ids (set_objects f w) = all_ids w.
Proof. done. Qed.

Lemma lookup_tree_set_doc_listeners n f w :
  lookup_tree n (set_doc_listeners f w) = lookup_tree n w.
Proof. done. Qed.

Lemma lookup_node_set_doc_listeners n f w :
  lookup_node n (set_doc_listeners f w) = lookup_node n w.
Proof. done. Qed.

Lemma all_ids_set_doc_listeners f w :
  all_ids (set_doc_listeners f w) = all_ids w.
Proof. done. Qed.

Lemma objects_amend n g w : objects (amend n g w) = objects w.
Proof. done. Qed.

Lemma objects_set_objects f w : objects (set_objects f w) = f (objects w).
Proof. done. Qed.

Lemma objects_set_doc_listeners f w :
  objects (set_doc_listeners f w) = objects w.
Proof. done. Qed.

Lemma doc_listeners_amend n g w :
  doc_listeners (amend n g w) = doc_listeners w.
Proof. done. Qed.

Lemma doc_listeners_set_objects f w :
  doc_listeners (set_objects f w) = doc_listeners w.
Proof. done. Qed.

Lemma doc_listeners_set_doc_listeners f w :
  doc_listeners (set_doc_listeners f w) = f (doc_listeners w).
Proof. done. Qed.

Create Rewrite HintDb world.
#[global] Hint Rewrite lookup_tree_set_objects lookup_node_set_objects
  all_ids_set_objects lookup_tree_set_doc_listeners
  lookup_node_set_doc_listeners all_ids_set_doc_listeners objects_amend
  objects_set_objects objects_set_doc_listeners doc_listeners_amend
  doc_listeners_set_objects doc_listeners_set_doc_listeners
  all_ids_amend lookup_node_amend lookup_tree_amend : world.

Ltac world_simpl := autorewrite with world; rewrite ?lookup_alter_eq.

(** Settle the comparisons of identifiers the hypotheses decide. *)
Ltac decide_ids :=
  repeat match goal with
         | |- context [decide (?a = ?b)] =>
             first [ rewrite (decide_True (P := a = b)) by done
                   | rewrite (decide_False (P := a = b)) by congruence ]
         end.

(** The filter of an instance of a session, with its stages. *)
Lemma session_filter w o x f :
  invariant w → objects w !! o = Some x → svgFilter x = Some f →
  ∃ df t dt b db d dd,
    lookup_tree f w =
      Some (df, FCons t dt FNil (FCons b db FNil (FCons d dd FNil FNil)))
    ∧ tagName dt = "feTurbulence" ∧ tagName db = "feGaussianBlur"
    ∧ tagName dd = "feDisplacementMap"
    ∧ lookup_node t w = Some dt ∧ lookup_node d w = Some dd
    ∧ t ≠ b ∧ t ≠ d ∧ b ≠ d ∧ f ≠ t ∧ f ≠ d.
Proof.
  intros Hw Ho Hf.
  destruct (inv_filter w Hw o x f Ho Hf)
    as (df & t & dt & b & db & d & dd & Ht & Sf & St & Sb & Sd & Hb).
  exists df, t, dt, b, db, d, dd.
  pose proof (inv_nodup w Hw) as Hnd.
  assert (Hf' : (f, df) ∈ all_nodes w) by by eapply lookup_tree_elem.
  assert (Ht' : (t, dt) ∈ all_nodes w).
  { eapply lookup_tree_children; [done|]. simpl. left. }
  assert (Hb' : (b, db) ∈ all_nodes w).
  { eapply lookup_tree_children; [done|]. simpl. right. left. }
  assert (Hd' : (d, dd) ∈ all_nodes w).
  { eapply lookup_tree_children; [done|]. simpl. do 2 right. left. }
  assert (Hlook : ∀ n dn, (n, dn) ∈ all_nodes w → lookup_node n w = Some dn).
  { intros n dn Hn.
    assert (is_Some (lookup_node n w)) as [dn' Hn'].
    { apply lookup_node_is_Some, list_elem_of_fmap. by exists (n, dn). }
    rewrite Hn'. f_equal. apply lookup_node_elem in Hn'.
    by eapply all_nodes_functional. }
  assert (Hap : ∀ n d1 d2, (n, d1) ∈ all_nodes w → (n, d2) ∈ all_nodes w →
            tagName d1 = tagName d2).
  { intros n d1 d2 E1 E2. by rewrite (all_nodes_functional _ _ _ _ Hnd E1 E2). }
  destruct Sf as [Sf ?], St as [St ?], Sb as [Sb ?], Sd as [Sd ?].
  split_and!; try done; try by apply Hlook.
  - intros ->. specialize (Hap _ _ _ Ht' Hb'). congruence.
  - intros ->. specialize (Hap _ _ _ Ht' Hd'). congruence.
  - intros ->. specialize (Hap _ _ _ Hb' Hd'). congruence.
  - intros ->. specialize (Hap _ _ _ Hf' Ht'). congruence.
  - intros ->. specialize (Hap _ _ _ Hf' Hd'). congruence.
Qed.

(** ** [updateDistortion] *)

Lemma patch_stage_Ok this x f w tag name v n dn df ch :
  objects w !! this = Some x → svgFilter x = Some f →
  lookup_tree f w = Some (df, ch) →
  find_node (has_tag tag) ch = Some (n, dn) →
  n ∈ all_ids w →
  patch_stage this tag name v w =
  Ok tt (amend n (set_attributes <[name := JS.to_string v]>) w).
Proof.
  intros Ho Hf Ht Hfind Hn. unfold patch_stage.
  erewrite bind_Ok; [|by apply get_this_Ok]. rewrite Hf.
  erewrite bind_Ok; [|by eapply querySelector_Ok]. rewrite Hfind. simpl.
  by apply update_node_present.
Qed.

Lemma updateDistortion_both w o x f frequency strength :
  invariant w → objects w !! o = Some x → svgFilter x = Some f →
  ∃ w' t dt d dd x',
    updateDistortion o {| dp_frequency := Some frequency;
                          dp_strength := Some strength |} w = Ok tt w'
    ∧ querySelector f "feTurbulence" w' = Ok (Some t) w'
    ∧ lookup_node t w' = Some dt
    ∧ attributes dt !! "baseFrequency" = Some (JS.to_string frequency)
    ∧ querySelector f "feDisplacementMap" w' = Ok (Some d) w'
    ∧ lookup_node d w' = Some dd
    ∧ attributes dd !! "scale" = Some (JS.to_string strength)
    ∧ objects w' !! o = Some x'
    ∧ noiseFrequency (options x') = frequency
    ∧ distortionStrength (options x') = strength.
Proof.
  intros Hw Ho Hf.
  destruct (session_filter w o x f Hw Ho Hf)
    as (df & t & dt & b & db & d & dd & Ht & Tt & Tb & Td & Lt & Ld
        & Htb & Htd & Hbd & Hft & Hfd).
  assert (Hti : t ∈ all_ids w) by (apply lookup_node_is_Some; by rewrite Lt).
  assert (Hdi : d ∈ all_ids w) by (apply lookup_node_is_Some; by rewrite Ld).
  eexists _, t, _, d, _, _. split.
  { unfold updateDistortion, when_defined. simpl.
    erewrite bind_Ok.
    2:{ erewrite bind_Ok; [|by eapply update_this_Ok].
        eapply (patch_stage_Ok _ _ f _ _ _ _ t dt).
        - world_simpl. rewrite Ho. reflexivity.
        - done.
        - world_simpl. exact Ht.
        - simpl. unfold has_tag. rewrite Tt.
          by rewrite bool_decide_eq_true_2.
        - by world_simpl. }
    erewrite bind_Ok; [|eapply update_this_Ok; world_simpl;
                         rewrite Ho; reflexivity].
    eapply (patch_stage_Ok _ _ f _ _ _ _ d dd).
    - world_simpl. rewrite Ho. reflexivity.
    - done.
    - world_simpl. rewrite Ht. reflexivity.
    - simpl. decide_ids. simpl.
      unfold has_tag. simpl. rewrite Tt, Tb, Td.
      rewrite !bool_decide_eq_false_2 by done.
      by rewrite bool_decide_eq_true_2.
    - by world_simpl. }
  split_and!.
  - erewrite querySelector_Ok.
    2:{ world_simpl. rewrite Ht. reflexivity. }
    simpl. decide_ids. simpl.
    unfold has_tag. simpl. rewrite Tt. by rewrite bool_decide_eq_true_2.
  - world_simpl. rewrite Lt. simpl.
    decide_ids. reflexivity.
  - simpl. by rewrite lookup_insert_eq.
  - erewrite querySelector_Ok.
    2:{ world_simpl. rewrite Ht. reflexivity. }
    simpl. decide_ids. simpl.
    unfold has_tag. simpl. rewrite Tt, Tb, Td.
    rewrite !bool_decide_eq_false_2 by done.
    by rewrite bool_decide_eq_true_2.
  - world_simpl. rewrite Ld. simpl.
    decide_ids. reflexivity.
  - simpl. by rewrite lookup_insert_eq.
  - world_simpl. rewrite Ho. reflexivity.
  - done.
  - done.
Qed.

(** C8.  In every state of a session, for every instance whose filter
    has been built: after [updateDistortion({frequency: 0.02, strength:
    120})] the [baseFrequency] attribute of the [feTurbulence] stage of
    its filter reads ["0.02"], the [scale] attribute of the
    [feDisplacementMap] stage reads ["120"], and the configuration holds
    the two numbers; [updateDistortion({})] leaves the whole state as it
    is. *)
Theorem updateDistortion_round_trip :
  ∀ w0 acts o x f,
    fresh_page w0 →
    objects (run w0 acts) !! o = Some x → svgFilter x = Some f →
    (∃ w' t dt d dd x',
       updateDistortion o {| dp_frequency := Some 0.02%float;
                             dp_strength := Some 120%float |}
                        (run w0 acts) = Ok tt w'
       ∧ querySelector f "feTurbulence" w' = Ok (Some t) w'
       ∧ lookup_node t w' = Some dt
       ∧ attributes dt !! "baseFrequency" = Some "0.02"
       ∧ querySelector f "feDisplacementMap" w' = Ok (Some d) w'
       ∧ lookup_node d w' = Some dd
       ∧ attributes dd !! "scale" = Some "120"
       ∧ objects w' !! o = Some x'
       ∧ noiseFrequency (options x') = 0.02%float
       ∧ distortionStrength (options x') = 120%float)
    ∧ updateDistortion o {| dp_frequency := None; dp_strength := None |}
                       (run w0 acts) = Ok tt (run w0 acts).
Proof.
  intros w0 acts o x f H0 Ho Hf. split; [|reflexivity].
  pose proof (session_invariant w0 acts H0) as Hw.
  destruct (updateDistortion_both _ o x f 0.02 120 Hw Ho Hf)
    as (w' & t & dt & d & dd & x' & H).
  exists w', t, dt, d, dd, x'.
  assert (JS.to_string 0.02 = "0.02") as E1 by (vm_compute; reflexivity).
  assert (JS.to_string 120 = "120") as E2 by (vm_compute; reflexivity).
  by rewrite E1, E2 in H.
Qed.

(** A session for the examples: an instance on the [div] of the example
    page, with the default options. *)
Definition example_session : list action := [New (Some 1) None "0.4fzyo82mvyr"].

Lemma updateDistortion_round_trip_witness :
  fresh_page example_page
  ∧ ∃ x, objects (run example_page example_session) !! 0 = Some x
      ∧ svgFilter x = Some 3
      ∧ updateDistortion 0 {| dp_frequency := None; dp_strength := None |}
                         (run example_page example_session)
        = Ok tt (run example_page example_session).
Proof.
  split; [apply (bool_decide_unpack _); vm_compute; exact I|].
  eexists. split; [vm_compute; reflexivity|]. split; [reflexivity|].
  eapply (updateDistortion_round_trip example_page example_session 0 _ 3).
  - apply (bool_decide_unpack _). vm_compute. exact I.
  - vm_compute. reflexivity.
  - reflexivity.
Defined.

(** ** Running the statements of a method one by one *)

Ltac solve_this :=
  world_simpl;
  match goal with
  | H : objects ?w !! ?o = Some _ |- context [objects ?w !! ?o] => rewrite H
  end;
  reflexivity.

Ltac solve_present := world_simpl; assumption.

Ltac exec :=
  erewrite bind_Ok;
  [| first [ eapply get_this_Ok; solve_this
           | eapply update_this_Ok; solve_this
           | apply update_node_present; solve_present
           | reflexivity ] ];
  cbv beta.

(** ** [updateTint] *)

(** [updateTint({opacity})] when the stored colour has the shape
    [rgb(r, g, b] or [rgba(r, g, b]: the declaration is rewritten from
    the captures, the stored colour stays. *)
Lemma updateTint_opacity_match w o x opacity caps :
  objects w !! o = Some x → element x ∈ all_ids w →
  JS.exec tint_regex (tintColor (options x)) = Some caps →
  updateTint o {| tp_color := None; tp_opacity := Some opacity |} w =
  Ok tt (amend (element x)
           (set_style (declare "--tint-color" (newColor caps opacity)))
           (set_objects (alter (set_options (set_tintOpacity opacity)) o) w)).
Proof.
  intros Ho Hel Hm. unfold updateTint, when_defined. simpl.
  exec. exec. exec. simpl. rewrite Hm.
  apply update_node_present. solve_present.
Qed.

(** The same call when the stored colour has another shape: only the
    stored opacity changes. *)
Lemma updateTint_opacity_no_match w o x opacity :
  objects w !! o = Some x →
  JS.exec tint_regex (tintColor (options x)) = None →
  updateTint o {| tp_color := None; tp_opacity := Some opacity |} w =
  Ok tt (set_objects (alter (set_options (set_tintOpacity opacity)) o) w).
Proof.
  intros Ho Hm. unfold updateTint, when_defined. simpl.
  exec. exec. exec. simpl. by rewrite Hm.
Qed.

(** An instance with the tint of the example. *)
Definition tinted (color : string) : LiquidGlassOptions :=
  {| opt_shadowOffset := None;
     opt_shadowBlur := None;
     opt_shadowSpread := None;
     opt_shadowColor := None;
     opt_tintColor := Some color;
     opt_tintOpacity := None;
     opt_frostBlur := None;
     opt_noiseFrequency := None;
     opt_distortionStrength := None;
     opt_outerShadowBlur := None;
     opt_outerShadowColor := None;
     opt_borderRadius := None;
     opt_draggable := None |}.

Definition tinted_session (color : string) : list action :=
  [New (Some 1) (Some (tinted color)) "0.4fzyo82mvyr"].

(** C2 as stated fails.  With the stored tint ["rgba(10,20,30,0.4)"],
    [updateTint({opacity: 0.9})] writes ["rgba(10, 20, 30, 0.9)"], with a
    space after each comma, not ["rgba(10,20,30,0.9)"]. *)
Lemma updateTint_opacity_counterexample :
  ∃ x w' d,
    objects (run example_page (tinted_session "rgba(10,20,30,0.4)")) !! 0
      = Some x
    ∧ tintColor (options x) = "rgba(10,20,30,0.4)"
    ∧ updateTint 0 {| tp_color := None; tp_opacity := Some 0.9%float |}
                 (run example_page (tinted_session "rgba(10,20,30,0.4)"))
      = Ok tt w'
    ∧ lookup_node (element x) w' = Some d
    ∧ style d !! "--tint-color" = Some "rgba(10, 20, 30, 0.9)"
    ∧ style d !! "--tint-color" ≠ Some "rgba(10,20,30,0.9)".
Proof.
  eexists _, _, _.
  split; [vm_compute; reflexivity|].
  split; [reflexivity|].
  split; [vm_compute; reflexivity|].
  split; [vm_compute; reflexivity|].
  split; [vm_compute; reflexivity|].
  vm_compute. discriminate.
Qed.

(** C2, amended.  In every state of a session, for every instance whose
    filter has been built: if the stored tint is ["rgba(10,20,30,0.4)"],
    [updateTint({opacity: 0.9})] declares [--tint-color] as
    ["rgba(10, 20, 30, 0.9)"] on the element and the stored tint stays
    ["rgba(10,20,30,0.4)"]; if the stored tint does not match the
    expression, as ["linear-gradient(...)"] does not, the call returns
    normally and the only change is the stored opacity: no node of the
    page, no declaration and no listener changes. *)
Theorem updateTint_opacity :
  ∀ w0 acts o x,
    fresh_page w0 →
    objects (run w0 acts) !! o = Some x → is_Some (svgFilter x) →
    (tintColor (options x) = "rgba(10,20,30,0.4)" →
     ∃ w' d x',
       updateTint o {| tp_color := None; tp_opacity := Some 0.9%float |}
                  (run w0 acts) = Ok tt w'
       ∧ lookup_node (element x) w' = Some d
       ∧ style d !! "--tint-color" = Some "rgba(10, 20, 30, 0.9)"
       ∧ objects w' !! o = Some x'
       ∧ tintColor (options x') = "rgba(10,20,30,0.4)")
    ∧ (JS.exec tint_regex (tintColor (options x)) = None →
       updateTint o {| tp_color := None; tp_opacity := Some 0.9%float |}
                  (run w0 acts)
       = Ok tt (set_objects
                  (alter (set_options (set_tintOpacity 0.9%float)) o)
                  (run w0 acts)))
    ∧ JS.exec tint_regex "linear-gradient(...)" = None.
Proof.
  intros w0 acts o x H0 Ho Hf.
  pose proof (session_invariant w0 acts H0) as Hw.
  pose proof (inv_element _ Hw o x Ho Hf) as Hel.
  split_and!.
  - intros Hc.
    assert (JS.exec tint_regex (tintColor (options x))
            = Some ["10"; "20"; "30"]) as Hm.
    { rewrite Hc. vm_compute. reflexivity. }
    apply lookup_node_is_Some in Hel as Hd. destruct Hd as [d Hd].
    eexists _, _, _. split; [by eapply updateTint_opacity_match|].
    split; [world_simpl; rewrite Hd; simpl; by rewrite decide_True|].
    split.
    { simpl. unfold declare.
      assert (newColor ["10"; "20"; "30"] 0.9 = "rgba(10, 20, 30, 0.9)")
        as -> by (vm_compute; reflexivity).
      simpl. by rewrite lookup_insert_eq. }
    split; [world_simpl; rewrite Ho; reflexivity|].
    done.
  - intros Hm. by eapply updateTint_opacity_no_match.
  - vm_compute. reflexivity.
Qed.

Lemma updateTint_opacity_witness :
  fresh_page example_page
  ∧ ∃ x, objects (run example_page (tinted_session "linear-gradient(...)"))
           !! 0 = Some x
      ∧ is_Some (svgFilter x)
      ∧ JS.exec tint_regex "linear-gradient(...)" = None.
Proof.
  split; [apply (bool_decide_unpack _); vm_compute; exact I|].
  eexists. split; [vm_compute; reflexivity|]. split; [by eexists|].
  eapply (updateTint_opacity example_page
            (tinted_session "linear-gradient(...)") 0).
  - apply (bool_decide_unpack _). vm_compute. exact I.
  - vm_compute. reflexivity.
  - by eexists.
Defined.

(** ** The constructor, in closed form *)

Lemma lookup_node_from_elem w n d :
  NoDup (all_ids w) → (n, d) ∈ all_nodes w → lookup_node n w = Some d.
Proof.
  intros Hnd Hn.
  assert (is_Some (lookup_node n w)) as [d' Hd].
  { apply lookup_node_is_Some, list_elem_of_fmap. by exists (n, d). }
  rewrite Hd. f_equal. apply lookup_node_elem in Hd.
  by eapply all_nodes_functional.
Qed.

Lemma modify_ext n g g' f : (∀ d, g d = g' d) → modify n g f = modify n g' f.
Proof.
  intros Hg. induction f as [|i d ch IHch sib IHsib]; simpl; [done|].
  by rewrite IHch, IHsib, Hg.
Qed.

(** ** Normal form of a world built by node, listener and object updates *)

Lemma amend_set_objects n g f w :
  set_objects f (amend n g w) = amend n g (set_objects f w).
Proof. done. Qed.

Lemma amend_set_doc_listeners n g f w :
  set_doc_listeners f (amend n g w) = amend n g (set_doc_listeners f w).
Proof. done. Qed.

Lemma set_objects_set_doc_listeners f l w :
  set_objects f (set_doc_listeners l w) = set_doc_listeners l (set_objects f w).
Proof. done. Qed.

Lemma set_objects_set_objects f2 f1 w :
  set_objects f2 (set_objects f1 w) = set_objects (f2 ∘ f1) w.
Proof. done. Qed.

Lemma set_doc_listeners_set_doc_listeners l2 l1 w :
  set_doc_listeners l2 (set_doc_listeners l1 w)
  = set_doc_listeners (l2 ∘ l1) w.
Proof. done. Qed.

Lemma amend_ext n g g' w : (∀ d, g d = g' d) → amend n g w = amend n g' w.
Proof. intros Hg. unfold amend. by rewrite !(modify_ext n g g'). Qed.

Lemma set_doc_listeners_ext l l' w :
  (∀ x, l x = l' x) → set_doc_listeners l w = set_doc_listeners l' w.
Proof. intros Hl. unfold set_doc_listeners. by rewrite Hl. Qed.

Lemma set_objects_ext f f' w :
  (∀ m, f m = f' m) → set_objects f w = set_objects f' w.
Proof. intros Hf. unfold set_objects. by rewrite Hf. Qed.

Lemma world_layers_ext n g g' l l' f f' w :
  (∀ d, g d = g' d) → (∀ x, l x = l' x) → (∀ m, f m = f' m) →
  amend n g (set_doc_listeners l (set_objects f w))
  = amend n g' (set_doc_listeners l' (set_objects f' w)).
Proof.
  intros Hg Hl Hf.
  by rewrite (amend_ext _ _ _ _ Hg), (set_doc_listeners_ext _ _ _ Hl),
    (set_objects_ext _ _ _ Hf).
Qed.

Ltac world_norm :=
  repeat first
    [ rewrite amend_set_objects | rewrite amend_set_doc_listeners
    | rewrite set_objects_set_doc_listeners | rewrite amend_amend
    | rewrite set_objects_set_objects
    | rewrite set_doc_listeners_set_doc_listeners ].

(** The object as the first statements of the constructor leave it. *)
Definition initial_instance (el : node_id) (opts : option LiquidGlassOptions)
    (random36 : string) : instance :=
  Instance el (merge_options (default no_options opts))
           ("glass-distortion-" +:+ JS.substr 2 9 random36)
           None false (DragState false None None None None).

(** The declarations of [applyStyles]. *)
Definition project (x : instance) (st : gmap string string)
    : gmap string string :=
  declare "--glass-filter-url" ("url(#" +:+ svgFilterId x +:+ ")")
    (declare "--border-radius" (borderRadius (options x))
    (declare "--outer-shadow-color" (outerShadowColor (options x))
    (declare "--outer-shadow-blur" (outerShadowBlur (options x))
    (declare "--frost-blur" (frostBlur (options x))
    (declare "--tint-color" (tintColor (options x))
    (declare "--shadow-color" (shadowColor (options x))
    (declare "--shadow-spread" (shadowSpread (options x))
    (declare "--shadow-blur" (shadowBlur (options x))
    (declare "--shadow-offset" (shadowOffset (options x)) st))))))))).

(** What [makeDraggable] does to the element, to the listeners of the
    document and to the object. *)
Definition grab (o : obj_id) (d : node) : node :=
  set_listeners (token_add ("touchstart", OnMouseDown o))
    (set_listeners (token_add ("mousedown", OnMouseDown o))
       (set_style (declare "cursor" "grab") d)).

Definition listen (o : obj_id) (l : list (string * callback))
    : list (string * callback) :=
  token_add ("touchend", OnMouseUp o)
    (token_add ("mouseup", OnMouseUp o)
       (token_add ("touchmove", OnMouseMove o)
          (token_add ("mousemove", OnMouseMove o) l))).

Definition armed (x : instance) : instance :=
  set_cleanup (set_drag (λ _, DragState false None None None None) x).

(** The end of [init], after [createSVGFilter]. *)
Definition settle (o : obj_id) (x : instance) (w : world) : world :=
  if draggable (options x) then
    amend (element x) (grab o)
      (set_doc_listeners (listen o)
         (set_objects (alter armed o)
            (amend (element x) (set_style (project x)) w)))
  else amend (element x) (set_style (project x)) w.

Lemma settle_Ok w o x :
  objects w !! o = Some x → element x ∈ all_ids w →
  (applyStyles o ;;;
   if draggable (options x) then makeDraggable o else ret tt) w
  = Ok tt (settle o x w).
Proof.
  intros Ho Hel. unfold applyStyles, settle.
  erewrite bind_Ok.
  2:{ exec. do 9 exec. apply update_node_present. solve_present. }
  destruct (draggable (options x)).
  - unfold makeDraggable, addEventListener, document_addEventListener.
    exec. exec. cbv beta. exec. exec. exec. do 4 exec.
    erewrite update_this_Ok; [|solve_this].
    f_equal. change (element (set_drag _ x)) with (element x).
    world_norm.
    apply world_layers_ext; intros ?; [done..|].
    unfold armed. simpl. by rewrite alter_alter_eq.
  - unfold ret. f_equal. world_norm. apply amend_ext. intros d. reflexivity.
Qed.

Definition addclass : node → node := set_classList (token_add "liquid-glass").

Lemma attach_is_Some p c d ch f : p ∈ ids f → is_Some (attach p c d ch f).
Proof.
  intros Hp. apply not_eq_None_Some. intros Hn.
  by apply attach_None in Hn.
Qed.

(** The first statements of the constructor and of [init], up to the
    call of [createSVGFilter]. *)
Lemma constructor_steps w el opts r :
  el ∈ all_ids w →
  constructor (Some el) opts r w =
  (createSVGFilter (next_obj w) ;;;
   applyStyles (next_obj w) ;;;
   (if draggable (options (initial_instance el opts r))
    then makeDraggable (next_obj w) else ret tt) ;;;
   ret (next_obj w))
    (amend el addclass
       (World (document w) (detached w) (body w) (next_id w)
              (doc_listeners w)
              (<[next_obj w := initial_instance el opts r]> (objects w))
              (S (next_obj w)))).
Proof.
  intros Hel. unfold constructor, init.
  erewrite bind_Ok; [|reflexivity].
  change (bind ?c ?k (World ?a ?b ?c0 ?d ?e ?f ?g)) with
    (bind c k (World a b c0 d e f g)).
  unfold bind at 1.
  unfold bind at 1. unfold get_this at 1.
  cbn [objects]. rewrite lookup_insert_eq.
  unfold bind at 1. unfold classList_add at 1.
  rewrite update_node_present by done.
  unfold bind. cbn [element initial_instance].
  by destruct (createSVGFilter _ _) as [[] ?|]; [destruct (applyStyles _ _) as [[] ?|];
    [destruct (draggable _); [destruct (makeDraggable _ _) as [[] ?|]|]|]|].
Qed.

Lemma has_attribute_benign g name v d :
  benign g → name = "id" → has_attribute name v (g d) = has_attribute name v d.
Proof.
  intros Hg ->. unfold has_attribute. by destruct (Hg d) as [_ ->].
Qed.

(** The constructor once [createSVGFilter] has hung the filter [f]. *)
Lemma constructor_finish w el opts r f doc' nx' :
  el ∈ all_ids w →
  createSVGFilter (next_obj w)
    (amend el addclass
       (World (document w) (detached w) (body w) (next_id w)
              (doc_listeners w)
              (<[next_obj w := initial_instance el opts r]> (objects w))
              (S (next_obj w))))
  = Ok tt (World doc' (modify el addclass (detached w)) (body w) nx'
                 (doc_listeners w)
                 (alter (set_svgFilter f) (next_obj w)
                    (<[next_obj w := initial_instance el opts r]> (objects w)))
                 (S (next_obj w))) →
  el ∈ ids doc' ++ ids (detached w) →
  constructor (Some el) opts r w =
  Ok (next_obj w)
     (settle (next_obj w) (set_svgFilter f (initial_instance el opts r))
        (World doc' (modify el addclass (detached w)) (body w) nx'
               (doc_listeners w)
               (<[next_obj w := set_svgFilter f (initial_instance el opts r)]>
                  (objects w))
               (S (next_obj w)))).
Proof.
  intros Hel Hc Hel'. rewrite constructor_steps by done.
  erewrite bind_Ok; [|exact Hc].
  rewrite alter_insert_eq.
  set (x := set_svgFilter f (initial_instance el opts r)).
  set (W := World doc' _ _ _ _ _ _).
  assert (Ho : objects W !! next_obj w = Some x) by apply lookup_insert_eq.
  assert (He : element x ∈ all_ids W).
  { rewrite all_ids_app. cbn [W x document detached element initial_instance
      set_svgFilter]. by rewrite ids_modify. }
  pose proof (settle_Ok W (next_obj w) x Ho He) as Hs.
  change (draggable (options (initial_instance el opts r)))
    with (draggable (options x)).
  unfold bind in Hs |- *.
  destruct (applyStyles (next_obj w) W) as [[] w1|e w1]; [|discriminate Hs].
  by rewrite Hs.
Qed.

(** The constructor when the container of the filters exists. *)
Lemma constructor_found w el opts r rg drg doc' :
  invariant w → el ∈ all_ids w →
  find_node (has_attribute "id" "liquid-glass-svg-filters") (document w)
    = Some (rg, drg) →
  attach rg (next_id w) (filter_node (initial_instance el opts r))
         (filter_tree (initial_instance el opts r) (next_id w))
         (modify el addclass (document w)) = Some doc' →
  constructor (Some el) opts r w =
  Ok (next_obj w)
     (settle (next_obj w)
        (set_svgFilter (next_id w) (initial_instance el opts r))
        (World doc' (modify el addclass (detached w)) (body w)
               (4 + next_id w) (doc_listeners w)
               (<[next_obj w :=
                    set_svgFilter (next_id w) (initial_instance el opts r)]>
                  (objects w))
               (S (next_obj w)))).
Proof.
  intros Hw Hel Hfind Ha. apply constructor_finish; [done| |].
  - match goal with |- createSVGFilter _ ?W = _ =>
      eapply (createSVGFilter_found _ (initial_instance el opts r) W) end.
    + cbn [amend set_forests objects]. apply lookup_insert_eq.
    + rewrite all_ids_amend. apply (inv_fresh w Hw).
    + cbn [amend set_forests document].
      rewrite find_node_modify, Hfind; [reflexivity|].
      intros d. by apply has_attribute_benign.
    + exact Ha.
  - rewrite all_ids_app in Hel. apply elem_of_app in Hel as [Hel|Hel];
      apply elem_of_app; [left|by right].
    apply attach_perm in Ha. unfold ids. rewrite Ha.
    rewrite fmap_cons, fmap_app, elem_of_cons, elem_of_app.
    do 2 right. by rewrite <- (ids_modify el addclass) in Hel.
Qed.

(** The constructor when there is no container yet: it is created under
    [document.body], which must exist. *)
Lemma constructor_created w el opts r doc1 doc2 :
  invariant w → el ∈ all_ids w →
  find_node (has_attribute "id" "liquid-glass-svg-filters") (document w)
    = None →
  attach (body w) (next_id w) svg_node FNil
         (modify el addclass (document w)) = Some doc1 →
  attach (next_id w) (S (next_id w))
         (filter_node (initial_instance el opts r))
         (filter_tree (initial_instance el opts r) (S (next_id w)))
         doc1 = Some doc2 →
  constructor (Some el) opts r w =
  Ok (next_obj w)
     (settle (next_obj w)
        (set_svgFilter (S (next_id w)) (initial_instance el opts r))
        (World doc2 (modify el addclass (detached w)) (body w)
               (5 + next_id w) (doc_listeners w)
               (<[next_obj w :=
                    set_svgFilter (S (next_id w))
                                  (initial_instance el opts r)]>
                  (objects w))
               (S (next_obj w)))).
Proof.
  intros Hw Hel Hfind Ha1 Ha2. apply constructor_finish; [done| |].
  - match goal with |- createSVGFilter _ ?W = _ =>
      eapply (createSVGFilter_created _ (initial_instance el opts r) W) end.
    + cbn [amend set_forests objects]. apply lookup_insert_eq.
    + rewrite all_ids_amend. apply (inv_fresh w Hw).
    + cbn [amend set_forests document].
      rewrite find_node_modify, Hfind; [reflexivity|].
      intros d. by apply has_attribute_benign.
    + exact Ha1.
    + exact Ha2.
  - rewrite all_ids_app in Hel. apply elem_of_app in Hel as [Hel|Hel];
      apply elem_of_app; [left|by right].
    apply attach_perm in Ha1, Ha2. unfold ids. rewrite Ha2, Ha1.
    rewrite !fmap_cons, !fmap_app, !elem_of_cons, !elem_of_app.
    do 2 right. simpl. right. by rewrite <- (ids_modify el addclass) in Hel.
Qed.

(** The constructor when there is neither: it fails. *)
Lemma constructor_nobody w el opts r :
  invariant w → el ∈ all_ids w →
  find_node (has_attribute "id" "liquid-glass-svg-filters") (document w)
    = None →
  body w ∉ ids (document w) →
  ∃ w', constructor (Some el) opts r w = Throw TypeError w'.
Proof.
  intros Hw Hel Hfind Hb. rewrite constructor_steps by done.
  eexists. eapply bind_Throw.
  match goal with |- createSVGFilter _ ?W = _ =>
    eapply (createSVGFilter_nobody _ (initial_instance el opts r) W) end.
  - cbn [amend set_forests objects]. apply lookup_insert_eq.
  - rewrite all_ids_amend. apply (inv_fresh w Hw).
  - cbn [amend set_forests document].
    rewrite find_node_modify, Hfind; [reflexivity|].
    intros d. by apply has_attribute_benign.
  - cbn [amend set_forests document body]. by rewrite ids_modify.
Qed.

Lemma constructor_absent w el opts r :
  el ∉ all_ids w → ∃ w', constructor (Some el) opts r w = Throw TypeError w'.
Proof.
  intros Hel. unfold constructor, init. eexists.
  erewrite bind_Ok; [|reflexivity]. eapply bind_Throw.
  erewrite bind_Ok.
  2:{ unfold get_this. cbn [objects]. by rewrite lookup_insert_eq. }
  eapply bind_Throw. unfold classList_add, update_node.
  apply lookup_node_None in Hel. unfold lookup_node, lookup_tree in *.
  cbn [document detached element]. by rewrite Hel.
Qed.

Lemma lookup_node_extension w w' n d :
  NoDup (all_ids w') → (∀ x, x ∈ all_nodes w → x ∈ all_nodes w') →
  lookup_node n w = Some d → lookup_node n w' = Some d.
Proof.
  intros Hnd Hsub Hn. apply lookup_node_from_elem; [done|].
  by apply Hsub, lookup_node_elem.
Qed.

(** What a successful construction leaves: the world [W] in which the
    filter hangs and the element has its class, finished by [settle]. *)
Lemma constructor_Ok w el opts r o w' :
  invariant w → constructor (Some el) opts r w = Ok o w' →
  ∃ W f d0,
    o = next_obj w
    ∧ w' = settle o (set_svgFilter f (initial_instance el opts r)) W
    ∧ invariant W
    ∧ lookup_node el w = Some d0
    ∧ lookup_node el W = Some (addclass d0)
    ∧ (∀ n d, n ≠ el → lookup_node n w = Some d → lookup_node n W = Some d)
    ∧ objects W
      = <[o := set_svgFilter f (initial_instance el opts r)]> (objects w)
    ∧ doc_listeners W = doc_listeners w
    ∧ next_obj W = S (next_obj w).
Proof.
  intros Hw Hc.
  destruct (decide (el ∈ all_ids w)) as [Hel|Hel].
  2:{ destruct (constructor_absent w el opts r Hel) as [w1 E]. congruence. }
  set (W1 := amend el addclass
               (World (document w) (detached w) (body w) (next_id w)
                  (doc_listeners w)
                  (<[next_obj w := initial_instance el opts r]> (objects w))
                  (S (next_obj w)))).
  assert (Hw1 : invariant W1).
  { apply invariant_amend; [apply benign_classList|].
    apply (invariant_new_object w (initial_instance el opts r)); done. }
  assert (Ho1 : objects W1 !! next_obj w = Some (initial_instance el opts r))
    by apply lookup_insert_eq.
  assert (Hel1 : element (initial_instance el opts r) ∈ all_ids W1)
    by (unfold W1; by rewrite all_ids_amend).
  pose proof (invariant_createSVGFilter _ _ _ Hw1 Ho1 Hel1) as HW.
  apply lookup_node_is_Some in Hel as Hd0. destruct Hd0 as [d0 Hd0].
  assert (Hsub : ∀ doc', (∀ x, x ∈ nodes (modify el addclass (document w)) →
                               x ∈ nodes doc') →
            ∀ nx' f,
            invariant (World doc' (modify el addclass (detached w)) (body w)
                         nx' (doc_listeners w)
                         (alter (set_svgFilter f) (next_obj w)
                            (<[next_obj w := initial_instance el opts r]>
                               (objects w)))
                         (S (next_obj w))) →
            ∃ W f0 d1,
              next_obj w = next_obj w
              ∧ settle (next_obj w)
                  (set_svgFilter f (initial_instance el opts r))
                  (World doc' (modify el addclass (detached w)) (body w)
                     nx' (doc_listeners w)
                     (<[next_obj w :=
                          set_svgFilter f (initial_instance el opts r)]>
                        (objects w))
                     (S (next_obj w)))
                = settle (next_obj w)
                    (set_svgFilter f0 (initial_instance el opts r)) W
              ∧ invariant W
              ∧ lookup_node el w = Some d1
              ∧ lookup_node el W = Some (addclass d1)
              ∧ (∀ n d, n ≠ el → lookup_node n w = Some d →
                        lookup_node n W = Some d)
              ∧ objects W
                = <[next_obj w :=
                      set_svgFilter f0 (initial_instance el opts r)]>
                    (objects w)
              ∧ doc_listeners W = doc_listeners w
              ∧ next_obj W = S (next_obj w)).
  { intros doc' Hdoc nx' f Hinv. rewrite alter_insert_eq in Hinv.
    eexists _, f, d0. split_and!; try done.
    - apply lookup_node_from_elem; [apply (inv_nodup _ Hinv)|].
      unfold all_nodes. cbn [document detached].
      apply lookup_node_elem in Hd0. unfold all_nodes in Hd0.
      apply elem_of_app in Hd0 as [Hd0|Hd0]; apply elem_of_app.
      + left. apply Hdoc. rewrite nodes_modify.
        apply list_elem_of_fmap. exists (el, d0). split; [|done].
        unfold amend_entry. simpl. by rewrite decide_True.
      + right. rewrite nodes_modify.
        apply list_elem_of_fmap. exists (el, d0). split; [|done].
        unfold amend_entry. simpl. by rewrite decide_True.
    - intros n d Hn Hd.
      apply lookup_node_from_elem; [apply (inv_nodup _ Hinv)|].
      unfold all_nodes. cbn [document detached].
      apply lookup_node_elem in Hd. unfold all_nodes in Hd.
      apply elem_of_app in Hd as [Hd|Hd]; apply elem_of_app.
      + left. apply Hdoc. rewrite nodes_modify.
        apply list_elem_of_fmap. exists (n, d). split; [|done].
        unfold amend_entry. simpl. by rewrite decide_False.
      + right. rewrite nodes_modify.
        apply list_elem_of_fmap. exists (n, d). split; [|done].
        unfold amend_entry. simpl. by rewrite decide_False. }
  destruct (find_node (has_attribute "id" "liquid-glass-svg-filters")
                      (document w)) as [[rg drg]|] eqn:Hfind.
  - apply find_node_elem in Hfind as Hr. destruct Hr as [Hr _].
    destruct (attach_is_Some rg (next_id w)
                (filter_node (initial_instance el opts r))
                (filter_tree (initial_instance el opts r) (next_id w))
                (modify el addclass (document w))) as [doc' Ha].
    { rewrite ids_modify. apply list_elem_of_fmap. by exists (rg, drg). }
    rewrite (constructor_found w el opts r rg drg doc' Hw Hel Hfind Ha) in Hc.
    injection Hc as <- <-.
    apply (Hsub doc').
    + intros x Hx. apply attach_perm in Ha. rewrite Ha.
      right. apply elem_of_app. by right.
    + erewrite (createSVGFilter_found _ (initial_instance el opts r) W1)
        in HW; [exact HW|done|apply (inv_fresh _ Hw1)| |exact Ha].
      unfold W1. cbn [amend set_forests document].
      rewrite find_node_modify, Hfind; [reflexivity|].
      intros d. by apply has_attribute_benign.
  - destruct (decide (body w ∈ ids (document w))) as [Hb|Hb].
    2:{ destruct (constructor_nobody w el opts r Hw Hel Hfind Hb) as [w1 E].
        congruence. }
    destruct (attach_is_Some (body w) (next_id w) svg_node FNil
                (modify el addclass (document w))) as [doc1 Ha1].
    { by rewrite ids_modify. }
    destruct (attach_is_Some (next_id w) (S (next_id w))
                (filter_node (initial_instance el opts r))
                (filter_tree (initial_instance el opts r) (S (next_id w)))
                doc1) as [doc2 Ha2].
    { apply attach_perm in Ha1. unfold ids. rewrite Ha1. left. }
    rewrite (constructor_created w el opts r doc1 doc2 Hw Hel Hfind Ha1 Ha2)
      in Hc.
    injection Hc as <- <-.
    apply (Hsub doc2).
    + intros x Hx. apply attach_perm in Ha1, Ha2. rewrite Ha2, Ha1.
      right. apply elem_of_app. right. right. simpl. done.
    + erewrite (createSVGFilter_created _ (initial_instance el opts r) W1)
        in HW; [exact HW|done|apply (inv_fresh _ Hw1)| |exact Ha1|exact Ha2].
      unfold W1. cbn [amend set_forests document].
      rewrite find_node_modify, Hfind; [reflexivity|].
      intros d. by apply has_attribute_benign.
Qed.

(** ** Dragging *)

(** The three listeners, on a state that has the object and its
    element. *)
Lemma onMouseDown_Ok w o x d e :
  objects w !! o = Some x → lookup_node (element x) w = Some d →
  onMouseDown o e w =
  Ok tt (amend (element x) (set_style (declare "cursor" "grabbing"))
           (set_objects
              (alter (set_drag (λ s,
                        DragState true
                          (pointer (clientX e) (first_touch touch_clientX e))
                          (pointer (clientY e) (first_touch touch_clientY e))
                          (Some (rect_left d)) (Some (rect_top d)))) o)
              w)).
Proof.
  intros Ho Hd. unfold onMouseDown, setProperty.
  assert (Hel : element x ∈ all_ids w).
  { apply lookup_node_is_Some. by rewrite Hd. }
  exec. exec. cbn [element set_drag].
  erewrite bind_Ok.
  2:{ unfold getBoundingClientRect. world_simpl. by rewrite Hd. }
  exec. cbn [fst snd].
  rewrite update_node_present by solve_present.
  f_equal. world_norm. f_equal. apply set_objects_ext. intros m.
  unfold compose. rewrite alter_alter_eq. by apply alter_ext.
Qed.

Lemma onMouseMove_dragging w o x e :
  objects w !! o = Some x → element x ∈ all_ids w →
  isDragging (drag x) = true →
  onMouseMove o e w =
  Ok tt (amend (element x)
           (set_style
              (declare "top"
                 (JS.to_string
                    (JS.to_number (initialY (drag x))
                     + (JS.to_number
                          (pointer (clientY e) (first_touch touch_clientY e))
                        - JS.to_number (startY (drag x))))%float +:+ "px"))
            ∘ set_style
              (declare "left"
                 (JS.to_string
                    (JS.to_number (initialX (drag x))
                     + (JS.to_number
                          (pointer (clientX e) (first_touch touch_clientX e))
                        - JS.to_number (startX (drag x))))%float +:+ "px"))
            ∘ set_style (declare "position" "absolute"))
           w).
Proof.
  intros Ho Hel Hdrag. unfold onMouseMove, setProperty. exec. rewrite Hdrag.
  cbn [negb]. exec. exec.
  rewrite update_node_present by solve_present.
  f_equal. by world_norm.
Qed.

Lemma onMouseMove_idle w o x e :
  objects w !! o = Some x → isDragging (drag x) = false →
  onMouseMove o e w = Ok tt w.
Proof. intros Ho Hdrag. unfold onMouseMove. exec. by rewrite Hdrag. Qed.

Lemma onMouseUp_Ok w o x :
  objects w !! o = Some x → element x ∈ all_ids w →
  onMouseUp o w =
  Ok tt (amend (element x) (set_style (declare "cursor" "grab"))
           (set_objects
              (alter (set_drag (λ s,
                        DragState false (startX s) (startY s)
                                  (initialX s) (initialY s))) o)
              w)).
Proof.
  intros Ho Hel. unfold onMouseUp, setProperty. exec. exec.
  cbn [element set_drag].
  by rewrite update_node_present by solve_present.
Qed.

(** Mouse and touch input. *)
Inductive input := ByMouse | ByTouch.

Definition down_type (k : input) : string :=
  match k with ByMouse => "mousedown" | ByTouch => "touchstart" end.

Definition move_type (k : input) : string :=
  match k with ByMouse => "mousemove" | ByTouch => "touchmove" end.

Definition up_type (k : input) : string :=
  match k with ByMouse => "mouseup" | ByTouch => "touchend" end.

Definition pointer_at (k : input) (x y : JS.number) : event :=
  match k with ByMouse => mouse x y | ByTouch => touch_at x y end.

Lemma token_add_nil {A} `{EqDecision A} (x : A) : token_add x [] = [x].
Proof. unfold token_add. by rewrite decide_False by apply not_elem_of_nil. Qed.

Lemma token_add_new {A} `{EqDecision A} (x : A) l :
  x ∉ l → token_add x l = l ++ [x].
Proof. intros Hx. unfold token_add. by rewrite decide_False. Qed.

Lemma listen_nil o :
  listen o [] = [("mousemove", OnMouseMove o); ("touchmove", OnMouseMove o);
                 ("mouseup", OnMouseUp o); ("touchend", OnMouseUp o)].
Proof.
  unfold listen. rewrite token_add_nil.
  rewrite (token_add_new ("touchmove", OnMouseMove o)
             [("mousemove", OnMouseMove o)]);
    [|rewrite ?elem_of_cons, ?elem_of_nil; intuition discriminate].
  rewrite (token_add_new ("mouseup", OnMouseUp o)
             ([("mousemove", OnMouseMove o)] ++ [("touchmove", OnMouseMove o)]));
    [|rewrite ?elem_of_app, ?elem_of_cons, ?elem_of_nil; intuition discriminate].
  rewrite (token_add_new ("touchend", OnMouseUp o));
    [|rewrite ?elem_of_app, ?elem_of_cons, ?elem_of_nil; intuition discriminate].
  reflexivity.
Qed.

(** A draggable instance just built on a fresh page: its object, its
    element and the listeners. *)
Lemma draggable_ready w0 el d0 opts r o w1 :
  fresh_page w0 → lookup_node el w0 = Some d0 →
  opt_draggable opts = Some true →
  constructor (Some el) (Some opts) r w0 = Ok o w1 →
  ∃ x d1,
    objects w1 !! o = Some x ∧ element x = el
    ∧ drag x = DragState false None None None None
    ∧ lookup_node el w1 = Some d1
    ∧ rect_left d1 = rect_left d0 ∧ rect_top d1 = rect_top d0
    ∧ style d1 !! "position" = style d0 !! "position"
    ∧ style d1 !! "cursor" = Some "grab"
    ∧ listeners d1 = [("mousedown", OnMouseDown o);
                      ("touchstart", OnMouseDown o)]
    ∧ doc_listeners w1 = [("mousemove", OnMouseMove o);
                          ("touchmove", OnMouseMove o);
                          ("mouseup", OnMouseUp o);
                          ("touchend", OnMouseUp o)].
Proof.
  intros H0 Hd0 Hdrag Hc.
  pose proof (fresh_page_invariant w0 H0) as Hw0.
  destruct (constructor_Ok w0 el (Some opts) r o w1 Hw0 Hc)
    as (W & f & d0' & -> & -> & HW & Hd0' & HdW & _ & HoW & HlW & _).
  rewrite Hd0 in Hd0'. injection Hd0' as <-.
  destruct H0 as (_ & _ & _ & _ & Hdl & Hnl).
  assert (Hl0 : listeners d0 = []).
  { apply lookup_node_elem in Hd0.
    by apply (proj1 (Forall_forall _ _) Hnl (el, d0)). }
  assert (Hdr : draggable (options (set_svgFilter f
                   (initial_instance el (Some opts) r))) = true).
  { unfold initial_instance, merge_options. simpl. by rewrite Hdrag. }
  unfold settle. rewrite Hdr. cbn [element set_svgFilter initial_instance].
  eexists _, _. split_and!.
  - world_simpl. rewrite HoW, lookup_insert_eq. reflexivity.
  - reflexivity.
  - reflexivity.
  - world_simpl. rewrite HdW. cbn [fmap option_fmap option_map].
    rewrite !decide_True by done. reflexivity.
  - reflexivity.
  - reflexivity.
  - cbn [grab set_listeners set_style style addclass set_classList].
    unfold declare at 1. cbn [JS.truthy_string].
    rewrite lookup_insert_ne by done.
    unfold project.
    repeat match goal with
           | |- context [declare ?p ?v ?m !! "position"] =>
               replace (declare p v m !! "position") with (m !! "position")
                 by (unfold declare; destruct (JS.truthy_string v);
                     [by rewrite lookup_insert_ne
                     |by rewrite lookup_delete_ne])
           end.
    reflexivity.
  - cbn [grab set_listeners set_style style].
    unfold declare at 1. cbn [JS.truthy_string].
    by rewrite lookup_insert_eq.
  - cbn [grab set_listeners set_style listeners addclass set_classList].
    rewrite Hl0, token_add_nil. rewrite token_add_new; [done|].
    rewrite list_elem_of_singleton. discriminate.
  - world_simpl. rewrite HlW, Hdl. apply listen_nil.
Qed.

(** The state of an instance with drag behaviour attached: its object
    [o] on the element [el], the element's declaration [d], the
    variables [s] of the closure, and the six listeners in place. *)
Definition ready (o : obj_id) (el : node_id) (d : node) (s : drag_state)
    (w : world) : Prop :=
  (∃ x, objects w !! o = Some x ∧ element x = el ∧ drag x = s)
  ∧ lookup_node el w = Some d
  ∧ listeners d = [("mousedown", OnMouseDown o); ("touchstart", OnMouseDown o)]
  ∧ doc_listeners w = [("mousemove", OnMouseMove o);
                       ("touchmove", OnMouseMove o);
                       ("mouseup", OnMouseUp o);
                       ("touchend", OnMouseUp o)].

(** The closure variables after [onMouseDown]. *)
Definition pressed (e : event) (d : node) : drag_state :=
  DragState true
            (pointer (clientX e) (first_touch touch_clientX e))
            (pointer (clientY e) (first_touch touch_clientY e))
            (Some (rect_left d)) (Some (rect_top d)).

(** The closure variables after [onMouseUp]. *)
Definition released (s : drag_state) : drag_state :=
  DragState false (startX s) (startY s) (initialX s) (initialY s).

(** The declarations [onMouseMove] writes while dragging. *)
Definition moved (e : event) (s : drag_state) (d : node) : node :=
  set_style
    (declare "top"
       (JS.to_string
          (JS.to_number (initialY s)
           + (JS.to_number (pointer (clientY e) (first_touch touch_clientY e))
              - JS.to_number (startY s)))%float +:+ "px")
     ∘ declare "left"
       (JS.to_string
          (JS.to_number (initialX s)
           + (JS.to_number (pointer (clientX e) (first_touch touch_clientX e))
              - JS.to_number (startX s)))%float +:+ "px")
     ∘ declare "position" "absolute") d.

Lemma ready_constructor w0 el d0 opts r o w1 :
  fresh_page w0 → lookup_node el w0 = Some d0 →
  opt_draggable opts = Some true →
  constructor (Some el) (Some opts) r w0 = Ok o w1 →
  ∃ d1, ready o el d1 (DragState false None None None None) w1
        ∧ rect_left d1 = rect_left d0 ∧ rect_top d1 = rect_top d0
        ∧ style d1 !! "position" = style d0 !! "position"
        ∧ style d1 !! "cursor" = Some "grab".
Proof.
  intros H0 Hd0 Hdrag Hc.
  destruct (draggable_ready w0 el d0 opts r o w1 H0 Hd0 Hdrag Hc)
    as (x & d1 & Ho & Hel & Hs & Hd1 & Hl & Ht & Hp & Hcur & Hls & Hdl).
  exists d1. unfold ready. split_and!; try done. by exists x.
Qed.

Lemma ready_press o el d s w k e :
  ready o el d s w →
  ready o el (set_style (declare "cursor" "grabbing") d) (pressed e d)
        (fire_on_element el (down_type k) e w).
Proof.
  intros ((x & Ho & <- & <-) & Hd & Hl & Hdl).
  assert (fire_on_element (element x) (down_type k) e w
          = final (onMouseDown o e w)) as ->.
  { unfold fire_on_element. rewrite Hd, Hl. by destruct k. }
  rewrite (onMouseDown_Ok w o x d e Ho Hd). cbn [final].
  unfold ready. split_and!.
  - eexists. split_and!.
    + world_simpl. rewrite Ho. reflexivity.
    + reflexivity.
    + reflexivity.
  - world_simpl. rewrite Hd. cbn [fmap option_fmap option_map].
    by rewrite decide_True.
  - done.
  - by world_simpl.
Qed.

Lemma ready_move o el d s w k e :
  ready o el d s w → isDragging s = true →
  ready o el (moved e s d) s (fire_on_document (move_type k) e w).
Proof.
  intros ((x & Ho & <- & <-) & Hd & Hl & Hdl) Hs.
  assert (fire_on_document (move_type k) e w
          = final (onMouseMove o e w)) as ->.
  { unfold fire_on_document. rewrite Hdl. by destruct k. }
  assert (Hel : element x ∈ all_ids w).
  { apply lookup_node_is_Some. by rewrite Hd. }
  rewrite (onMouseMove_dragging w o x e Ho Hel Hs). cbn [final].
  unfold ready. split_and!.
  - exists x. by world_simpl.
  - world_simpl. rewrite Hd. cbn [fmap option_fmap option_map].
    by rewrite decide_True.
  - done.
  - by world_simpl.
Qed.

Lemma idle_move o el d s w k e :
  ready o el d s w → isDragging s = false →
  fire_on_document (move_type k) e w = w.
Proof.
  intros ((x & Ho & <- & <-) & Hd & Hl & Hdl) Hs.
  unfold fire_on_document. rewrite Hdl.
  assert (registered (move_type k)
            [("mousemove", OnMouseMove o); ("touchmove", OnMouseMove o);
             ("mouseup", OnMouseUp o); ("touchend", OnMouseUp o)]
          = [OnMouseMove o]) as -> by by destruct k.
  cbn [dispatch fold_left run_callback].
  by rewrite (onMouseMove_idle w o x e Ho Hs).
Qed.

Lemma ready_release o el d s w k e :
  ready o el d s w →
  ready o el (set_style (declare "cursor" "grab") d) (released s)
        (fire_on_document (up_type k) e w).
Proof.
  intros ((x & Ho & <- & <-) & Hd & Hl & Hdl).
  assert (fire_on_document (up_type k) e w = final (onMouseUp o w)) as ->.
  { unfold fire_on_document. rewrite Hdl. by destruct k. }
  assert (Hel : element x ∈ all_ids w).
  { apply lookup_node_is_Some. by rewrite Hd. }
  rewrite (onMouseUp_Ok w o x Ho Hel). cbn [final].
  unfold ready. split_and!.
  - eexists. split_and!.
    + world_simpl. rewrite Ho. reflexivity.
    + reflexivity.
    + reflexivity.
  - world_simpl. rewrite Hd. cbn [fmap option_fmap option_map].
    by rewrite decide_True.
  - done.
  - by world_simpl.
Qed.

Lemma declare_lookup_eq p v st :
  JS.truthy_string v = true → declare p v st !! p = Some v.
Proof. intros Hv. unfold declare. by rewrite Hv, lookup_insert_eq. Qed.

Lemma declare_lookup_ne p q v st :
  p ≠ q → declare p v st !! q = st !! q.
Proof.
  intros Hpq. unfold declare. destruct (JS.truthy_string v).
  - by rewrite lookup_insert_ne.
  - by rewrite lookup_delete_ne.
Qed.

Lemma truthy_px s : JS.truthy_string (s +:+ "px") = true.
Proof. by destruct s. Qed.

Lemma pointer_at_X k x y :
  JS.truthy_number x = true →
  pointer (clientX (pointer_at k x y))
          (first_touch touch_clientX (pointer_at k x y)) = Some x.
Proof. intros Hx. destruct k; cbn; by rewrite ?Hx. Qed.

Lemma pointer_at_Y k x y :
  JS.truthy_number y = true →
  pointer (clientY (pointer_at k x y))
          (first_touch touch_clientY (pointer_at k x y)) = Some y.
Proof. intros Hy. destruct k; cbn; by rewrite ?Hy. Qed.

(** Moves that reach the document while no drag is under way change
    nothing. *)
Lemma idle_moves o el d s w (moves : list (input * event)) :
  ready o el d s w → isDragging s = false →
  run w ((λ m, DocumentEvent (move_type m.1) m.2) <$> moves) = w.
Proof.
  intros Hr Hs. induction moves as [|[k e] moves IH]; [done|].
  cbn [fmap list_fmap run fold_left step fst snd].
  rewrite (idle_move o el d s w k e Hr Hs). exact IH.
Qed.

(** The position written by a move is the rectangle read at pointer-down
    plus the distance the pointer travelled since. *)
Lemma drag_formula k k' w0 el d0 opts r o w1 px py qx qy :
  fresh_page w0 → lookup_node el w0 = Some d0 →
  opt_draggable opts = Some true →
  constructor (Some el) (Some opts) r w0 = Ok o w1 →
  JS.truthy_number px = true → JS.truthy_number py = true →
  JS.truthy_number qx = true → JS.truthy_number qy = true →
  ∃ d3 s,
    ready o el d3 s
      (fire_on_document (move_type k') (pointer_at k' qx qy)
         (fire_on_element el (down_type k) (pointer_at k px py) w1))
    ∧ style d3 !! "position" = Some "absolute"
    ∧ style d3 !! "left"
      = Some (JS.to_string (rect_left d0 + (qx - px))%float +:+ "px")
    ∧ style d3 !! "top"
      = Some (JS.to_string (rect_top d0 + (qy - py))%float +:+ "px").
Proof.
  intros H0 Hd0 Hdrag Hc Hpx Hpy Hqx Hqy.
  destruct (ready_constructor w0 el d0 opts r o w1 H0 Hd0 Hdrag Hc)
    as (d1 & Hr1 & Hl & Ht & _).
  pose proof (ready_press o el d1 _ w1 k (pointer_at k px py) Hr1) as Hr2.
  pose proof (ready_move o el _ _ _ k' (pointer_at k' qx qy) Hr2 eq_refl)
    as Hr3.
  eexists _, _. split; [exact Hr3|].
  unfold moved, pressed.
  cbn [set_style style compose initialX initialY startX startY].
  rewrite !pointer_at_X, !pointer_at_Y by done. cbn [JS.to_number].
  rewrite Hl, Ht. split_and!.
  - rewrite !declare_lookup_ne by done. by rewrite declare_lookup_eq.
  - rewrite declare_lookup_ne by done.
    by rewrite declare_lookup_eq by apply truthy_px.
  - by rewrite declare_lookup_eq by apply truthy_px.
Qed.

(** C5.  A draggable instance is built on an element laid out at
    (50, 50).  Pointer-down at (100, 100) on the element, then a
    pointer-move to (130, 140) anywhere in the document, by mouse or by
    touch: the element is positioned at left 80px, top 90px.  After a
    pointer-up, pointer-moves change nothing any more. *)
Theorem drag_gesture k w0 el d0 opts r o w1 :
  fresh_page w0 → lookup_node el w0 = Some d0 →
  rect_left d0 = 50%float → rect_top d0 = 50%float →
  opt_draggable opts = Some true →
  constructor (Some el) (Some opts) r w0 = Ok o w1 →
  let w2 := fire_on_element el (down_type k) (pointer_at k 100 100) w1 in
  let w3 := fire_on_document (move_type k) (pointer_at k 130 140) w2 in
  (∃ d3, lookup_node el w3 = Some d3
         ∧ style d3 !! "position" = Some "absolute"
         ∧ style d3 !! "left" = Some "80px"
         ∧ style d3 !! "top" = Some "90px")
  ∧ ∀ e (moves : list (input * event)),
      let w4 := fire_on_document (up_type k) e w3 in
      run w4 ((λ m, DocumentEvent (move_type m.1) m.2) <$> moves) = w4.
Proof.
  intros H0 Hd0 Hl Ht Hdrag Hc w2 w3.
  destruct (drag_formula k k w0 el d0 opts r o w1 100 100 130 140
              H0 Hd0 Hdrag Hc eq_refl eq_refl eq_refl eq_refl)
    as (d3 & s & Hr & Hpos & Hleft & Htop).
  fold w2 w3 in Hr. split.
  - exists d3. split_and!.
    + apply Hr.
    + exact Hpos.
    + rewrite Hleft, Hl. by vm_compute.
    + rewrite Htop, Ht. by vm_compute.
  - intros e moves w4.
    apply (idle_moves o el _ _ w4 moves (ready_release o el d3 s w3 k e Hr)).
    reflexivity.
Qed.

Definition draggable_options : LiquidGlassOptions :=
  {| opt_shadowOffset := None; opt_shadowBlur := None;
     opt_shadowSpread := None; opt_shadowColor := None;
     opt_tintColor := None; opt_tintOpacity := None;
     opt_frostBlur := None; opt_noiseFrequency := None;
     opt_distortionStrength := None; opt_outerShadowBlur := None;
     opt_outerShadowColor := None; opt_borderRadius := None;
     opt_draggable := Some true |}.

(** The example page after [new LiquidGlass(div, {draggable: true})]. *)
Definition draggable_page : world :=
  final (constructor (Some 1) (Some draggable_options) "0.4fzyo82mvyr"
                     example_page).

Lemma drag_gesture_witness :
  fresh_page example_page
  ∧ (∃ d3,
       lookup_node 1
         (fire_on_document "mousemove" (mouse 130 140)
            (fire_on_element 1 "mousedown" (mouse 100 100) draggable_page))
       = Some d3
       ∧ style d3 !! "position" = Some "absolute"
       ∧ style d3 !! "left" = Some "80px"
       ∧ style d3 !! "top" = Some "90px").
Proof.
  split; [apply (bool_decide_unpack _); vm_compute; exact I|].
  eapply (drag_gesture ByMouse example_page 1 _ draggable_options
            "0.4fzyo82mvyr" 0 draggable_page).
  - apply (bool_decide_unpack _). vm_compute. exact I.
  - vm_compute. reflexivity.
  - reflexivity.
  - reflexivity.
  - reflexivity.
  - vm_compute. reflexivity.
Defined.

(** Pointer-down on the draggable element of the example page: the
    element has no [position] declaration afterwards. *)
Lemma pointer_down_position_counterexample :
  ∃ d, lookup_node 1 (fire_on_element 1 "mousedown" (mouse 100 100)
                        draggable_page) = Some d
       ∧ style d !! "cursor" = Some "grabbing"
       ∧ style d !! "position" = None
       ∧ style d !! "position" ≠ Some "absolute".
Proof.
  eexists. split; [vm_compute; reflexivity|].
  split; [vm_compute; reflexivity|].
  split; [vm_compute; reflexivity|].
  vm_compute. discriminate.
Qed.

(** C6, amended.  Pointer-down on a draggable element leaves its
    [position] declaration as it was before the instance was built and
    sets the cursor to [grabbing]; it is the pointer-move that follows,
    anywhere in the document, that declares [position: absolute]. *)
Theorem pointer_down_keeps_position k w0 el d0 opts r o w1 e :
  fresh_page w0 → lookup_node el w0 = Some d0 →
  opt_draggable opts = Some true →
  constructor (Some el) (Some opts) r w0 = Ok o w1 →
  let w2 := fire_on_element el (down_type k) e w1 in
  (∃ d2, lookup_node el w2 = Some d2
         ∧ style d2 !! "position" = style d0 !! "position"
         ∧ style d2 !! "cursor" = Some "grabbing")
  ∧ ∀ k' e', ∃ d3,
      lookup_node el (fire_on_document (move_type k') e' w2) = Some d3
      ∧ style d3 !! "position" = Some "absolute".
Proof.
  intros H0 Hd0 Hdrag Hc w2.
  destruct (ready_constructor w0 el d0 opts r o w1 H0 Hd0 Hdrag Hc)
    as (d1 & Hr1 & _ & _ & Hpos & _).
  pose proof (ready_press o el d1 _ w1 k e Hr1) as Hr2. fold w2 in Hr2.
  split.
  - eexists. split; [apply Hr2|]. cbn [set_style style]. split.
    + by rewrite declare_lookup_ne.
    + by rewrite declare_lookup_eq.
  - intros k' e'.
    pose proof (ready_move o el _ _ _ k' e' Hr2 eq_refl) as Hr3.
    eexists. split; [apply Hr3|].
    unfold moved. cbn [set_style style compose].
    rewrite !declare_lookup_ne by done. by rewrite declare_lookup_eq.
Qed.

Lemma pointer_down_keeps_position_witness :
  fresh_page example_page
  ∧ ∃ d2, lookup_node 1 (fire_on_element 1 "mousedown" (mouse 100 100)
                           draggable_page) = Some d2
          ∧ style d2 !! "position"
            = style (set_rect 50 50
                       (empty_node "http://www.w3.org/1999/xhtml" "div"))
                !! "position"
          ∧ style d2 !! "cursor" = Some "grabbing".
Proof.
  split; [apply (bool_decide_unpack _); vm_compute; exact I|].
  refine (proj1 (pointer_down_keeps_position ByMouse example_page 1
            (set_rect 50 50 (empty_node "http://www.w3.org/1999/xhtml" "div"))
            draggable_options "0.4fzyo82mvyr" 0 draggable_page
            (mouse 100 100) _ _ _ _)).
  - apply (bool_decide_unpack _). vm_compute. exact I.
  - vm_compute. reflexivity.
  - reflexivity.
  - vm_compute. reflexivity.
Defined.

(* ===================================================================== *)
(** * What [destroy] leaves                                               *)
(* ===================================================================== *)

(** The declarations after the loop over [stylesToRemove]. *)
Definition strip (st : gmap string string) : gmap string string :=
  foldl (λ m p, delete p m) st stylesToRemove.

(** What [this.cleanup] does to the element and to the listeners of the
    document. *)
Definition ungrab (o : obj_id) (d : node) : node :=
  set_listeners (token_remove ("touchstart", OnMouseDown o))
    (set_listeners (token_remove ("mousedown", OnMouseDown o)) d).

Definition unlisten (o : obj_id) (l : list (string * callback))
    : list (string * callback) :=
  token_remove ("touchend", OnMouseUp o)
    (token_remove ("mouseup", OnMouseUp o)
       (token_remove ("touchmove", OnMouseMove o)
          (token_remove ("mousemove", OnMouseMove o) l))).

(** The element after [destroy]. *)
Definition bare (o : obj_id) (x : instance) (d : node) : node :=
  set_style strip
    ((if cleanup x then ungrab o else id)
       (set_classList (token_remove "liquid-glass") d)).

(** The end of [destroy], after the filter is taken out. *)
Definition teardown (o : obj_id) (x : instance) (w : world) : world :=
  amend (element x) (bare o x)
    (if cleanup x then set_doc_listeners (unlisten o) w else w).

Lemma teardown_Ok w o x :
  objects w !! o = Some x → element x ∈ all_ids w →
  (classList_remove (element x) "liquid-glass" ;;;
   (if cleanup x then run_cleanup o else ret tt) ;;;
   forEach stylesToRemove (removeProperty (element x))) w
  = Ok tt (teardown o x w).
Proof.
  intros Ho Hel. unfold classList_remove, teardown, bare. exec.
  unfold stylesToRemove, removeProperty. cbn [forEach].
  destruct (cleanup x).
  - unfold run_cleanup, removeEventListener, document_removeEventListener.
    erewrite bind_Ok.
    2:{ exec. exec. exec. exec. exec. exec. reflexivity. }
    do 10 exec. unfold ret. f_equal. by world_norm.
  - erewrite bind_Ok by reflexivity.
    do 10 exec. unfold ret. f_equal. by world_norm.
Qed.

(** A node found below some parent has a parent. *)
Lemma parent_in_is_Some up c f r :
  parent_in (Some up) c f = Some r → is_Some r.
Proof.
  revert up. induction f as [|i d ch IHch sib IHsib]; simpl; intros up.
  - done.
  - destruct (decide (i = c)); [by intros [= <-]|].
    destruct (parent_in (Some (Element i)) c ch) eqn:E.
    + intros [= <-]. by eapply IHch.
    + apply IHsib.
Qed.

Lemma removeChild_parent w f p w1 :
  parentNode f w = Ok (Some p) w → detach f w = Some w1 →
  removeChild p f w = Ok tt w1.
Proof.
  intros Hp Hd. unfold removeChild. rewrite Hp.
  rewrite decide_True by done. by rewrite Hd.
Qed.

Lemma parentNode_detached w f w1 :
  NoDup (all_ids w) → detach f w = Some w1 →
  f ∉ ids (document w1) ∧ parentNode f w1 = Ok None w1.
Proof.
  intros Hnd Hd.
  destruct (detach_self _ _ _ Hnd Hd) as (_ & Hnot & d & ch & det & Hdet).
  split; [done|]. unfold parentNode.
  rewrite (proj2 (parent_in_None _ _ _) Hnot), Hdet. simpl.
  by rewrite decide_True.
Qed.

(** [if (svgFilter.parentNode) svgFilter.parentNode.removeChild(svgFilter)]:
    the filter ends as a tree of its own outside the document, where a
    second call finds it and leaves it. *)
Lemma unhook_Ok w f :
  NoDup (all_ids w) → f ∈ all_ids w →
  ∃ w1,
    (let* p := parentNode f in
     match p with
     | Some p => removeChild p f
     | None => ret tt
     end) w = Ok tt w1
    ∧ (parentNode f w = Ok None w ∧ w1 = w
       ∨ parentNode f w ≠ Ok None w ∧ detach f w = Some w1)
    ∧ f ∉ ids (document w1)
    ∧ parentNode f w1 = Ok None w1.
Proof.
  intros Hnd Hf.
  assert (Hcut : ∀ p, parentNode f w = Ok (Some p) w → ∃ w1,
    (let* p := parentNode f in
     match p with
     | Some p => removeChild p f
     | None => ret tt
     end) w = Ok tt w1
    ∧ (parentNode f w = Ok None w ∧ w1 = w
       ∨ parentNode f w ≠ Ok None w ∧ detach f w = Some w1)
    ∧ f ∉ ids (document w1)
    ∧ parentNode f w1 = Ok None w1).
  { intros p Hp. destruct (detach_is_Some f w Hf) as [w1 Hd].
    exists w1. split.
    - erewrite bind_Ok by exact Hp. by apply removeChild_parent.
    - split; [right; split; [congruence|done]|].
      by apply parentNode_detached with w. }
  destruct (parent_in (Some TheDocument) f (document w)) as [r|] eqn:Hdoc.
  - destruct (parent_in_is_Some _ _ _ _ Hdoc) as [p ->].
    apply (Hcut p). unfold parentNode. by rewrite Hdoc.
  - destruct (parent_in None f (detached w)) as [[p|]|] eqn:Hdet.
    + apply (Hcut p). unfold parentNode. by rewrite Hdoc, Hdet.
    + assert (Hp : parentNode f w = Ok None w).
      { unfold parentNode. by rewrite Hdoc, Hdet. }
      exists w. split; [by erewrite bind_Ok by exact Hp|].
      split; [by left|]. split; [|done]. by apply parent_in_None in Hdoc.
    + apply parent_in_None in Hdoc, Hdet.
      rewrite all_ids_app, elem_of_app in Hf. tauto.
Qed.

(** Taking the filter out moves no other node and changes no node. *)
Lemma unhook_frame w f w1 :
  NoDup (all_ids w) →
  (parentNode f w = Ok None w ∧ w1 = w
       ∨ parentNode f w ≠ Ok None w ∧ detach f w = Some w1) →
  (∀ n, lookup_node n w1 = lookup_node n w)
  ∧ all_ids w1 ≡ₚ all_ids w
  ∧ objects w1 = objects w ∧ doc_listeners w1 = doc_listeners w.
Proof.
  intros Hnd [[_ ->]|[_ Hd]]; [done|].
  destruct (detach_fields _ _ _ Hd) as (_ & _ & Eo & El & _).
  pose proof (detach_perm _ _ _ Hd) as Hp.
  split_and!; try done.
  - intros n. by apply lookup_node_perm.
  - unfold all_ids. by rewrite Hp.
Qed.

(** [destroy] on an instance that has its filter. *)
Lemma destroy_Ok w o x f :
  invariant w → objects w !! o = Some x → svgFilter x = Some f →
  ∃ w1,
    destroy o w = Ok tt (teardown o x w1)
    ∧ (parentNode f w = Ok None w ∧ w1 = w
       ∨ parentNode f w ≠ Ok None w ∧ detach f w = Some w1)
    ∧ f ∉ ids (document w1)
    ∧ parentNode f w1 = Ok None w1.
Proof.
  intros Hw Ho Hf.
  assert (Hfw : f ∈ all_ids w).
  { destruct (inv_filter _ Hw o x f Ho Hf) as (df & t & dt & b & db & d & dd
                                               & Ht & _).
    apply lookup_node_is_Some. unfold lookup_node. by rewrite Ht. }
  destruct (unhook_Ok w f (inv_nodup _ Hw) Hfw) as (w1 & Hu & Hc & Hn & Hp).
  destruct (unhook_frame w f w1 (inv_nodup _ Hw) Hc) as (Hl & Hi & Eo & El).
  exists w1. split; [|done].
  unfold destroy. exec. rewrite Hf. erewrite bind_Ok by exact Hu.
  apply teardown_Ok.
  - by rewrite Eo.
  - rewrite Hi. apply (inv_element _ Hw o x Ho). by rewrite Hf.
Qed.

(** ** A second [destroy] *)

Lemma foldl_delete_lookup (l : list string) (st : gmap string string) p :
  foldl (λ m q, delete q m) st l !! p
  = if decide (p ∈ l) then None else st !! p.
Proof.
  revert st. induction l as [|q l IH]; intros st; cbn [foldl].
  - by rewrite decide_False by apply not_elem_of_nil.
  - rewrite IH. destruct (decide (p ∈ l)) as [Hin|Hnin].
    + by rewrite decide_True by by right.
    + destruct (decide (q = p)) as [->|Hne].
      * rewrite decide_True by left. by rewrite lookup_delete_eq.
      * rewrite decide_False by (intros [->|?]%elem_of_cons; done).
        by rewrite lookup_delete_ne.
Qed.

Lemma strip_lookup st p :
  strip st !! p = if decide (p ∈ stylesToRemove) then None else st !! p.
Proof. apply foldl_delete_lookup. Qed.

Lemma strip_idem st : strip (strip st) = strip st.
Proof.
  apply map_eq. intros p. rewrite !strip_lookup. by destruct (decide _).
Qed.

Lemma token_remove_comm {A} `{EqDecision A} (x y : A) l :
  token_remove x (token_remove y l) = token_remove y (token_remove x l).
Proof.
  unfold token_remove. rewrite !list_filter_filter.
  apply list_filter_iff. tauto.
Qed.

Lemma token_remove_idem {A} `{EqDecision A} (x : A) l :
  token_remove x (token_remove x l) = token_remove x l.
Proof.
  unfold token_remove. rewrite list_filter_filter.
  apply list_filter_iff. tauto.
Qed.

Lemma unlisten_idem o l : unlisten o (unlisten o l) = unlisten o l.
Proof.
  unfold unlisten, token_remove. rewrite !list_filter_filter.
  apply list_filter_iff. tauto.
Qed.

Lemma node_ext (d d' : node) :
  namespaceURI d = namespaceURI d' → tagName d = tagName d' →
  attributes d = attributes d' → style d = style d' →
  classList d = classList d' → listeners d = listeners d' →
  rect_left d = rect_left d' → rect_top d = rect_top d' →
  d = d'.
Proof. destruct d, d'. simpl. by intros -> -> -> -> -> -> -> ->. Qed.

Ltac node_fields :=
  apply node_ext;
  cbn [set_style set_classList set_listeners id namespaceURI tagName
       attributes style classList listeners rect_left rect_top];
  try reflexivity.

Lemma ungrab_idem o d : ungrab o (ungrab o d) = ungrab o d.
Proof.
  unfold ungrab. node_fields.
  unfold token_remove. rewrite !list_filter_filter.
  apply list_filter_iff. tauto.
Qed.

Lemma bare_idem o x d : bare o x (bare o x d) = bare o x d.
Proof.
  unfold bare. destruct (cleanup x).
  - unfold ungrab. node_fields.
    + apply strip_idem.
    + apply token_remove_idem.
    + unfold token_remove. rewrite !list_filter_filter.
      apply list_filter_iff. tauto.
  - node_fields.
    + apply strip_idem.
    + apply token_remove_idem.
Qed.

Lemma teardown_idem o x w : teardown o x (teardown o x w) = teardown o x w.
Proof.
  unfold teardown. destruct (cleanup x) eqn:Hc.
  - world_norm. rewrite <- amend_set_doc_listeners. world_norm.
    rewrite (amend_ext _ _ (bare o x)) by (intros d; apply bare_idem).
    f_equal. apply set_doc_listeners_ext. intros l. apply unlisten_idem.
  - world_norm. apply amend_ext. intros d. apply bare_idem.
Qed.

Lemma parent_in_modify up c n g f :
  parent_in up c (modify n g f) = parent_in up c f.
Proof.
  revert up. induction f as [|i d ch IHch sib IHsib]; simpl; intros up.
  - done.
  - by rewrite IHch, IHsib.
Qed.

Lemma parentNode_teardown o x f w r :
  parentNode f w = Ok r w →
  parentNode f (teardown o x w) = Ok r (teardown o x w).
Proof.
  unfold parentNode, teardown. intros Hp.
  assert (Hdoc : document (amend (element x) (bare o x)
                   (if cleanup x then set_doc_listeners (unlisten o) w else w))
                 = modify (element x) (bare o x) (document w))
    by by destruct (cleanup x).
  assert (Hdet : detached (amend (element x) (bare o x)
                   (if cleanup x then set_doc_listeners (unlisten o) w else w))
                 = modify (element x) (bare o x) (detached w))
    by by destruct (cleanup x).
  rewrite Hdoc, Hdet, !parent_in_modify.
  destruct (parent_in _ f (document w)).
  - by injection Hp as ->.
  - destruct (parent_in _ f (detached w)); [|done]. by injection Hp as ->.
Qed.

Lemma lookup_node_teardown n o x w :
  lookup_node n (teardown o x w)
  = (λ d, if decide (n = element x) then bare o x d else d)
      <$> lookup_node n w.
Proof. unfold teardown. destruct (cleanup x); by world_simpl. Qed.

Lemma objects_teardown o x w : objects (teardown o x w) = objects w.
Proof. unfold teardown. by destruct (cleanup x). Qed.

Lemma style_bare o x d : style (bare o x d) = strip (style d).
Proof. unfold bare. by destruct (cleanup x). Qed.

Lemma classList_bare o x d :
  classList (bare o x d) = token_remove "liquid-glass" (classList d).
Proof. unfold bare. by destruct (cleanup x). Qed.

Lemma token_remove_out {A} `{EqDecision A} (x : A) l : x ∉ token_remove x l.
Proof. unfold token_remove. by intros [? _]%list_elem_of_filter. Qed.

(** [destroy] twice is [destroy] once. *)
Lemma destroy_again w o x f w' :
  invariant w → objects w !! o = Some x → svgFilter x = Some f →
  destroy o w = Ok tt w' → destroy o w' = Ok tt w'.
Proof.
  intros Hw Ho Hf Hd.
  destruct (destroy_Ok w o x f Hw Ho Hf) as (w1 & Hd1 & Hc & Hn & Hp).
  rewrite Hd in Hd1. injection Hd1 as ->.
  destruct (unhook_frame w f w1 (inv_nodup _ Hw) Hc) as (_ & _ & Eo & _).
  pose proof (safe_destroy o w Hw) as Hw'. rewrite Hd in Hw'. simpl in Hw'.
  assert (Ho' : objects (teardown o x w1) !! o = Some x).
  { by rewrite objects_teardown, Eo. }
  destruct (destroy_Ok _ o x f Hw' Ho' Hf) as (w2 & Hd2 & Hc2 & _).
  apply (parentNode_teardown o x) in Hp.
  destruct Hc2 as [[_ ->]|[Hne _]]; [|done].
  by rewrite Hd2, teardown_idem.
Qed.

(** What [destroy] does to the nodes, the objects and the filter. *)
Lemma destroy_effect w o x f :
  invariant w → objects w !! o = Some x → svgFilter x = Some f →
  ∃ w' d,
    destroy o w = Ok tt w'
    ∧ invariant w'
    ∧ lookup_node (element x) w = Some d
    ∧ lookup_node (element x) w' = Some (bare o x d)
    ∧ (∀ n, n ≠ element x → lookup_node n w' = lookup_node n w)
    ∧ objects w' = objects w
    ∧ f ∉ ids (document w')
    ∧ parentNode f w' = Ok None w'.
Proof.
  intros Hw Ho Hf.
  destruct (destroy_Ok w o x f Hw Ho Hf) as (w1 & Hd & Hc & Hn & Hp).
  destruct (unhook_frame w f w1 (inv_nodup _ Hw) Hc) as (Hl & _ & Eo & _).
  assert (is_Some (lookup_node (element x) w)) as [d Hel].
  { apply lookup_node_is_Some, (inv_element _ Hw o x Ho). by rewrite Hf. }
  exists (teardown o x w1), d. split_and!.
  - exact Hd.
  - pose proof (safe_destroy o w Hw) as Hw'. by rewrite Hd in Hw'.
  - exact Hel.
  - rewrite lookup_node_teardown, Hl, Hel. cbn [fmap option_fmap option_map].
    by rewrite decide_True.
  - intros n Hne. rewrite lookup_node_teardown, Hl.
    destruct (lookup_node n w); [|done]. cbn [fmap option_fmap option_map].
    by rewrite decide_False.
  - by rewrite objects_teardown.
  - unfold teardown.
    destruct (cleanup x); unfold amend; simpl; by rewrite ids_modify.
  - by apply parentNode_teardown.
Qed.

(** C4.  In any session on a fresh page, [destroy()] on an instance
    returns; afterwards the element has none of the ten style variables
    that [applyStyles] and the update methods write, each named here,
    and not the class [liquid-glass], the filter of the instance is out
    of the document (it has no parent), and a second [destroy()] returns
    too, changing nothing. *)
Theorem destroy_clears w0 acts o x f :
  fresh_page w0 → objects (run w0 acts) !! o = Some x →
  svgFilter x = Some f →
  ∃ w' d',
    destroy o (run w0 acts) = Ok tt w'
    ∧ lookup_node (element x) w' = Some d'
    ∧ style d' !! "--shadow-offset" = None
    ∧ style d' !! "--shadow-blur" = None
    ∧ style d' !! "--shadow-spread" = None
    ∧ style d' !! "--shadow-color" = None
    ∧ style d' !! "--tint-color" = None
    ∧ style d' !! "--frost-blur" = None
    ∧ style d' !! "--outer-shadow-blur" = None
    ∧ style d' !! "--outer-shadow-color" = None
    ∧ style d' !! "--border-radius" = None
    ∧ style d' !! "--glass-filter-url" = None
    ∧ "liquid-glass" ∉ classList d'
    ∧ f ∉ ids (document w')
    ∧ parentNode f w' = Ok None w'
    ∧ destroy o w' = Ok tt w'.
Proof.
  intros H0 Ho Hf.
  pose proof (session_invariant w0 acts H0) as Hw.
  destruct (destroy_effect _ o x f Hw Ho Hf)
    as (w' & d & Hd & Hw' & Hel & Hel' & _ & _ & Hn & Hp).
  assert (Hgone : ∀ p, bool_decide (p ∈ stylesToRemove) = true →
                       style (bare o x d) !! p = None).
  { intros p Hin%bool_decide_eq_true.
    rewrite style_bare, strip_lookup. by rewrite decide_True. }
  exists w', (bare o x d). split; [done|]. split; [done|].
  do 10 (split; [by apply Hgone|]).
  split_and!; try done.
  - rewrite classList_bare. apply token_remove_out.
  - by apply (destroy_again (run w0 acts) o x f).
Qed.

Lemma destroy_clears_witness :
  fresh_page example_page
  ∧ ∃ x, objects (run example_page example_session) !! 0 = Some x
      ∧ svgFilter x = Some 3
      ∧ ∃ w' d',
          destroy 0 (run example_page example_session) = Ok tt w'
          ∧ lookup_node (element x) w' = Some d'
          ∧ style d' !! "--shadow-offset" = None
          ∧ style d' !! "--shadow-blur" = None
          ∧ style d' !! "--shadow-spread" = None
          ∧ style d' !! "--shadow-color" = None
          ∧ style d' !! "--tint-color" = None
          ∧ style d' !! "--frost-blur" = None
          ∧ style d' !! "--outer-shadow-blur" = None
          ∧ style d' !! "--outer-shadow-color" = None
          ∧ style d' !! "--border-radius" = None
          ∧ style d' !! "--glass-filter-url" = None
          ∧ "liquid-glass" ∉ classList d'
          ∧ 3 ∉ ids (document w')
          ∧ parentNode 3 w' = Ok None w'
          ∧ destroy 0 w' = Ok tt w'.
Proof.
  split; [apply (bool_decide_unpack _); vm_compute; exact I|].
  eexists. split; [vm_compute; reflexivity|]. split; [reflexivity|].
  eapply (destroy_clears example_page example_session 0 _ 3).
  - apply (bool_decide_unpack _). vm_compute. exact I.
  - vm_compute. reflexivity.
  - reflexivity.
Defined.

(** C10.  In any session on a fresh page, [destroy()] changes, among the
    declarations and classes of the element, only the ten style
    variables and the class [liquid-glass]: every other declaration, in
    particular [cursor], [position], [left] and [top] as the drag
    listeners wrote them, and every other class is as before. *)
Theorem destroy_frame w0 acts o x f :
  fresh_page w0 → objects (run w0 acts) !! o = Some x →
  svgFilter x = Some f →
  ∃ w' d d',
    destroy o (run w0 acts) = Ok tt w'
    ∧ lookup_node (element x) (run w0 acts) = Some d
    ∧ lookup_node (element x) w' = Some d'
    ∧ (∀ p, p ∉ stylesToRemove → style d' !! p = style d !! p)
    ∧ style d' !! "cursor" = style d !! "cursor"
    ∧ style d' !! "position" = style d !! "position"
    ∧ style d' !! "left" = style d !! "left"
    ∧ style d' !! "top" = style d !! "top"
    ∧ classList d' = filter (λ c, c ≠ "liquid-glass") (classList d).
Proof.
  intros H0 Ho Hf.
  pose proof (session_invariant w0 acts H0) as Hw.
  destruct (destroy_effect _ o x f Hw Ho Hf)
    as (w' & d & Hd & Hw' & Hel & Hel' & _).
  assert (Hframe : ∀ p, p ∉ stylesToRemove →
                        style (bare o x d) !! p = style d !! p).
  { intros p Hp. rewrite style_bare, strip_lookup. by rewrite decide_False. }
  exists w', d, (bare o x d). split_and!; try done.
  - apply Hframe. apply (bool_decide_unpack _). by vm_compute.
  - apply Hframe. apply (bool_decide_unpack _). by vm_compute.
  - apply Hframe. apply (bool_decide_unpack _). by vm_compute.
  - apply Hframe. apply (bool_decide_unpack _). by vm_compute.
  - apply classList_bare.
Qed.

(** A whole gesture on the draggable element of the example page. *)
Definition dragged_session : list action :=
  [ New (Some 1) (Some draggable_options) "0.4fzyo82mvyr";
    ElementEvent 1 "mousedown" (mouse 100 100);
    DocumentEvent "mousemove" (mouse 130 140);
    DocumentEvent "mouseup" (mouse 130 140) ].

Lemma destroy_frame_witness :
  fresh_page example_page
  ∧ ∃ x, objects (run example_page dragged_session) !! 0 = Some x
      ∧ svgFilter x = Some 3
      ∧ ∃ w' d d',
          destroy 0 (run example_page dragged_session) = Ok tt w'
          ∧ lookup_node (element x) (run example_page dragged_session)
            = Some d
          ∧ lookup_node (element x) w' = Some d'
          ∧ (∀ p, p ∉ stylesToRemove → style d' !! p = style d !! p)
          ∧ style d' !! "cursor" = style d !! "cursor"
          ∧ style d' !! "position" = style d !! "position"
          ∧ style d' !! "left" = style d !! "left"
          ∧ style d' !! "top" = style d !! "top"
          ∧ classList d' = filter (λ c, c ≠ "liquid-glass") (classList d).
Proof.
  split; [apply (bool_decide_unpack _); vm_compute; exact I|].
  eexists. split; [vm_compute; reflexivity|]. split; [reflexivity|].
  eapply (destroy_frame example_page dragged_session 0 _ 3).
  - apply (bool_decide_unpack _). vm_compute. exact I.
  - vm_compute. reflexivity.
  - reflexivity.
Defined.

(** The example: after the gesture and [destroy()], the element still
    carries what the drag listeners wrote. *)
Example destroy_after_drag :
  ∃ d', lookup_node 1 (run example_page (dragged_session ++ [Destroy 0]))
        = Some d'
        ∧ style d' !! "cursor" = Some "grab"
        ∧ style d' !! "position" = Some "absolute"
        ∧ style d' !! "left" = Some "80px"
        ∧ style d' !! "top" = Some "90px"
        ∧ style d' !! "--tint-color" = None
        ∧ classList d' = [].
Proof.
  eexists. split; [vm_compute; reflexivity|].
  split_and!; by vm_compute.
Qed.

(* ===================================================================== *)
(** * The update methods as assignments and declarations                  *)
(* ===================================================================== *)

(** The five update methods with their arguments. *)
Inductive update :=
| Shadow (p : ShadowUpdateParams)
| Tint (p : TintUpdateParams)
| Frost (blur : string)
| Distortion (p : DistortionUpdateParams)
| OuterShadow (p : OuterShadowUpdateParams).

Definition call (this : obj_id) (u : update) : M unit :=
  match u with
  | Shadow p => updateShadow this p
  | Tint p => updateTint this p
  | Frost blur => updateFrost this blur
  | Distortion p => updateDistortion this p
  | OuterShadow p => updateOuterShadow this p
  end.

Definition assign_opt {A} (set : A → config → config) (v : option A)
    (c : config) : config :=
  match v with Some a => set a c | None => c end.

Definition declare_opt (prop : string) (v : option string)
    (st : gmap string string) : gmap string string :=
  match v with Some a => declare prop a st | None => st end.

(** [this.options] after the call. *)
Definition assigned (u : update) (c : config) : config :=
  match u with
  | Shadow p =>
      assign_opt set_shadowOffset (sp_offset p)
        (assign_opt set_shadowColor (sp_color p)
           (assign_opt set_shadowSpread (sp_spread p)
              (assign_opt set_shadowBlur (sp_blur p) c)))
  | Tint p =>
      assign_opt set_tintOpacity (tp_opacity p)
        (assign_opt set_tintColor (tp_color p) c)
  | Frost blur => set_frostBlur blur c
  | Distortion p =>
      assign_opt set_distortionStrength (dp_strength p)
        (assign_opt set_noiseFrequency (dp_frequency p) c)
  | OuterShadow p =>
      assign_opt set_outerShadowColor (op_color p)
        (assign_opt set_outerShadowBlur (op_blur p) c)
  end.

(** The alpha channel rewritten by [updateTint({opacity})]. *)
Definition retint (opacity : option JS.number) (c : config)
    (st : gmap string string) : gmap string string :=
  match opacity with
  | Some a =>
      match JS.exec tint_regex (tintColor c) with
      | Some rgbaMatch => declare "--tint-color" (newColor rgbaMatch a) st
      | None => st
      end
  | None => st
  end.

(** The declarations of the element after the call, from its options
    [c] and its declarations [st] before. *)
Definition declared (u : update) (c : config) (st : gmap string string)
    : gmap string string :=
  match u with
  | Shadow p =>
      declare_opt "--shadow-offset" (sp_offset p)
        (declare_opt "--shadow-color" (sp_color p)
           (declare_opt "--shadow-spread" (sp_spread p)
              (declare_opt "--shadow-blur" (sp_blur p) st)))
  | Tint p =>
      retint (tp_opacity p) (assign_opt set_tintColor (tp_color p) c)
        (declare_opt "--tint-color" (tp_color p) st)
  | Frost blur => declare "--frost-blur" blur st
  | Distortion p => st
  | OuterShadow p =>
      declare_opt "--outer-shadow-color" (op_color p)
        (declare_opt "--outer-shadow-blur" (op_blur p) st)
  end.

(** A command that assigns options of [o] and declares properties of its
    element, and does nothing else. *)
Definition writes (o : obj_id) (c : M unit) (g : config → config)
    (h : config → gmap string string → gmap string string) : Prop :=
  ∀ w x, objects w !! o = Some x → element x ∈ all_ids w →
    c w = Ok tt (amend (element x) (set_style (h (options x)))
                   (set_objects (alter (set_options g) o) w)).

Lemma modify_id n g f : (∀ d, g d = d) → modify n g f = f.
Proof.
  intros Hg. induction f as [|i d ch IHch sib IHsib]; simpl; [done|].
  rewrite IHch, IHsib, Hg. by destruct (decide (i = n)).
Qed.

Lemma amend_id n g w : (∀ d, g d = d) → amend n g w = w.
Proof.
  intros Hg. unfold amend, set_forests. rewrite !modify_id by done.
  by destruct w.
Qed.

Lemma set_objects_id f w : f (objects w) = objects w → set_objects f w = w.
Proof. unfold set_objects. intros ->. by destruct w. Qed.

Lemma writes_ret o : writes o (ret tt) (λ c, c) (λ _ st, st).
Proof.
  intros w x Ho Hel. unfold ret. f_equal.
  rewrite amend_id by (by intros []).
  rewrite set_objects_id; [done|]. apply alter_id. by intros [].
Qed.

Lemma writes_bind o c1 c2 g1 h1 g2 h2 :
  writes o c1 g1 h1 → writes o c2 g2 h2 →
  writes o (c1 ;;; c2) (λ c, g2 (g1 c)) (λ c st, h2 (g1 c) (h1 c st)).
Proof.
  intros H1 H2 w x Ho Hel.
  erewrite bind_Ok by by apply H1.
  erewrite H2.
  2:{ world_simpl. rewrite Ho. reflexivity. }
  2:{ by world_simpl. }
  f_equal. cbn [element set_options options]. world_norm.
  f_equal. apply set_objects_ext. intros m. unfold compose.
  rewrite alter_alter_eq. by apply alter_ext.
Qed.

Lemma writes_assign_and_project o (set : string → config → config)
    prop v :
  writes o (assign_and_project o set prop v) (set v) (λ _, declare prop v).
Proof.
  intros w x Ho Hel. unfold assign_and_project, setProperty.
  exec. exec. cbn [element set_options].
  by rewrite update_node_present by solve_present.
Qed.

Lemma writes_when_defined o (set : string → config → config) prop v :
  writes o (when_defined v (assign_and_project o set prop))
         (assign_opt set v) (λ _, declare_opt prop v).
Proof.
  destruct v as [a|]; simpl.
  - by apply writes_assign_and_project.
  - apply writes_ret.
Qed.

Lemma writes_retint o opacity :
  writes o
    (when_defined opacity (λ a,
       update_this o (set_options (set_tintOpacity a)) ;;;
       let* x := get_this o in
       match JS.exec tint_regex (tintColor (options x)) with
       | Some rgbaMatch =>
           setProperty (element x) "--tint-color" (newColor rgbaMatch a)
       | None => ret tt
       end))
    (assign_opt set_tintOpacity opacity) (retint opacity).
Proof.
  destruct opacity as [a|]; simpl; [|apply writes_ret].
  intros w x Ho Hel. exec. exec. unfold retint.
  cbn [element set_options options tintColor set_tintOpacity].
  destruct (JS.exec tint_regex (tintColor (options x))) as [m|].
  - unfold setProperty. by rewrite update_node_present by solve_present.
  - unfold ret. f_equal. by rewrite amend_id by (by intros []).
Qed.

Lemma writes_ext o c g g' h h' :
  (∀ x, g x = g' x) → (∀ x st, h x st = h' x st) →
  writes o c g h → writes o c g' h'.
Proof.
  intros Hg Hh Hc w x Ho Hel. rewrite (Hc w x Ho Hel). f_equal.
  rewrite (amend_ext _ _ (set_style (h' (options x)))).
  2:{ intros d. unfold set_style. f_equal. apply Hh. }
  f_equal. apply set_objects_ext. intros m. apply alter_ext.
  intros y _. unfold set_options. f_equal. apply Hg.
Qed.

Lemma writes_call o u :
  (∀ p, u ≠ Distortion p) → writes o (call o u) (assigned u) (declared u).
Proof.
  intros Hu. destruct u as [p|p|blur|p|p]; cbn [call].
  - unfold updateShadow.
    eapply (writes_ext o);
      [ | | eapply writes_bind;
            [apply writes_when_defined
            |eapply writes_bind;
             [apply writes_when_defined
             |eapply writes_bind; apply writes_when_defined]]];
      reflexivity.
  - unfold updateTint.
    eapply (writes_ext o);
      [ | | eapply writes_bind;
            [apply writes_when_defined | apply writes_retint]];
      reflexivity.
  - unfold updateFrost. by apply writes_assign_and_project.
  - by destruct (Hu p).
  - unfold updateOuterShadow.
    eapply (writes_ext o);
      [ | | eapply writes_bind; apply writes_when_defined];
      reflexivity.
Qed.

(** ** [updateDistortion]: attributes of two stages of the filter *)

(** The first and the last stage of the filter [f]. *)
Definition stages_of (f : node_id) (w : world) (t d : node_id) : Prop :=
  ∃ df dt b db dd,
    lookup_tree f w =
      Some (df, FCons t dt FNil (FCons b db FNil (FCons d dd FNil FNil)))
    ∧ tagName dt = "feTurbulence" ∧ tagName db = "feGaussianBlur"
    ∧ tagName dd = "feDisplacementMap"
    ∧ t ∈ all_ids w ∧ d ∈ all_ids w ∧ t ≠ b ∧ t ≠ d.

Definition patch_opt (n : node_id) (name : string) (v : option JS.number)
    (w : world) : world :=
  match v with
  | Some a => amend n (set_attributes <[name := JS.to_string a]>) w
  | None => w
  end.

Definition stage_patch (m : node_id) (name : string) (v : option JS.number)
    (n : node_id) (dn : node) : node :=
  match v with
  | Some a =>
      if decide (n = m) then set_attributes <[name := JS.to_string a]> dn
      else dn
  | None => dn
  end.

Lemma stages_of_session w o x f :
  invariant w → objects w !! o = Some x → svgFilter x = Some f →
  ∃ t d, stages_of f w t d.
Proof.
  intros Hw Ho Hf.
  destruct (session_filter w o x f Hw Ho Hf)
    as (df & t & dt & b & db & d & dd & Ht & Tt & Tb & Td & Lt & Ld
        & Htb & Htd & _).
  exists t, d, df, dt, b, db, dd. split_and!; try done.
  - apply lookup_node_is_Some. by rewrite Lt.
  - apply lookup_node_is_Some. by rewrite Ld.
Qed.

Lemma updateDistortion_Ok w o x f p t d :
  objects w !! o = Some x → svgFilter x = Some f → stages_of f w t d →
  updateDistortion o p w =
  Ok tt (patch_opt d "scale" (dp_strength p)
           (patch_opt t "baseFrequency" (dp_frequency p)
              (set_objects (alter (set_options (assigned (Distortion p))) o)
                 w))).
Proof.
  intros Ho Hf (df & dt & b & db & dd & Ht & Tt & Tb & Td & Hti & Hdi
                & Htb & Htd).
  assert (Hfirst : ∀ fr w1,
    objects w1 !! o = Some x → lookup_tree f w1 = lookup_tree f w →
    all_ids w1 = all_ids w →
    (update_this o (set_options (set_noiseFrequency fr)) ;;;
     patch_stage o "feTurbulence" "baseFrequency" fr) w1
    = Ok tt (amend t (set_attributes <["baseFrequency" := JS.to_string fr]>)
               (set_objects
                  (alter (set_options (set_noiseFrequency fr)) o) w1))).
  { intros fr w1 Ho1 Ht1 Hi1. exec.
    eapply (patch_stage_Ok _ _ f _ _ _ _ t dt).
    - world_simpl. rewrite Ho1. reflexivity.
    - done.
    - world_simpl. rewrite Ht1. exact Ht.
    - simpl. unfold has_tag. rewrite Tt. by rewrite bool_decide_eq_true_2.
    - world_simpl. by rewrite Hi1. }
  assert (Hlast : ∀ st w1 (g : node → node) y,
    objects w1 !! o = Some y → svgFilter y = Some f →
    lookup_tree f w1
    = (λ x, (if decide (f = t) then g x.1 else x.1, modify t g x.2))
        <$> lookup_tree f w →
    (∀ d, tagName (g d) = tagName d) →
    all_ids w1 = all_ids w →
    (update_this o (set_options (set_distortionStrength st)) ;;;
     patch_stage o "feDisplacementMap" "scale" st) w1
    = Ok tt (amend d (set_attributes <["scale" := JS.to_string st]>)
               (set_objects
                  (alter (set_options (set_distortionStrength st)) o) w1))).
  { intros st w1 g y Ho1 Hfy Ht1 Hg Hi1. exec.
    eapply (patch_stage_Ok _ _ f _ _ _ _ d).
    - world_simpl. rewrite Ho1. reflexivity.
    - done.
    - world_simpl. rewrite Ht1, Ht. reflexivity.
    - simpl. decide_ids. simpl. unfold has_tag. simpl.
      rewrite Hg, Tt, Tb, Td.
      rewrite !bool_decide_eq_false_2 by done.
      by rewrite bool_decide_eq_true_2.
    - world_simpl. by rewrite Hi1. }
  destruct p as [[fr|] [st|]];
    unfold updateDistortion, when_defined, patch_opt;
    cbn [dp_frequency dp_strength assigned assign_opt].
  - erewrite bind_Ok by by apply Hfirst.
    erewrite (Hlast st _ (set_attributes <["baseFrequency" := JS.to_string fr]>)
                (set_options (set_noiseFrequency fr) x)).
    + f_equal. world_norm. do 2 f_equal. apply set_objects_ext. intros m.
      unfold compose. rewrite alter_alter_eq. by apply alter_ext.
    + world_simpl. rewrite Ho. reflexivity.
    + done.
    + by world_simpl.
    + done.
    + by world_simpl.
  - erewrite bind_Ok by by apply Hfirst. reflexivity.
  - erewrite bind_Ok by reflexivity.
    erewrite (Hlast st _ (λ d, d) x); try done.
    rewrite Ht. cbn [fmap option_fmap option_map]. do 2 f_equal.
    + by destruct (decide (f = t)).
    + simpl. by destruct (decide (t = t)), (decide (b = t)), (decide (d = t)).
  - unfold ret, bind. f_equal. symmetry. apply set_objects_id.
    apply alter_id. by intros [].
Qed.

Lemma lookup_node_patch_opt n m name v w :
  lookup_node n (patch_opt m name v w)
  = stage_patch m name v n <$> lookup_node n w.
Proof.
  unfold patch_opt, stage_patch. destruct v; [by world_simpl|].
  by destruct (lookup_node n w).
Qed.

(** ** The five methods on the nodes *)

(** What a call does to the node [n]; [t] and [d] are the first and the
    last stage of the filter of the instance. *)
Definition node_effect (u : update) (x : instance) (t d n : node_id)
    (dn : node) : node :=
  match u with
  | Distortion p =>
      stage_patch d "scale" (dp_strength p) n
        (stage_patch t "baseFrequency" (dp_frequency p) n dn)
  | _ =>
      if decide (n = element x) then set_style (declared u (options x)) dn
      else dn
  end.

Lemma call_effect w o x f u t d :
  objects w !! o = Some x → svgFilter x = Some f →
  element x ∈ all_ids w → stages_of f w t d →
  ∃ w2,
    call o u w = Ok tt w2
    ∧ objects w2 = alter (set_options (assigned u)) o (objects w)
    ∧ ∀ n, lookup_node n w2 = node_effect u x t d n <$> lookup_node n w.
Proof.
  intros Ho Hf Hel Hs.
  assert (Hw : ∀ u, (∀ p, u ≠ Distortion p) →
    (∀ n dn, node_effect u x t d n dn
             = if decide (n = element x)
               then set_style (declared u (options x)) dn else dn) →
    ∃ w2,
      call o u w = Ok tt w2
      ∧ objects w2 = alter (set_options (assigned u)) o (objects w)
      ∧ ∀ n, lookup_node n w2 = node_effect u x t d n <$> lookup_node n w).
  { intros u' Hu' Hn. eexists. split; [by apply writes_call|].
    split; [by world_simpl|]. intros n. world_simpl.
    destruct (lookup_node n w); [|done]. simpl. by rewrite Hn. }
  destruct u as [p|p|blur|p|p]; try (by apply Hw).
  eexists. split; [by eapply updateDistortion_Ok|].
  split.
  - unfold patch_opt. by destruct (dp_strength p), (dp_frequency p).
  - intros n. rewrite !lookup_node_patch_opt. world_simpl.
    by destruct (lookup_node n w).
Qed.

Lemma style_node_effect u x t d dn :
  style (node_effect u x t d (element x) dn)
  = declared u (options x) (style dn).
Proof.
  destruct u as [p|p|blur|p|p]; cbn [node_effect declared];
    rewrite ?decide_True by done; try reflexivity.
  unfold stage_patch.
  destruct (dp_strength p), (dp_frequency p); try done;
    repeat (destruct (decide _); try done).
Qed.

Lemma tagName_bare o x d : tagName (bare o x d) = tagName d.
Proof. unfold bare. by destruct (cleanup x). Qed.

(** [destroy] keeps the stages of the filter. *)
Lemma stages_of_destroy w o x f t d w' :
  invariant w → objects w !! o = Some x → svgFilter x = Some f →
  stages_of f w t d → destroy o w = Ok tt w' → stages_of f w' t d.
Proof.
  intros Hw Ho Hf (df & dt & b & db & dd & Ht & Tt & Tb & Td & Hti & Hdi
                   & Htb & Htd) Hd.
  destruct (destroy_Ok w o x f Hw Ho Hf) as (w1 & Hd1 & Hc & _).
  rewrite Hd in Hd1. injection Hd1 as ->.
  destruct (unhook_frame w f w1 (inv_nodup _ Hw) Hc) as (_ & Hi & _).
  assert (Ht1 : lookup_tree f w1 = lookup_tree f w).
  { destruct Hc as [[_ ->]|[_ Hdet]]; [done|].
    by destruct (detach_self _ _ _ (inv_nodup _ Hw) Hdet) as (-> & _). }
  assert (Hids : ∀ n, n ∈ all_ids w → n ∈ all_ids (teardown o x w1)).
  { intros n Hn. unfold teardown.
    destruct (cleanup x); world_simpl; by rewrite Hi. }
  assert (Htree : lookup_tree f (teardown o x w1)
                  = (λ y, (if decide (f = element x) then bare o x y.1
                           else y.1, modify (element x) (bare o x) y.2))
                      <$> lookup_tree f w).
  { unfold teardown. destruct (cleanup x); world_simpl; by rewrite Ht1. }
  rewrite Ht in Htree.
  cbn [fmap option_fmap option_map modify fst snd] in Htree.
  eexists _, _, b, _, _. split; [exact Htree|].
  split_and!; try done; try by apply Hids.
  - destruct (decide (t = element x)); [by rewrite tagName_bare | done].
  - destruct (decide (b = element x)); [by rewrite tagName_bare | done].
  - destruct (decide (d = element x)); [by rewrite tagName_bare | done].
Qed.

(** ** What a call of an update method has to leave

    The effect of the five methods in the words of their interface: a
    field given in the argument is stored as given, a field left out
    keeps its value; the style variable of a field given carries the
    text given (the empty text removes the variable), and the attribute
    of a stage carries the number given, as text. *)

Definition stored {A} (given : option A) (before after : A) : Prop :=
  match given with
  | Some v => after = v
  | None => after = before
  end.

Definition variable (given : option string) (before after : option string)
    : Prop :=
  match given with
  | Some v => after = match v with
                      | EmptyString => None
                      | String _ _ => Some v
                      end
  | None => after = before
  end.

Definition attribute (given : option JS.number)
    (before after : option string) : Prop :=
  match given with
  | Some v => after = Some (JS.to_string v)
  | None => after = before
  end.

(** The options [c'] and the declarations [st'] of the element after the
    call [u], from the options [c] and the declarations [st] before. *)
Definition updated (u : update) (c c' : config)
    (st st' : gmap string string) : Prop :=
  match u with
  | Shadow p =>
      stored (sp_blur p) (shadowBlur c) (shadowBlur c')
      ∧ stored (sp_spread p) (shadowSpread c) (shadowSpread c')
      ∧ stored (sp_color p) (shadowColor c) (shadowColor c')
      ∧ stored (sp_offset p) (shadowOffset c) (shadowOffset c')
      ∧ variable (sp_blur p) (st !! "--shadow-blur") (st' !! "--shadow-blur")
      ∧ variable (sp_spread p) (st !! "--shadow-spread")
          (st' !! "--shadow-spread")
      ∧ variable (sp_color p) (st !! "--shadow-color")
          (st' !! "--shadow-color")
      ∧ variable (sp_offset p) (st !! "--shadow-offset")
          (st' !! "--shadow-offset")
  | Tint p =>
      stored (tp_color p) (tintColor c) (tintColor c')
      ∧ stored (tp_opacity p) (tintOpacity c) (tintOpacity c')
      ∧ match tp_opacity p with
        | None =>
            variable (tp_color p) (st !! "--tint-color")
              (st' !! "--tint-color")
        | Some a =>
            (∀ R G B, JS.exec tint_regex (tintColor c') = Some [R; G; B] →
               st' !! "--tint-color"
               = Some ("rgba(" +:+ R +:+ ", " +:+ G +:+ ", " +:+ B +:+ ", "
                         +:+ JS.to_string a +:+ ")"))
            ∧ (JS.exec tint_regex (tintColor c') = None →
               variable (tp_color p) (st !! "--tint-color")
                 (st' !! "--tint-color"))
        end
  | Frost blur =>
      frostBlur c' = blur
      ∧ variable (Some blur) (st !! "--frost-blur") (st' !! "--frost-blur")
  | Distortion p =>
      stored (dp_frequency p) (noiseFrequency c) (noiseFrequency c')
      ∧ stored (dp_strength p) (distortionStrength c) (distortionStrength c')
      ∧ st' = st
  | OuterShadow p =>
      stored (op_blur p) (outerShadowBlur c) (outerShadowBlur c')
      ∧ stored (op_color p) (outerShadowColor c) (outerShadowColor c')
      ∧ variable (op_blur p) (st !! "--outer-shadow-blur")
          (st' !! "--outer-shadow-blur")
      ∧ variable (op_color p) (st !! "--outer-shadow-color")
          (st' !! "--outer-shadow-color")
  end.

Lemma variable_declare_opt p v st :
  variable v (st !! p) (declare_opt p v st !! p).
Proof.
  destruct v as [[|a v]|]; cbn [variable declare_opt]; [| |done].
  - unfold declare. cbn [JS.truthy_string]. apply lookup_delete_eq.
  - by apply declare_lookup_eq.
Qed.

Lemma declare_opt_other p q v st :
  q ≠ p → declare_opt p v st !! q = st !! q.
Proof.
  intros Hne. destruct v as [a|]; [|done]. cbn [declare_opt].
  apply declare_lookup_ne. congruence.
Qed.

Lemma updated_call u c st : updated u c (assigned u c) st (declared u c st).
Proof.
  destruct u as [[b s cl f]|[cl a]|blur|[fr sg]|[b cl]];
    cbn [updated assigned declared sp_blur sp_spread sp_color sp_offset
         tp_color tp_opacity dp_frequency dp_strength op_blur op_color].
  - split_and!.
    + by destruct b, s, cl, f.
    + by destruct b, s, cl, f.
    + by destruct b, s, cl, f.
    + by destruct b, s, cl, f.
    + rewrite !(declare_opt_other _ "--shadow-blur") by done.
      apply variable_declare_opt.
    + rewrite !(declare_opt_other _ "--shadow-spread") by done.
      rewrite <- (declare_opt_other "--shadow-blur" "--shadow-spread" b st)
        at 1 by done.
      apply variable_declare_opt.
    + rewrite !(declare_opt_other _ "--shadow-color") by done.
      rewrite <- (declare_opt_other "--shadow-blur" "--shadow-color" b st)
        at 1 by done.
      rewrite <- (declare_opt_other "--shadow-spread" "--shadow-color" s _)
        at 1 by done.
      apply variable_declare_opt.
    + rewrite <- (declare_opt_other "--shadow-blur" "--shadow-offset" b st)
        at 1 by done.
      rewrite <- (declare_opt_other "--shadow-spread" "--shadow-offset" s _)
        at 1 by done.
      rewrite <- (declare_opt_other "--shadow-color" "--shadow-offset" cl _)
        at 1 by done.
      apply variable_declare_opt.
  - split; [by destruct cl, a|]. split; [by destruct cl, a|].
    assert (E : tintColor
                  (assign_opt set_tintOpacity a
                     (assign_opt set_tintColor cl c))
                = tintColor (assign_opt set_tintColor cl c))
      by by destruct a.
    destruct a as [a|]; cbn [retint].
    + rewrite E. split.
      * intros R G B Hm. rewrite Hm. by apply declare_lookup_eq.
      * intros Hm. rewrite Hm. apply variable_declare_opt.
    + apply variable_declare_opt.
  - split; [done|]. apply (variable_declare_opt _ (Some blur)).
  - split; [by destruct fr, sg|]. split; [by destruct fr, sg|done].
  - split_and!.
    + by destruct b, cl.
    + by destruct b, cl.
    + rewrite !(declare_opt_other _ "--outer-shadow-blur") by done.
      apply variable_declare_opt.
    + rewrite <- (declare_opt_other "--outer-shadow-blur"
                    "--outer-shadow-color" b st) at 1 by done.
      apply variable_declare_opt.
Qed.

(** The two stages an update can patch, as nodes. *)
Lemma stages_nodes w o x f t s :
  invariant w → objects w !! o = Some x → svgFilter x = Some f →
  stages_of f w t s →
  ∃ dt ds, lookup_node t w = Some dt ∧ tagName dt = "feTurbulence"
           ∧ lookup_node s w = Some ds ∧ tagName ds = "feDisplacementMap"
           ∧ t ≠ s.
Proof.
  intros Hw Ho Hf (df & dt & b & db & dd & Ht & _).
  destruct (session_filter w o x f Hw Ho Hf)
    as (df' & t' & dt' & b' & db' & s' & ds' & Ht' & Tt & _ & Ts & Lt & Ls
        & _ & Hts & _).
  rewrite Ht in Ht'. injection Ht' as <- <- <- <- <- <- <-.
  by exists dt, dd.
Qed.

(** C9.  In any session on a fresh page and for each of the five update
    methods with any arguments: the call returns after [destroy()] as it
    does before; the fields given are stored as given and the others
    keep their values, so the options are those the call leaves before
    [destroy()]; the style variables of the fields given are declared on
    the element with the text given ([updateTint] with an opacity
    declares the rewritten colour), and [updateDistortion] writes
    [baseFrequency] and [scale] on the two stages of the filter, which
    is detached by then; every node but the element is as the call
    before [destroy()] leaves it. *)
Theorem update_after_destroy w0 acts o x f u :
  fresh_page w0 → objects (run w0 acts) !! o = Some x →
  svgFilter x = Some f →
  ∃ w' w2 w3 x2 x3 d d' d2 d3 t s dt ds dt3 ds3,
    destroy o (run w0 acts) = Ok tt w'
    ∧ call o u (run w0 acts) = Ok tt w2
    ∧ call o u w' = Ok tt w3
    ∧ objects w2 !! o = Some x2
    ∧ objects w3 !! o = Some x3
    ∧ options x3 = options x2
    ∧ lookup_node (element x) (run w0 acts) = Some d
    ∧ lookup_node (element x) w' = Some d'
    ∧ lookup_node (element x) w2 = Some d2
    ∧ lookup_node (element x) w3 = Some d3
    ∧ updated u (options x) (options x2) (style d) (style d2)
    ∧ updated u (options x) (options x3) (style d') (style d3)
    ∧ stages_of f w' t s
    ∧ lookup_node t w' = Some dt ∧ tagName dt = "feTurbulence"
    ∧ lookup_node s w' = Some ds ∧ tagName ds = "feDisplacementMap"
    ∧ lookup_node t w3 = Some dt3
    ∧ lookup_node s w3 = Some ds3
    ∧ (∀ p, u = Distortion p →
         attribute (dp_frequency p) (attributes dt !! "baseFrequency")
           (attributes dt3 !! "baseFrequency")
         ∧ attribute (dp_strength p) (attributes ds !! "scale")
             (attributes ds3 !! "scale"))
    ∧ ∀ n, n ≠ element x → lookup_node n w3 = lookup_node n w2.
Proof.
  intros H0 Ho Hf.
  pose proof (session_invariant w0 acts H0) as Hw.
  destruct (destroy_effect _ o x f Hw Ho Hf)
    as (w' & d & Hd & Hw' & Hel & Hel' & Hframe & Hobj & _).
  destruct (stages_of_session _ o x f Hw Ho Hf) as (t & s & Hs).
  pose proof (stages_of_destroy _ o x f t s w' Hw Ho Hf Hs Hd) as Hs'.
  assert (Hin : element x ∈ all_ids (run w0 acts)).
  { apply lookup_node_is_Some. by rewrite Hel. }
  assert (Hin' : element x ∈ all_ids w').
  { apply lookup_node_is_Some. by rewrite Hel'. }
  assert (Ho' : objects w' !! o = Some x) by by rewrite Hobj.
  destruct (call_effect _ o x f u t s Ho Hf Hin Hs) as (w2 & Hc2 & Ho2 & Hn2).
  destruct (call_effect _ o x f u t s Ho' Hf Hin' Hs')
    as (w3 & Hc3 & Ho3 & Hn3).
  destruct (stages_nodes w' o x f t s Hw' Ho' Hf Hs')
    as (dt & ds & Lt & Tt & Ls & Ts & Hts).
  exists w', w2, w3, (set_options (assigned u) x),
         (set_options (assigned u) x), d, (bare o x d).
  eexists _, _. exists t, s, dt, ds. eexists _, _.
  split; [done|]. split; [done|]. split; [done|].
  split; [by rewrite Ho2, lookup_alter_eq, Ho|].
  split; [by rewrite Ho3, lookup_alter_eq, Ho'|].
  split; [done|]. split; [done|]. split; [done|].
  split; [by rewrite Hn2, Hel|].
  split; [by rewrite Hn3, Hel'|].
  split; [rewrite style_node_effect; apply updated_call|].
  split; [rewrite style_node_effect; apply updated_call|].
  split; [done|]. split; [done|]. split; [done|]. split; [done|].
  split; [done|].
  split; [by rewrite Hn3, Lt|].
  split; [by rewrite Hn3, Ls|].
  split.
  - intros p ->. cbn [node_effect]. unfold stage_patch, attribute.
    assert (Hst : s ≠ t) by congruence.
    destruct (dp_strength p) as [a|], (dp_frequency p) as [b|];
      repeat first [ rewrite decide_True by done
                   | rewrite decide_False by done ];
      cbn [set_attributes attributes];
      rewrite ?lookup_insert_eq; done.
  - intros n Hne. by rewrite Hn3, Hn2, Hframe.
Qed.

Lemma update_after_destroy_witness :
  fresh_page example_page
  ∧ ∃ x, objects (run example_page example_session) !! 0 = Some x
      ∧ svgFilter x = Some 3
      ∧ ∃ w' w3 x3 d3,
          destroy 0 (run example_page example_session) = Ok tt w'
          ∧ call 0 (Frost "5px") w' = Ok tt w3
          ∧ objects w3 !! 0 = Some x3
          ∧ lookup_node (element x) w3 = Some d3
          ∧ frostBlur (options x3) = "5px"
          ∧ style d3 !! "--frost-blur" = Some "5px".
Proof.
  assert (H0 : fresh_page example_page).
  { apply (bool_decide_unpack _). vm_compute. exact I. }
  split; [exact H0|].
  eexists. split; [vm_compute; reflexivity|].
  match goal with |- svgFilter ?x = _ ∧ _ =>
    assert (Ho : objects (run example_page example_session) !! 0 = Some x)
      by (vm_compute; reflexivity)
  end.
  split; [reflexivity|].
  destruct (update_after_destroy example_page example_session 0 _ 3
              (Frost "5px") H0 Ho eq_refl)
    as (w' & w2 & w3 & x2 & x3 & d & d' & d2 & d3 & t & s & dt & ds & dt3
        & ds3 & Hd & _ & Hc & _ & Ho3 & _ & _ & _ & _ & Hd3 & _ & Hu & _).
  exists w', w3, x3, d3. destruct Hu as [Hf Hv].
  split; [exact Hd|]. split; [exact Hc|]. split; [exact Ho3|].
  split; [exact Hd3|]. split; [exact Hf|exact Hv].
Defined.

(** The example: [updateFrost] and [updateTint] after [destroy()] put
    their style variables back on the element. *)
Example update_after_destroy_example :
  ∃ d, lookup_node 1
         (run example_page
            (example_session
             ++ [Destroy 0; UpdateFrost 0 "5px";
                 UpdateTint 0 {| tp_color := None;
                                 tp_opacity := Some 0.9%float |}]))
       = Some d
       ∧ style d !! "--frost-blur" = Some "5px"
       ∧ style d !! "--tint-color" = Some "rgba(255, 255, 255, 0.9)"
       ∧ style d !! "--shadow-blur" = None.
Proof.
  eexists. split; [vm_compute; reflexivity|].
  split_and!; by vm_compute.
Qed.

(* ===================================================================== *)
(** * The container of the filters                                        *)
(* ===================================================================== *)

(** ** Children of a node when a tree is cut out *)

Lemma filter_all {A} (P : A → Prop) `{!∀ x, Decision (P x)} (l : list A) :
  (∀ x, x ∈ l → P x) → filter P l = l.
Proof.
  induction l as [|a l IH]; [done|]. intros Hall.
  rewrite filter_cons_True by (apply Hall; left).
  f_equal. apply IH. intros x Hx. apply Hall. by right.
Qed.

Lemma roots_ids f n : n ∈ roots f → n ∈ ids f.
Proof.
  induction f as [|i d ch IHch sib IHsib]; simpl; [done|].
  rewrite ids_cons, !elem_of_cons, elem_of_app. intuition.
Qed.

Lemma NoDup_roots f : NoDup (ids f) → NoDup (roots f).
Proof.
  induction f as [|i d ch IHch sib IHsib]; simpl; [constructor|].
  rewrite ids_cons. intros [Hi Hnd]%NoDup_cons.
  apply NoDup_app in Hnd as (_ & _ & Hsib).
  apply NoDup_cons. split; [|by apply IHsib].
  intros Hin%roots_ids. apply Hi, elem_of_app. by right.
Qed.

Lemma tree_at_ids p f dp chp n :
  tree_at p f = Some (dp, chp) → n ∈ ids chp → n ∈ ids f.
Proof.
  intros Hp ([n' d] & -> & Hin)%list_elem_of_fmap.
  apply list_elem_of_fmap. exists (n', d). split; [done|].
  by eapply tree_at_children.
Qed.

Lemma extract_roots c f d ch f' :
  NoDup (ids f) → extract c f = Some (d, ch, f') → c ∈ roots f →
  roots f' = filter (λ n, n ≠ c) (roots f).
Proof.
  revert f'. induction f as [|i di chi IHch sib IHsib]; simpl; intros f' Hnd;
    [done|].
  rewrite ids_cons in Hnd. apply NoDup_cons in Hnd as [Hi Hnd].
  apply NoDup_app in Hnd as (Hch & Hdis & Hsib).
  rewrite not_elem_of_app in Hi. destruct Hi as [Hich Hisib].
  destruct (decide (i = c)) as [->|Hne].
  - intros [= <- <- <-] _. rewrite filter_cons_False by (intros ?; done).
    symmetry. apply filter_all.
    intros n Hn ->. by apply Hisib, roots_ids.
  - intros He [->|Hc]%elem_of_cons; [done|].
    assert (extract c chi = None) as Hn.
    { apply extract_None. intros Hin. by apply (Hdis c), roots_ids. }
    rewrite Hn in He.
    destruct (extract c sib) as [[[dc chc] sib']|] eqn:Hs; [|done].
    injection He as <- <- <-. simpl.
    rewrite filter_cons_True by done. f_equal. by apply IHsib.
Qed.

Lemma tree_at_extract_parent c f d ch f' p dp chp :
  NoDup (ids f) → extract c f = Some (d, ch, f') →
  tree_at p f = Some (dp, chp) → c ∈ ids chp →
  ∃ chp', tree_at p f' = Some (dp, chp')
          ∧ extract c chp = Some (d, ch, chp').
Proof.
  revert f'. induction f as [|i di chi IHch sib IHsib]; simpl; intros f' Hnd;
    [done|].
  rewrite ids_cons in Hnd. apply NoDup_cons in Hnd as [Hi Hnd].
  apply NoDup_app in Hnd as (Hch & Hdis & Hsib).
  rewrite not_elem_of_app in Hi. destruct Hi as [Hich Hisib].
  intros He Hp Hc.
  destruct (decide (i = c)) as [->|Hne].
  - exfalso. destruct (decide (c = p)) as [->|Hcp].
    + injection Hp as <- <-. done.
    + destruct (tree_at p chi) as [y|] eqn:Hy.
      * injection Hp as ->. by apply Hich, (tree_at_ids p chi dp chp).
      * by apply Hisib, (tree_at_ids p sib dp chp).
  - destruct (decide (i = p)) as [->|Hip].
    + injection Hp as <- <-.
      destruct (extract c chi) as [[[dc chc] chi']|] eqn:Hx.
      * injection He as <- <- <-. exists chi'. simpl.
        by rewrite decide_True.
      * by apply extract_None in Hx.
    + destruct (tree_at p chi) as [y|] eqn:Hy.
      * injection Hp as ->.
        assert (Hcin : c ∈ ids chi) by by apply (tree_at_ids p chi dp chp).
        destruct (extract c chi) as [[[dc chc] chi']|] eqn:Hx.
        2:{ by apply extract_None in Hx. }
        injection He as <- <- <-.
        destruct (IHch chi' Hch eq_refl eq_refl Hc) as (chp' & Hp' & He').
        exists chp'. simpl. rewrite decide_False by done. by rewrite Hp'.
      * assert (Hcin : c ∈ ids sib) by by apply (tree_at_ids p sib dp chp).
        assert (extract c chi = None) as Hx.
        { apply extract_None. intros Hin. by apply (Hdis c). }
        rewrite Hx in He.
        destruct (extract c sib) as [[[dc chc] sib']|] eqn:Hs; [|done].
        injection He as <- <- <-.
        destruct (IHsib sib' Hsib eq_refl Hp Hc) as (chp' & Hp' & He').
        exists chp'. simpl. rewrite decide_False by done. by rewrite Hy, Hp'.
Qed.

(** ** The [id] attributes in the document *)

(** The nodes of a forest with their [id] attribute, in document order. *)
Definition id_of (f : forest) : list (node_id * option string) :=
  (λ x, (x.1, attributes x.2 !! "id")) <$> nodes f.

Lemma id_of_modify n g f : benign g → id_of (modify n g f) = id_of f.
Proof.
  intros Hg. unfold id_of. rewrite nodes_modify, <- list_fmap_compose.
  apply list_fmap_ext. intros _ [i d] _. unfold amend_entry. simpl.
  destruct (decide (i = n)); [|done]. simpl. f_equal. apply Hg.
Qed.

Lemma id_of_attach p c d ch f f' :
  attach p c d ch f = Some f' →
  id_of f' ≡ₚ (c, attributes d !! "id") :: id_of ch ++ id_of f.
Proof.
  intros Ha%attach_perm. unfold id_of. rewrite Ha.
  by rewrite fmap_cons, fmap_app.
Qed.

Lemma ids_id_of f : (id_of f).*1 = ids f.
Proof.
  unfold id_of, ids. rewrite <- list_fmap_compose. by apply list_fmap_ext.
Qed.

(** [getElementById] finds a node that carries the identifier, and it is
    the only one when no other node carries it. *)
Lemma find_node_id s f n :
  (n, Some s) ∈ id_of f →
  (∀ m, (m, Some s) ∈ id_of f → m = n) →
  fst <$> find_node (has_attribute "id" s) f = Some n.
Proof.
  intros Hin Huniq.
  destruct (find_node (has_attribute "id" s) f) as [[m d]|] eqn:Hfind.
  - apply find_node_elem in Hfind as [Hm Hd]. simpl. f_equal.
    apply Huniq. apply list_elem_of_fmap. exists (m, d). split; [|done].
    simpl. f_equal. symmetry. by apply bool_decide_eq_true_1 in Hd.
  - exfalso. apply list_elem_of_fmap in Hin as ([n' d] & [= -> Hs] & Hin).
    rewrite find_node_None in Hfind. specialize (Hfind _ Hin). simpl in Hfind.
    apply bool_decide_eq_false_1 in Hfind. congruence.
Qed.

Lemma find_node_id_None s f :
  find_node (has_attribute "id" s) f = None ↔ ∀ n, (n, Some s) ∉ id_of f.
Proof.
  rewrite find_node_None. split.
  - intros Hall n ([n' d] & [= -> Hs] & Hin)%list_elem_of_fmap.
    specialize (Hall _ Hin). simpl in Hall.
    apply bool_decide_eq_false_1 in Hall. congruence.
  - intros Hnone [n d] Hin. simpl. apply bool_decide_eq_false_2.
    intros Hs. apply (Hnone n), list_elem_of_fmap. exists (n, d).
    split; [|done]. simpl. by rewrite Hs.
Qed.

Lemma id_of_filter_tree x f :
  id_of (filter_tree x f) = [(1 + f, None); (2 + f, None); (3 + f, None)].
Proof. reflexivity. Qed.

Lemma id_filter_node x :
  attributes (filter_node x) !! "id" = Some (svgFilterId x).
Proof.
  unfold filter_node. cbn [attributes].
  by rewrite !lookup_insert_ne, lookup_insert_eq by done.
Qed.

Lemma id_svg_node :
  attributes svg_node !! "id" = Some "liquid-glass-svg-filters".
Proof. unfold svg_node. cbn [attributes]. by rewrite lookup_insert_eq. Qed.

(** ** The document after a construction *)

(** What the end of [init] does to the element. *)
Definition settled (o : obj_id) (x : instance) : node → node :=
  if draggable (options x) then grab o ∘ set_style (project x)
  else set_style (project x).

Lemma benign_settled o x : benign (settled o x).
Proof. unfold settled. by destruct (draggable (options x)). Qed.

Lemma document_settle o x W :
  document (settle o x W) = modify (element x) (settled o x) (document W).
Proof.
  unfold settle, settled. destruct (draggable (options x)).
  - unfold amend. simpl. by rewrite modify_modify.
  - done.
Qed.

Lemma detached_settle o x W :
  detached (settle o x W) = modify (element x) (settled o x) (detached W).
Proof.
  unfold settle, settled. destruct (draggable (options x)).
  - unfold amend. simpl. by rewrite modify_modify.
  - done.
Qed.

Lemma objects_settle o x W :
  objects (settle o x W)
  = if draggable (options x) then alter armed o (objects W) else objects W.
Proof. unfold settle. by destruct (draggable (options x)). Qed.

Lemma next_obj_settle o x W : next_obj (settle o x W) = next_obj W.
Proof. unfold settle. by destruct (draggable (options x)). Qed.

(** The identifier of the filter of a construction. *)
Definition identifier (random36 : string) : string :=
  "glass-distortion-" +:+ JS.substr 2 9 random36.

Lemma identifier_registry r : identifier r ≠ "liquid-glass-svg-filters".
Proof. unfold identifier. simpl. discriminate. Qed.

(** The new object after a construction that hung the filter [f]. *)
Lemma constructed_objects o el opts r f W ob :
  objects W = <[o := set_svgFilter f (initial_instance el opts r)]> ob →
  (∃ x, objects (settle o (set_svgFilter f (initial_instance el opts r)) W)
          !! o = Some x
        ∧ element x = el ∧ svgFilter x = Some f
        ∧ svgFilterId x = identifier r)
  ∧ ∀ o', o' ≠ o →
      objects (settle o (set_svgFilter f (initial_instance el opts r)) W) !! o'
      = ob !! o'.
Proof.
  intros HW. rewrite objects_settle, HW.
  destruct (draggable _); split.
  - eexists. rewrite lookup_alter_eq, lookup_insert_eq. by split_and!.
  - intros o' Hne. by rewrite lookup_alter_ne, lookup_insert_ne.
  - eexists. rewrite lookup_insert_eq. by split_and!.
  - intros o' Hne. by rewrite lookup_insert_ne.
Qed.

(** A construction on a page that has the container [c]: the filter,
    numbered [next_id], becomes the last child of [c]. *)
Lemma constructor_next w el opts r c dc :
  invariant w → el ∈ all_ids w →
  find_node (has_attribute "id" "liquid-glass-svg-filters") (document w)
    = Some (c, dc) →
  ∃ w' doc',
    constructor (Some el) opts r w = Ok (next_obj w) w'
    ∧ attach c (next_id w) (filter_node (initial_instance el opts r))
        (filter_tree (initial_instance el opts r) (next_id w))
        (modify el addclass (document w)) = Some doc'
    ∧ (∃ g, benign g ∧ document w' = modify el g doc')
    ∧ (∃ x, objects w' !! next_obj w = Some x ∧ element x = el
            ∧ svgFilter x = Some (next_id w)
            ∧ svgFilterId x = identifier r)
    ∧ (∀ o', o' ≠ next_obj w → objects w' !! o' = objects w !! o')
    ∧ next_obj w' = S (next_obj w)
    ∧ ∀ n, n ∈ all_ids w → n ∈ all_ids w'.
Proof.
  intros Hw Hel Hfind.
  destruct (attach_is_Some c (next_id w)
              (filter_node (initial_instance el opts r))
              (filter_tree (initial_instance el opts r) (next_id w))
              (modify el addclass (document w))) as [doc' Ha].
  { rewrite ids_modify. apply find_node_elem in Hfind as [Hin _].
    apply list_elem_of_fmap. by exists (c, dc). }
  eexists _, doc'. split.
  { by apply (constructor_found w el opts r c dc doc'). }
  split; [done|]. split.
  { eexists. split; [apply benign_settled|]. by rewrite document_settle. }
  rewrite next_obj_settle.
  destruct (constructed_objects (next_obj w) el opts r (next_id w)
              (World doc' (modify el addclass (detached w)) (body w)
                 (4 + next_id w) (doc_listeners w)
                 (<[next_obj w :=
                      set_svgFilter (next_id w) (initial_instance el opts r)]>
                    (objects w))
                 (S (next_obj w))) (objects w) eq_refl) as [H1 H2].
  split_and!; try done.
  intros n. rewrite !all_ids_app, document_settle, detached_settle.
  cbn [document detached]. rewrite !ids_modify, !elem_of_app.
  intros [Hn|Hn]; [left|by right].
  apply attach_perm in Ha. unfold ids. rewrite Ha.
  rewrite fmap_cons, fmap_app, elem_of_cons, elem_of_app. do 2 right.
  by rewrite <- (ids_modify el addclass) in Hn.
Qed.

(** The first construction on a page that has a body and no container:
    the container, numbered [next_id], becomes the last child of the
    body, and the filter, numbered next, its only child. *)
Lemma constructor_first w el opts r :
  invariant w → el ∈ all_ids w →
  find_node (has_attribute "id" "liquid-glass-svg-filters") (document w)
    = None →
  body w ∈ ids (document w) →
  ∃ w' doc1 doc2,
    constructor (Some el) opts r w = Ok (next_obj w) w'
    ∧ attach (body w) (next_id w) svg_node FNil
        (modify el addclass (document w)) = Some doc1
    ∧ attach (next_id w) (S (next_id w))
        (filter_node (initial_instance el opts r))
        (filter_tree (initial_instance el opts r) (S (next_id w)))
        doc1 = Some doc2
    ∧ (∃ g, benign g ∧ document w' = modify el g doc2)
    ∧ (∃ x, objects w' !! next_obj w = Some x ∧ element x = el
            ∧ svgFilter x = Some (S (next_id w))
            ∧ svgFilterId x = identifier r)
    ∧ (∀ o', o' ≠ next_obj w → objects w' !! o' = objects w !! o')
    ∧ next_obj w' = S (next_obj w)
    ∧ ∀ n, n ∈ all_ids w → n ∈ all_ids w'.
Proof.
  intros Hw Hel Hfind Hbody.
  destruct (attach_is_Some (body w) (next_id w) svg_node FNil
              (modify el addclass (document w))) as [doc1 Ha1].
  { by rewrite ids_modify. }
  destruct (attach_is_Some (next_id w) (S (next_id w))
              (filter_node (initial_instance el opts r))
              (filter_tree (initial_instance el opts r) (S (next_id w)))
              doc1) as [doc2 Ha2].
  { apply attach_perm in Ha1. unfold ids. rewrite Ha1. left. }
  eexists _, doc1, doc2. split.
  { by apply (constructor_created w el opts r doc1 doc2). }
  split; [done|]. split; [done|]. split.
  { eexists. split; [apply benign_settled|]. by rewrite document_settle. }
  rewrite next_obj_settle.
  destruct (constructed_objects (next_obj w) el opts r (S (next_id w))
              (World doc2 (modify el addclass (detached w)) (body w)
                 (5 + next_id w) (doc_listeners w)
                 (<[next_obj w :=
                      set_svgFilter (S (next_id w))
                                    (initial_instance el opts r)]>
                    (objects w))
                 (S (next_obj w))) (objects w) eq_refl) as [H1 H2].
  split_and!; try done.
  intros n. rewrite !all_ids_app, document_settle, detached_settle.
  cbn [document detached]. rewrite !ids_modify, !elem_of_app.
  intros [Hn|Hn]; [left|by right].
  apply attach_perm in Ha1, Ha2. unfold ids. rewrite Ha2, Ha1.
  rewrite !fmap_cons, !fmap_app, !elem_of_cons, !elem_of_app.
  do 2 right. simpl. right. by rewrite <- (ids_modify el addclass) in Hn.
Qed.

(** ** Sessions of constructions *)

(** A construction: the element, the options and the random string. *)
Abbreviation construction :=
  (node_id * option LiquidGlassOptions * string)%type (only parsing).

Definition news (cs : list construction) : list action :=
  (λ c : construction, New (Some c.1.1) c.1.2 c.2) <$> cs.

Definition identifiers (cs : list construction) : list string :=
  (λ c : construction, identifier c.2) <$> cs.

(** The nodes of the document that carry the identifier of the
    container. *)
Definition containers (w : world) : list node_id :=
  (filter (λ x, x.2 = Some "liquid-glass-svg-filters")
          (id_of (document w))).*1.

(** The state after the constructions [cs] on the page [w0]: the
    container [c] with the filters [fs] as its children, in the order of
    the constructions. *)
Record enrolled (w0 w : world) (cs : list construction) (c : node_id)
    (fs : list node_id) : Prop := {
  reg_children :
    ∃ dc ch, tree_at c (document w) = Some (dc, ch) ∧ roots ch = fs;
  reg_id_of :
    ∃ rest, Forall (λ x, x.2 = None) rest
            ∧ id_of (document w)
              ≡ₚ (c, Some "liquid-glass-svg-filters")
                 :: zip fs (Some <$> identifiers cs)
                 ++ rest ++ id_of (document w0);
  reg_length : length fs = length cs;
  reg_objects :
    ∀ i f, fs !! i = Some f →
           ∃ x cn, objects w !! (next_obj w0 + i) = Some x
                   ∧ svgFilter x = Some f
                   ∧ cs !! i = Some cn
                   ∧ svgFilterId x = identifier cn.2;
  reg_next : next_obj w = next_obj w0 + length cs;
  reg_all_ids : ∀ n, n ∈ all_ids w0 → n ∈ all_ids w;
}.

Lemma enrolled_first w0 el opts r :
  invariant w0 → el ∈ all_ids w0 →
  find_node (has_attribute "id" "liquid-glass-svg-filters") (document w0)
    = None →
  body w0 ∈ ids (document w0) →
  enrolled w0 (step w0 (New (Some el) opts r)) [(el, opts, r)]
             (next_id w0) [S (next_id w0)].
Proof.
  intros Hw Hel Hfind Hbody.
  destruct (constructor_first w0 el opts r Hw Hel Hfind Hbody)
    as (w' & doc1 & doc2 & Hc & Ha1 & Ha2 & (g & Hg & Hdoc)
        & (x & Hx & _ & Hf & Hid) & Hold & Hnext & Hids).
  cbn [step]. rewrite Hc. cbn [final].
  assert (Hfresh : next_id w0 ∉ ids (modify el addclass (document w0))).
  { rewrite ids_modify. intros Hin.
    assert (next_id w0 < next_id w0); [|lia].
    apply (inv_fresh _ Hw). rewrite all_ids_app, elem_of_app. by left. }
  split.
  - rewrite Hdoc, tree_at_modify.
    pose proof (tree_at_attach_new _ _ _ _ _ _ Ha1 Hfresh) as Ht1.
    rewrite (tree_at_attach_parent _ _ _ _ _ _ _ _ Ha2 Ht1).
    eexists _, _. split; [reflexivity|]. cbn [snd].
    by rewrite roots_modify.
  - exists (id_of (filter_tree (initial_instance el opts r) (S (next_id w0)))).
    split.
    { rewrite id_of_filter_tree. by repeat constructor. }
    rewrite Hdoc, id_of_modify by done.
    rewrite (id_of_attach _ _ _ _ _ _ Ha2), (id_of_attach _ _ _ _ _ _ Ha1).
    rewrite id_of_modify by apply benign_classList.
    rewrite id_filter_node, id_svg_node. cbn [zip_with fmap list_fmap app].
    change (id_of FNil) with (@nil (node_id * option string)).
    cbn [app]. unfold identifiers. cbn [fmap list_fmap snd].
    rewrite <- Permutation_middle. apply Permutation_swap.
  - done.
  - intros [|i] f; [|done]. intros [= <-]. rewrite Nat.add_0_r.
    by exists x, (el, opts, r).
  - simpl. lia.
  - exact Hids.
Qed.

Lemma perm_shuffle {A} (e c : A) T Z R :
  e :: T ++ c :: Z ++ R ≡ₚ c :: Z ++ e :: T ++ R.
Proof.
  rewrite <- (Permutation_middle Z), <- (Permutation_middle T).
  rewrite Permutation_swap. do 2 f_equiv.
  rewrite !app_assoc. f_equiv. apply Permutation_app_comm.
Qed.

(** Where an identifier can sit in the document of such a state. *)
Lemma enrolled_id_of w0 w cs c fs m s :
  enrolled w0 w cs c fs →
  (m, Some s) ∈ id_of (document w) ↔
  (m = c ∧ s = "liquid-glass-svg-filters")
  ∨ (∃ i cn, fs !! i = Some m ∧ cs !! i = Some cn ∧ s = identifier cn.2)
  ∨ (m, Some s) ∈ id_of (document w0).
Proof.
  intros [_ (rest & Hrest & Hperm) _ _ _ _]. rewrite Hperm.
  rewrite elem_of_cons, !elem_of_app, elem_of_lookup_zip_with.
  split.
  - intros [[= -> ->]|[(i & f & s' & Heq & Hf & Hs)|[Hin|Hin]]].
    + by left.
    + right. left. injection Heq as -> <-. unfold identifiers in Hs.
      rewrite !list_lookup_fmap in Hs.
      apply fmap_Some in Hs as (s1 & Hs1 & [= ->]).
      apply fmap_Some in Hs1 as (cn & Hcn & ->). by exists i, cn.
    + rewrite Forall_forall in Hrest. by specialize (Hrest _ Hin).
    + by do 2 right.
  - intros [[-> ->]|[(i & cn & Hf & Hcn & ->)|Hin]].
    + by left.
    + right. left. exists i, m, (Some (identifier cn.2)).
      split_and!; [done..|]. unfold identifiers.
      by rewrite !list_lookup_fmap, Hcn.
    + by do 3 right.
Qed.

(** The container is the only node of the document with its
    identifier. *)
Lemma enrolled_container w0 w cs c fs m :
  enrolled w0 w cs c fs →
  find_node (has_attribute "id" "liquid-glass-svg-filters") (document w0)
    = None →
  (m, Some "liquid-glass-svg-filters") ∈ id_of (document w) ↔ m = c.
Proof.
  intros He Hnone. rewrite (enrolled_id_of w0 w cs c fs) by done.
  rewrite find_node_id_None in Hnone. split.
  - intros [[-> _]|[(i & cn & _ & _ & Hs)|Hin]]; [done| |].
    + symmetry in Hs. by apply identifier_registry in Hs.
    + by apply Hnone in Hin.
  - intros ->. by left.
Qed.

Lemma enrolled_find w0 w cs c fs :
  enrolled w0 w cs c fs →
  find_node (has_attribute "id" "liquid-glass-svg-filters") (document w0)
    = None →
  ∃ dc, find_node (has_attribute "id" "liquid-glass-svg-filters")
          (document w) = Some (c, dc).
Proof.
  intros He Hnone.
  assert (fst <$> find_node (has_attribute "id" "liquid-glass-svg-filters")
                    (document w) = Some c) as Hfind.
  { apply find_node_id.
    - by apply (enrolled_container w0 w cs c fs).
    - intros m. by apply (enrolled_container w0 w cs c fs). }
  destruct (find_node _ (document w)) as [[c' dc]|]; [|done].
  injection Hfind as ->. by exists dc.
Qed.

Lemma enrolled_next w0 w cs c fs el opts r :
  invariant w → enrolled w0 w cs c fs → el ∈ all_ids w0 →
  find_node (has_attribute "id" "liquid-glass-svg-filters") (document w0)
    = None →
  enrolled w0 (step w (New (Some el) opts r)) (cs ++ [(el, opts, r)]) c
           (fs ++ [next_id w]).
Proof.
  intros Hw He Hel Hnone.
  destruct (enrolled_find w0 w cs c fs He Hnone) as [dc Hfind].
  pose proof He as [(dc' & ch & Htree & Hroots) (rest & Hrest & Hperm)
                      Hlen Hobj Hnext Hids].
  destruct (constructor_next w el opts r c dc Hw (Hids _ Hel) Hfind)
    as (w' & doc' & Hc & Ha & (g & Hg & Hdoc) & (x & Hx & _ & Hf & Hid)
        & Hold & Hnext' & Hids').
  cbn [step]. rewrite Hc. cbn [final].
  split.
  - rewrite Hdoc, tree_at_modify.
    assert (Ht : tree_at c (modify el addclass (document w))
                 = Some (if decide (c = el) then addclass dc' else dc',
                         modify el addclass ch)).
    { by rewrite tree_at_modify, Htree. }
    rewrite (tree_at_attach_parent _ _ _ _ _ _ _ _ Ha Ht).
    eexists _, _. split; [reflexivity|]. cbn [snd].
    by rewrite roots_modify, roots_snoc, roots_modify, Hroots.
  - exists (id_of (filter_tree (initial_instance el opts r) (next_id w))
            ++ rest).
    split.
    { apply Forall_app. split; [|done].
      rewrite id_of_filter_tree. by repeat constructor. }
    rewrite Hdoc, id_of_modify by done.
    rewrite (id_of_attach _ _ _ _ _ _ Ha).
    rewrite id_of_modify by apply benign_classList.
    rewrite Hperm, id_filter_node. unfold identifiers.
    rewrite !fmap_app. cbn [fmap list_fmap snd].
    rewrite zip_with_app by by rewrite !length_fmap.
    cbn [zip_with].
    change (svgFilterId (initial_instance el opts r)) with (identifier r).
    set (e := (next_id w, Some (identifier r))).
    set (T := id_of (filter_tree _ _)).
    set (Z := zip_with _ fs _).
    set (P := id_of (document w0)).
    rewrite <- !app_assoc. cbn [app]. apply perm_shuffle.
  - rewrite !length_app. simpl. lia.
  - intros i f Hi. destruct (decide (i < length fs)) as [Hlt|Hge].
    + rewrite lookup_app_l in Hi by done.
      destruct (Hobj i f Hi) as (y & cn & Hy & Hfy & Hcn & Hidy).
      exists y, cn. split_and!; [|done| |done].
      * rewrite Hold; [done|]. lia.
      * by apply lookup_app_l_Some.
    + rewrite lookup_app_r in Hi by lia.
      destruct (i - length fs) as [|k] eqn:Hk; [|done].
      injection Hi as <-. exists x, (el, opts, r).
      assert (i = length cs) as -> by lia.
      split_and!; [by rewrite <- Hnext|done| |done].
      by rewrite lookup_app_r, Nat.sub_diag.
  - rewrite Hnext', Hnext, length_app. simpl. lia.
  - intros n Hn. by apply Hids', Hids.
Qed.

Lemma run_snoc w acts a : run w (acts ++ [a]) = step (run w acts) a.
Proof. unfold run. by rewrite fold_left_app. Qed.

Lemma enrolled_run w0 cn cs :
  fresh_page w0 →
  find_node (has_attribute "id" "liquid-glass-svg-filters") (document w0)
    = None →
  body w0 ∈ ids (document w0) →
  Forall (λ c : construction, c.1.1 ∈ all_ids w0) (cn :: cs) →
  ∃ fs, enrolled w0 (run w0 (news (cn :: cs))) (cn :: cs) (next_id w0) fs.
Proof.
  intros H0 Hnone Hbody. induction cs as [|c' cs IH] using rev_ind; intros Hel.
  - destruct cn as [[el opts] r]. exists [S (next_id w0)].
    apply Forall_cons in Hel as [Hel _].
    by apply enrolled_first; [apply fresh_page_invariant|..].
  - rewrite app_comm_cons in Hel. apply Forall_app in Hel as [Hcs Hc'].
    apply Forall_cons in Hc' as [Hc' _].
    destruct (IH Hcs) as [fs Hfs]. destruct c' as [[el opts] r].
    exists (fs ++ [next_id (run w0 (news (cn :: cs)))]).
    rewrite app_comm_cons. unfold news. rewrite fmap_app.
    cbn [fmap list_fmap fst snd]. rewrite run_snoc.
    apply enrolled_next; [by apply session_invariant|done..].
Qed.

Lemma tree_at_NoDup p f dp chp :
  NoDup (ids f) → tree_at p f = Some (dp, chp) → NoDup (ids chp).
Proof.
  induction f as [|i d ch IHch sib IHsib]; simpl; [done|].
  rewrite ids_cons. intros [_ Hnd]%NoDup_cons.
  apply NoDup_app in Hnd as (Hch & _ & Hsib).
  destruct (decide (i = p)); [by intros [= <- <-]|].
  destruct (tree_at p ch) as [y|]; [intros [= ->]; by apply IHch|].
  by apply IHsib.
Qed.

Definition is_container (x : node_id * option string) : Prop :=
  x.2 = Some "liquid-glass-svg-filters".

Global Instance is_container_dec x : Decision (is_container x).
Proof. unfold is_container. apply _. Defined.

Lemma containers_filter w :
  containers w = (filter is_container (id_of (document w))).*1.
Proof. reflexivity. Qed.

Lemma enrolled_containers w0 w cs c fs :
  enrolled w0 w cs c fs →
  find_node (has_attribute "id" "liquid-glass-svg-filters") (document w0)
    = None →
  filter is_container (id_of (document w))
  = [(c, Some "liquid-glass-svg-filters")].
Proof.
  intros He Hnone. apply Permutation_singleton_r.
  destruct He as [_ (rest & Hrest & Hperm) _ _ _ _]. rewrite Hperm.
  rewrite filter_cons_True by done. rewrite !filter_app.
  rewrite (filter_none _ rest).
  2:{ intros x Hx. rewrite Forall_forall in Hrest.
      unfold is_container. by rewrite (Hrest x Hx). }
  rewrite (filter_none _ (id_of (document w0))).
  2:{ intros [n o] Hx Hc. unfold is_container in Hc. simpl in Hc. subst o.
      rewrite find_node_id_None in Hnone. by apply (Hnone n). }
  rewrite filter_none; [done|].
  intros [n o] (i & f & s & [= -> ->] & _ & Hs)%elem_of_lookup_zip_with Hc.
  unfold is_container in Hc. simpl in Hc. subst s.
  unfold identifiers in Hs. rewrite !list_lookup_fmap in Hs.
  apply fmap_Some in Hs as (s1 & Hs1 & [= <-]).
  apply fmap_Some in Hs1 as (cn & _ & Hid).
  symmetry in Hid. by apply identifier_registry in Hid.
Qed.

Lemma benign_bare o x : benign (bare o x).
Proof. unfold bare. by destruct (cleanup x). Qed.

(** The [i]-th filter: the filter of the [i]-th instance, in the
    document, with the identifier drawn by the [i]-th construction. *)
Lemma enrolled_entry w0 w cs c fs i f :
  invariant w → enrolled w0 w cs c fs → fs !! i = Some f →
  ∃ x cn df,
    objects w !! (next_obj w0 + i) = Some x ∧ svgFilter x = Some f
    ∧ cs !! i = Some cn ∧ svgFilterId x = identifier cn.2
    ∧ f ∈ ids (document w)
    ∧ lookup_node f w = Some df ∧ tagName df = "filter"
    ∧ attributes df !! "id" = Some (identifier cn.2).
Proof.
  intros Hw He Hf.
  destruct (reg_objects _ _ _ _ _ He i f Hf) as (x & cn & Hx & Hfx & Hcn & Hid).
  assert (Hin : (f, Some (identifier cn.2)) ∈ id_of (document w)).
  { apply (enrolled_id_of w0 w cs c fs); [done|]. right. left.
    by exists i, cn. }
  apply list_elem_of_fmap in Hin as ([f' d] & [= <- Hd] & Hin).
  assert (Hlook : lookup_node f w = Some d).
  { apply lookup_node_from_elem; [apply (inv_nodup _ Hw)|].
    apply elem_of_app. by left. }
  exists x, cn, d. split_and!; try done.
  - apply list_elem_of_fmap. by exists (f, d).
  - destruct (inv_filter _ Hw _ _ _ Hx Hfx)
      as (df & t & dt & b & db & s & ds & Ht & [Htag _] & _).
    unfold lookup_node in Hlook. rewrite Ht in Hlook. by injection Hlook as <-.
Qed.

(** [destroy] on the [i]-th instance takes its filter out of the
    container and leaves the others in their order. *)
Lemma enrolled_destroy w0 w cs c fs i f :
  invariant w → enrolled w0 w cs c fs →
  find_node (has_attribute "id" "liquid-glass-svg-filters") (document w0)
    = None →
  fs !! i = Some f →
  ∃ w', destroy (next_obj w0 + i) w = Ok tt w'
        ∧ containers w' = [c]
        ∧ ∃ dc ch, lookup_tree c w' = Some (dc, ch)
                   ∧ roots ch = filter (λ n, n ≠ f) fs.
Proof.
  intros Hw He Hnone Hf.
  destruct (enrolled_entry w0 w cs c fs i f Hw He Hf)
    as (x & cn & df & Hx & Hfx & _ & _ & Hin & Hlook & _).
  destruct (destroy_Ok w _ x f Hw Hx Hfx) as (w1 & Hd & Hc & _).
  exists (teardown (next_obj w0 + i) x w1). split; [done|].
  pose proof (inv_nodup _ Hw) as Hnd. rewrite all_ids_app in Hnd.
  apply NoDup_app in Hnd as (Hnd & _ & _).
  destruct Hc as [[Hp _]|[_ Hdet]].
  { exfalso. unfold parentNode in Hp.
    destruct (parent_in (Some TheDocument) f (document w)) as [r|] eqn:Hr.
    - destruct (parent_in_is_Some _ _ _ _ Hr) as [p ->]. done.
    - by apply parent_in_None in Hr. }
  unfold detach in Hdet.
  destruct (extract f (document w)) as [[[d chf] doc']|] eqn:Hex.
  2:{ by apply extract_None in Hex. }
  injection Hdet as <-.
  assert (Hdoc : document (teardown (next_obj w0 + i) x
                   (set_forests doc' (FCons f d chf (detached w)) w))
                 = modify (element x) (bare (next_obj w0 + i) x) doc').
  { unfold teardown. by destruct (cleanup x). }
  destruct (reg_children _ _ _ _ _ He) as (dc & ch & Htree & Hroots).
  assert (Hfch : f ∈ ids ch).
  { apply roots_ids. rewrite Hroots. by eapply list_elem_of_lookup_2. }
  destruct (tree_at_extract_parent _ _ _ _ _ _ _ _ Hnd Hex Htree Hfch)
    as (ch' & Htree' & Hex').
  split.
  - rewrite containers_filter, Hdoc, id_of_modify by apply benign_bare.
    assert (Hperm : id_of (document w)
                    ≡ₚ (f, attributes d !! "id") :: id_of chf ++ id_of doc').
    { unfold id_of. rewrite (extract_perm _ _ _ _ _ Hex).
      by rewrite fmap_cons, fmap_app. }
    assert (Hone : filter is_container
                     ((f, attributes d !! "id") :: id_of chf ++ id_of doc')
                   ≡ₚ [(c, Some "liquid-glass-svg-filters")]).
    { rewrite <- Hperm.
      by rewrite (enrolled_containers w0 w cs c fs He Hnone). }
    apply extract_tree_at in Hex as Htf.
    destruct (inv_filter _ Hw _ _ _ Hx Hfx)
      as (df' & t & dt & b & db & s & ds & Ht & [_ Hidf] & [_ Hidt]
          & [_ Hidb] & [_ Hids] & _).
    unfold lookup_tree in Ht. rewrite Htf in Ht. injection Ht as <- ->.
    rewrite filter_cons_False in Hone by done.
    rewrite filter_app in Hone.
    rewrite (filter_none _ (id_of _)) in Hone.
    2:{ intros y. unfold id_of. simpl. rewrite !elem_of_cons, elem_of_nil.
        intros [->|[->|[->|[]]]]; done. }
    simpl in Hone. apply Permutation_singleton_r in Hone. by rewrite Hone.
  - unfold lookup_tree. rewrite Hdoc, tree_at_modify, Htree'.
    eexists _, _. split; [reflexivity|]. cbn [snd].
    rewrite roots_modify, <- Hroots.
    apply (extract_roots f ch d chf); [|done|].
    + by apply (tree_at_NoDup c (document w) dc).
    + rewrite Hroots. by eapply list_elem_of_lookup_2.
Qed.

(** Two constructions that draw the same random string: the two filters
    carry the same identifier, and [getElementById] with the identifier
    of the second instance finds the filter of the first. *)
Definition collision_session : list action :=
  [ New (Some 1) None "0.4fzyo82mvyr"; New (Some 1) None "0.4fzyo82mvyr" ].

Lemma shared_identifier_counterexample :
  ∃ x0 x1,
    objects (run example_page collision_session) !! 0 = Some x0
    ∧ objects (run example_page collision_session) !! 1 = Some x1
    ∧ svgFilter x0 = Some 3 ∧ svgFilter x1 = Some 7
    ∧ svgFilterId x0 = "glass-distortion-4fzyo82mv"
    ∧ svgFilterId x1 = "glass-distortion-4fzyo82mv"
    ∧ getElementById (svgFilterId x1) (run example_page collision_session)
      = Ok (Some 3) (run example_page collision_session)
    ∧ getElementById (svgFilterId x1) (run example_page collision_session)
      ≠ Ok (svgFilter x1) (run example_page collision_session).
Proof.
  eexists _, _.
  split; [vm_compute; reflexivity|].
  split; [vm_compute; reflexivity|].
  split; [reflexivity|]. split; [reflexivity|].
  split; [vm_compute; reflexivity|]. split; [vm_compute; reflexivity|].
  split; [vm_compute; reflexivity|].
  vm_compute. discriminate.
Qed.

(** C7, amended.  On a fresh page that has its body and no element with
    the identifier of the container, [N >= 1] constructions on elements
    of the page lead to one container, which the first construction
    creates and every later one finds, with the [N] filters as its
    children, distinct and in the order of the constructions, each the
    filter of its instance and carrying the identifier its construction
    drew.  [destroy()] on any instance takes its filter out and leaves
    the others.  Provided the identifiers drawn are pairwise distinct
    and not in use on the page, [getElementById] finds each filter by
    its identifier. *)
Theorem registry_singleton w0 cn cs :
  fresh_page w0 →
  find_node (has_attribute "id" "liquid-glass-svg-filters") (document w0)
    = None →
  body w0 ∈ ids (document w0) →
  Forall (λ c : construction, c.1.1 ∈ all_ids w0) (cn :: cs) →
  ∃ c fs,
    c ∉ all_ids w0
    ∧ (∀ k, k ≤ length cs →
            containers (run w0 (news (cn :: take k cs))) = [c])
    ∧ (∃ dc ch, lookup_tree c (run w0 (news (cn :: cs))) = Some (dc, ch)
                ∧ roots ch = fs)
    ∧ length fs = S (length cs) ∧ NoDup fs
    ∧ (∀ i f, fs !! i = Some f →
         ∃ x cn' df,
           objects (run w0 (news (cn :: cs))) !! (next_obj w0 + i) = Some x
           ∧ svgFilter x = Some f
           ∧ (cn :: cs) !! i = Some cn'
           ∧ svgFilterId x = identifier cn'.2
           ∧ f ∈ ids (document (run w0 (news (cn :: cs))))
           ∧ lookup_node f (run w0 (news (cn :: cs))) = Some df
           ∧ tagName df = "filter"
           ∧ attributes df !! "id" = Some (identifier cn'.2))
    ∧ (∀ i f, fs !! i = Some f →
         ∃ w', destroy (next_obj w0 + i) (run w0 (news (cn :: cs))) = Ok tt w'
               ∧ containers w' = [c]
               ∧ ∃ dc ch, lookup_tree c w' = Some (dc, ch)
                          ∧ roots ch = filter (λ n, n ≠ f) fs)
    ∧ (NoDup (identifiers (cn :: cs)) →
       (∀ s n, s ∈ identifiers (cn :: cs) →
               (n, Some s) ∉ id_of (document w0)) →
       ∀ i f cn', fs !! i = Some f → (cn :: cs) !! i = Some cn' →
         getElementById (identifier cn'.2) (run w0 (news (cn :: cs)))
         = Ok (Some f) (run w0 (news (cn :: cs)))).
Proof.
  intros H0 Hnone Hbody Hels.
  destruct (enrolled_run w0 cn cs H0 Hnone Hbody Hels) as [fs He].
  pose proof (session_invariant w0 (news (cn :: cs)) H0) as Hw.
  destruct (reg_children _ _ _ _ _ He) as (dc & ch & Htree & Hroots).
  pose proof (inv_nodup _ Hw) as Hnd. rewrite all_ids_app in Hnd.
  apply NoDup_app in Hnd as (Hnd & _ & _).
  exists (next_id w0), fs. split_and!.
  - intros Hin. assert (next_id w0 < next_id w0); [|lia].
    by apply (inv_fresh _ (fresh_page_invariant w0 H0)).
  - intros k Hk.
    assert (Hels' : Forall (λ c : construction, c.1.1 ∈ all_ids w0)
                      (cn :: take k cs)).
    { apply Forall_cons in Hels as [? ?]. apply Forall_cons. split; [done|].
      by apply Forall_take. }
    destruct (enrolled_run w0 cn (take k cs) H0 Hnone Hbody Hels')
      as [fs' He'].
    rewrite containers_filter.
    by rewrite (enrolled_containers _ _ _ _ _ He' Hnone).
  - exists dc, ch. unfold lookup_tree. by rewrite Htree.
  - by rewrite (reg_length _ _ _ _ _ He).
  - rewrite <- Hroots. apply NoDup_roots.
    by apply (tree_at_NoDup (next_id w0) (document (run w0 (news (cn :: cs)))) dc).
  - intros i f Hf. by apply (enrolled_entry w0 _ (cn :: cs) (next_id w0) fs).
  - intros i f Hf. by apply (enrolled_destroy w0 _ (cn :: cs) _ fs).
  - intros Hdistinct Hunused i f cn' Hf Hcn'.
    unfold getElementById. f_equal. apply find_node_id.
    + apply (enrolled_id_of w0 _ (cn :: cs) (next_id w0) fs); [done|].
      right. left. by exists i, cn'.
    + intros m Hm.
      apply (enrolled_id_of w0 _ (cn :: cs) (next_id w0) fs) in Hm; [|done].
      destruct Hm as [[_ Hreg]|[(j & cj & Hj & Hcj & Hid)|Hpage]].
      * by apply identifier_registry in Hreg.
      * assert (i = j) as ->.
        { apply (NoDup_lookup (identifiers (cn :: cs)) i j
                   (identifier cn'.2)); [done| |].
          - unfold identifiers. by rewrite list_lookup_fmap, Hcn'.
          - unfold identifiers. by rewrite list_lookup_fmap, Hcj, Hid. }
        congruence.
      * exfalso. apply (Hunused (identifier cn'.2) m); [|done].
        unfold identifiers. apply list_elem_of_fmap. exists cn'.
        split; [done|]. by eapply list_elem_of_lookup_2.
Qed.

(** Two constructions on the [div] of the example page. *)
Definition first_construction : construction := (1, None, "0.4fzyo82mvyr").

Definition later_constructions : list construction :=
  [ (1, Some draggable_options, "0.k2j5x9q1w7e") ].

Lemma registry_singleton_witness :
  (fresh_page example_page
   ∧ find_node (has_attribute "id" "liquid-glass-svg-filters")
       (document example_page) = None
   ∧ body example_page ∈ ids (document example_page)
   ∧ Forall (λ c : construction, c.1.1 ∈ all_ids example_page)
       (first_construction :: later_constructions))
  ∧ ∃ (c : node_id) (fs : list node_id),
      c ∉ all_ids example_page
      ∧ containers
          (run example_page
             (news (first_construction :: take 1 later_constructions)))
        = [c]
      ∧ length fs = S (length later_constructions) ∧ NoDup fs.
Proof.
  assert (H0 : fresh_page example_page).
  { apply (bool_decide_unpack _). vm_compute. exact I. }
  assert (H1 : find_node (has_attribute "id" "liquid-glass-svg-filters")
                 (document example_page) = None).
  { vm_compute. reflexivity. }
  assert (H2 : body example_page ∈ ids (document example_page)).
  { apply (bool_decide_unpack _). vm_compute. exact I. }
  assert (H3 : Forall (λ c : construction, c.1.1 ∈ all_ids example_page)
                 (first_construction :: later_constructions)).
  { apply (bool_decide_unpack _). vm_compute. exact I. }
  split; [done|].
  destruct (registry_singleton example_page first_construction
              later_constructions H0 H1 H2 H3)
    as (c & fs & Hc & Hk & _ & Hlen & Hnd & _).
  exists c, fs. split; [exact Hc|]. split; [exact (Hk 1 (le_n 1))|].
  split; [exact Hlen | exact Hnd].
Defined.

(** The example: the container is node 2; its children after the two
    constructions are the filters 3 and 7, found by their identifiers;
    after [destroy()] on the first instance the child is 7. *)
Example registry_example :
  let w := run example_page
             (news (first_construction :: later_constructions)) in
  containers w = [2]
  ∧ (roots ∘ snd <$> lookup_tree 2 w) = Some [3; 7]
  ∧ getElementById "glass-distortion-4fzyo82mv" w = Ok (Some 3) w
  ∧ getElementById "glass-distortion-k2j5x9q1w" w = Ok (Some 7) w
  ∧ (roots ∘ snd <$> lookup_tree 2 (final (destroy 0 w))) = Some [7].
Proof.
  split_and!; by vm_compute.
Qed.

(* ===================================================================== *)
(** * Further properties of the class                                     *)
(* ===================================================================== *)

(** ** What a construction that returns has built *)

Lemma lookup_tree_settle n o x W :
  lookup_tree n (settle o x W)
  = (λ y, (if decide (n = element x) then settled o x y.1 else y.1,
           modify (element x) (settled o x) y.2))
      <$> lookup_tree n W.
Proof.
  unfold lookup_tree. rewrite document_settle, detached_settle.
  rewrite !tree_at_modify. by destruct (tree_at n (document W)).
Qed.

Lemma lookup_node_settle n o x W :
  lookup_node n (settle o x W)
  = (λ d, if decide (n = element x) then settled o x d else d)
      <$> lookup_node n W.
Proof.
  unfold lookup_node. rewrite lookup_tree_settle.
  by destruct (lookup_tree n W).
Qed.

Lemma doc_listeners_settle o x W :
  doc_listeners (settle o x W)
  = if draggable (options x) then listen o (doc_listeners W)
    else doc_listeners W.
Proof. unfold settle. by destruct (draggable (options x)). Qed.

(** The shape of the state after [new LiquidGlass(el, opts)] returned:
    the filter [f] with its three stages is the last child of the
    container [c], which was found in the document or is new. *)
Lemma constructor_shape w el opts r o w' :
  invariant w → constructor (Some el) opts r w = Ok o w' →
  ∃ c f doc' nx' extra dc chc,
    o = next_obj w
    ∧ w' = settle o (set_svgFilter f (initial_instance el opts r))
             (World doc' (modify el addclass (detached w)) (body w) nx'
                (doc_listeners w)
                (<[o := set_svgFilter f (initial_instance el opts r)]>
                   (objects w))
                (S (next_obj w)))
    ∧ el ∈ all_ids w ∧ next_id w ≤ f
    ∧ tree_at f doc'
      = Some (filter_node (initial_instance el opts r),
              filter_tree (initial_instance el opts r) f)
    ∧ tree_at c doc'
      = Some (dc, snoc chc f (filter_node (initial_instance el opts r))
                    (filter_tree (initial_instance el opts r) f))
    ∧ has_attribute "id" "liquid-glass-svg-filters" dc = true
    ∧ fst <$> find_node (has_attribute "id" "liquid-glass-svg-filters") doc'
      = Some c
    ∧ nodes doc'
      ≡ₚ (f, filter_node (initial_instance el opts r))
         :: nodes (filter_tree (initial_instance el opts r) f)
         ++ extra ++ nodes (modify el addclass (document w))
    ∧ (extra = []
       ∧ (∃ dc0, find_node (has_attribute "id" "liquid-glass-svg-filters")
                   (document w) = Some (c, dc0))
       ∨ extra = [(c, svg_node)] ∧ c = next_id w ∧ chc = FNil
         ∧ find_node (has_attribute "id" "liquid-glass-svg-filters")
             (document w) = None
         ∧ body w ∈ ids (document w)).
Proof.
  intros Hw Hc.
  destruct (decide (el ∈ all_ids w)) as [Hel|Hel].
  2:{ destruct (constructor_absent w el opts r Hel) as [w1 E]. congruence. }
  assert (Hfresh : ∀ n, next_id w ≤ n → n ∉ ids (modify el addclass (document w))).
  { intros n Hn Hin. rewrite ids_modify in Hin.
    assert (n < next_id w); [|lia].
    apply (inv_fresh _ Hw). rewrite all_ids_app, elem_of_app. by left. }
  destruct (find_node (has_attribute "id" "liquid-glass-svg-filters")
              (document w)) as [[c dc]|] eqn:Hfind.
  - destruct (attach_is_Some c (next_id w)
                (filter_node (initial_instance el opts r))
                (filter_tree (initial_instance el opts r) (next_id w))
                (modify el addclass (document w))) as [doc' Ha].
    { rewrite ids_modify. apply find_node_elem in Hfind as [Hin _].
      apply list_elem_of_fmap. by exists (c, dc). }
    rewrite (constructor_found w el opts r c dc doc' Hw Hel Hfind Ha) in Hc.
    injection Hc as <- <-.
    assert (Htc : ∃ chc, tree_at c (modify el addclass (document w))
                   = Some (if decide (c = el) then addclass dc else dc, chc)).
    { apply find_node_elem in Hfind as [Hin _].
      destruct (tree_at c (document w)) as [[dc' chc]|] eqn:Ht.
      - apply tree_at_elem in Ht as Hin'.
        pose proof (inv_nodup _ Hw) as Hnd.
        assert (dc' = dc) as ->.
        { eapply (all_nodes_functional w c); [done| |];
            apply elem_of_app; by left. }
        exists (modify el addclass chc). by rewrite tree_at_modify, Ht.
      - apply tree_at_None in Ht. exfalso. apply Ht.
        apply list_elem_of_fmap. by exists (c, dc). }
    destruct Htc as [chc Htc].
    eexists c, (next_id w), doc', _, [], _, chc. split_and!; try done.
    + by apply (tree_at_attach_new _ _ _ _ _ _ Ha), Hfresh.
    + by apply (tree_at_attach_parent _ _ _ _ _ _ _ _ Ha).
    + apply find_node_elem in Hfind as [_ Hd].
      destruct (decide (c = el)); [|done].
      by rewrite has_attribute_benign by (apply benign_classList || done).
    + rewrite (find_node_attach_other _ _ _ _ _ _ _ Ha).
      * rewrite find_node_modify, Hfind; [done|].
        intros d. by apply has_attribute_benign; [apply benign_classList|].
      * done.
      * intros y. simpl. rewrite !elem_of_cons, elem_of_nil.
        intros [->|[->|[->|[]]]]; done.
    + by rewrite (attach_perm _ _ _ _ _ _ Ha).
    + left. split; [done|]. by exists dc.
  - destruct (decide (body w ∈ ids (document w))) as [Hb|Hb].
    2:{ destruct (constructor_nobody w el opts r Hw Hel Hfind Hb) as [w1 E].
        congruence. }
    destruct (attach_is_Some (body w) (next_id w) svg_node FNil
                (modify el addclass (document w))) as [doc1 Ha1].
    { by rewrite ids_modify. }
    destruct (attach_is_Some (next_id w) (S (next_id w))
                (filter_node (initial_instance el opts r))
                (filter_tree (initial_instance el opts r) (S (next_id w)))
                doc1) as [doc2 Ha2].
    { apply attach_perm in Ha1. unfold ids. rewrite Ha1. left. }
    rewrite (constructor_created w el opts r doc1 doc2 Hw Hel Hfind Ha1 Ha2)
      in Hc.
    injection Hc as <- <-.
    pose proof (tree_at_attach_new _ _ _ _ _ _ Ha1 (Hfresh _ (le_n _))) as Ht1.
    eexists (next_id w), (S (next_id w)), doc2, _, [(next_id w, svg_node)],
            svg_node, FNil.
    split_and!; try done.
    + lia.
    + apply (tree_at_attach_new _ _ _ _ _ _ Ha2).
      apply attach_perm in Ha1. unfold ids. rewrite Ha1. simpl.
      rewrite not_elem_of_cons. split; [lia|]. apply Hfresh. lia.
    + by apply (tree_at_attach_parent _ _ _ _ _ _ _ _ Ha2).
    + rewrite (find_node_attach_other _ _ _ _ _ _ _ Ha2).
      * rewrite (find_node_attach_new _ _ _ _ _ _ _ Ha1); [done| |done].
        rewrite find_node_modify, Hfind; [done|].
        intros d. by apply has_attribute_benign; [apply benign_classList|].
      * done.
      * intros y. simpl. rewrite !elem_of_cons, elem_of_nil.
        intros [->|[->|[->|[]]]]; done.
    + rewrite (attach_perm _ _ _ _ _ _ Ha2), (attach_perm _ _ _ _ _ _ Ha1).
      done.
    + right. by split_and!.
Qed.

Lemma or_string_truthy v d :
  JS.truthy_string d = true → JS.truthy_string (or_string v d) = true.
Proof.
  intros Hd. unfold or_string. destruct v as [s|]; [|done].
  by destruct (JS.truthy_string s) eqn:Hs.
Qed.

(** The declarations of [applyStyles], read one by one. *)
Lemma project_lookup x st :
  JS.truthy_string (shadowOffset (options x)) = true →
  JS.truthy_string (shadowBlur (options x)) = true →
  JS.truthy_string (shadowSpread (options x)) = true →
  JS.truthy_string (shadowColor (options x)) = true →
  JS.truthy_string (tintColor (options x)) = true →
  JS.truthy_string (frostBlur (options x)) = true →
  JS.truthy_string (outerShadowBlur (options x)) = true →
  JS.truthy_string (outerShadowColor (options x)) = true →
  JS.truthy_string (borderRadius (options x)) = true →
  project x st !! "--shadow-offset" = Some (shadowOffset (options x))
  ∧ project x st !! "--shadow-blur" = Some (shadowBlur (options x))
  ∧ project x st !! "--shadow-spread" = Some (shadowSpread (options x))
  ∧ project x st !! "--shadow-color" = Some (shadowColor (options x))
  ∧ project x st !! "--tint-color" = Some (tintColor (options x))
  ∧ project x st !! "--frost-blur" = Some (frostBlur (options x))
  ∧ project x st !! "--outer-shadow-blur" = Some (outerShadowBlur (options x))
  ∧ project x st !! "--outer-shadow-color"
    = Some (outerShadowColor (options x))
  ∧ project x st !! "--border-radius" = Some (borderRadius (options x))
  ∧ project x st !! "--glass-filter-url"
    = Some ("url(#" +:+ svgFilterId x +:+ ")").
Proof.
  intros H1 H2 H3 H4 H5 H6 H7 H8 H9. unfold project.
  split_and!;
    repeat first [ rewrite declare_lookup_eq by done
                 | rewrite declare_lookup_ne by done ];
    reflexivity.
Qed.

Lemma style_settled o x d p :
  p ≠ "cursor" → style (settled o x d) !! p = project x (style d) !! p.
Proof.
  intros Hp. unfold settled. destruct (draggable (options x)); [|done].
  unfold compose, grab. cbn [style set_listeners set_style].
  by rewrite declare_lookup_ne.
Qed.

Lemma classList_settled o x d : classList (settled o x d) = classList d.
Proof. unfold settled. by destruct (draggable (options x)). Qed.

Lemma token_add_in {A} `{EqDecision A} (x : A) l : x ∈ token_add x l.
Proof.
  unfold token_add. destruct (decide (x ∈ l)); [done|].
  apply elem_of_app. right. left.
Qed.

(** X1.  A construction that returns, in any state of a session: the
    element has the class [liquid-glass] and carries the ten style
    variables, nine of them with the values of the options of the new
    instance and [--glass-filter-url] with [url(#id)], [id] being the
    identifier of the instance. *)
Theorem construction_projects w0 acts el opts r o w1 :
  fresh_page w0 →
  constructor (Some el) opts r (run w0 acts) = Ok o w1 →
  ∃ x d1,
    objects w1 !! o = Some x ∧ element x = el
    ∧ svgFilterId x = "glass-distortion-" +:+ JS.substr 2 9 r
    ∧ lookup_node el w1 = Some d1
    ∧ "liquid-glass" ∈ classList d1
    ∧ style d1 !! "--shadow-offset" = Some (shadowOffset (options x))
    ∧ style d1 !! "--shadow-blur" = Some (shadowBlur (options x))
    ∧ style d1 !! "--shadow-spread" = Some (shadowSpread (options x))
    ∧ style d1 !! "--shadow-color" = Some (shadowColor (options x))
    ∧ style d1 !! "--tint-color" = Some (tintColor (options x))
    ∧ style d1 !! "--frost-blur" = Some (frostBlur (options x))
    ∧ style d1 !! "--outer-shadow-blur" = Some (outerShadowBlur (options x))
    ∧ style d1 !! "--outer-shadow-color"
      = Some (outerShadowColor (options x))
    ∧ style d1 !! "--border-radius" = Some (borderRadius (options x))
    ∧ style d1 !! "--glass-filter-url"
      = Some ("url(#" +:+ svgFilterId x +:+ ")").
Proof.
  intros H0 Hc.
  pose proof (session_invariant w0 acts H0) as Hw.
  destruct (constructor_Ok _ el opts r o w1 Hw Hc)
    as (W & f & d0 & -> & -> & HW & Hd0 & HdW & _ & HoW & _).
  set (x0 := set_svgFilter f (initial_instance el opts r)).
  destruct (constructed_objects (next_obj (run w0 acts)) el opts r f W
              (objects (run w0 acts)) HoW)
    as [(x & Hx & Hel & Hf & Hid) _].
  assert (Hopt : options x = options x0 ∧ svgFilterId x = svgFilterId x0).
  { fold x0 in Hx. rewrite objects_settle, HoW in Hx.
    destruct (draggable (options x0)).
    - rewrite lookup_alter_eq, lookup_insert_eq in Hx. by injection Hx as <-.
    - rewrite lookup_insert_eq in Hx. by injection Hx as <-. }
  destruct Hopt as [Hopt Hsid].
  exists x, (settled (next_obj (run w0 acts)) x0 (addclass d0)).
  split; [done|]. split; [done|]. split; [done|]. split.
  { rewrite lookup_node_settle, HdW. cbn [fmap option_fmap option_map].
    by rewrite decide_True. }
  split.
  { rewrite classList_settled. cbn [addclass set_classList classList].
    apply token_add_in. }
  rewrite !style_settled by done. rewrite Hopt, Hsid.
  apply project_lookup; unfold x0;
    cbn [options set_svgFilter initial_instance merge_options shadowOffset
         shadowBlur shadowSpread shadowColor tintColor frostBlur
         outerShadowBlur outerShadowColor borderRadius];
    by apply or_string_truthy.
Qed.

Lemma construction_projects_witness :
  fresh_page example_page
  ∧ ∃ x d1,
      objects (final (constructor (Some 1) None "0.4fzyo82mvyr" example_page))
        !! 0 = Some x
      ∧ lookup_node 1
          (final (constructor (Some 1) None "0.4fzyo82mvyr" example_page))
        = Some d1
      ∧ "liquid-glass" ∈ classList d1
      ∧ style d1 !! "--frost-blur" = Some (frostBlur (options x))
      ∧ style d1 !! "--glass-filter-url"
        = Some ("url(#" +:+ svgFilterId x +:+ ")").
Proof.
  assert (H0 : fresh_page example_page).
  { apply (bool_decide_unpack _). vm_compute. exact I. }
  split; [exact H0|].
  destruct (construction_projects example_page [] 1 None "0.4fzyo82mvyr" 0
              (final (constructor (Some 1) None "0.4fzyo82mvyr" example_page))
              H0)
    as (x & d1 & Hx & _ & _ & Hd & Hcl & _ & _ & _ & _ & _ & Hfr & _ & _ & _
        & Hurl).
  { vm_compute. reflexivity. }
  exists x, d1. split; [exact Hx|]. split; [exact Hd|].
  split; [exact Hcl|]. split; [exact Hfr|exact Hurl].
Defined.

(** How the constructor chooses the value of an option: the caller's
    when it is truthy, the default otherwise. *)
Definition chosen {A} (truthy : A → bool) (given : option A)
    (dflt stored : A) : Prop :=
  match given with
  | Some v => if truthy v then stored = v else stored = dflt
  | None => stored = dflt
  end.

Lemma chosen_or_string v d : chosen JS.truthy_string v d (or_string v d).
Proof. unfold chosen, or_string. destruct v as [s|]; [|done]. by destruct _. Qed.

Lemma chosen_or_number v d : chosen JS.truthy_number v d (or_number v d).
Proof. unfold chosen, or_number. destruct v as [s|]; [|done]. by destruct _. Qed.

Lemma chosen_or_bool v d : chosen id v d (or_bool v d).
Proof. unfold chosen, or_bool. destruct v as [[]|]; done. Qed.

Lemma constructed_options w el opts r o w1 :
  invariant w → constructor (Some el) opts r w = Ok o w1 →
  ∃ x f, objects w1 !! o = Some x ∧ element x = el
         ∧ svgFilter x = Some f
         ∧ svgFilterId x = "glass-distortion-" +:+ JS.substr 2 9 r
         ∧ options x = merge_options (default no_options opts)
         ∧ cleanup x = draggable (options x)
         ∧ drag x = DragState false None None None None.
Proof.
  intros Hw Hc.
  destruct (constructor_Ok _ el opts r o w1 Hw Hc)
    as (W & f & d0 & -> & -> & HW & Hd0 & HdW & _ & HoW & _).
  rewrite objects_settle, HoW.
  destruct (draggable (options (set_svgFilter f (initial_instance el opts r))))
    eqn:Hdr.
  - eexists _, f. rewrite lookup_alter_eq, lookup_insert_eq.
    split; [reflexivity|].
    split_and!; try done;
      cbn [armed set_cleanup set_drag cleanup options]; by rewrite Hdr.
  - eexists _, f. rewrite lookup_insert_eq. split; [reflexivity|].
    split_and!; try done;
      cbn [set_svgFilter initial_instance cleanup options] in Hdr |- *;
      by rewrite Hdr.
Qed.

(** X2.  The options of a new instance, in any state of a session: each
    is the caller's value when that is truthy and the documented default
    when the option is missing or falsy; with no options argument they
    are the thirteen defaults. *)
Theorem constructor_options w0 acts el opts r o w1 :
  fresh_page w0 →
  constructor (Some el) opts r (run w0 acts) = Ok o w1 →
  ∃ x,
    objects w1 !! o = Some x
    ∧ (let given := default no_options opts in
       let c := options x in
       chosen JS.truthy_string (opt_shadowOffset given) "0px" (shadowOffset c)
       ∧ chosen JS.truthy_string (opt_shadowBlur given) "20px" (shadowBlur c)
       ∧ chosen JS.truthy_string (opt_shadowSpread given) "-5px"
           (shadowSpread c)
       ∧ chosen JS.truthy_string (opt_shadowColor given)
           "rgba(255, 255, 255, 0.8)" (shadowColor c)
       ∧ chosen JS.truthy_string (opt_tintColor given)
           "rgba(255, 255, 255, 0.4)" (tintColor c)
       ∧ chosen JS.truthy_number (opt_tintOpacity given) 0.4%float
           (tintOpacity c)
       ∧ chosen JS.truthy_string (opt_frostBlur given) "2px" (frostBlur c)
       ∧ chosen JS.truthy_number (opt_noiseFrequency given) 0.008%float
           (noiseFrequency c)
       ∧ chosen JS.truthy_number (opt_distortionStrength given) 77%float
           (distortionStrength c)
       ∧ chosen JS.truthy_string (opt_outerShadowBlur given) "24px"
           (outerShadowBlur c)
       ∧ chosen JS.truthy_string (opt_outerShadowColor given)
           "rgba(0, 0, 0, 0.2)" (outerShadowColor c)
       ∧ chosen JS.truthy_string (opt_borderRadius given) "20px"
           (borderRadius c)
       ∧ chosen id (opt_draggable given) false (draggable c))
    ∧ (opts = None →
       options x
       = Config "0px" "20px" "-5px" "rgba(255, 255, 255, 0.8)"
                "rgba(255, 255, 255, 0.4)" 0.4%float "2px" 0.008%float
                77%float "24px" "rgba(0, 0, 0, 0.2)" "20px" false).
Proof.
  intros H0 Hc.
  pose proof (session_invariant w0 acts H0) as Hw.
  destruct (constructed_options _ el opts r o w1 Hw Hc)
    as (x & f & Hx & _ & _ & _ & Hopt & _).
  exists x. split; [done|]. rewrite Hopt. split.
  - cbn zeta. unfold merge_options.
    cbn [shadowOffset shadowBlur shadowSpread shadowColor tintColor
         tintOpacity frostBlur noiseFrequency distortionStrength
         outerShadowBlur outerShadowColor borderRadius draggable].
    split_and!;
      first [apply chosen_or_string | apply chosen_or_number
            | apply chosen_or_bool].
  - by intros ->.
Qed.

Lemma constructor_options_witness :
  fresh_page example_page
  ∧ ∃ x,
      objects (final (constructor (Some 1) None "0.4fzyo82mvyr" example_page))
        !! 0 = Some x
      ∧ options x
        = Config "0px" "20px" "-5px" "rgba(255, 255, 255, 0.8)"
                 "rgba(255, 255, 255, 0.4)" 0.4%float "2px" 0.008%float
                 77%float "24px" "rgba(0, 0, 0, 0.2)" "20px" false.
Proof.
  assert (H0 : fresh_page example_page).
  { apply (bool_decide_unpack _). vm_compute. exact I. }
  split; [exact H0|].
  destruct (constructor_options example_page [] 1 None "0.4fzyo82mvyr" 0
              (final (constructor (Some 1) None "0.4fzyo82mvyr" example_page))
              H0)
    as (x & Hx & _ & Hd).
  { vm_compute. reflexivity. }
  exists x. split; [exact Hx|exact (Hd eq_refl)].
Defined.

Lemma filter_tree_options x y f :
  options x = options y → filter_tree x f = filter_tree y f.
Proof.
  intros Ho. unfold filter_tree, turbulence_node, displacement_node.
  by rewrite Ho.
Qed.

Lemma filter_node_id x y :
  svgFilterId x = svgFilterId y → filter_node x = filter_node y.
Proof. intros Hi. unfold filter_node. by rewrite Hi. Qed.

Lemma settled_object o el opts r f W ob :
  objects W = <[o := set_svgFilter f (initial_instance el opts r)]> ob →
  ∃ x, objects (settle o (set_svgFilter f (initial_instance el opts r)) W)
         !! o = Some x
       ∧ element x = el ∧ svgFilter x = Some f
       ∧ svgFilterId x = svgFilterId (initial_instance el opts r)
       ∧ options x = options (initial_instance el opts r).
Proof.
  intros HW. rewrite objects_settle, HW. destruct (draggable _).
  - eexists. rewrite lookup_alter_eq, lookup_insert_eq. by split_and!.
  - eexists. rewrite lookup_insert_eq. by split_and!.
Qed.

(** X3.  The filter a construction builds, in any state of a session: a
    new [filter] element whose [id] is the identifier of the instance,
    with the three stages [feTurbulence], [feGaussianBlur] and
    [feDisplacementMap] in this order, [baseFrequency] and [scale] being
    the two numbers of the options as strings; it is the last child of
    the element that carries the identifier [liquid-glass-svg-filters],
    in the document. *)
Theorem construction_builds_filter w0 acts el opts r o w1 :
  fresh_page w0 →
  constructor (Some el) opts r (run w0 acts) = Ok o w1 →
  ∃ x f c dc chc before,
    objects w1 !! o = Some x ∧ svgFilter x = Some f
    ∧ f ∉ all_ids (run w0 acts)
    ∧ lookup_tree f w1 = Some (filter_node x, filter_tree x f)
    ∧ attributes (filter_node x) !! "id" = Some (svgFilterId x)
    ∧ roots (filter_tree x f) = [1 + f; 2 + f; 3 + f]
    ∧ lookup_node (1 + f) w1 = Some (turbulence_node x)
    ∧ tagName (turbulence_node x) = "feTurbulence"
    ∧ attributes (turbulence_node x) !! "baseFrequency"
      = Some (JS.to_string (noiseFrequency (options x)))
    ∧ lookup_node (2 + f) w1 = Some blur_node
    ∧ tagName blur_node = "feGaussianBlur"
    ∧ attributes blur_node !! "stdDeviation" = Some "0.6"
    ∧ lookup_node (3 + f) w1 = Some (displacement_node x)
    ∧ tagName (displacement_node x) = "feDisplacementMap"
    ∧ attributes (displacement_node x) !! "scale"
      = Some (JS.to_string (distortionStrength (options x)))
    ∧ getElementById "liquid-glass-svg-filters" w1 = Ok (Some c) w1
    ∧ lookup_tree c w1 = Some (dc, chc)
    ∧ roots chc = before ++ [f].
Proof.
  intros H0 Hc.
  pose proof (session_invariant w0 acts H0) as Hw.
  pose proof (safe_constructor (Some el) opts r _ Hw) as Hw1.
  rewrite Hc in Hw1. cbn [final] in Hw1.
  destruct (constructor_shape _ el opts r o w1 Hw Hc)
    as (c & f & doc' & nx' & extra & dc & chc & -> & Hw1eq & Hel & Hf & Htf
        & Htc & Hdc & Hfind & _ & _).
  set (x0 := initial_instance el opts r) in *.
  set (o := next_obj (run w0 acts)) in *.
  set (W := World doc' (modify el addclass (detached (run w0 acts)))
                  (body (run w0 acts)) nx' (doc_listeners (run w0 acts))
                  (<[o := set_svgFilter f x0]> (objects (run w0 acts)))
                  (S (next_obj (run w0 acts)))) in *.
  destruct (settled_object o el opts r f W (objects (run w0 acts)) eq_refl)
    as (x & Hx & _ & Hfx & Hid & Hopt).
  fold x0 in Hid, Hopt.
  assert (Hold : ∀ n, n ∈ all_ids (run w0 acts) → n < next_id (run w0 acts))
    by apply (inv_fresh _ Hw).
  assert (Helf : el ≠ f) by (intros ->; apply Hold in Hel; lia).
  assert (Hstages : el ∉ ids (filter_tree x0 f)).
  { apply Hold in Hel.
    change (ids (filter_tree x0 f)) with [1 + f; 2 + f; 3 + f].
    rewrite !not_elem_of_cons.
    split_and!; try lia. apply not_elem_of_nil. }
  assert (Htree : lookup_tree f w1 = Some (filter_node x, filter_tree x f)).
  { rewrite Hw1eq, lookup_tree_settle. unfold lookup_tree.
    cbn [W document]. rewrite Htf. cbn [fmap option_fmap option_map fst snd].
    cbn [element set_svgFilter initial_instance x0].
    rewrite decide_False by done. fold x0.
    rewrite modify_notin by done.
    by rewrite (filter_node_id x x0), (filter_tree_options x x0). }
  assert (Hchild : ∀ n d, (n, d) ∈ nodes (filter_tree x f) →
                          lookup_node n w1 = Some d).
  { intros n d Hin. apply lookup_node_from_elem; [apply (inv_nodup _ Hw1)|].
    by eapply lookup_tree_children. }
  exists x, f, c. eexists _, _, (roots chc).
  split; [by rewrite Hw1eq|]. split; [done|]. split.
  { intros Hin. apply Hold in Hin. lia. }
  split; [done|]. split; [apply id_filter_node|]. split; [done|].
  split; [apply Hchild; simpl; left|]. split; [done|].
  split.
  { unfold turbulence_node. cbn [attributes].
    by rewrite !lookup_insert_ne, lookup_insert_eq by done. }
  split; [apply Hchild; simpl; right; left|]. split; [done|]. split; [done|].
  split; [apply Hchild; simpl; do 2 right; left|]. split; [done|].
  split.
  { unfold displacement_node. cbn [attributes].
    by rewrite !lookup_insert_ne, lookup_insert_eq by done. }
  split.
  { unfold getElementById. f_equal.
    rewrite Hw1eq, document_settle. cbn [W document].
    rewrite find_node_modify.
    2:{ intros d. by apply has_attribute_benign; [apply benign_settled|]. }
    destruct (find_node _ doc') as [[c' d']|]; [|done].
    by injection Hfind as ->. }
  split.
  { rewrite Hw1eq, lookup_tree_settle. unfold lookup_tree.
    cbn [W document]. rewrite Htc. reflexivity. }
  rewrite roots_modify. cbn [snd]. by rewrite roots_snoc.
Qed.

Lemma construction_builds_filter_witness :
  fresh_page example_page
  ∧ ∃ x f,
      objects (final (constructor (Some 1) None "0.4fzyo82mvyr" example_page))
        !! 0 = Some x
      ∧ svgFilter x = Some f
      ∧ lookup_tree f
          (final (constructor (Some 1) None "0.4fzyo82mvyr" example_page))
        = Some (filter_node x, filter_tree x f).
Proof.
  assert (H0 : fresh_page example_page).
  { apply (bool_decide_unpack _). vm_compute. exact I. }
  split; [exact H0|].
  destruct (construction_builds_filter example_page [] 1 None
              "0.4fzyo82mvyr" 0
              (final (constructor (Some 1) None "0.4fzyo82mvyr" example_page))
              H0)
    as (x & f & c & dc & chc & before & Hx & Hf & _ & Ht & _).
  { vm_compute. reflexivity. }
  exists x, f. split; [exact Hx|]. split; [exact Hf|exact Ht].
Defined.

(** ** Construction without drag behaviour *)

Lemma listeners_settled_plain o x d :
  draggable (options x) = false → listeners (settled o x d) = listeners d.
Proof. intros Hd. unfold settled. by rewrite Hd. Qed.

Lemma all_nodes_settle o x W :
  all_nodes (settle o x W)
  = amend_entry (element x) (settled o x) <$> all_nodes W.
Proof.
  unfold all_nodes. rewrite document_settle, detached_settle.
  by rewrite !nodes_modify, fmap_app.
Qed.

Lemma lookup_node_iff w n d :
  NoDup (all_ids w) → lookup_node n w = Some d ↔ (n, d) ∈ all_nodes w.
Proof.
  intros Hnd. split; [apply lookup_node_elem|by apply lookup_node_from_elem].
Qed.

(** The nodes after a construction that returned: the filter, its
    stages, the container when it is new, and the nodes there were, the
    element with its class and its declarations. *)
Lemma constructor_nodes w el opts r o w1 :
  invariant w → constructor (Some el) opts r w = Ok o w1 →
  ∃ c f,
    o = next_obj w ∧ next_id w ≤ f
    ∧ ∀ n d1,
        lookup_node n w1 = Some d1 ↔
        (n, d1) ∈ (f, filter_node (initial_instance el opts r))
                  :: nodes (filter_tree (initial_instance el opts r) f)
        ∨ ((n, d1) = (c, svg_node) ∧ c = next_id w
           ∧ find_node (has_attribute "id" "liquid-glass-svg-filters")
               (document w) = None)
        ∨ ∃ d, lookup_node n w = Some d
               ∧ d1 = if decide (n = el)
                      then settled o (set_svgFilter f
                                        (initial_instance el opts r))
                             (addclass d)
                      else d.
Proof.
  intros Hw Hc.
  pose proof (safe_constructor (Some el) opts r _ Hw) as Hw1.
  rewrite Hc in Hw1. cbn [final] in Hw1.
  destruct (constructor_shape _ el opts r o w1 Hw Hc)
    as (c & f & doc' & nx' & extra & dc & chc & -> & Hw1eq & Hel & Hf & Htf
        & Htc & Hdc & Hfind & Hperm & Hextra).
  exists c, f. split; [done|]. split; [done|]. intros n d1.
  rewrite (lookup_node_iff _ _ _ (inv_nodup _ Hw1)).
  rewrite Hw1eq, all_nodes_settle. unfold all_nodes at 1.
  cbn [document detached element set_svgFilter initial_instance].
  rewrite Hperm, !nodes_modify.
  set (S := settled _ _).
  assert (Hnew : ∀ m, next_id w ≤ m → m ≠ el).
  { intros m Hm ->. apply (inv_fresh _ Hw) in Hel. lia. }
  assert (Hstage : ∀ m d, (m, d) ∈ (f, filter_node (initial_instance el opts r))
                     :: nodes (filter_tree (initial_instance el opts r) f) →
                   next_id w ≤ m).
  { intros m d. simpl. rewrite !elem_of_cons, elem_of_nil.
    intros [[= -> _]|[[= -> _]|[[= -> _]|[[= -> _]|[]]]]]; lia. }
  rewrite list_elem_of_fmap. split.
  - intros ([m d] & Heq & Hin). unfold amend_entry in Heq.
    cbn [fst snd] in Heq. injection Heq as -> ->.
    rewrite app_comm_cons, !elem_of_app in Hin.
    destruct Hin as [[Hin|[Hin|Hin]]|Hin].
    + left. rewrite decide_False by (eapply Hnew, Hstage, Hin). exact Hin.
    + destruct Hextra as [[-> _]|(-> & -> & _ & Hnone & _)].
      { by apply elem_of_nil in Hin. }
      apply list_elem_of_singleton in Hin. injection Hin as -> ->.
      right. left. rewrite decide_False by by apply Hnew. done.
    + do 2 right. apply list_elem_of_fmap in Hin as ([m' d'] & Heq & Hin).
      unfold amend_entry in Heq. cbn [fst snd] in Heq.
      injection Heq as -> ->. exists d'. split.
      * apply lookup_node_iff; [apply (inv_nodup _ Hw)|].
        apply elem_of_app. by left.
      * by destruct (decide (m' = el)).
    + do 2 right. apply list_elem_of_fmap in Hin as ([m' d'] & Heq & Hin).
      unfold amend_entry in Heq. cbn [fst snd] in Heq.
      injection Heq as -> ->. exists d'. split.
      * apply lookup_node_iff; [apply (inv_nodup _ Hw)|].
        apply elem_of_app. by right.
      * by destruct (decide (m' = el)).
  - intros [Hin|[(Heq & -> & Hnone)|(d & Hd & ->)]].
    + exists (n, d1). split.
      * unfold amend_entry. cbn [fst snd].
        by rewrite decide_False by (eapply Hnew, Hstage, Hin).
      * rewrite app_comm_cons, !elem_of_app. by do 2 left.
    + injection Heq as -> ->. exists (next_id w, svg_node). split.
      * unfold amend_entry. cbn [fst snd].
        by rewrite decide_False by by apply Hnew.
      * destruct Hextra as [[_ [dc0 Hsome]]|(-> & _)]; [congruence|].
        rewrite app_comm_cons, !elem_of_app. left. right. left. left.
    + apply (lookup_node_iff _ _ _ (inv_nodup _ Hw)) in Hd.
      exists (n, if decide (n = el) then addclass d else d). split.
      * unfold amend_entry. cbn [fst snd]. by destruct (decide (n = el)).
      * rewrite app_comm_cons, !elem_of_app.
        apply elem_of_app in Hd as [Hd|Hd]; [left; do 2 right|right];
          apply list_elem_of_fmap; exists (n, d); (split; [|done]);
          unfold amend_entry; cbn [fst snd]; by destruct (decide (n = el)).
Qed.

(** X4.  A construction whose [draggable] option is missing or false, in
    any state of a session: no listener is added, neither to a node nor
    to the document, the new nodes have none, the instance has no
    [cleanup], and the [cursor] declaration of the element stays as it
    was. *)
Theorem construction_without_drag w0 acts el opts r o w1 :
  fresh_page w0 →
  or_bool (opt_draggable (default no_options opts)) false = false →
  constructor (Some el) opts r (run w0 acts) = Ok o w1 →
  doc_listeners w1 = doc_listeners (run w0 acts)
  ∧ (∀ n d1, lookup_node n w1 = Some d1 →
       listeners d1 = match lookup_node n (run w0 acts) with
                      | Some d => listeners d
                      | None => []
                      end)
  ∧ (∃ x, objects w1 !! o = Some x ∧ cleanup x = false)
  ∧ ∃ d0 d1, lookup_node el (run w0 acts) = Some d0
             ∧ lookup_node el w1 = Some d1
             ∧ style d1 !! "cursor" = style d0 !! "cursor".
Proof.
  intros H0 Hdrag Hc.
  pose proof (session_invariant w0 acts H0) as Hw.
  destruct (constructed_options _ el opts r o w1 Hw Hc)
    as (x & f' & Hx & _ & _ & _ & Hopt & Hcl & _).
  destruct (constructor_shape _ el opts r o w1 Hw Hc)
    as (c' & f'' & doc' & nx' & extra & dc & chc & _ & Hw1eq & Hel & _).
  destruct (constructor_nodes _ el opts r o w1 Hw Hc)
    as (c & f & -> & Hf & Hnodes).
  set (x0 := set_svgFilter f (initial_instance el opts r)) in *.
  assert (Hdr : draggable (options x0) = false) by exact Hdrag.
  split_and!.
  - rewrite Hw1eq, doc_listeners_settle.
    change (draggable _) with (draggable (options x0)). by rewrite Hdr.
  - intros n d1 Hn. apply Hnodes in Hn.
    assert (Hnew : ∀ m, next_id (run w0 acts) ≤ m →
                        lookup_node m (run w0 acts) = None).
    { intros m Hm. apply lookup_node_None. intros Hin.
      apply (inv_fresh _ Hw) in Hin. lia. }
    destruct Hn as [Hin|[([= -> ->] & -> & _)|(d & Hd & ->)]].
    + simpl in Hin. rewrite !elem_of_cons, elem_of_nil in Hin.
      destruct Hin as [[= -> ->]|[[= -> ->]|[[= -> ->]|[[= -> ->]|[]]]]];
        by rewrite Hnew by lia.
    + by rewrite Hnew.
    + rewrite Hd. destruct (decide (n = el)); [|done].
      by rewrite listeners_settled_plain.
  - exists x. split; [done|]. rewrite Hcl, Hopt. exact Hdrag.
  - apply lookup_node_is_Some in Hel as [d0 Hd0].
    exists d0, (settled (next_obj (run w0 acts)) x0 (addclass d0)).
    split; [done|]. split.
    + apply Hnodes. do 2 right. exists d0. split; [done|].
      by rewrite decide_True.
    + unfold settled. rewrite Hdr.
      cbn [set_style style addclass set_classList].
      unfold project. by rewrite !declare_lookup_ne.
Qed.

Lemma construction_without_drag_witness :
  fresh_page example_page
  ∧ doc_listeners
      (final (constructor (Some 1) None "0.4fzyo82mvyr" example_page))
    = doc_listeners (run example_page []).
Proof.
  assert (H0 : fresh_page example_page).
  { apply (bool_decide_unpack _). vm_compute. exact I. }
  split; [exact H0|].
  refine (proj1 (construction_without_drag example_page [] 1 None
                   "0.4fzyo82mvyr" 0
                   (final (constructor (Some 1) None "0.4fzyo82mvyr"
                             example_page))
                   H0 _ _)).
  - reflexivity.
  - vm_compute. reflexivity.
Defined.

(** ** A construction that fails *)

(** X5.  In any state of a session where the document has no element
    with the identifier [liquid-glass-svg-filters] and no body, a
    construction on an existing element throws [TypeError] at
    [document.body.appendChild]; by then the element has received the
    class [liquid-glass], with its declarations untouched, the document
    has the nodes it had, no listener is added, and the object of the
    instance has no filter. *)
Theorem constructor_without_body w0 acts el opts r :
  fresh_page w0 → el ∈ all_ids (run w0 acts) →
  find_node (has_attribute "id" "liquid-glass-svg-filters")
    (document (run w0 acts)) = None →
  body (run w0 acts) ∉ ids (document (run w0 acts)) →
  ∃ w' d0 d' x,
    constructor (Some el) opts r (run w0 acts) = Throw TypeError w'
    ∧ ids (document w') = ids (document (run w0 acts))
    ∧ doc_listeners w' = doc_listeners (run w0 acts)
    ∧ lookup_node el (run w0 acts) = Some d0
    ∧ lookup_node el w' = Some d'
    ∧ "liquid-glass" ∈ classList d' ∧ style d' = style d0
    ∧ objects w' !! next_obj (run w0 acts) = Some x
    ∧ svgFilter x = None.
Proof.
  intros H0 Hel Hfind Hb.
  pose proof (session_invariant w0 acts H0) as Hw.
  set (w := run w0 acts) in *.
  pose proof (safe_constructor (Some el) opts r _ Hw) as Hw1.
  assert (Hc : constructor (Some el) opts r w
               = Throw TypeError
                   (World (modify el addclass (document w))
                      (FCons (next_id w) svg_node FNil
                         (modify el addclass (detached w)))
                      (body w) (S (next_id w)) (doc_listeners w)
                      (<[next_obj w := initial_instance el opts r]>
                         (objects w))
                      (S (next_obj w)))).
  { rewrite constructor_steps by done. eapply bind_Throw.
    match goal with |- createSVGFilter _ ?W = _ =>
      rewrite (createSVGFilter_nobody _ (initial_instance el opts r) W) end.
    - reflexivity.
    - cbn [amend set_forests objects]. apply lookup_insert_eq.
    - rewrite all_ids_amend. apply (inv_fresh w Hw).
    - cbn [amend set_forests document].
      rewrite find_node_modify, Hfind; [reflexivity|].
      intros d. by apply has_attribute_benign; [apply benign_classList|].
    - cbn [amend set_forests document body]. by rewrite ids_modify. }
  rewrite Hc in Hw1. cbn [final] in Hw1.
  apply lookup_node_is_Some in Hel as Hd0. destruct Hd0 as [d0 Hd0].
  eexists _, d0, (addclass d0), _. split; [exact Hc|].
  cbn [document doc_listeners objects].
  split; [by rewrite ids_modify|]. split; [done|]. split; [done|].
  split.
  { apply lookup_node_from_elem; [apply (inv_nodup _ Hw1)|].
    apply lookup_node_elem in Hd0. unfold all_nodes in Hd0 |- *.
    cbn [document detached nodes app]. rewrite !nodes_modify.
    assert (Hin : ∀ l : list (node_id * node), (el, d0) ∈ l →
                       (el, addclass d0) ∈ amend_entry el addclass <$> l).
    { intros l Hl. apply list_elem_of_fmap. exists (el, d0).
      split; [|done]. unfold amend_entry. cbn [fst snd].
      by rewrite decide_True. }
    apply elem_of_app in Hd0 as [Hd0|Hd0]; apply elem_of_app.
    - left. by apply Hin.
    - right. right. by apply Hin. }
  split; [apply token_add_in|]. split; [done|].
  rewrite lookup_insert_eq. done.
Qed.

(** A page whose document is empty: one [div] outside the document. *)
Definition bodiless_page : world :=
  World FNil
        (FCons 1 (empty_node "http://www.w3.org/1999/xhtml" "div") FNil FNil)
        0 2 [] ∅ 0.

Lemma constructor_without_body_witness :
  (fresh_page bodiless_page
   ∧ 1 ∈ all_ids (run bodiless_page [])
   ∧ find_node (has_attribute "id" "liquid-glass-svg-filters")
       (document (run bodiless_page [])) = None
   ∧ body (run bodiless_page []) ∉ ids (document (run bodiless_page [])))
  ∧ ∃ w', constructor (Some 1) None "0.4fzyo82mvyr" (run bodiless_page [])
          = Throw TypeError w'.
Proof.
  assert (H0 : fresh_page bodiless_page).
  { apply (bool_decide_unpack _). vm_compute. exact I. }
  assert (H1 : 1 ∈ all_ids (run bodiless_page [])).
  { apply (bool_decide_unpack _). vm_compute. exact I. }
  assert (H2 : find_node (has_attribute "id" "liquid-glass-svg-filters")
                 (document (run bodiless_page [])) = None).
  { reflexivity. }
  assert (H3 : body (run bodiless_page [])
               ∉ ids (document (run bodiless_page []))).
  { apply (bool_decide_unpack _). vm_compute. exact I. }
  split; [done|].
  destruct (constructor_without_body bodiless_page [] 1 None "0.4fzyo82mvyr"
              H0 H1 H2 H3) as (w' & d0 & d' & x & Hc & _).
  exists w'. exact Hc.
Defined.

(** ** More on dragging *)

(** The three events on an instance that is ready, as changes of the
    state. *)
Lemma press_world o el d s w k e :
  ready o el d s w →
  fire_on_element el (down_type k) e w
  = amend el (set_style (declare "cursor" "grabbing"))
      (set_objects (alter (set_drag (λ _, pressed e d)) o) w).
Proof.
  intros ((x & Ho & <- & <-) & Hd & Hl & Hdl).
  assert (fire_on_element (element x) (down_type k) e w
          = final (onMouseDown o e w)) as ->.
  { unfold fire_on_element. rewrite Hd, Hl. by destruct k. }
  by rewrite (onMouseDown_Ok w o x d e Ho Hd).
Qed.

Lemma move_world o el d s w k e :
  ready o el d s w →
  fire_on_document (move_type k) e w
  = if isDragging s
    then amend el (λ d, moved e s d) w
    else w.
Proof.
  intros Hr. destruct (isDragging s) eqn:Hs.
  2:{ by apply (idle_move o el d s). }
  destruct Hr as ((x & Ho & <- & <-) & Hd & Hl & Hdl).
  assert (fire_on_document (move_type k) e w
          = final (onMouseMove o e w)) as ->.
  { unfold fire_on_document. rewrite Hdl. by destruct k. }
  assert (Hel : element x ∈ all_ids w).
  { apply lookup_node_is_Some. by rewrite Hd. }
  by rewrite (onMouseMove_dragging w o x e Ho Hel Hs).
Qed.

Lemma release_world o el d s w k e :
  ready o el d s w →
  fire_on_document (up_type k) e w
  = amend el (set_style (declare "cursor" "grab"))
      (set_objects (alter (set_drag released) o) w).
Proof.
  intros ((x & Ho & <- & <-) & Hd & Hl & Hdl).
  assert (fire_on_document (up_type k) e w = final (onMouseUp o w)) as ->.
  { unfold fire_on_document. rewrite Hdl. by destruct k. }
  assert (Hel : element x ∈ all_ids w).
  { apply lookup_node_is_Some. by rewrite Hd. }
  by rewrite (onMouseUp_Ok w o x Ho Hel).
Qed.

(** Pointer events of a gesture, in the order they arrive. *)
Inductive pointer_event :=
| Down (k : input) (e : event)
| Move (k : input) (e : event)
| Up (k : input) (e : event).

Definition deliver (el : node_id) (p : pointer_event) : action :=
  match p with
  | Down k e => ElementEvent el (down_type k) e
  | Move k e => DocumentEvent (move_type k) e
  | Up k e => DocumentEvent (up_type k) e
  end.

(** An instance with its listeners in place and its [cleanup] set. *)
Definition live (o : obj_id) (el f : node_id) (w : world) : Prop :=
  (∃ d s, ready o el d s w)
  ∧ ∃ x, objects w !! o = Some x ∧ cleanup x = true ∧ svgFilter x = Some f.

Lemma live_step o el f w p : live o el f w → live o el f (step w (deliver el p)).
Proof.
  intros [(d & s & Hr) (x & Hx & Hcl & Hf)].
  destruct p as [k e|k e|k e]; cbn [deliver step].
  - split.
    + eexists _, _. by apply (ready_press o el d s w k e).
    + rewrite (press_world o el d s w k e Hr). world_simpl. rewrite Hx.
      eexists. by split_and!.
  - split.
    + destruct (isDragging s) eqn:Hs.
      * eexists _, _. by apply (ready_move o el d s w k e).
      * rewrite (idle_move o el d s w k e Hr Hs). by exists d, s.
    + rewrite (move_world o el d s w k e Hr).
      destruct (isDragging s); world_simpl; by exists x.
  - split.
    + eexists _, _. by apply (ready_release o el d s w k e).
    + rewrite (release_world o el d s w k e Hr). world_simpl. rewrite Hx.
      eexists. by split_and!.
Qed.

Lemma live_run o el f w ps :
  live o el f w → live o el f (run w (deliver el <$> ps)).
Proof.
  revert w. induction ps as [|p ps IH]; intros w Hl; [done|].
  cbn [fmap list_fmap run fold_left]. apply IH. by apply live_step.
Qed.

Lemma live_constructor w0 el opts r o w1 :
  fresh_page w0 → opt_draggable opts = Some true →
  constructor (Some el) (Some opts) r w0 = Ok o w1 →
  ∃ f, live o el f w1.
Proof.
  intros H0 Hdrag Hc.
  assert (is_Some (lookup_node el w0)) as [d0 Hd0].
  { apply lookup_node_is_Some.
    by destruct (constructor_shape w0 el (Some opts) r o w1
                   (fresh_page_invariant _ H0) Hc)
      as (? & ? & ? & ? & ? & ? & ? & _ & _ & Hel & _). }
  destruct (ready_constructor w0 el d0 opts r o w1 H0 Hd0 Hdrag Hc)
    as (d1 & Hr & _).
  destruct (constructed_options w0 el (Some opts) r o w1
              (fresh_page_invariant _ H0) Hc)
    as (x & f & Hx & _ & Hf & _ & Hopt & Hcl & _).
  exists f. split; [by eexists d1, _|]. exists x. split_and!; try done.
  rewrite Hcl, Hopt. simpl. by rewrite Hdrag.
Qed.

Lemma ready_moves o el d s w (moves : list (input * event)) :
  ready o el d s w → isDragging s = true →
  ∃ d', ready o el d' s
          (run w ((λ m, DocumentEvent (move_type m.1) m.2) <$> moves)).
Proof.
  intros Hr Hs. revert d w Hr.
  induction moves as [|[k e] moves IH]; intros d w Hr; [by exists d|].
  cbn [fmap list_fmap run fold_left step fst snd].
  apply (IH (moved e s d)). by apply ready_move.
Qed.

(** X6.  While a drag is under way the element follows the pointer, not
    the path: after pointer-down at [(px, py)] and any moves, a move to
    [(qx, qy)] declares [left] and [top] as the rectangle read at
    pointer-down plus [(qx - px, qy - py)].  Pointer-up then sets the
    cursor to [grab] and keeps [position], [left] and [top]. *)
Theorem drag_follows_pointer k k' k'' w0 el d0 opts r o w1 px py qx qy
    (moves : list (input * event)) e :
  fresh_page w0 → lookup_node el w0 = Some d0 →
  opt_draggable opts = Some true →
  constructor (Some el) (Some opts) r w0 = Ok o w1 →
  JS.truthy_number px = true → JS.truthy_number py = true →
  JS.truthy_number qx = true → JS.truthy_number qy = true →
  let w2 := fire_on_element el (down_type k) (pointer_at k px py) w1 in
  let w3 := run w2 ((λ m, DocumentEvent (move_type m.1) m.2) <$> moves) in
  let w4 := fire_on_document (move_type k') (pointer_at k' qx qy) w3 in
  let w5 := fire_on_document (up_type k'') e w4 in
  ∃ d4 d5,
    lookup_node el w4 = Some d4
    ∧ style d4 !! "position" = Some "absolute"
    ∧ style d4 !! "left"
      = Some (JS.to_string (rect_left d0 + (qx - px))%float +:+ "px")
    ∧ style d4 !! "top"
      = Some (JS.to_string (rect_top d0 + (qy - py))%float +:+ "px")
    ∧ lookup_node el w5 = Some d5
    ∧ style d5 !! "cursor" = Some "grab"
    ∧ style d5 !! "position" = style d4 !! "position"
    ∧ style d5 !! "left" = style d4 !! "left"
    ∧ style d5 !! "top" = style d4 !! "top".
Proof.
  intros H0 Hd0 Hdrag Hc Hpx Hpy Hqx Hqy w2 w3 w4 w5.
  destruct (ready_constructor w0 el d0 opts r o w1 H0 Hd0 Hdrag Hc)
    as (d1 & Hr1 & Hl & Ht & _).
  pose proof (ready_press o el d1 _ w1 k (pointer_at k px py) Hr1) as Hr2.
  fold w2 in Hr2.
  destruct (ready_moves o el _ _ w2 moves Hr2 eq_refl) as [d3 Hr3].
  fold w3 in Hr3.
  pose proof (ready_move o el _ _ _ k' (pointer_at k' qx qy) Hr3 eq_refl)
    as Hr4.
  fold w4 in Hr4.
  pose proof (ready_release o el _ _ _ k'' e Hr4) as Hr5. fold w5 in Hr5.
  eexists _, _. split; [apply Hr4|].
  assert (Hm : moved (pointer_at k' qx qy) (pressed (pointer_at k px py) d1) d3
          = set_style
              (declare "top"
                 (JS.to_string (rect_top d0 + (qy - py))%float +:+ "px")
               ∘ declare "left"
                 (JS.to_string (rect_left d0 + (qx - px))%float +:+ "px")
               ∘ declare "position" "absolute") d3).
  { unfold moved, pressed. cbn [initialX initialY startX startY].
    rewrite !pointer_at_X, !pointer_at_Y by done. cbn [JS.to_number].
    by rewrite Hl, Ht. }
  split_and!;
    [rewrite Hm; cbn [set_style style compose]
    |rewrite Hm; cbn [set_style style compose]
    |rewrite Hm; cbn [set_style style compose]
    |apply Hr5|cbn [set_style style]..].
  - rewrite !declare_lookup_ne by done. by rewrite declare_lookup_eq.
  - rewrite declare_lookup_ne by done.
    by rewrite declare_lookup_eq by apply truthy_px.
  - by rewrite declare_lookup_eq by apply truthy_px.
  - by rewrite declare_lookup_eq.
  - by rewrite (declare_lookup_ne "cursor").
  - by rewrite (declare_lookup_ne "cursor").
  - by rewrite (declare_lookup_ne "cursor").
Qed.

Lemma drag_follows_pointer_witness :
  fresh_page example_page
  ∧ ∃ d4 d5,
      lookup_node 1
        (fire_on_document "mousemove" (mouse 130 140)
           (run (fire_on_element 1 "mousedown" (mouse 100 100) draggable_page)
              ((λ m, DocumentEvent (move_type m.1) m.2)
                 <$> [(ByMouse, mouse 500 7)])))
      = Some d4
      ∧ style d4 !! "position" = Some "absolute"
      ∧ style d4 !! "left"
        = Some (JS.to_string (rect_left
                   (set_rect 50 50
                      (empty_node "http://www.w3.org/1999/xhtml" "div"))
                 + (130 - 100))%float +:+ "px")
      ∧ style d4 !! "top"
        = Some (JS.to_string (rect_top
                   (set_rect 50 50
                      (empty_node "http://www.w3.org/1999/xhtml" "div"))
                 + (140 - 100))%float +:+ "px")
      ∧ lookup_node 1
          (fire_on_document "mouseup" (mouse 130 140)
             (fire_on_document "mousemove" (mouse 130 140)
                (run (fire_on_element 1 "mousedown" (mouse 100 100)
                        draggable_page)
                   ((λ m, DocumentEvent (move_type m.1) m.2)
                      <$> [(ByMouse, mouse 500 7)]))))
        = Some d5
      ∧ style d5 !! "cursor" = Some "grab"
      ∧ style d5 !! "position" = style d4 !! "position"
      ∧ style d5 !! "left" = style d4 !! "left"
      ∧ style d5 !! "top" = style d4 !! "top".
Proof.
  assert (H0 : fresh_page example_page).
  { apply (bool_decide_unpack _). vm_compute. exact I. }
  split; [exact H0|].
  refine (drag_follows_pointer ByMouse ByMouse ByMouse example_page 1
            (set_rect 50 50 (empty_node "http://www.w3.org/1999/xhtml" "div"))
            draggable_options "0.4fzyo82mvyr" 0 draggable_page
            100 100 130 140 [(ByMouse, mouse 500 7)] (mouse 130 140)
            H0 _ _ _ _ _ _ _).
  - vm_compute. reflexivity.
  - reflexivity.
  - vm_compute. reflexivity.
  - reflexivity.
  - reflexivity.
  - reflexivity.
  - reflexivity.
Defined.

Lemma unlisten_listeners o :
  unlisten o [("mousemove", OnMouseMove o); ("touchmove", OnMouseMove o);
              ("mouseup", OnMouseUp o); ("touchend", OnMouseUp o)] = [].
Proof.
  unfold unlisten, token_remove.
  repeat first [ rewrite filter_cons_False by (intros H; by apply H)
               | rewrite filter_cons_True by done
               | rewrite filter_nil ].
  done.
Qed.

Lemma ungrab_listeners o d :
  listeners d = [("mousedown", OnMouseDown o); ("touchstart", OnMouseDown o)] →
  listeners (ungrab o d) = [].
Proof.
  intros Hl. unfold ungrab, token_remove. cbn [set_listeners listeners].
  rewrite Hl.
  repeat first [ rewrite filter_cons_False by (intros H; by apply H)
               | rewrite filter_cons_True by done
               | rewrite filter_nil ].
  done.
Qed.

Lemma listeners_bare o x d :
  listeners (bare o x d) = if cleanup x then listeners (ungrab o d)
                           else listeners d.
Proof. unfold bare. by destruct (cleanup x). Qed.

(** X7.  For a draggable instance that is the only instance built on a
    fresh page (a page without listeners): [destroy()] ends its drag
    behaviour at any point of a gesture, a drag under way included.  It
    returns, its six listeners are gone, so that the element and the
    document have no listener left, and no event on the element or on
    the document changes the state afterwards.  With other draggable
    instances on the page their listeners stay: [cleanup] removes the
    closures of its own instance only. *)
Theorem destroy_stops_drag w0 el opts r o w1 (ps : list pointer_event) :
  fresh_page w0 → opt_draggable opts = Some true →
  constructor (Some el) (Some opts) r w0 = Ok o w1 →
  ∃ w2 d2,
    destroy o (run w1 (deliver el <$> ps)) = Ok tt w2
    ∧ lookup_node el w2 = Some d2
    ∧ listeners d2 = []
    ∧ doc_listeners w2 = []
    ∧ (∀ type e, fire_on_element el type e w2 = w2)
    ∧ (∀ type e, fire_on_document type e w2 = w2).
Proof.
  intros H0 Hdrag Hc.
  destruct (live_constructor w0 el opts r o w1 H0 Hdrag Hc) as [f Hl1].
  pose proof (live_run o el f w1 ps Hl1) as Hl.
  assert (Hw : invariant (run w1 (deliver el <$> ps))).
  { apply invariant_run.
    pose proof (safe_constructor (Some el) (Some opts) r w0
                  (fresh_page_invariant _ H0)) as Hs.
    by rewrite Hc in Hs. }
  set (w := run w1 (deliver el <$> ps)) in *.
  destruct Hl as [(d & s & (_ & Hd & Hls & Hdl)) (x & Hx & Hcl & Hf)].
  assert (Hel : element x = el).
  { destruct (live_run o el f w1 ps Hl1) as [(? & ? & (x' & Hx' & He & _) & _) _].
    fold w in Hx'. congruence. }
  destruct (destroy_Ok w o x f Hw Hx Hf) as (wm & Hdes & Hcase & _).
  destruct (unhook_frame w f wm (inv_nodup _ Hw) Hcase) as (Hlk & _ & _ & Edl).
  assert (Hd2 : lookup_node el (teardown o x wm) = Some (bare o x d)).
  { rewrite lookup_node_teardown, Hlk, Hd, Hel.
    cbn [fmap option_fmap option_map]. by rewrite decide_True. }
  assert (Hls2 : listeners (bare o x d) = []).
  { rewrite listeners_bare, Hcl. by apply ungrab_listeners. }
  assert (Hdl2 : doc_listeners (teardown o x wm) = []).
  { unfold teardown. rewrite Hcl. world_simpl. rewrite Edl, Hdl.
    apply unlisten_listeners. }
  exists (teardown o x wm), (bare o x d). split_and!; try done.
  - intros type e. unfold fire_on_element. by rewrite Hd2, Hls2.
  - intros type e. unfold fire_on_document. by rewrite Hdl2.
Qed.

Lemma destroy_stops_drag_witness :
  fresh_page example_page
  ∧ ∃ w2 d2,
      destroy 0 (run draggable_page
                   (deliver 1 <$> [Down ByMouse (mouse 100 100);
                                   Move ByMouse (mouse 130 140)]))
      = Ok tt w2
      ∧ lookup_node 1 w2 = Some d2
      ∧ listeners d2 = []
      ∧ doc_listeners w2 = []
      ∧ (∀ type e, fire_on_element 1 type e w2 = w2)
      ∧ (∀ type e, fire_on_document type e w2 = w2).
Proof.
  assert (H0 : fresh_page example_page).
  { apply (bool_decide_unpack _). vm_compute. exact I. }
  split; [exact H0|].
  refine (destroy_stops_drag example_page 1 draggable_options
            "0.4fzyo82mvyr" 0 draggable_page
            [Down ByMouse (mouse 100 100); Move ByMouse (mouse 130 140)]
            H0 _ _).
  - reflexivity.
  - vm_compute. reflexivity.
Defined.

(** ** A press where a coordinate is zero *)

(** Arithmetic on [NaN]. *)
Lemma sub_nan (a : JS.number) : (a - PrimFloat.nan)%float = PrimFloat.nan.
Proof.
  apply Prim2SF_inj. rewrite sub_spec.
  change (Prim2SF PrimFloat.nan) with S754_nan.
  by destruct (Prim2SF a) as [[]|[]| |[] ? ?].
Qed.

Lemma add_nan (a : JS.number) : (a + PrimFloat.nan)%float = PrimFloat.nan.
Proof.
  apply Prim2SF_inj. rewrite add_spec.
  change (Prim2SF PrimFloat.nan) with S754_nan.
  by destruct (Prim2SF a) as [[]|[]| |[] ? ?].
Qed.

(** X8.  [e.clientX || e.touches?.[0]?.clientX] takes a mouse position of
    zero for a missing one.  After a mouse press at [(px, py)] with [px]
    zero, [startX] is undefined, and every move of the drag assigns
    ["NaNpx"] to [left], wherever the pointer is; [top] follows the
    pointer as usual. *)
Theorem press_at_zero k' w0 el d0 opts r o w1 px py qx qy :
  fresh_page w0 → lookup_node el w0 = Some d0 →
  opt_draggable opts = Some true →
  constructor (Some el) (Some opts) r w0 = Ok o w1 →
  JS.truthy_number px = false →
  JS.truthy_number py = true → JS.truthy_number qy = true →
  let w3 := fire_on_document (move_type k') (pointer_at k' qx qy)
              (fire_on_element el "mousedown" (mouse px py) w1) in
  ∃ x d3,
    objects w3 !! o = Some x
    ∧ startX (drag x) = None
    ∧ startY (drag x) = Some py
    ∧ lookup_node el w3 = Some d3
    ∧ style d3 !! "left" = Some "NaNpx"
    ∧ style d3 !! "top"
      = Some (JS.to_string (rect_top d0 + (qy - py))%float +:+ "px").
Proof.
  intros H0 Hd0 Hdrag Hc Hpx Hpy Hqy w3.
  destruct (ready_constructor w0 el d0 opts r o w1 H0 Hd0 Hdrag Hc)
    as (d1 & Hr1 & Hl & Ht & _).
  pose proof (ready_press o el d1 _ w1 ByMouse (mouse px py) Hr1) as Hr2.
  pose proof (ready_move o el _ _ _ k' (pointer_at k' qx qy) Hr2 eq_refl)
    as Hr3.
  change (down_type ByMouse) with "mousedown" in Hr3. fold w3 in Hr3.
  destruct Hr3 as ((x & Hx & _ & Hs) & Hd3 & _).
  exists x. eexists. split; [exact Hx|]. rewrite Hs.
  unfold pressed. cbn [startX startY mouse clientX clientY pointer].
  rewrite Hpx, Hpy. cbn [first_touch touches].
  split; [done|]. split; [done|]. split; [exact Hd3|].
  unfold moved, pressed.
  cbn [set_style style compose initialX initialY startX startY
       mouse clientX clientY pointer].
  rewrite Hpx, Hpy. cbn [first_touch touches].
  rewrite pointer_at_Y by done. cbn [JS.to_number].
  rewrite sub_nan, add_nan, Ht. split.
  - rewrite declare_lookup_ne by done. by rewrite declare_lookup_eq.
  - by rewrite declare_lookup_eq by apply truthy_px.
Qed.

Lemma press_at_zero_witness :
  fresh_page example_page
  ∧ ∃ x d3,
      objects (fire_on_document "mousemove" (mouse 130 140)
                 (fire_on_element 1 "mousedown" (mouse 0 100) draggable_page))
        !! 0 = Some x
      ∧ startX (drag x) = None
      ∧ startY (drag x) = Some 100%float
      ∧ lookup_node 1
          (fire_on_document "mousemove" (mouse 130 140)
             (fire_on_element 1 "mousedown" (mouse 0 100) draggable_page))
        = Some d3
      ∧ style d3 !! "left" = Some "NaNpx"
      ∧ style d3 !! "top"
        = Some (JS.to_string (rect_top
                   (set_rect 50 50
                      (empty_node "http://www.w3.org/1999/xhtml" "div"))
                 + (140 - 100))%float +:+ "px").
Proof.
  assert (H0 : fresh_page example_page).
  { apply (bool_decide_unpack _). vm_compute. exact I. }
  split; [exact H0|].
  refine (press_at_zero ByMouse example_page 1
            (set_rect 50 50 (empty_node "http://www.w3.org/1999/xhtml" "div"))
            draggable_options "0.4fzyo82mvyr" 0 draggable_page
            0 100 130 140 H0 _ _ _ _ _ _).
  - vm_compute. reflexivity.
  - reflexivity.
  - vm_compute. reflexivity.
  - reflexivity.
  - reflexivity.
  - reflexivity.
Defined.

(** ** The option [tintOpacity] at construction *)

(** Two constructions that differ in options the filter does not read
    build the same tree. *)
Lemma constructor_frame w el opts opts2 r o w1 :
  invariant w → constructor (Some el) opts r w = Ok o w1 →
  (∀ f, filter_tree (initial_instance el opts2 r) f
        = filter_tree (initial_instance el opts r) f) →
  ∃ f doc' nx',
    w1 = settle o (set_svgFilter f (initial_instance el opts r))
           (World doc' (modify el addclass (detached w)) (body w) nx'
              (doc_listeners w)
              (<[o := set_svgFilter f (initial_instance el opts r)]>
                 (objects w))
              (S (next_obj w)))
    ∧ constructor (Some el) opts2 r w
      = Ok o (settle o (set_svgFilter f (initial_instance el opts2 r))
                (World doc' (modify el addclass (detached w)) (body w) nx'
                   (doc_listeners w)
                   (<[o := set_svgFilter f (initial_instance el opts2 r)]>
                      (objects w))
                   (S (next_obj w)))).
Proof.
  intros Hw Hc Ht.
  destruct (decide (el ∈ all_ids w)) as [Hel|Hel].
  2:{ destruct (constructor_absent w el opts r Hel) as [w' E]. congruence. }
  destruct (find_node (has_attribute "id" "liquid-glass-svg-filters")
              (document w)) as [[c dc]|] eqn:Hfind.
  - destruct (attach_is_Some c (next_id w)
                (filter_node (initial_instance el opts r))
                (filter_tree (initial_instance el opts r) (next_id w))
                (modify el addclass (document w))) as [doc' Ha].
    { rewrite ids_modify. apply find_node_elem in Hfind as [Hin _].
      apply list_elem_of_fmap. by exists (c, dc). }
    rewrite (constructor_found w el opts r c dc doc' Hw Hel Hfind Ha) in Hc.
    injection Hc as <- <-.
    exists (next_id w), doc', (4 + next_id w). split; [done|].
    apply (constructor_found w el opts2 r c dc doc' Hw Hel Hfind).
    by rewrite Ht.
  - destruct (decide (body w ∈ ids (document w))) as [Hb|Hb].
    2:{ destruct (constructor_nobody w el opts r Hw Hel Hfind Hb) as [w' E].
        congruence. }
    destruct (attach_is_Some (body w) (next_id w) svg_node FNil
                (modify el addclass (document w))) as [doc1 Ha1].
    { by rewrite ids_modify. }
    destruct (attach_is_Some (next_id w) (S (next_id w))
                (filter_node (initial_instance el opts r))
                (filter_tree (initial_instance el opts r) (S (next_id w)))
                doc1) as [doc2 Ha2].
    { apply attach_perm in Ha1. unfold ids. rewrite Ha1. left. }
    rewrite (constructor_created w el opts r doc1 doc2 Hw Hel Hfind Ha1 Ha2)
      in Hc.
    injection Hc as <- <-.
    exists (S (next_id w)), doc2, (5 + next_id w). split; [done|].
    apply (constructor_created w el opts2 r doc1 doc2 Hw Hel Hfind Ha1).
    by rewrite Ht.
Qed.

(** [{...options, tintOpacity: a}] *)
Definition with_tintOpacity (a : option JS.number) (o : LiquidGlassOptions)
    : LiquidGlassOptions :=
  Build_LiquidGlassOptions
    (opt_shadowOffset o) (opt_shadowBlur o) (opt_shadowSpread o)
    (opt_shadowColor o) (opt_tintColor o) a (opt_frostBlur o)
    (opt_noiseFrequency o) (opt_distortionStrength o)
    (opt_outerShadowBlur o) (opt_outerShadowColor o) (opt_borderRadius o)
    (opt_draggable o).

(** X9.  The constructor stores [tintOpacity] and does nothing else with
    it: whatever value the option has, the construction builds the same
    document, the same detached nodes and the same listeners, and the new
    object differs in [options.tintOpacity] only. *)
Theorem constructor_ignores_tintOpacity w0 acts el opts a r o w1 :
  fresh_page w0 →
  constructor (Some el) opts r (run w0 acts) = Ok o w1 →
  ∃ w2 x1,
    constructor (Some el)
      (Some (with_tintOpacity a (default no_options opts))) r (run w0 acts)
    = Ok o w2
    ∧ document w2 = document w1
    ∧ detached w2 = detached w1
    ∧ doc_listeners w2 = doc_listeners w1
    ∧ objects w1 !! o = Some x1
    ∧ objects w2
      = <[o := set_options (set_tintOpacity (or_number a 0.4)) x1]>
          (objects w1).
Proof.
  intros H0 Hc.
  pose proof (session_invariant w0 acts H0) as Hw.
  set (w := run w0 acts) in *.
  set (opts2 := Some (with_tintOpacity a (default no_options opts))).
  destruct (constructor_frame w el opts opts2 r o w1 Hw Hc)
    as (f & doc' & nx' & -> & Hc2); [done|].
  set (x1 := set_svgFilter f (initial_instance el opts r)).
  set (x2 := set_svgFilter f (initial_instance el opts2 r)).
  assert (Hx : x2 = set_options (set_tintOpacity (or_number a 0.4)) x1)
    by done.
  eexists _, (if draggable (options x1) then armed x1 else x1).
  split; [exact Hc2|]. fold x1 x2.
  rewrite !document_settle, !detached_settle, !doc_listeners_settle,
    !objects_settle.
  change (settled o x2) with (settled o x1).
  change (element x2) with (element x1).
  change (draggable (options x2)) with (draggable (options x1)).
  split_and!; try done.
  - cbn [objects]. destruct (draggable (options x1)).
    + by rewrite lookup_alter_eq, lookup_insert_eq.
    + by rewrite lookup_insert_eq.
  - cbn [objects]. rewrite Hx. destruct (draggable (options x1)).
    + apply map_eq. intros i. destruct (decide (i = o)) as [->|Hne].
      * by rewrite lookup_insert_eq, lookup_alter_eq, lookup_insert_eq.
      * by rewrite lookup_insert_ne, !lookup_alter_ne, !lookup_insert_ne.
    + by rewrite insert_insert_eq.
Qed.

Lemma constructor_ignores_tintOpacity_witness :
  fresh_page example_page
  ∧ ∃ w2 x1,
      constructor (Some 1)
        (Some (with_tintOpacity (Some 0.9%float)
                 (default no_options (Some draggable_options))))
        "0.4fzyo82mvyr" (run example_page [])
      = Ok 0 w2
      ∧ document w2 = document draggable_page
      ∧ detached w2 = detached draggable_page
      ∧ doc_listeners w2 = doc_listeners draggable_page
      ∧ objects draggable_page !! 0 = Some x1
      ∧ objects w2
        = <[0 := set_options (set_tintOpacity (or_number (Some 0.9%float) 0.4))
                   x1]>
            (objects draggable_page).
Proof.
  assert (H0 : fresh_page example_page).
  { apply (bool_decide_unpack _). vm_compute. exact I. }
  split; [exact H0|].
  refine (constructor_ignores_tintOpacity example_page [] 1
            (Some draggable_options) (Some 0.9%float) "0.4fzyo82mvyr" 0
            draggable_page H0 _).
  vm_compute. reflexivity.
Defined.

(** ** The colours [updateTint] can rewrite *)

Fixpoint every (cls : ascii → bool) (s : string) : bool :=
  match s with
  | EmptyString => true
  | String c s' => cls c && every cls s'
  end.

(** [s] does not begin with a character of the class. *)
Definition not_led_by (cls : ascii → bool) (s : string) : bool :=
  match s with
  | EmptyString => true
  | String c _ => negb (cls c)
  end.

Lemma append_nil s : "" +:+ s = s.
Proof. done. Qed.

Lemma append_cons c a b : String c a +:+ b = String c (a +:+ b).
Proof. done. Qed.

Lemma star_all {R} cls ds rest (k : string → option R) v :
  every cls ds = true → not_led_by cls rest = true → k rest = Some v →
  JS.star cls (ds +:+ rest) k = Some v.
Proof.
  intros Hds Hrest Hk. induction ds as [|c ds IH].
  - rewrite append_nil. destruct rest as [|c rest]; [done|]. cbn [JS.star].
    cbn in Hrest. apply negb_true_iff in Hrest. by rewrite Hrest.
  - cbn [every] in Hds. apply andb_true_iff in Hds as [Hc Hds].
    rewrite append_cons. cbn [JS.star]. by rewrite Hc, IH.
Qed.

Lemma length_append a b :
  String.length (a +:+ b) = String.length a + String.length b.
Proof.
  induction a as [|c a IH]; [done|].
  rewrite append_cons. cbn [String.length]. by rewrite IH.
Qed.

Lemma consumed_app a b : JS.consumed (a +:+ b) b = a.
Proof.
  unfold JS.consumed. rewrite length_append.
  replace (String.length a + String.length b - String.length b)
    with (String.length a) by lia.
  induction a as [|c a IH].
  - rewrite append_nil. by destruct b.
  - rewrite append_cons. cbn [String.length substring]. by rewrite IH.
Qed.

Lemma rmatch_group_plus {R} cls ds rest caps
    (k : string → list string → option R) v :
  ds ≠ "" → every cls ds = true → not_led_by cls rest = true →
  k rest (caps ++ [ds]) = Some v →
  JS.rmatch (JS.Group (JS.Plus cls)) (ds +:+ rest) caps k = Some v.
Proof.
  intros Hne Hds Hrest Hk. destruct ds as [|c ds]; [done|].
  cbn [every] in Hds. apply andb_true_iff in Hds as [Hc Hds].
  rewrite append_cons. cbn [JS.rmatch]. rewrite Hc.
  apply star_all; [done..|].
  by rewrite <- append_cons, (consumed_app (String c ds) rest).
Qed.

Lemma rmatch_star {R} cls sp rest caps
    (k : string → list string → option R) v :
  every cls sp = true → not_led_by cls rest = true →
  k rest caps = Some v →
  JS.rmatch (JS.Star cls) (sp +:+ rest) caps k = Some v.
Proof. intros. cbn [JS.rmatch]. by apply star_all. Qed.

Lemma digit_not_space c : JS.digit c = true → JS.space c = false.
Proof. by destruct c as [[] [] [] [] [] [] [] []]. Qed.

Lemma digits_not_led_by_space ds rest :
  ds ≠ "" → every JS.digit ds = true →
  not_led_by JS.space (ds +:+ rest) = true.
Proof.
  intros Hne Hds. destruct ds as [|c ds]; [done|].
  cbn [every] in Hds. apply andb_true_iff in Hds as [Hc _].
  rewrite append_cons. cbn. by rewrite digit_not_space.
Qed.

Lemma exec_unfold r s :
  JS.exec r s
  = match JS.rmatch r s [] (λ _ caps, Some caps) with
    | Some caps => Some caps
    | None => match s with
              | String _ s' => JS.exec r s'
              | EmptyString => None
              end
    end.
Proof. by destruct s. Qed.

Lemma rmatch_seq {R} r1 r2 s caps (k : string → list string → option R) :
  JS.rmatch (JS.Seq r1 r2) s caps k
  = JS.rmatch r1 s caps (λ s' caps', JS.rmatch r2 s' caps' k).
Proof. done. Qed.

Lemma rmatch_chr {R} c s caps (k : string → list string → option R) :
  JS.rmatch (JS.Chr c) (String c s) caps k = k s caps.
Proof. cbn [JS.rmatch]. by rewrite Ascii.eqb_refl. Qed.

Lemma rmatch_chr_other {R} c c' s caps
    (k : string → list string → option R) :
  c ≠ c' → JS.rmatch (JS.Chr c) (String c' s) caps k = None.
Proof.
  intros Hne. cbn [JS.rmatch].
  destruct (Ascii.eqb c c') eqn:E; [|done]. by apply Ascii.eqb_eq in E.
Qed.

Lemma rmatch_opt {R} r s caps (k : string → list string → option R) :
  JS.rmatch (JS.Opt r) s caps k
  = match JS.rmatch r s caps k with
    | Some x => Some x
    | None => k s caps
    end.
Proof. done. Qed.

(** The expression matches [rgb(R, G, B] and [rgba(R, G, B] for decimal
    numerals [R], [G], [B], with any white space after the commas, and
    captures the three numerals. *)
Lemma tint_regex_match (alpha R G B sp1 sp2 rest : string) :
  alpha = "" ∨ alpha = "a" →
  R ≠ "" → every JS.digit R = true →
  G ≠ "" → every JS.digit G = true →
  B ≠ "" → every JS.digit B = true →
  every JS.space sp1 = true → every JS.space sp2 = true →
  not_led_by JS.digit rest = true →
  JS.exec tint_regex
    ("rgb" +:+ alpha +:+ "(" +:+ R +:+ "," +:+ sp1 +:+ G +:+ ","
       +:+ sp2 +:+ B +:+ rest)
  = Some [R; G; B].
Proof.
  intros Ha HR HRd HG HGd HB HBd Hs1 Hs2 Hrest.
  rewrite exec_unfold.
  assert (Htail :
    JS.rmatch
      (JS.Seq (JS.Chr "(")
      (JS.Seq (JS.Group (JS.Plus JS.digit))
      (JS.Seq (JS.Chr ",")
      (JS.Seq (JS.Star JS.space)
      (JS.Seq (JS.Group (JS.Plus JS.digit))
      (JS.Seq (JS.Chr ",")
      (JS.Seq (JS.Star JS.space)
              (JS.Group (JS.Plus JS.digit)))))))))
      (String "("
         (R +:+ String "," (sp1 +:+ G +:+ String "," (sp2 +:+ B +:+ rest))))
      [] (λ _ caps', Some caps')
    = Some [R; G; B]).
  { rewrite rmatch_seq, rmatch_chr, rmatch_seq.
    apply rmatch_group_plus; [done..|].
    rewrite rmatch_seq, rmatch_chr, rmatch_seq.
    apply rmatch_star; [done|by apply digits_not_led_by_space|].
    rewrite rmatch_seq.
    apply rmatch_group_plus; [done..|].
    rewrite rmatch_seq, rmatch_chr, rmatch_seq.
    apply rmatch_star; [done|by apply digits_not_led_by_space|].
    by apply rmatch_group_plus. }
  unfold tint_regex. cbn [JS.lit].
  destruct Ha as [-> | ->]; rewrite !append_cons, !append_nil;
    rewrite rmatch_seq, rmatch_chr, rmatch_seq, rmatch_chr, rmatch_seq,
      rmatch_chr, rmatch_seq, rmatch_opt.
  - rewrite rmatch_chr_other by done. by rewrite Htail.
  - rewrite rmatch_chr. by rewrite Htail.
Qed.

(** A colour without the letter [r] has no match. *)
Lemma tint_regex_without_r s :
  every (λ c, negb (Ascii.eqb c "r")) s = true → JS.exec tint_regex s = None.
Proof.
  intros Hs. unfold tint_regex. cbn [JS.lit].
  induction s as [|c s IH]; [done|].
  cbn [every] in Hs. apply andb_true_iff in Hs as [Hc Hs].
  rewrite exec_unfold, rmatch_seq, rmatch_chr_other, IH; [done..|].
  intros <-. by rewrite Ascii.eqb_refl in Hc.
Qed.

Lemma updateTint_Ok w o x p :
  objects w !! o = Some x → element x ∈ all_ids w →
  ∃ w' d,
    updateTint o p w = Ok tt w'
    ∧ lookup_node (element x) w = Some d
    ∧ lookup_node (element x) w'
      = Some (set_style (declared (Tint p) (options x)) d)
    ∧ objects w' !! o = Some (set_options (assigned (Tint p)) x).
Proof.
  intros Ho Hel.
  assert (Hu : ∀ q, Tint p ≠ Distortion q) by done.
  pose proof (writes_call o (Tint p) Hu w x Ho Hel) as Hc. cbn [call] in Hc.
  apply lookup_node_is_Some in Hel as Hd. destruct Hd as [d Hd].
  eexists _, d. split; [exact Hc|]. split; [done|]. split.
  - world_simpl. rewrite Hd. cbn [fmap option_fmap option_map].
    by rewrite decide_True.
  - world_simpl. by rewrite Ho.
Qed.

(** X10.  [updateTint({color, opacity})], with or without [color]: when
    the tint colour the call leaves in [options] reads [rgb(R, G, B...]
    or [rgba(R, G, B...], with decimal numerals and any white space after
    the commas, [--tint-color] becomes ["rgba(R, G, B, opacity)"]; what
    followed the third numeral, the former alpha included, is dropped.
    [options.tintColor] is not rewritten. *)
Theorem updateTint_rewrites_alpha w0 acts o x color a
    (alpha R G B sp1 sp2 rest : string) :
  fresh_page w0 →
  objects (run w0 acts) !! o = Some x → is_Some (svgFilter x) →
  alpha = "" ∨ alpha = "a" →
  R ≠ "" → every JS.digit R = true →
  G ≠ "" → every JS.digit G = true →
  B ≠ "" → every JS.digit B = true →
  every JS.space sp1 = true → every JS.space sp2 = true →
  not_led_by JS.digit rest = true →
  default (tintColor (options x)) color
  = "rgb" +:+ alpha +:+ "(" +:+ R +:+ "," +:+ sp1 +:+ G +:+ ","
      +:+ sp2 +:+ B +:+ rest →
  ∃ w' d x',
    updateTint o {| tp_color := color; tp_opacity := Some a |} (run w0 acts)
    = Ok tt w'
    ∧ lookup_node (element x) w' = Some d
    ∧ style d !! "--tint-color"
      = Some ("rgba(" +:+ R +:+ ", " +:+ G +:+ ", " +:+ B +:+ ", "
                +:+ JS.to_string a +:+ ")")
    ∧ objects w' !! o = Some x'
    ∧ tintColor (options x') = default (tintColor (options x)) color
    ∧ tintOpacity (options x') = a.
Proof.
  intros H0 Ho Hf Ha HR HRd HG HGd HB HBd Hs1 Hs2 Hrest Hcol.
  pose proof (session_invariant w0 acts H0) as Hw.
  pose proof (inv_element _ Hw o x Ho Hf) as Hel.
  destruct (updateTint_Ok _ o x {| tp_color := color; tp_opacity := Some a |}
              Ho Hel) as (w' & d & Hu & Hd & Hd' & Ho').
  eexists w', _, _. split; [exact Hu|]. split; [exact Hd'|].
  assert (Hc : tintColor (assign_opt set_tintColor color (options x))
               = default (tintColor (options x)) color) by by destruct color.
  split; [|split; [exact Ho'|split; [exact Hc|done]]].
  cbn [set_style style declared tp_color tp_opacity retint].
  rewrite Hc, Hcol, tint_regex_match by done.
  by rewrite declare_lookup_eq.
Qed.

Lemma updateTint_rewrites_alpha_witness :
  fresh_page example_page
  ∧ ∃ x, objects (run example_page example_session) !! 0 = Some x
      ∧ is_Some (svgFilter x)
      ∧ default (tintColor (options x)) None = "rgba(255, 255, 255, 0.4)"
      ∧ ∃ w' d x',
          updateTint 0 {| tp_color := None; tp_opacity := Some 0.9%float |}
            (run example_page example_session)
          = Ok tt w'
          ∧ lookup_node (element x) w' = Some d
          ∧ style d !! "--tint-color"
            = Some ("rgba(" +:+ "255" +:+ ", " +:+ "255" +:+ ", " +:+ "255"
                      +:+ ", " +:+ JS.to_string 0.9 +:+ ")")
          ∧ objects w' !! 0 = Some x'
          ∧ tintColor (options x') = default (tintColor (options x)) None
          ∧ tintOpacity (options x') = 0.9%float.
Proof.
  assert (H0 : fresh_page example_page).
  { apply (bool_decide_unpack _). vm_compute. exact I. }
  split; [exact H0|].
  eexists. split; [vm_compute; reflexivity|]. split; [by eexists|].
  split; [reflexivity|].
  refine (updateTint_rewrites_alpha example_page example_session 0 _ None
            0.9%float "a" "255" "255" "255" " " " " ", 0.4)"
            H0 _ _ (or_intror eq_refl) _ _ _ _ _ _ _ _ _ _).
  - vm_compute. reflexivity.
  - by eexists.
  - apply (bool_decide_unpack _). vm_compute. exact I.
  - reflexivity.
  - apply (bool_decide_unpack _). vm_compute. exact I.
  - reflexivity.
  - apply (bool_decide_unpack _). vm_compute. exact I.
  - reflexivity.
  - reflexivity.
  - reflexivity.
  - reflexivity.
  - reflexivity.
Defined.

Lemma set_style_ext f g d :
  (∀ st, f st = g st) → set_style f d = set_style g d.
Proof. intros E. unfold set_style. by rewrite E. Qed.

(** X11.  When the tint colour the call leaves in [options] has no letter
    [r] (hexadecimal notation, [hsl(...)], names such as [white]),
    [updateTint({color, opacity})] stores the opacity and does to the
    page what [updateTint({color})] does: the opacity reaches no
    declaration. *)
Theorem updateTint_opacity_unused w0 acts o x color a :
  fresh_page w0 →
  objects (run w0 acts) !! o = Some x → is_Some (svgFilter x) →
  every (λ c, negb (Ascii.eqb c "r"))
        (default (tintColor (options x)) color) = true →
  ∃ w' w1 x',
    updateTint o {| tp_color := color; tp_opacity := Some a |} (run w0 acts)
    = Ok tt w'
    ∧ updateTint o {| tp_color := color; tp_opacity := None |} (run w0 acts)
      = Ok tt w1
    ∧ (∀ n, lookup_node n w' = lookup_node n w1)
    ∧ doc_listeners w' = doc_listeners w1
    ∧ objects w' !! o = Some x'
    ∧ tintOpacity (options x') = a
    ∧ tintColor (options x') = default (tintColor (options x)) color.
Proof.
  intros H0 Ho Hf Hcol.
  pose proof (session_invariant w0 acts H0) as Hw.
  pose proof (inv_element _ Hw o x Ho Hf) as Hel.
  assert (Hu : ∀ p q, Tint p ≠ Distortion q) by done.
  pose proof (writes_call o _ (Hu {| tp_color := color; tp_opacity := Some a |})
                _ x Ho Hel) as Hc1.
  pose proof (writes_call o _ (Hu {| tp_color := color; tp_opacity := None |})
                _ x Ho Hel) as Hc2.
  cbn [call] in Hc1, Hc2.
  assert (Hc : tintColor (assign_opt set_tintColor color (options x))
               = default (tintColor (options x)) color) by by destruct color.
  eexists _, _, _. split; [exact Hc1|]. split; [exact Hc2|].
  split_and!.
  - intros n. world_simpl. destruct (lookup_node n (run w0 acts)); [|done].
    cbn [fmap option_fmap option_map]. destruct (decide _); [|done].
    f_equal. apply set_style_ext. intros st.
    cbn [declared tp_color tp_opacity retint].
    by rewrite Hc, tint_regex_without_r.
  - done.
  - world_simpl. by rewrite Ho.
  - done.
  - exact Hc.
Qed.

Lemma updateTint_opacity_unused_witness :
  fresh_page example_page
  ∧ ∃ x, objects (run example_page example_session) !! 0 = Some x
      ∧ is_Some (svgFilter x)
      ∧ ∃ w' w1 x',
          updateTint 0 {| tp_color := Some "#336699";
                          tp_opacity := Some 0.9%float |}
            (run example_page example_session)
          = Ok tt w'
          ∧ updateTint 0 {| tp_color := Some "#336699"; tp_opacity := None |}
              (run example_page example_session)
            = Ok tt w1
          ∧ (∀ n, lookup_node n w' = lookup_node n w1)
          ∧ doc_listeners w' = doc_listeners w1
          ∧ objects w' !! 0 = Some x'
          ∧ tintOpacity (options x') = 0.9%float
          ∧ tintColor (options x')
            = default (tintColor (options x)) (Some "#336699").
Proof.
  assert (H0 : fresh_page example_page).
  { apply (bool_decide_unpack _). vm_compute. exact I. }
  split; [exact H0|].
  eexists. split; [vm_compute; reflexivity|]. split; [by eexists|].
  refine (updateTint_opacity_unused example_page example_session 0 _
            (Some "#336699") 0.9%float H0 _ _ _).
  - vm_compute. reflexivity.
  - by eexists.
  - reflexivity.
Defined.

(** ** What an update leaves alone *)

(** The style variables a method writes. *)
Definition variables (u : update) : list string :=
  match u with
  | Shadow _ =>
      ["--shadow-blur"; "--shadow-spread"; "--shadow-color"; "--shadow-offset"]
  | Tint _ => ["--tint-color"]
  | Frost _ => ["--frost-blur"]
  | Distortion _ => []
  | OuterShadow _ => ["--outer-shadow-blur"; "--outer-shadow-color"]
  end.

Lemma declare_opt_frame prop v st p :
  p ≠ prop → declare_opt prop v st !! p = st !! p.
Proof.
  intros Hne. destruct v as [a|]; [|done]. cbn [declare_opt].
  by rewrite declare_lookup_ne.
Qed.

Lemma declared_frame u c st p :
  p ∉ variables u → declared u c st !! p = st !! p.
Proof.
  destruct u as [q|q|blur|q|q]; cbn [variables declared];
    rewrite ?not_elem_of_cons; intros Hp.
  - rewrite !declare_opt_frame; [done|intuition..].
  - unfold retint. destruct (tp_opacity q) as [a|].
    + destruct (JS.exec _ _).
      * rewrite declare_lookup_ne by intuition.
        rewrite declare_opt_frame; [done|intuition].
      * rewrite declare_opt_frame; [done|intuition].
    + rewrite declare_opt_frame; [done|intuition].
  - rewrite declare_lookup_ne; [done|intuition].
  - done.
  - rewrite !declare_opt_frame; [done|intuition..].
Qed.

(** The state after a call of an update method. *)
Lemma call_world w o x f u :
  invariant w → objects w !! o = Some x → svgFilter x = Some f →
  ∃ w' t s,
    call o u w = Ok tt w'
    ∧ objects w' = alter (set_options (assigned u)) o (objects w)
    ∧ doc_listeners w' = doc_listeners w
    ∧ stages_of f w t s
    ∧ ∀ n, lookup_node n w' = node_effect u x t s n <$> lookup_node n w.
Proof.
  intros Hw Ho Hf.
  assert (Hel : element x ∈ all_ids w).
  { apply (inv_element _ Hw o x Ho). by rewrite Hf. }
  destruct (stages_of_session w o x f Hw Ho Hf) as (t & s & Hst).
  destruct (call_effect w o x f u t s Ho Hf Hel Hst) as (w' & Hc & Hob & Hn).
  exists w', t, s. split; [done|]. split; [done|].
  assert (Hdl : doc_listeners w' = doc_listeners w).
  { destruct u as [q|q|blur|q|q].
    5:{ assert (Hu : ∀ p, OuterShadow q ≠ Distortion p) by done.
        rewrite (writes_call o _ Hu w x Ho Hel) in Hc.
        injection Hc as <-. by world_simpl. }
    4:{ cbn [call] in Hc.
        rewrite (updateDistortion_Ok w o x f q t s Ho Hf Hst) in Hc.
        injection Hc as <-. unfold patch_opt.
        by destruct (dp_strength q), (dp_frequency q). }
    - assert (Hu : ∀ p, Shadow q ≠ Distortion p) by done.
      rewrite (writes_call o _ Hu w x Ho Hel) in Hc.
      injection Hc as <-. by world_simpl.
    - assert (Hu : ∀ p, Tint q ≠ Distortion p) by done.
      rewrite (writes_call o _ Hu w x Ho Hel) in Hc.
      injection Hc as <-. by world_simpl.
    - assert (Hu : ∀ p, Frost blur ≠ Distortion p) by done.
      rewrite (writes_call o _ Hu w x Ho Hel) in Hc.
      injection Hc as <-. by world_simpl. }
  done.
Qed.

Lemma node_effect_frame u x t s n dn :
  let dn' := node_effect u x t s n dn in
  tagName dn' = tagName dn
  ∧ classList dn' = classList dn
  ∧ listeners dn' = listeners dn
  ∧ rect_left dn' = rect_left dn ∧ rect_top dn' = rect_top dn
  ∧ (∀ p, p ∉ variables u → style dn' !! p = style dn !! p)
  ∧ (n ≠ element x → style dn' = style dn)
  ∧ (n ≠ t → n ≠ s → attributes dn' = attributes dn)
  ∧ (∀ k, k ≠ "baseFrequency" → k ≠ "scale" →
          attributes dn' !! k = attributes dn !! k).
Proof.
  assert (Hplain : ∀ u', (∀ q, u' ≠ Distortion q) →
    node_effect u' x t s n dn
    = (if decide (n = element x)
       then set_style (declared u' (options x)) dn else dn) →
    let dn' := node_effect u' x t s n dn in
    tagName dn' = tagName dn
    ∧ classList dn' = classList dn
    ∧ listeners dn' = listeners dn
    ∧ rect_left dn' = rect_left dn ∧ rect_top dn' = rect_top dn
    ∧ (∀ p, p ∉ variables u' → style dn' !! p = style dn !! p)
    ∧ (n ≠ element x → style dn' = style dn)
    ∧ (n ≠ t → n ≠ s → attributes dn' = attributes dn)
    ∧ (∀ k, k ≠ "baseFrequency" → k ≠ "scale" →
            attributes dn' !! k = attributes dn !! k)).
  { intros u' _ E. cbv zeta. rewrite E.
    destruct (decide (n = element x)) as [->|Hne]; [|done].
    split_and!; try done.
    intros p Hp. cbn [set_style style]. by apply declared_frame. }
  destruct u as [q|q|blur|q|q]; try (by apply Hplain).
  cbv zeta. cbn [node_effect variables]. unfold stage_patch.
  destruct (dp_strength q) as [a|], (dp_frequency q) as [b|];
    repeat (destruct (decide _) as [->|?]); split_and!; try done;
    intros k Hk1 Hk2; cbn [set_attributes attributes];
    by rewrite ?lookup_insert_ne.
Qed.

(** X12.  In any session on a fresh page, a call of an update method on
    an instance returns and stays within its own remit: other objects,
    the listeners, the class lists and the rectangles are as before; the
    object keeps its element, its filter, its identifier and the options
    [borderRadius] and [draggable]; only the element's declarations
    change, and among them only the variables of the method; only the
    attributes [baseFrequency] and [scale] of the two stages [t] and [s]
    of the filter change. *)
Theorem update_frame w0 acts o x f u :
  fresh_page w0 →
  objects (run w0 acts) !! o = Some x → svgFilter x = Some f →
  ∃ w' x' t s,
    call o u (run w0 acts) = Ok tt w'
    ∧ stages_of f (run w0 acts) t s
    ∧ doc_listeners w' = doc_listeners (run w0 acts)
    ∧ (∀ o', o' ≠ o → objects w' !! o' = objects (run w0 acts) !! o')
    ∧ objects w' !! o = Some x'
    ∧ element x' = element x ∧ svgFilter x' = svgFilter x
    ∧ svgFilterId x' = svgFilterId x
    ∧ cleanup x' = cleanup x ∧ drag x' = drag x
    ∧ borderRadius (options x') = borderRadius (options x)
    ∧ draggable (options x') = draggable (options x)
    ∧ ∀ n dn, lookup_node n (run w0 acts) = Some dn →
        ∃ dn',
          lookup_node n w' = Some dn'
          ∧ tagName dn' = tagName dn
          ∧ classList dn' = classList dn
          ∧ listeners dn' = listeners dn
          ∧ rect_left dn' = rect_left dn ∧ rect_top dn' = rect_top dn
          ∧ (∀ p, p ∉ variables u → style dn' !! p = style dn !! p)
          ∧ (n ≠ element x → style dn' = style dn)
          ∧ (n ≠ t → n ≠ s → attributes dn' = attributes dn)
          ∧ (∀ k, k ≠ "baseFrequency" → k ≠ "scale" →
                  attributes dn' !! k = attributes dn !! k).
Proof.
  intros H0 Ho Hf.
  pose proof (session_invariant w0 acts H0) as Hw.
  destruct (call_world _ o x f u Hw Ho Hf)
    as (w' & t & s & Hc & Hob & Hdl & Hst & Hn).
  exists w', (set_options (assigned u) x), t, s.
  split; [done|]. split; [done|]. split; [done|]. split.
  { intros o' Hne. by rewrite Hob, lookup_alter_ne. }
  split.
  { by rewrite Hob, lookup_alter_eq, Ho. }
  split_and!; try done.
  - destruct u as [q|q|blur|q|q]; cbn [assigned set_options options];
      unfold assign_opt;
      repeat match goal with |- context [match ?v with _ => _ end] =>
               destruct v end; done.
  - destruct u as [q|q|blur|q|q]; cbn [assigned set_options options];
      unfold assign_opt;
      repeat match goal with |- context [match ?v with _ => _ end] =>
               destruct v end; done.
  - intros n dn Hdn. exists (node_effect u x t s n dn).
    split; [by rewrite Hn, Hdn|]. apply node_effect_frame.
Qed.

Lemma update_frame_witness :
  fresh_page example_page
  ∧ ∃ x, objects (run example_page example_session) !! 0 = Some x
      ∧ svgFilter x = Some 3
      ∧ ∃ w' x',
          call 0 (Frost "5px") (run example_page example_session) = Ok tt w'
          ∧ doc_listeners w' = doc_listeners (run example_page example_session)
          ∧ objects w' !! 0 = Some x'
          ∧ borderRadius (options x') = borderRadius (options x)
          ∧ ∀ n dn, lookup_node n (run example_page example_session) = Some dn →
              ∃ dn',
                lookup_node n w' = Some dn'
                ∧ classList dn' = classList dn
                ∧ ∀ p, p ∉ variables (Frost "5px") →
                       style dn' !! p = style dn !! p.
Proof.
  assert (H0 : fresh_page example_page).
  { apply (bool_decide_unpack _). vm_compute. exact I. }
  split; [exact H0|].
  eexists. split; [vm_compute; reflexivity|].
  match goal with |- svgFilter ?x = _ ∧ _ =>
    assert (Ho : objects (run example_page example_session) !! 0 = Some x)
      by (vm_compute; reflexivity)
  end.
  split; [reflexivity|].
  destruct (update_frame example_page example_session 0 _ 3 (Frost "5px") H0
              Ho eq_refl)
    as (w' & x' & t & s & Hc & _ & Hdl & _ & Ho' & _ & _ & _ & _ & _ & Hb & _
        & Hn).
  exists w', x'. split; [exact Hc|]. split; [exact Hdl|].
  split; [exact Ho'|]. split; [exact Hb|].
  intros n dn Hdn.
  destruct (Hn n dn Hdn) as (dn' & H1 & _ & H2 & _ & _ & _ & H3 & _).
  exists dn'. split; [exact H1|]. split; [exact H2|exact H3].
Defined.

(** ** Calls with several fields *)

(** The fields of the argument of a call, one call each, in the order
    the method looks at them. *)
Definition by_fields (u : update) : list update :=
  match u with
  | Shadow p =>
      [ Shadow {| sp_blur := sp_blur p; sp_spread := None;
                  sp_color := None; sp_offset := None |};
        Shadow {| sp_blur := None; sp_spread := sp_spread p;
                  sp_color := None; sp_offset := None |};
        Shadow {| sp_blur := None; sp_spread := None;
                  sp_color := sp_color p; sp_offset := None |};
        Shadow {| sp_blur := None; sp_spread := None;
                  sp_color := None; sp_offset := sp_offset p |} ]
  | Tint p =>
      [ Tint {| tp_color := tp_color p; tp_opacity := None |};
        Tint {| tp_color := None; tp_opacity := tp_opacity p |} ]
  | Frost blur => [Frost blur]
  | Distortion p =>
      [ Distortion {| dp_frequency := dp_frequency p; dp_strength := None |};
        Distortion {| dp_frequency := None; dp_strength := dp_strength p |} ]
  | OuterShadow p =>
      [ OuterShadow {| op_blur := op_blur p; op_color := None |};
        OuterShadow {| op_blur := None; op_color := op_color p |} ]
  end.

Lemma four_fields (A B C D : M unit) w :
  ((A ;;; ret tt ;;; ret tt ;;; ret tt) ;;;
   (ret tt ;;; B ;;; ret tt ;;; ret tt) ;;;
   (ret tt ;;; ret tt ;;; C ;;; ret tt) ;;;
   (ret tt ;;; ret tt ;;; ret tt ;;; D) ;;; ret tt) w
  = (A ;;; B ;;; C ;;; D) w.
Proof.
  unfold bind, ret.
  destruct (A w) as [[] w1|]; [|done]. destruct (B w1) as [[] w2|]; [|done].
  destruct (C w2) as [[] w3|]; [|done]. by destruct (D w3) as [[] w4|].
Qed.

Lemma two_fields (A B : M unit) w :
  ((A ;;; ret tt) ;;; (ret tt ;;; B) ;;; ret tt) w = (A ;;; B) w.
Proof.
  unfold bind, ret.
  destruct (A w) as [[] w1|]; [|done]. by destruct (B w1) as [[] w2|].
Qed.

Lemma one_field (A : M unit) w : (A ;;; ret tt) w = A w.
Proof. unfold bind, ret. by destruct (A w) as [[] w1|]. Qed.

(** X13.  A call of an update method with several fields does what the
    calls with one field each do, made in the order the method looks at
    the fields; this holds in every state, also where a call throws. *)
Theorem update_by_fields o u w :
  forEach (by_fields u) (call o) w = call o u w.
Proof.
  destruct u as [[b s c f]|[c a]|blur|[fr st]|[b c]];
    cbn [by_fields forEach call].
  - apply four_fields.
  - apply two_fields.
  - apply one_field.
  - apply two_fields.
  - apply two_fields.
Qed.

(** X14.  The order of the two fields of [updateTint] matters when they
    come in separate calls: after [updateTint({opacity})],
    [updateTint({color})] declares [--tint-color] as the colour given,
    with the alpha the text of the colour has; the opacity is still in
    [options.tintOpacity] and in no declaration. *)
Theorem updateTint_color_after_opacity w0 acts o x c a :
  fresh_page w0 →
  objects (run w0 acts) !! o = Some x → is_Some (svgFilter x) →
  JS.truthy_string c = true →
  ∃ w1 w2 d x2,
    updateTint o {| tp_color := None; tp_opacity := Some a |} (run w0 acts)
    = Ok tt w1
    ∧ updateTint o {| tp_color := Some c; tp_opacity := None |} w1 = Ok tt w2
    ∧ lookup_node (element x) w2 = Some d
    ∧ style d !! "--tint-color" = Some c
    ∧ objects w2 !! o = Some x2
    ∧ tintColor (options x2) = c
    ∧ tintOpacity (options x2) = a.
Proof.
  intros H0 Ho Hf Hc.
  pose proof (session_invariant w0 acts H0) as Hw.
  pose proof (inv_element _ Hw o x Ho Hf) as Hel.
  destruct (updateTint_Ok _ o x {| tp_color := None; tp_opacity := Some a |}
              Ho Hel) as (w1 & d0 & Hu1 & Hd0 & Hd1 & Ho1).
  assert (Hel1 : element x ∈ all_ids w1).
  { apply lookup_node_is_Some. by rewrite Hd1. }
  destruct (updateTint_Ok w1 o _ {| tp_color := Some c; tp_opacity := None |}
              Ho1 Hel1) as (w2 & d1 & Hu2 & Hd1' & Hd2 & Ho2).
  eexists w1, w2, _, _. split; [exact Hu1|]. split; [exact Hu2|].
  split; [exact Hd2|]. split; [|split; [exact Ho2|done]].
  cbn [set_style style declared tp_color tp_opacity retint declare_opt].
  by rewrite declare_lookup_eq.
Qed.

Lemma updateTint_color_after_opacity_witness :
  fresh_page example_page
  ∧ ∃ x, objects (run example_page example_session) !! 0 = Some x
      ∧ is_Some (svgFilter x)
      ∧ ∃ w1 w2 d x2,
          updateTint 0 {| tp_color := None; tp_opacity := Some 0.9%float |}
            (run example_page example_session)
          = Ok tt w1
          ∧ updateTint 0 {| tp_color := Some "rgba(10,20,30,0.4)";
                            tp_opacity := None |} w1
            = Ok tt w2
          ∧ lookup_node (element x) w2 = Some d
          ∧ style d !! "--tint-color" = Some "rgba(10,20,30,0.4)"
          ∧ objects w2 !! 0 = Some x2
          ∧ tintColor (options x2) = "rgba(10,20,30,0.4)"
          ∧ tintOpacity (options x2) = 0.9%float.
Proof.
  assert (H0 : fresh_page example_page).
  { apply (bool_decide_unpack _). vm_compute. exact I. }
  split; [exact H0|].
  eexists. split; [vm_compute; reflexivity|]. split; [by eexists|].
  refine (updateTint_color_after_opacity example_page example_session 0 _
            "rgba(10,20,30,0.4)" 0.9%float H0 _ _ _).
  - vm_compute. reflexivity.
  - by eexists.
  - reflexivity.
Defined.

(** ** Construction, then [destroy] *)






(** ** What stays of an instance for the whole session *)

(** The parts of an object no method assigns after the construction. *)
Definition same_identity (x x' : instance) : Prop :=
  element x' = element x
  ∧ svgFilterId x' = svgFilterId x
  ∧ borderRadius (options x') = borderRadius (options x)
  ∧ draggable (options x') = draggable (options x)
  ∧ (∀ f, svgFilter x = Some f → svgFilter x' = Some f)
  ∧ (cleanup x = true → cleanup x' = true).

(** Every object of [w] is an object of [w'], with the same identity. *)
Definition preserved (w w' : world) : Prop :=
  ∀ o x, objects w !! o = Some x →
         ∃ x', objects w' !! o = Some x' ∧ same_identity x x'.

Lemma same_identity_refl x : same_identity x x.
Proof. by unfold same_identity. Qed.

Lemma same_identity_trans x y z :
  same_identity x y → same_identity y z → same_identity x z.
Proof.
  intros (E1 & E2 & E3 & E4 & E5 & E6) (F1 & F2 & F3 & F4 & F5 & F6).
  unfold same_identity. split_and!; try congruence.
  - intros f Hf. by apply F5, E5.
  - intros Hc. by apply F6, E6.
Qed.

Lemma preserved_refl w : preserved w w.
Proof. intros o x Ho. exists x. split; [done|apply same_identity_refl]. Qed.

Lemma preserved_trans w1 w2 w3 :
  preserved w1 w2 → preserved w2 w3 → preserved w1 w3.
Proof.
  intros H12 H23 o x Ho.
  destruct (H12 o x Ho) as (y & Hy & Hxy).
  destruct (H23 o y Hy) as (z & Hz & Hyz).
  exists z. split; [done|]. by eapply same_identity_trans.
Qed.

Lemma preserved_objects w w' : objects w' = objects w → preserved w w'.
Proof.
  intros E o x Ho. exists x. rewrite E. split; [done|apply same_identity_refl].
Qed.

Definition steady {A} (c : M A) : Prop := ∀ w, preserved w (final (c w)).

Lemma steady_bind {A B} (c : M A) (k : A → M B) :
  steady c → (∀ a, steady (k a)) → steady (bind c k).
Proof.
  intros Hc Hk w. rewrite final_bind. specialize (Hc w).
  destruct (c w) as [a w1|e w1]; cbn [final] in Hc; [|done].
  eapply preserved_trans; [exact Hc|apply Hk].
Qed.

Lemma steady_inert {A} (c : M A) :
  (∀ w, objects (final (c w)) = objects w) → steady c.
Proof. intros Hc w. by apply preserved_objects. Qed.

Lemma steady_ret {A} (a : A) : steady (ret a).
Proof. by apply steady_inert. Qed.

Lemma steady_throw {A} e : steady (@throw A e).
Proof. by apply steady_inert. Qed.

Lemma steady_get_this o : steady (get_this o).
Proof.
  apply steady_inert. intros w. unfold get_this. by destruct (_ !! _).
Qed.

Lemma steady_getBoundingClientRect n : steady (getBoundingClientRect n).
Proof.
  apply steady_inert. intros w. unfold getBoundingClientRect.
  by destruct (lookup_node n w).
Qed.

Lemma steady_querySelector n tag : steady (querySelector n tag).
Proof.
  apply steady_inert. intros w. unfold querySelector.
  by destruct (lookup_tree n w) as [[? ?]|].
Qed.

Lemma steady_parentNode n : steady (parentNode n).
Proof.
  apply steady_inert. intros w. unfold parentNode.
  destruct (parent_in _ n (document w)); [done|].
  by destruct (parent_in _ n (detached w)).
Qed.

Lemma steady_getElementById s : steady (getElementById s).
Proof. by apply steady_inert. Qed.

Lemma steady_document_body : steady document_body.
Proof. by apply steady_inert. Qed.

Lemma steady_update_node n g : steady (update_node n g).
Proof.
  apply steady_inert. intros w. rewrite final_update_node.
  by destruct (decide _).
Qed.

Lemma steady_document_listeners (f : list (string * callback) → _) :
  steady (λ w, Ok tt (set_doc_listeners f w)).
Proof. by apply steady_inert. Qed.

Lemma steady_createElementNS ns tag : steady (createElementNS ns tag).
Proof. by apply steady_inert. Qed.

Lemma steady_appendChild p c : steady (appendChild p c).
Proof.
  apply steady_inert. intros w. unfold appendChild, place.
  destruct (lookup_node p w); [|done].
  destruct (extract c (document w)) as [[[d ch] doc']|].
  - destruct (attach p c d ch doc'); [done|].
    by destruct (attach p c d ch (detached w)).
  - destruct (extract c (detached w)) as [[[d ch] det']|]; [|done].
    destruct (attach p c d ch (document w)); [done|].
    by destruct (attach p c d ch det').
Qed.

Lemma steady_removeChild p c : steady (removeChild p c).
Proof.
  apply steady_inert. intros w. unfold removeChild.
  destruct (parentNode c w) as [[p'|] w1|e w1]; [|done..].
  destruct (decide (p' = p)); [|done].
  destruct (detach c w) as [w'|] eqn:Hd; [|done].
  by destruct (detach_fields _ _ _ Hd) as (_ & _ & E & _).
Qed.

Lemma steady_update_this o f :
  (∀ x, same_identity x (f x)) → steady (update_this o f).
Proof.
  intros Hf w. unfold update_this.
  destruct (objects w !! o) as [y|] eqn:Ho; [|apply preserved_refl].
  intros o' x Ho'. cbn [final objects set_objects].
  destruct (decide (o' = o)) as [->|Hne].
  - rewrite lookup_alter_eq, Ho. exists (f y). split; [done|].
    assert (x = y) as -> by congruence. apply Hf.
  - rewrite lookup_alter_ne by done. exists x.
    split; [done|apply same_identity_refl].
Qed.

Lemma steady_when_defined {A} (v : option A) k :
  (∀ a, steady (k a)) → steady (when_defined v k).
Proof. intros Hk. destruct v; [apply Hk | apply steady_ret]. Qed.

Lemma steady_forEach {A} (l : list A) f :
  (∀ a, steady (f a)) → steady (forEach l f).
Proof.
  intros Hf. induction l as [|a l IH]; simpl; [apply steady_ret|].
  apply steady_bind; [apply Hf | by intros _].
Qed.

Lemma same_identity_options g x :
  (∀ c, borderRadius (g c) = borderRadius c ∧ draggable (g c) = draggable c) →
  same_identity x (set_options g x).
Proof.
  intros Hg. destruct (Hg (options x)) as [E1 E2].
  unfold same_identity. by split_and!.
Qed.

Lemma same_identity_drag g x : same_identity x (set_drag g x).
Proof. by unfold same_identity. Qed.

Lemma same_identity_cleanup x : same_identity x (set_cleanup x).
Proof. by unfold same_identity. Qed.

Create HintDb steady discriminated.
#[global] Hint Resolve steady_ret steady_throw steady_get_this
  steady_getBoundingClientRect steady_querySelector steady_parentNode
  steady_getElementById steady_document_body steady_update_node
  steady_document_listeners steady_createElementNS steady_appendChild
  steady_removeChild same_identity_drag same_identity_cleanup : steady.

Ltac steady_step :=
  first
    [ solve [eauto with steady]
    | apply steady_bind; [|intros ?]
    | apply steady_when_defined; intros ?
    | apply steady_forEach; intros ?
    | apply steady_update_this; intros ?
    | apply same_identity_options; by intros []
    | match goal with
      | |- steady (match ?x with _ => _ end) => destruct x
      | |- steady (if ?x then _ else _) => destruct x
      end ].

Ltac steady_auto := repeat steady_step.

Lemma steady_call o u : steady (call o u).
Proof.
  destruct u; cbn [call];
    unfold updateShadow, updateTint, updateFrost, updateDistortion,
      updateOuterShadow, assign_and_project, patch_stage, setProperty,
      setAttribute;
    steady_auto.
Qed.

Lemma steady_run_callback e cb : steady (run_callback e cb).
Proof.
  destruct cb; cbn [run_callback];
    unfold onMouseDown, onMouseMove, onMouseUp, setProperty; steady_auto.
Qed.

Lemma steady_destroy o : steady (destroy o).
Proof.
  unfold destroy, classList_remove, run_cleanup, removeProperty,
    removeEventListener, document_removeEventListener.
  steady_auto.
Qed.

(** The construction assigns the fields of its own object only. *)
Definition steady_but {A} (t : obj_id) (c : M A) : Prop :=
  ∀ w o x, o ≠ t → objects w !! o = Some x →
           ∃ x', objects (final (c w)) !! o = Some x' ∧ same_identity x x'.

Lemma steady_but_steady {A} t (c : M A) : steady c → steady_but t c.
Proof. intros Hc w o x _ Ho. by apply Hc. Qed.

Lemma steady_but_bind {A B} t (c : M A) (k : A → M B) :
  steady_but t c → (∀ a, steady_but t (k a)) → steady_but t (bind c k).
Proof.
  intros Hc Hk w o x Hne Ho. rewrite final_bind.
  destruct (Hc w o x Hne Ho) as (y & Hy & Hxy).
  destruct (c w) as [a w1|e w1]; cbn [final] in Hy; [|by exists y].
  destruct (Hk a w1 o y Hne Hy) as (z & Hz & Hyz).
  exists z. split; [done|]. by eapply same_identity_trans.
Qed.

Lemma steady_but_update_this t f : steady_but t (update_this t f).
Proof.
  intros w o x Hne Ho. unfold update_this.
  destruct (objects w !! t); cbn [final objects set_objects].
  - rewrite lookup_alter_ne by done. exists x.
    split; [done|apply same_identity_refl].
  - exists x. split; [done|apply same_identity_refl].
Qed.

Ltac steady_but_step :=
  first
    [ apply steady_but_update_this
    | apply steady_but_steady; solve [steady_auto]
    | apply steady_but_bind; [|intros ?]
    | match goal with
      | |- steady_but _ (match ?x with _ => _ end) => destruct x
      | |- steady_but _ (if ?x then _ else _) => destruct x
      end ].

Lemma steady_but_init t : steady_but t (init t).
Proof.
  unfold init, createSVGFilter, applyStyles, makeDraggable, classList_add,
    setProperty, setAttribute, addEventListener, document_addEventListener.
  repeat steady_but_step.
Qed.

Lemma preserved_constructor el opts r w :
  invariant w → preserved w (final (constructor el opts r w)).
Proof.
  intros Hw o x Ho. unfold constructor.
  destruct el as [el|]; [|by apply preserved_refl].
  rewrite final_bind. unfold new_object at 1. rewrite final_bind.
  assert (Hne : o ≠ next_obj w).
  { apply (inv_objects _ Hw) in Ho. lia. }
  match goal with |- context [init _ ?W] => set (w1 := W) end.
  assert (Ho1 : objects w1 !! o = Some x).
  { unfold w1. cbn [objects]. by rewrite lookup_insert_ne. }
  destruct (steady_but_init (next_obj w) w1 o x Hne Ho1) as (x' & Hx' & Hs).
  exists x'. split; [|done].
  by destruct (init (next_obj w) w1) as [[] w2|e w2].
Qed.

Lemma preserved_dispatch e cbs w : preserved w (dispatch e cbs w).
Proof.
  unfold dispatch. revert w.
  induction cbs as [|cb cbs IH]; intros w; [apply preserved_refl|].
  cbn [fold_left]. eapply preserved_trans; [|apply IH].
  apply steady_run_callback.
Qed.

Lemma preserved_step w a : invariant w → preserved w (step w a).
Proof.
  intros Hw.
  destruct a as [el opts r|this p|this p|this blur|this p|this p|this
                |n type e|type e|n l t]; cbn [step].
  - by apply preserved_constructor.
  - apply (steady_call this (Shadow p)).
  - apply (steady_call this (Tint p)).
  - apply (steady_call this (Frost blur)).
  - apply (steady_call this (Distortion p)).
  - apply (steady_call this (OuterShadow p)).
  - apply steady_destroy.
  - unfold fire_on_element. destruct (lookup_node n w).
    + apply preserved_dispatch.
    + apply preserved_refl.
  - apply preserved_dispatch.
  - apply steady_update_node.
Qed.

Lemma preserved_run w acts : invariant w → preserved w (run w acts).
Proof.
  revert w. induction acts as [|a acts IH]; intros w Hw;
    [apply preserved_refl|].
  cbn [run fold_left]. eapply preserved_trans.
  - by apply preserved_step.
  - apply IH. by apply invariant_step.
Qed.

(** X16.  In a session on a fresh page an object is never dropped and
    keeps its identity, whatever is called later: the element, the
    identifier of the filter, the options [borderRadius] and [draggable]
    are those of the construction, the filter once built is never
    replaced, and [cleanup] once set stays set. *)
Theorem identity_fixed w0 acts later o x :
  fresh_page w0 →
  objects (run w0 acts) !! o = Some x →
  ∃ x',
    objects (run w0 (acts ++ later)) !! o = Some x'
    ∧ element x' = element x
    ∧ svgFilterId x' = svgFilterId x
    ∧ borderRadius (options x') = borderRadius (options x)
    ∧ draggable (options x') = draggable (options x)
    ∧ (∀ f, svgFilter x = Some f → svgFilter x' = Some f)
    ∧ (cleanup x = true → cleanup x' = true).
Proof.
  intros H0 Ho.
  pose proof (session_invariant w0 acts H0) as Hw.
  unfold run at 1. rewrite fold_left_app. fold (run w0 acts).
  fold (run (run w0 acts) later).
  exact (preserved_run _ later Hw o x Ho).
Qed.

Lemma identity_fixed_witness :
  fresh_page example_page
  ∧ ∃ x, objects (run example_page example_session) !! 0 = Some x
      ∧ ∃ x',
          objects (run example_page
                     (example_session ++ [UpdateFrost 0 "5px"; Destroy 0]))
            !! 0 = Some x'
          ∧ element x' = element x
          ∧ svgFilterId x' = svgFilterId x
          ∧ borderRadius (options x') = borderRadius (options x)
          ∧ draggable (options x') = draggable (options x)
          ∧ (∀ f, svgFilter x = Some f → svgFilter x' = Some f)
          ∧ (cleanup x = true → cleanup x' = true).
Proof.
  assert (H0 : fresh_page example_page).
  { apply (bool_decide_unpack _). vm_compute. exact I. }
  split; [exact H0|].
  eexists. split; [vm_compute; reflexivity|].
  refine (identity_fixed example_page example_session
            [UpdateFrost 0 "5px"; Destroy 0] 0 _ H0 _).
  vm_compute. reflexivity.
Defined.

(** ** The same call twice *)

Lemma declare_lookup p v st q :
  declare p v st !! q
  = if decide (q = p) then (if JS.truthy_string v then Some v else None)
    else st !! q.
Proof.
  unfold declare. destruct (decide (q = p)) as [->|Hne].
  - destruct (JS.truthy_string v).
    + by rewrite lookup_insert_eq.
    + by rewrite lookup_delete_eq.
  - destruct (JS.truthy_string v).
    + by rewrite lookup_insert_ne.
    + by rewrite lookup_delete_ne.
Qed.

Lemma assigned_idem u c : assigned u (assigned u c) = assigned u c.
Proof.
  destruct u as [[b s cl f]|[cl a]|blur|[fr st]|[b cl]];
    cbn [assigned sp_blur sp_spread sp_color sp_offset tp_color tp_opacity
         dp_frequency dp_strength op_blur op_color];
    unfold assign_opt;
    repeat match goal with |- context [match ?v with _ => _ end] =>
             destruct v end; done.
Qed.

Lemma tintColor_tintOpacity a c : tintColor (set_tintOpacity a c) = tintColor c.
Proof. done. Qed.

Lemma declared_idem u c st :
  declared u (assigned u c) (declared u c st) = declared u c st.
Proof.
  apply map_eq. intros p.
  destruct u as [[b s cl f]|[cl a]|blur|[fr st']|[b cl]];
    cbn [declared assigned sp_blur sp_spread sp_color sp_offset tp_color
         tp_opacity dp_frequency dp_strength op_blur op_color].
  - destruct b, s, cl, f; cbn [declare_opt assign_opt];
      rewrite ?declare_lookup; by repeat destruct (decide _).
  - assert (E : tintColor
                  (assign_opt set_tintColor cl
                     (assign_opt set_tintOpacity a
                        (assign_opt set_tintColor cl c)))
                = tintColor (assign_opt set_tintColor cl c))
      by by destruct cl, a.
    unfold retint. rewrite E.
    destruct a; [destruct (JS.exec _ _)|]; destruct cl;
      cbn [declare_opt]; rewrite ?declare_lookup;
      by repeat destruct (decide _).
  - rewrite ?declare_lookup. by repeat destruct (decide _).
  - done.
  - destruct b, cl; cbn [declare_opt assign_opt];
      rewrite ?declare_lookup; by repeat destruct (decide _).
Qed.

Lemma stages_of_amend n g f w t s :
  (∀ d, tagName (g d) = tagName d) →
  stages_of f w t s → stages_of f (amend n g w) t s.
Proof.
  intros Hg (df & dt & b & db & dd & Ht & Tt & Tb & Td & Hti & Hsi & Htb & Hts).
  unfold stages_of. rewrite lookup_tree_amend, Ht, !all_ids_amend.
  cbn [fmap option_fmap option_map modify fst snd].
  eexists _, _, b, _, _. split; [reflexivity|].
  split_and!; try done.
  - destruct (decide (t = n)); [by rewrite Hg | done].
  - destruct (decide (b = n)); [by rewrite Hg | done].
  - destruct (decide (s = n)); [by rewrite Hg | done].
Qed.

Lemma stages_of_call w o x f u t s w1 :
  objects w !! o = Some x → svgFilter x = Some f → element x ∈ all_ids w →
  stages_of f w t s → call o u w = Ok tt w1 → stages_of f w1 t s.
Proof.
  intros Ho Hf Hel Hst Hc.
  assert (Hplain : ∀ u', (∀ q, u' ≠ Distortion q) →
            call o u' w = Ok tt w1 → stages_of f w1 t s).
  { intros u' Hu' Hc'. rewrite (writes_call o u' Hu' w x Ho Hel) in Hc'.
    injection Hc' as <-. by apply stages_of_amend. }
  destruct u as [q|q|blur|q|q];
    [by apply (Hplain (Shadow q))|by apply (Hplain (Tint q))
    |by apply (Hplain (Frost blur))| |by apply (Hplain (OuterShadow q))].
  cbn [call] in Hc. rewrite (updateDistortion_Ok w o x f q t s Ho Hf Hst) in Hc.
  injection Hc as <-. unfold patch_opt.
  destruct (dp_strength q), (dp_frequency q);
    repeat apply stages_of_amend; done.
Qed.

Lemma safe_call o u : safe (call o u).
Proof.
  destruct u; cbn [call];
    [apply safe_updateShadow|apply safe_updateTint|apply safe_updateFrost
    |apply safe_updateDistortion|apply safe_updateOuterShadow].
Qed.

Lemma node_effect_idem u x t s n dn :
  t ≠ s →
  node_effect u (set_options (assigned u) x) t s n (node_effect u x t s n dn)
  = node_effect u x t s n dn.
Proof.
  intros Hts.
  destruct u as [q|q|blur|q|q];
    cbn [node_effect element set_options options].
  4:{ unfold stage_patch.
      destruct (dp_strength q), (dp_frequency q);
        repeat (destruct (decide _) as [->|?]); try done;
        apply node_ext; cbn [set_attributes namespaceURI tagName attributes
                             style classList listeners rect_left rect_top];
        try reflexivity; by rewrite insert_insert_eq. }
  all: destruct (decide (n = element x)); [|done];
    apply node_ext; cbn [set_style namespaceURI tagName attributes style
                         classList listeners rect_left rect_top];
    try reflexivity; apply declared_idem.
Qed.

(** X17.  In any session on a fresh page, a call of an update method
    repeated with the same argument returns again and changes nothing:
    every node, every object and the listeners of the document are as
    the first call left them. *)
Theorem update_twice w0 acts o x f u :
  fresh_page w0 →
  objects (run w0 acts) !! o = Some x → svgFilter x = Some f →
  ∃ w1 w2,
    call o u (run w0 acts) = Ok tt w1
    ∧ call o u w1 = Ok tt w2
    ∧ objects w2 = objects w1
    ∧ doc_listeners w2 = doc_listeners w1
    ∧ ∀ n, lookup_node n w2 = lookup_node n w1.
Proof.
  intros H0 Ho Hf.
  pose proof (session_invariant w0 acts H0) as Hw.
  set (w := run w0 acts) in *.
  assert (Hel : element x ∈ all_ids w).
  { apply (inv_element _ Hw o x Ho). by rewrite Hf. }
  destruct (stages_of_session w o x f Hw Ho Hf) as (t & s & Hst).
  destruct (call_effect w o x f u t s Ho Hf Hel Hst) as (w1 & Hc1 & Hob1 & Hn1).
  pose proof (stages_of_call w o x f u t s w1 Ho Hf Hel Hst Hc1) as Hst1.
  assert (Ho1 : objects w1 !! o = Some (set_options (assigned u) x)).
  { by rewrite Hob1, lookup_alter_eq, Ho. }
  assert (Hel1 : element (set_options (assigned u) x) ∈ all_ids w1).
  { change (element (set_options (assigned u) x)) with (element x).
    apply lookup_node_is_Some. rewrite Hn1.
    apply lookup_node_is_Some in Hel as [d ->]. by eexists. }
  destruct (call_effect w1 o _ f u t s Ho1 Hf Hel1 Hst1)
    as (w2 & Hc2 & Hob2 & Hn2).
  assert (Hts : t ≠ s).
  { by destruct Hst as (? & ? & ? & ? & ? & _ & _ & _ & _ & _ & _ & _ & ?). }
  exists w1, w2. split; [done|]. split; [done|]. split_and!.
  - rewrite Hob2, Hob1, alter_alter_eq. apply alter_ext. intros y _.
    unfold compose, set_options.
    cbn [options element svgFilterId svgFilter cleanup drag].
    by rewrite assigned_idem.
  - pose proof (safe_call o u w Hw) as Hw1. rewrite Hc1 in Hw1.
    cbn [final] in Hw1.
    destruct (call_world w1 o _ f u Hw1 Ho1 Hf)
      as (w2' & t' & s' & Hc2' & _ & Hdl & _).
    rewrite Hc2 in Hc2'. by injection Hc2' as <-.
  - intros n. rewrite Hn2, Hn1. destruct (lookup_node n w); [|done].
    cbn [fmap option_fmap option_map]. f_equal.
    by apply node_effect_idem.
Qed.

Lemma update_twice_witness :
  fresh_page example_page
  ∧ ∃ x, objects (run example_page example_session) !! 0 = Some x
      ∧ svgFilter x = Some 3
      ∧ ∃ w1 w2,
          call 0 (Tint {| tp_color := None; tp_opacity := Some 0.9%float |})
               (run example_page example_session) = Ok tt w1
          ∧ call 0 (Tint {| tp_color := None; tp_opacity := Some 0.9%float |})
                 w1 = Ok tt w2
          ∧ objects w2 = objects w1
          ∧ doc_listeners w2 = doc_listeners w1
          ∧ ∀ n, lookup_node n w2 = lookup_node n w1.
Proof.
  assert (H0 : fresh_page example_page).
  { apply (bool_decide_unpack _). vm_compute. exact I. }
  split; [exact H0|].
  eexists. split; [vm_compute; reflexivity|]. split; [reflexivity|].
  refine (update_twice example_page example_session 0 _ 3
            (Tint {| tp_color := None; tp_opacity := Some 0.9%float |})
            H0 _ _).
  - vm_compute. reflexivity.
  - reflexivity.
Defined.

(** ** The container of the filters stays *)

(** [c] is the element [getElementById("liquid-glass-svg-filters")]
    finds. *)
Definition found (c : node_id) (w : world) : Prop :=
  fst <$> find_node (has_attribute "id" "liquid-glass-svg-filters")
            (document w) = Some c.

Definition lasting {A} (c : node_id) (m : M A) : Prop :=
  ∀ w, found c w → found c (final (m w)).

Lemma lasting_bind {A B} c (m : M A) (k : A → M B) :
  lasting c m → (∀ a, lasting c (k a)) → lasting c (bind m k).
Proof.
  intros Hm Hk w Hw. rewrite final_bind. specialize (Hm w Hw).
  destruct (m w) as [a w1|e w1]; cbn [final] in Hm; [by apply Hk|done].
Qed.

Lemma lasting_document {A} c (m : M A) :
  (∀ w, document (final (m w)) = document w) → lasting c m.
Proof. intros Hm w Hw. unfold found. by rewrite Hm. Qed.

Lemma found_amend c n g w : benign g → found c w → found c (amend n g w).
Proof.
  intros Hg Hw. unfold found, amend. cbn [document set_forests].
  rewrite find_node_modify by (intros d; by apply has_attribute_benign).
  unfold found in Hw.
  destruct (find_node _ (document w)) as [[i d]|]; [|done].
  by injection Hw as <-.
Qed.

Lemma lasting_ret {A} c (a : A) : lasting c (ret a).
Proof. by apply lasting_document. Qed.

Lemma lasting_throw {A} c e : lasting c (@throw A e).
Proof. by apply lasting_document. Qed.

Lemma lasting_get_this c o : lasting c (get_this o).
Proof.
  apply lasting_document. intros w. unfold get_this. by destruct (_ !! _).
Qed.

Lemma lasting_getBoundingClientRect c n :
  lasting c (getBoundingClientRect n).
Proof.
  apply lasting_document. intros w. unfold getBoundingClientRect.
  by destruct (lookup_node n w).
Qed.

Lemma lasting_querySelector c n tag : lasting c (querySelector n tag).
Proof.
  apply lasting_document. intros w. unfold querySelector.
  by destruct (lookup_tree n w) as [[? ?]|].
Qed.

Lemma lasting_update_node c n g : benign g → lasting c (update_node n g).
Proof.
  intros Hg w Hw. rewrite final_update_node.
  destruct (decide _); [by apply found_amend|done].
Qed.

Lemma lasting_update_this c o f : lasting c (update_this o f).
Proof.
  apply lasting_document. intros w. unfold update_this.
  by destruct (objects w !! o).
Qed.

Lemma lasting_document_listeners c (f : list (string * callback) → _) :
  lasting c (λ w, Ok tt (set_doc_listeners f w)).
Proof. by apply lasting_document. Qed.

Lemma lasting_when_defined {A} c (v : option A) k :
  (∀ a, lasting c (k a)) → lasting c (when_defined v k).
Proof. intros Hk. destruct v; [apply Hk | apply lasting_ret]. Qed.

Lemma lasting_forEach {A} c (l : list A) f :
  (∀ a, lasting c (f a)) → lasting c (forEach l f).
Proof.
  intros Hf. induction l as [|a l IH]; simpl; [apply lasting_ret|].
  apply lasting_bind; [apply Hf | by intros _].
Qed.

Create HintDb lasting discriminated.
#[global] Hint Resolve lasting_ret lasting_throw lasting_get_this
  lasting_getBoundingClientRect lasting_querySelector lasting_update_node
  lasting_update_this lasting_document_listeners
  benign_style benign_classList benign_listeners benign_rect : lasting.

Ltac lasting_step :=
  first
    [ solve [eauto with lasting]
    | apply lasting_bind; [|intros ?]
    | apply lasting_when_defined; intros ?
    | apply lasting_forEach; intros ?
    | apply benign_attribute; discriminate
    | match goal with
      | |- lasting _ (match ?x with _ => _ end) => destruct x
      | |- lasting _ (if ?x then _ else _) => destruct x
      end
    | apply lasting_update_node ].

Ltac lasting_auto := repeat lasting_step.

Lemma lasting_call c o u : lasting c (call o u).
Proof.
  destruct u; cbn [call];
    unfold updateShadow, updateTint, updateFrost, updateDistortion,
      updateOuterShadow, assign_and_project, patch_stage, setProperty,
      setAttribute;
    lasting_auto.
Qed.

Lemma lasting_run_callback c e cb : lasting c (run_callback e cb).
Proof.
  destruct cb; cbn [run_callback];
    unfold onMouseDown, onMouseMove, onMouseUp, setProperty; lasting_auto.
Qed.

Lemma found_dispatch c e cbs w : found c w → found c (dispatch e cbs w).
Proof.
  unfold dispatch. revert w.
  induction cbs as [|cb cbs IH]; intros w Hw; [done|].
  cbn [fold_left]. apply IH. by apply lasting_run_callback.
Qed.

(** Taking a filter out does not take the container out. *)
Lemma found_removeChild c w o x f p :
  invariant w → objects w !! o = Some x → svgFilter x = Some f →
  found c w → found c (final (removeChild p f w)).
Proof.
  intros Hw Ho Hf Hc. unfold removeChild.
  destruct (parentNode f w) as [[p'|] w1|e w1]; [|done..].
  destruct (decide (p' = p)); [|done].
  destruct (detach f w) as [w'|] eqn:Hd; [|done]. cbn [final].
  unfold detach in Hd.
  destruct (extract f (document w)) as [[[d chf] doc']|] eqn:Hex.
  2:{ destruct (extract f (detached w)) as [[[d chf] det']|]; [|done].
      by injection Hd as <-. }
  injection Hd as <-. unfold found. cbn [document set_forests].
  destruct (inv_filter _ Hw _ _ _ Ho Hf)
    as (df & t & dt & b & db & s & ds & Ht & [_ Hidf] & [_ Hidt]
        & [_ Hidb] & [_ Hids] & _).
  apply extract_tree_at in Hex as Htf.
  unfold lookup_tree in Ht. rewrite Htf in Ht. injection Ht as <- ->.
  rewrite (find_node_extract_other _ _ _ _ _ _ Hex); [done| |].
  - unfold has_attribute. by apply bool_decide_eq_false_2.
  - intros y. simpl. rewrite !elem_of_cons, elem_of_nil.
    intros [->|[->|[->|[]]]]; unfold has_attribute;
      by apply bool_decide_eq_false_2.
Qed.

Lemma found_destroy c o w : invariant w → found c w → found c (final (destroy o w)).
Proof.
  intros Hw Hc. unfold destroy. rewrite final_bind. unfold get_this.
  destruct (objects w !! o) as [x|] eqn:Ho; [|done].
  rewrite final_bind.
  match goal with |- found c (match ?r with _ => _ end) =>
    assert (found c (final r)) as Hr; [|destruct r as [[] w1|e w1]] end.
  { destruct (svgFilter x) as [f|] eqn:Hf; [|done].
    rewrite final_bind.
    destruct (parentNode f w) as [[p|] w0|e w0] eqn:Hp;
      apply final_parentNode in Hp; simpl in Hp; subst w0; [|done..].
    by apply (found_removeChild c w o x f). }
  2: done.
  simpl in Hr. revert w1 Hr.
  change (lasting c (
    classList_remove (element x) "liquid-glass" ;;;
    (if cleanup x then run_cleanup o else ret ()) ;;;
    forEach stylesToRemove (removeProperty (element x)))).
  unfold classList_remove, run_cleanup, removeProperty, removeEventListener,
    document_removeEventListener.
  lasting_auto.
Qed.

Lemma found_constructor c el opts r w :
  invariant w → found c w → found c (final (constructor el opts r w)).
Proof.
  intros Hw Hc. destruct el as [el|]; [|done].
  destruct (decide (el ∈ all_ids w)) as [Hel|Hel].
  - unfold found in Hc.
    destruct (find_node (has_attribute "id" "liquid-glass-svg-filters")
                (document w)) as [[c' dc]|] eqn:Hfind; [|done].
    injection Hc as ->.
    destruct (attach_is_Some c (next_id w)
                (filter_node (initial_instance el opts r))
                (filter_tree (initial_instance el opts r) (next_id w))
                (modify el addclass (document w))) as [doc' Ha].
    { rewrite ids_modify. apply find_node_elem in Hfind as [Hin _].
      apply list_elem_of_fmap. by exists (c, dc). }
    pose proof (constructor_found w el opts r c dc doc' Hw Hel Hfind Ha) as E.
    destruct (constructor_shape w el opts r _ _ Hw E)
      as (c' & f & doc'' & nx' & extra & dc' & chc & _ & Hw1 & _ & _ & _ & _
          & _ & Hf & _ & Hex).
    rewrite E. cbn [final]. rewrite Hw1. unfold found.
    rewrite document_settle. cbn [document].
    rewrite find_node_modify
      by (intros d; apply has_attribute_benign; [apply benign_settled|done]).
    destruct Hex as [(_ & dc0 & Hfind')|(_ & _ & _ & Hnone & _)];
      [|congruence].
    rewrite Hfind in Hfind'. injection Hfind' as <- <-.
    destruct (find_node _ doc'') as [[i d]|]; [|done].
    by injection Hf as <-.
  - assert (∃ w', constructor (Some el) opts r w = Throw TypeError w'
                  ∧ document w' = document w) as (w' & -> & E).
    { unfold constructor, init. eexists. split.
      - erewrite bind_Ok; [|reflexivity]. eapply bind_Throw.
        erewrite bind_Ok.
        2:{ unfold get_this. cbn [objects]. by rewrite lookup_insert_eq. }
        eapply bind_Throw. unfold classList_add, update_node.
        apply lookup_node_None in Hel. unfold lookup_node, lookup_tree in *.
        cbn [document detached element]. by rewrite Hel.
      - done. }
    cbn [final]. unfold found. by rewrite E.
Qed.

Lemma found_step c w a : invariant w → found c w → found c (step w a).
Proof.
  intros Hw Hc.
  destruct a as [el opts r|this p|this p|this blur|this p|this p|this
                |n type e|type e|n l t]; cbn [step].
  - by apply found_constructor.
  - by apply (lasting_call c this (Shadow p)).
  - by apply (lasting_call c this (Tint p)).
  - by apply (lasting_call c this (Frost blur)).
  - by apply (lasting_call c this (Distortion p)).
  - by apply (lasting_call c this (OuterShadow p)).
  - by apply found_destroy.
  - unfold fire_on_element. destruct (lookup_node n w); [|done].
    by apply found_dispatch.
  - by apply found_dispatch.
  - apply lasting_update_node; [apply benign_rect|done].
Qed.

Lemma found_run c w acts : invariant w → found c w → found c (run w acts).
Proof.
  revert w. induction acts as [|a acts IH]; intros w Hw Hc; [done|].
  cbn [run fold_left]. apply IH; [by apply invariant_step|].
  by apply found_step.
Qed.

(** X18.  The container of the filters is never taken out: once
    [getElementById("liquid-glass-svg-filters")] finds the element [c] in
    a session on a fresh page, it finds [c] in every later state,
    whatever is constructed, updated, destroyed or dragged in between. *)
Theorem container_stays w0 acts later c :
  fresh_page w0 →
  getElementById "liquid-glass-svg-filters" (run w0 acts)
  = Ok (Some c) (run w0 acts) →
  getElementById "liquid-glass-svg-filters" (run w0 (acts ++ later))
  = Ok (Some c) (run w0 (acts ++ later)).
Proof.
  intros H0 Hg.
  pose proof (session_invariant w0 acts H0) as Hw.
  assert (Hc : found c (run w0 acts)).
  { unfold getElementById in Hg. by injection Hg. }
  assert (E : run w0 (acts ++ later) = run (run w0 acts) later).
  { unfold run. by rewrite fold_left_app. }
  rewrite E. unfold getElementById. f_equal.
  by apply found_run.
Qed.

Lemma container_stays_witness :
  fresh_page example_page
  ∧ getElementById "liquid-glass-svg-filters"
      (run example_page
         (example_session ++ [Destroy 0; New (Some 1) None "0.k2j5x9q1w8"]))
    = Ok (Some 2)
         (run example_page
            (example_session ++ [Destroy 0; New (Some 1) None "0.k2j5x9q1w8"])).
Proof.
  assert (H0 : fresh_page example_page).
  { apply (bool_decide_unpack _). vm_compute. exact I. }
  split; [exact H0|].
  refine (container_stays example_page example_session
            [Destroy 0; New (Some 1) None "0.k2j5x9q1w8"] 2 H0 _).
  vm_compute. reflexivity.
Defined.

(** ** When the constructor returns *)

(** X19.  In any session on a fresh page, [new LiquidGlass(el, opts)] on
    an element of the page returns exactly when the container of the
    filters is in the document already or [document.body] is there to
    take a new one; otherwise it throws a [TypeError]. *)
Theorem constructor_returns w0 acts el d opts r :
  fresh_page w0 →
  lookup_node el (run w0 acts) = Some d →
  ((∃ o w1, constructor (Some el) opts r (run w0 acts) = Ok o w1)
   ↔ (∃ c, getElementById "liquid-glass-svg-filters" (run w0 acts)
           = Ok (Some c) (run w0 acts))
     ∨ document_body (run w0 acts)
       = Ok (Some (body (run w0 acts))) (run w0 acts))
  ∧ ((∃ o w1, constructor (Some el) opts r (run w0 acts) = Ok o w1)
     ∨ ∃ w1, constructor (Some el) opts r (run w0 acts) = Throw TypeError w1).
Proof.
  intros H0 Hd.
  pose proof (session_invariant w0 acts H0) as Hw.
  set (w := run w0 acts) in *.
  assert (Hel : el ∈ all_ids w).
  { apply lookup_node_is_Some. by rewrite Hd. }
  assert (Hbody : document_body w = Ok (Some (body w)) w
                  ↔ body w ∈ ids (document w)).
  { unfold document_body.
    destruct (tree_at (body w) (document w)) as [y|] eqn:Ht.
    - split; [|done]. intros _. destruct y as [dy chy].
      apply tree_at_elem in Ht. apply list_elem_of_fmap. by eexists (_, _).
    - split; [done|]. intros Hin. by apply tree_at_None in Ht. }
  unfold getElementById.
  destruct (find_node (has_attribute "id" "liquid-glass-svg-filters")
              (document w)) as [[c dc]|] eqn:Hfind.
  - destruct (attach_is_Some c (next_id w)
                (filter_node (initial_instance el opts r))
                (filter_tree (initial_instance el opts r) (next_id w))
                (modify el addclass (document w))) as [doc' Ha].
    { rewrite ids_modify. apply find_node_elem in Hfind as [Hin _].
      apply list_elem_of_fmap. by exists (c, dc). }
    pose proof (constructor_found w el opts r c dc doc' Hw Hel Hfind Ha) as E.
    split; [|left; by eexists _, _].
    split; [|by eexists _, _]. intros _. left. by exists c.
  - destruct (decide (body w ∈ ids (document w))) as [Hb|Hb].
    + destruct (attach_is_Some (body w) (next_id w) svg_node FNil
                  (modify el addclass (document w))) as [doc1 Ha1].
      { by rewrite ids_modify. }
      destruct (attach_is_Some (next_id w) (S (next_id w))
                  (filter_node (initial_instance el opts r))
                  (filter_tree (initial_instance el opts r) (S (next_id w)))
                  doc1) as [doc2 Ha2].
      { apply attach_perm in Ha1. unfold ids. rewrite Ha1. left. }
      pose proof (constructor_created w el opts r doc1 doc2 Hw Hel Hfind
                    Ha1 Ha2) as E.
      split; [|left; by eexists _, _].
      split; [|by eexists _, _]. intros _. right. by apply Hbody.
    + destruct (constructor_nobody w el opts r Hw Hel Hfind Hb) as [w1 E].
      split; [|right; by exists w1].
      split.
      * intros (o & w2 & E2). congruence.
      * intros [[c Hc]|Hb']; [done|]. by apply Hbody in Hb'.
Qed.

Lemma constructor_returns_witness :
  fresh_page example_page
  ∧ ∃ o w1, constructor (Some 1) None "0.4fzyo82mvyr" (run example_page [])
            = Ok o w1.
Proof.
  assert (H0 : fresh_page example_page).
  { apply (bool_decide_unpack _). vm_compute. exact I. }
  split; [exact H0|].
  assert (Hd : lookup_node 1 (run example_page [])
               = Some (set_rect 50 50
                         (empty_node "http://www.w3.org/1999/xhtml" "div")))
    by (vm_compute; reflexivity).
  destruct (constructor_returns example_page [] 1 _ None "0.4fzyo82mvyr"
              H0 Hd) as [Hiff _].
  apply Hiff. right. vm_compute. reflexivity.
Defined.

(** ** A drag after the element was laid out again *)

Lemma ready_layout o el d s w l t :
  ready o el d s w →
  ready o el (set_rect l t d) s (step w (Layout el l t)).
Proof.
  intros ((x & Ho & Hx & Hs) & Hd & Hl & Hdl). cbn [step].
  assert (Hel : el ∈ all_ids w).
  { apply lookup_node_is_Some. by rewrite Hd. }
  rewrite (update_node_present el _ w Hel). cbn [final].
  unfold ready. split_and!.
  - exists x. by world_simpl.
  - world_simpl. rewrite Hd. cbn [fmap option_fmap option_map].
    by rewrite decide_True.
  - done.
  - by world_simpl.
Qed.

(** X20.  The handlers read the rectangle of the element at pointer-down,
    not at construction: when the host lays the element out at [(l, t)]
    before the press, a move to [(qx, qy)] after a press at [(px, py)]
    declares [left] as [l + (qx - px)] and [top] as [t + (qy - py)]. *)
Theorem drag_after_layout k k' w0 el d0 opts r o w1 l t px py qx qy :
  fresh_page w0 → lookup_node el w0 = Some d0 →
  opt_draggable opts = Some true →
  constructor (Some el) (Some opts) r w0 = Ok o w1 →
  JS.truthy_number px = true → JS.truthy_number py = true →
  JS.truthy_number qx = true → JS.truthy_number qy = true →
  ∃ d3,
    lookup_node el
      (run w1 [Layout el l t;
               ElementEvent el (down_type k) (pointer_at k px py);
               DocumentEvent (move_type k') (pointer_at k' qx qy)])
    = Some d3
    ∧ style d3 !! "position" = Some "absolute"
    ∧ style d3 !! "left" = Some (JS.to_string (l + (qx - px))%float +:+ "px")
    ∧ style d3 !! "top" = Some (JS.to_string (t + (qy - py))%float +:+ "px").
Proof.
  intros H0 Hd0 Hdrag Hc Hpx Hpy Hqx Hqy.
  destruct (ready_constructor w0 el d0 opts r o w1 H0 Hd0 Hdrag Hc)
    as (d1 & Hr1 & _).
  pose proof (ready_layout o el d1 _ w1 l t Hr1) as Hr2.
  pose proof (ready_press o el _ _ _ k (pointer_at k px py) Hr2) as Hr3.
  pose proof (ready_move o el _ _ _ k' (pointer_at k' qx qy) Hr3 eq_refl)
    as Hr4.
  cbn [run fold_left]. change (step ?w (ElementEvent ?n ?ty ?e))
    with (fire_on_element n ty e w).
  change (step ?w (DocumentEvent ?ty ?e)) with (fire_on_document ty e w).
  eexists. split; [apply Hr4|].
  unfold moved, pressed.
  cbn [set_style style compose initialX initialY startX startY set_rect
       rect_left rect_top].
  rewrite !pointer_at_X, !pointer_at_Y by done. cbn [JS.to_number].
  split_and!.
  - rewrite !declare_lookup_ne by done. by rewrite declare_lookup_eq.
  - rewrite declare_lookup_ne by done.
    by rewrite declare_lookup_eq by apply truthy_px.
  - by rewrite declare_lookup_eq by apply truthy_px.
Qed.

Lemma drag_after_layout_witness :
  fresh_page example_page
  ∧ ∃ d3,
      lookup_node 1
        (run draggable_page
           [Layout 1 200 300;
            ElementEvent 1 (down_type ByMouse) (pointer_at ByMouse 100 100);
            DocumentEvent (move_type ByTouch) (pointer_at ByTouch 130 140)])
      = Some d3
      ∧ style d3 !! "position" = Some "absolute"
      ∧ style d3 !! "left"
        = Some (JS.to_string (200 + (130 - 100))%float +:+ "px")
      ∧ style d3 !! "top"
        = Some (JS.to_string (300 + (140 - 100))%float +:+ "px").
Proof.
  assert (H0 : fresh_page example_page).
  { apply (bool_decide_unpack _). vm_compute. exact I. }
  split; [exact H0|].
  refine (drag_after_layout ByMouse ByTouch example_page 1
            (set_rect 50 50 (empty_node "http://www.w3.org/1999/xhtml" "div"))
            draggable_options "0.4fzyo82mvyr" 0 draggable_page
            200 300 100 100 130 140 H0 _ _ _ _ _ _ _).
  - vm_compute. reflexivity.
  - reflexivity.
  - vm_compute. reflexivity.
  - reflexivity.
  - reflexivity.
  - reflexivity.
  - reflexivity.
Defined.
